(* ===== verification/_CoqProject ===== *)
-Q . S2P
Prelude.v
RingBuffer.v
RingConc.v
Inbox.v
InboxConc.v
InboxLive.v
Pid.v
Middleware.v
Opts.v
Trace.v
Registry.v
EventStream.v
World.v
Engine.v
Accounting.v
Teardown.v
Scheduling.v
Settled.v
Futures.v
Lifecycle.v
WellFormed.v
Progress.v
Replies.v
Mailbox.v
Inboxes.v
Calm.v
Contract.v
Pills.v
Released.v
Calls.v
Children.v
Scenarios.v
Executions.v
Probe.v
