(* ===== verification/Prelude.v ===== *)
(** * An in-process actor runtime, verified

    The runtime is a Go module of two packages.  [ringbuffer/ringbuffer.go] is
    a growable multi-producer, single-consumer queue.  [actor/] builds actors on
    it: an inbox ([inbox.go]) owns a queue and starts one processor goroutine
    when a message arrives; a process ([process.go]) receives the batches,
    drives the user's [Receive] through Initialized, Started, user messages and
    Stopped, and restarts it after a panic; the engine ([engine.go]) builds
    processes, keeps them in a registry ([registry.go]), routes messages,
    broadcasts events ([eventstream.go]) and turns a stop request into a pill
    that travels the mailbox.  [context.go] is what [Receive] sees of all this.
    On top of sends and poisons there are requests with a future for the reply
    ([response.go]) and repeated or delayed sends that can be stopped
    ([repeat.go]).  [actortest/probe.go] is an actor that helps tests.

    ** The files

    - [Prelude]: 64- and 32-bit integers with their wrap-around, Go slices with
      run-time panics ([exec]), executable transition systems ([run],
      [reachable]), tactics and shared lemmas.
    - [RingBuffer]: [ringbuffer.go] run by one goroutine.  [RingBuffer.RingBuffer]
      is the struct, one definition per function, refined by a list; the class
      [Queue] is the interface an inbox needs from its queue, [ring_queue] the
      instance.
    - [RingConc]: the same code with one step per shared access, any number of
      producers and one consumer: linearizability, absence of data races,
      absence of panics and deadlock, completion.
    - [Inbox]: [inbox.go] as a transition system over any [Queue]; a goroutine
      is a program counter in [Send], [process] or [run].
    - [InboxConc], [InboxLive]: [inbox.go] on [RingConc], the two components
      interleaved at the grain of memory accesses: it implements [Inbox] on a
      queue that is a list, nobody is stuck, and everything started can end.
    - [Pid], [Opts], [Middleware], [Trace], [Registry], [EventStream]: the pure
      parts, as functions: addresses and ID generation, spawn options, the
      middleware chain, [process.cleanTrace], the registry's map, the
      subscriber table.
    - [World], [Engine]: engine, processes, contexts and their mailboxes as one
      transition system.  A goroutine is a stack of instructions, each one
      access to shared state; calls push instructions, so [Start], [Shutdown],
      [Invoke], [Poison] and the cascade to children read like the Go bodies.
      [Request], its responder and [await], [SendRepeat], [SendAfter] and [Stop]
      are instructions of the same system: a channel is a record field, closing
      it twice is a step that cannot be taken, a timer is a choice.
      User code is a [prog] that calls the package and may panic at any point;
      the states of the receivers are a memory, which it reads and writes
      through pointers, so that a [Receive] that overlaps a restart goes on with
      the receiver it was called on.
    - [Accounting]: sums of weights over all goroutine stacks, and the tactics
      that check an invariant instruction by instruction.
    - [Teardown], [Scheduling], [Settled]: Stopped at most once, no Poison
      waiter lost, one consumer per mailbox, nothing undelivered once the
      goroutines are done.
    - [Futures]: a future is resolved once and for good, a repeater that is done
      sends nothing, single-shot calls send once, nothing is left unresolved.
    - [Lifecycle]: Initialized first, restarts within their budget.
    - [WellFormed], [Progress]: an invariant of the encoding of goroutines, and
      all that a goroutine of the engine can wait for.
    - [Replies]: the result of a request went through its own responder.
    - [Mailbox]: the ring buffer, the batch and the message on its way into
      [Receive] refine one abstract FIFO mailbox of two stages, so messages are
      received in the order in which they were delivered.
    - [Inboxes]: the inbox of every process of the engine runs [Inbox], over any
      implementation of its queue.
    - [Calm], [Contract]: the life of an actor whose [Receive] does not panic,
      and that a [Poison] is graceful: everything queued before the pill is
      received, then Stopped, then nothing.
    - [Pills], [Released]: user code cannot forge a pill, and then the context of
      a [Poison] is done only after the actor has been told Stopped, has given
      its ID back and its inbox has been stopped.
    - [Calls]: sends, broadcasts and poisons end, dead letters included.
    - [Children]: the child set, [Context.Child], and that [iteration] reaches
      every order in which Go can range over a map.
    - [Scenarios], [Executions]: an instance of the user code; the theorems above
      at concrete executions, and executions that show what happens in the
      corners.
    - [Probe]: [actortest/probe.go] as functions over a script of arrivals and
      timers, and a probe spawned in an engine.

    How the parts meet: [Inbox] treats the operations of its queue as atomic,
    and [InboxConc.inbox_on_ring] proves that it may: the inbox on the
    interleaved ring buffer only makes the steps of [Inbox].  Conversely the
    single-consumer premise of [RingConc] is met because [Inbox] has one owner of
    the queue.  [Engine] takes the inbox's steps over a list;
    [Inboxes.engine_runs_inbox] shows that what it does to the inbox of a process
    is an execution of [Inbox], on a ring buffer or any other [Queue], so the
    invariants of [Inbox] hold of every process.  [Engine] uses [Registry],
    [EventStream], [Opts], [Middleware] and [Pid] as they are.
    [Mailbox.mailbox_refines_fifo] closes the circle: what the engine makes of
    all this is again a FIFO queue per actor, and [Contract.lifecycle_contract]
    is what an actor sees of it.

    ** Bounds and fuel

    Cursors and lengths of the ring are 64-bit and wrap.  The theorems assume
    fewer than [2 ^ 62] pushes ([2 ^ 61] under interleaving), which leaves room
    for the doubled sizes; at a push per nanosecond that is seventy years.
    [RingBuffer.copy_loop] has the number of live slots as fuel, which is what
    the loop runs through.  [Lifecycle.restart_budget] assumes fewer than [2 ^ 31] deliveries,
    because the restart counter is an [int32].  The fuel of
    [Scenarios.drive] only selects an execution; what is proved is that the
    actions it lists can be taken.

    ** Interleaving

    Go's atomics and mutexes are sequentially consistent, so an execution is an
    interleaving of steps that touch shared state once.  Every theorem about a
    reachable state quantifies over all interleavings, all user programs and
    all orders of iteration over a map.  [Released] leaves out the user programs
    that send a pill of their own making, which Go's compiler refuses since the
    type is not exported ([Pills.Honest]).

    ** Not modelled

    Time: a timer, a ticker or a restart delay may end at any moment, so an
    interval or a timeout matters only where the code tests it.  In [Engine] a
    parked processor that looks at the queue again sees it as it is; that [Len]
    may still count a batch another [PopN] is taking, and send the processor round
    once more for nothing, is in [Inbox] ([AStale]) and [InboxConc].  Timestamps,
    stack contents, panic values and log records, which no decision depends on.
    The branches of the engine for a missing registry or event stream, which
    only unit tests reach.  Accessors that return a field.  In [actortest], the
    text of failures; [reflect.DeepEqual] and [reflect.TypeOf] are parameters.

    Memory is unbounded: [make] and [append] do not run out of it, whatever the
    length.  A Producer is what [receiver.go] asks for, the constructor of a new
    receiver ([UserCode]): one that panics, blocks or calls the engine is left
    out.  A panic in a Producer would not be recovered where [tryRestart] runs it,
    outside of the [recover] of [invokeMsg], and on a processor goroutine it would
    end the program. *)

From stdpp Require Export base numbers list strings gmap.
From Stdlib Require Export ZArith Lia.

#[global] Set Default Goal Selector "!".

Declare Scope go_scope.
Delimit Scope go_scope with go.
Open Scope go_scope.
Open Scope Z_scope.

(** ** Machine integers

    A signed [w]-bit integer is the [Z] it denotes; every arithmetic result of
    the code is passed through the wrap-around of its width. *)

Definition wrap_signed (w z : Z) : Z := (z + 2 ^ (w - 1)) `mod` 2 ^ w - 2 ^ (w - 1).
Definition i64 (z : Z) : Z := wrap_signed 64 z.
Definition i32 (z : Z) : Z := wrap_signed 32 z.
Definition u64 (z : Z) : Z := z `mod` 2 ^ 64.

(** [math/bits.Len64]: the number of bits needed to write [x]. *)
Definition bits_Len64 (x : Z) : Z := if x =? 0 then 0 else Z.log2 x + 1.

(** ** Faults

    A Go computation ends with a value, with a run-time panic (an index or a
    length out of range), or it never ends because it spins on a flag nobody
    else will change. *)

Inductive exec (A : Type) : Type :=
  | Ok (a : A)
  | Panics
  | Spins.
Arguments Ok {A} a.
Arguments Panics {A}.
Arguments Spins {A}.

#[export] Instance exec_ret : MRet exec := fun A a => Ok a.
#[export] Instance exec_bind : MBind exec := fun A B f m =>
  match m with
  | Ok a => f a
  | Panics => Panics
  | Spins => Spins
  end.

(** ** Slices

    Indices are [int64]s: a negative one panics like one past the end. *)

Section slices.
Context {A : Type}.
Implicit Types (l src dst : list A) (i a b : Z).

Definition slen l : Z := Z.of_nat (length l).

(** [make([]T, n)] with [zero] the zero value of [T]. *)
Definition makeslice (zero : A) (n : Z) : exec (list A) :=
  if 0 <=? n then Ok (replicate (Z.to_nat n) zero) else Panics.

(** [l[i]] *)
Definition index l i : exec A :=
  if (0 <=? i) && (i <? slen l)
  then match l !! Z.to_nat i with Some x => Ok x | None => Panics end
  else Panics.

(** [l[i] = x] *)
Definition store l i (x : A) : exec (list A) :=
  if (0 <=? i) && (i <? slen l) then Ok (<[Z.to_nat i := x]> l) else Panics.

(** [l[a:b]], as the list of its elements. *)
Definition subslice l a b : exec (list A) :=
  if (0 <=? a) && (a <=? b) && (b <=? slen l)
  then Ok (take (Z.to_nat (b - a)) (drop (Z.to_nat a) l)) else Panics.

(** [copy(dst[a:], src)]: as many elements as fit. *)
Definition copy_at dst a src : exec (list A) :=
  if (0 <=? a) && (a <=? slen dst)
  then
    let n := Nat.min (length dst - Z.to_nat a) (length src) in
    Ok (take (Z.to_nat a) dst ++ take n src ++ drop (Z.to_nat a + n) dst)
  else Panics.

(** [clear(l[a:b])] *)
Definition clear_range (zero : A) l a b : exec (list A) :=
  if (0 <=? a) && (a <=? b) && (b <=? slen l)
  then Ok (take (Z.to_nat a) l ++ replicate (Z.to_nat (b - a)) zero ++ drop (Z.to_nat b) l)
  else Panics.
End slices.

(** ** Executable transition systems

    A machine is a partial function: [step a s] is the state after action [a]
    of some goroutine (or of the environment) in state [s], [None] when the
    action is not enabled.  A run is a list of actions, so an interleaving is
    a value the kernel can evaluate. *)

Section machine.
Context {St Act : Type} (step : Act -> St -> option St).

Fixpoint run (l : list Act) (s : St) : option St :=
  match l with
  | [] => Some s
  | a :: l => s' ← step a s; run l s'
  end.

Definition reachable (s0 s : St) : Prop := exists l, run l s0 = Some s.
End machine.

(** ** Tactics and hints *)

Create HintDb actor.

(** Case analysis on the tests of the code, with the Booleans reflected. *)
Ltac reflect_bools :=
  repeat match goal with
  | H : (_ && _) = true |- _ => apply andb_true_iff in H as [? ?]
  | H : (_ || _) = false |- _ => apply orb_false_iff in H as [? ?]
  | H : (_ <=? _)%Z = true |- _ => apply Z.leb_le in H
  | H : (_ <=? _)%Z = false |- _ => apply Z.leb_gt in H
  | H : (_ <? _)%Z = true |- _ => apply Z.ltb_lt in H
  | H : (_ <? _)%Z = false |- _ => apply Z.ltb_ge in H
  | H : (_ =? _)%Z = true |- _ => apply Z.eqb_eq in H
  | H : (_ =? _)%Z = false |- _ => apply Z.eqb_neq in H
  | H : negb _ = true |- _ => apply negb_true_iff in H
  | H : negb _ = false |- _ => apply negb_false_iff in H
  end.

(** Contradictory tests. *)
Ltac lia_bool :=
  repeat match goal with
  | H : (_ && _) = false |- _ => apply andb_false_iff in H as [H|H]
  end; reflect_bools; lia.

(** One test of the goal's program, both ways. *)
Ltac split_test :=
  match goal with
  | |- context [if ?b then _ else _] => destruct b eqn:?
  end; reflect_bools.

(** Run an enabled step backwards: split the matches and tests of [H]. *)
Ltac invert_step H :=
  repeat (simplify_option_eq; try case_match; simplify_eq); reflect_bools.

(** ** Lemmas on machine integers *)

Lemma wrap_signed_id w z :
  0 < w -> - 2 ^ (w - 1) <= z < 2 ^ (w - 1) -> wrap_signed w z = z.
Proof.
  intros Hw Hz. unfold wrap_signed.
  assert (2 ^ w = 2 * 2 ^ (w - 1)) as E.
  { rewrite <- Z.pow_succ_r by lia. f_equal. lia. }
  rewrite Z.mod_small; lia.
Qed.

Lemma wrap_signed_range w z :
  0 < w -> - 2 ^ (w - 1) <= wrap_signed w z < 2 ^ (w - 1).
Proof.
  intros Hw. unfold wrap_signed.
  assert (2 ^ w = 2 * 2 ^ (w - 1)) as E.
  { rewrite <- Z.pow_succ_r by lia. f_equal. lia. }
  pose proof (Z.mod_pos_bound (z + 2 ^ (w - 1)) (2 ^ w)). lia.
Qed.

Lemma i64_id z : - 2 ^ 63 <= z < 2 ^ 63 -> i64 z = z.
Proof. intros. by apply wrap_signed_id. Qed.

Lemma i32_id z : - 2 ^ 31 <= z < 2 ^ 31 -> i32 z = z.
Proof. intros. by apply wrap_signed_id. Qed.

Lemma u64_id z : 0 <= z < 2 ^ 64 -> u64 z = z.
Proof. intros. by apply Z.mod_small. Qed.

(** Remove the wrap-arounds whose argument [lia] can bound. *)
Ltac unwrap :=
  repeat match goal with
  | |- context [i64 ?z] => rewrite (i64_id z) by lia
  | |- context [i32 ?z] => rewrite (i32_id z) by lia
  | |- context [u64 ?z] => rewrite (u64_id z) by lia
  | H : context [i64 ?z] |- _ => rewrite (i64_id z) in H by lia
  | H : context [i32 ?z] |- _ => rewrite (i32_id z) in H by lia
  end.

(** ** Lemmas on slices *)

Section slice_lemmas.
Context {A : Type}.
Implicit Types (l pre post src : list A) (a b : Z).

Lemma slen_nonneg l : 0 <= slen l.
Proof. unfold slen. lia. Qed.

Lemma slen_snoc l x : slen (l ++ [x]) = slen l + 1.
Proof. unfold slen. rewrite length_app. simpl. lia. Qed.

Lemma makeslice_ok (zero : A) n :
  0 <= n -> makeslice zero n = Ok (replicate (Z.to_nat n) zero).
Proof. intros. unfold makeslice. split_test; [done|lia]. Qed.

Lemma subslice_ok l a b :
  0 <= a <= b -> b <= slen l ->
  subslice l a b = Ok (take (Z.to_nat (b - a)) (drop (Z.to_nat a) l)).
Proof. intros. unfold subslice. rewrite !(proj2 (Z.leb_le _ _)) by lia. done. Qed.

(** A copy into the tail of a slice that it fills exactly or partly. *)
Lemma copy_at_ok pre post src a :
  a = slen pre -> (length src <= length post)%nat ->
  copy_at (pre ++ post) a src = Ok (pre ++ src ++ drop (length src) post).
Proof.
  intros -> Hl. unfold copy_at, slen. rewrite length_app.
  split_test; [|exfalso; lia_bool].
  replace (_ `min` _)%nat with (length src) by lia.
  rewrite Nat2Z.id, take_app_length, take_ge, drop_app, drop_ge by lia.
  simpl. do 4 f_equal. lia.
Qed.

Lemma clear_range_ok (zero : A) l a b :
  0 <= a <= b -> b <= slen l ->
  exists l', clear_range zero l a b = Ok l' /\ slen l' = slen l /\
    (forall j, a <= Z.of_nat j < b -> l' !! j = Some zero) /\
    (forall j, ~ a <= Z.of_nat j < b -> l' !! j = l !! j).
Proof.
  intros. unfold clear_range. rewrite !(proj2 (Z.leb_le _ _)) by lia.
  eexists. split; [done|]. unfold slen in *.
  split; [rewrite !length_app, length_replicate, length_take, length_drop; lia|].
  split; intros j Hj.
  - rewrite lookup_app_r by (rewrite length_take; lia).
    rewrite lookup_app_l by (rewrite length_take, length_replicate; lia).
    apply lookup_replicate_2. rewrite length_take. lia.
  - destruct (decide (Z.of_nat j < a)).
    + rewrite lookup_app_l by (rewrite length_take; lia). apply lookup_take_lt. lia.
    + rewrite lookup_app_r by (rewrite length_take; lia).
      rewrite lookup_app_r by (rewrite length_take, length_replicate; lia).
      rewrite lookup_drop, length_take, length_replicate. f_equal. lia.
Qed.
End slice_lemmas.

(** ** Sums over a list updated in place *)

Section sums.
Context {A : Type}.
Implicit Types (f g : A -> nat) (l : list A).

Lemma sum_list_insert f l i x x' :
  l !! i = Some x ->
  (sum_list_with f (<[i:=x']> l) + f x = sum_list_with f l + f x')%nat.
Proof.
  revert i. induction l as [|y l IH]; intros [|i] H; simplify_eq/=; [lia|].
  specialize (IH i H). lia.
Qed.

Lemma sum_list_mono f g l :
  (forall x, (f x <= g x)%nat) -> (sum_list_with f l <= sum_list_with g l)%nat.
Proof. intros H. induction l as [|x l IH]; simpl; [done|]. specialize (H x). lia. Qed.

Lemma sum_list_one f l i x : l !! i = Some x -> (f x <= sum_list_with f l)%nat.
Proof. revert i. induction l as [|y l IH]; intros [|i] H; simplify_eq/=; [lia|]. specialize (IH i H). lia. Qed.

(** When the sum is at most one, one element accounts for it. *)
Lemma sum_list_unique f l i j x y :
  (sum_list_with f l <= 1)%nat -> l !! i = Some x -> l !! j = Some y -> f x = 1%nat -> f y = 1%nat -> i = j.
Proof.
  revert i j. induction l as [|z l IH]; intros [|i] [|j] Hs Hi Hj Hx Hy; simplify_eq/=; [done|..].
  - pose proof (sum_list_one f l j y Hj). lia.
  - pose proof (sum_list_one f l i x Hi). lia.
  - f_equal. apply IH; [lia|done..].
Qed.

Lemma sum_list_zero f l :
  sum_list_with f l = 0%nat -> forall i x, l !! i = Some x -> f x = 0%nat.
Proof.
  intros H i x. revert i. induction l as [|y l IH]; intros [|i] Hi; simplify_eq/=; [lia|].
  eapply IH; eauto with lia.
Qed.
End sums.

Lemma list_lookup_alter_Some {A} (f : A -> A) (l : list A) i j x :
  alter f i l !! j = Some x ->
  (i = j /\ exists y, l !! j = Some y /\ x = f y) \/ (i <> j /\ l !! j = Some x).
Proof.
  rewrite list_lookup_alter. case_decide as E; [subst j|by right].
  intros H. left. split; [done|]. destruct (l !! i); simplify_eq/=. eauto.
Qed.

(** ** Lexicographic measures *)

Section lex.
Context {A : Type}.
Implicit Types (f : A -> nat) (R : A -> A -> Prop) (x y : A).

(** [f] decreases, or it stays and [R] holds. *)
Definition lex f R x y : Prop := (f x < f y)%nat \/ f x = f y /\ R x y.

Lemma lex_wf f R : well_founded R -> well_founded (lex f R).
Proof.
  intros HR x. remember (f x) as n eqn:Hn. revert x Hn.
  induction (lt_wf n) as [n _ IHn]. intros x. induction (HR x) as [x _ IHx]. intros ->.
  constructor. intros y [Hlt|[He Hy]]; [by apply (IHn (f y))|by apply IHx].
Qed.

Lemma ltof_wf f : well_founded (ltof A f).
Proof. apply well_founded_ltof. Qed.
End lex.

(** ** Lemmas on runs *)

Section machine_lemmas.
Context {St Act : Type} (step : Act -> St -> option St).

Lemma run_app l1 l2 s :
  run step (l1 ++ l2) s = (s' ← run step l1 s; run step l2 s').
Proof.
  revert s. induction l1 as [|a l1 IH]; intros s; simpl; [done|].
  destruct (step a s); simpl; auto.
Qed.

Lemma run_invariant (I : St -> Prop) :
  (forall a s s', I s -> step a s = Some s' -> I s') ->
  forall l s s', I s -> run step l s = Some s' -> I s'.
Proof.
  intros Hstep l. induction l as [|a l IH]; intros s s' HI; simpl.
  - intros [= <-]. done.
  - destruct (step a s) eqn:E; simpl; [|done]. eauto.
Qed.

Lemma reachable_refl s : reachable step s s.
Proof. by exists []. Qed.

Lemma reachable_trans s1 s2 s3 :
  reachable step s1 s2 -> reachable step s2 s3 -> reachable step s1 s3.
Proof. intros [l1 H1] [l2 H2]. exists (l1 ++ l2). by rewrite run_app, H1. Qed.

Lemma reachable_step a s s' : step a s = Some s' -> reachable step s s'.
Proof. intros H. exists [a]. simpl. by rewrite H. Qed.

Lemma reachable_invariant (I : St -> Prop) s0 s :
  (forall a s s', I s -> step a s = Some s' -> I s') ->
  I s0 -> reachable step s0 s -> I s.
Proof. intros Hstep H0 [l Hl]. by eapply run_invariant. Qed.
End machine_lemmas.

#[export] Hint Resolve reachable_refl reachable_step : actor.
