(* ===== verification/RingBuffer.v ===== *)
(** * The ring buffer, run by one goroutine at a time

    [ringbuffer/ringbuffer.go]: the backing array ([buffer]), the cursors and
    flags ([RingBuffer]), and the operations [New], [Push], [Pop], [PopN] and
    [Len] with their helpers [grow], [enterConsumer], [leaveConsumer] and
    [roundUpPow2], each executed without interleaving.  [RingConc] interleaves
    the same steps.

    The invariant [wf] says that the live items are the slots of the window
    [head, tail) and that every other slot holds the zero value; [contents] is
    the abstract queue.  [Queue] at the end is the interface the rest of the
    development uses. *)

From S2P Require Import Prelude.

(** ** Size rounding *)

Definition minSize : Z := 2.
Definition maxSize : Z := Z.shiftl 1 62.

Definition roundUpPow2 (size : Z) : Z :=
  if size <=? minSize then minSize
  else if maxSize <=? size then maxSize
  else if Z.land size (i64 (size - 1)) =? 0 then size
  else i64 (Z.shiftl 1 (bits_Len64 (u64 (i64 (size - 1))))).

(** ** Data *)

Record buffer (T : Type) := Buffer { items : list T; mask : Z }.
Arguments Buffer {T} items mask.
Arguments items {T} b.
Arguments mask {T} b.

(** The mutex [mu] is only visible to interleavings: see [RingConc]. *)
Record RingBuffer (T : Type) := Ring {
  rb_content : buffer T;
  rb_head : Z;
  rb_tail : Z;
  rb_length : Z;
  rb_growing : bool;
  rb_popping : bool;
}.
Arguments Ring {T}.
Arguments rb_content {T} r.
Arguments rb_head {T} r.
Arguments rb_tail {T} r.
Arguments rb_length {T} r.
Arguments rb_growing {T} r.
Arguments rb_popping {T} r.

Section ring.
Context {T : Type} (zero : T).
Implicit Types (b old : buffer T) (rb : RingBuffer T) (x : T) (i n h t k : Z).

Definition set_content b rb : RingBuffer T :=
  Ring b (rb_head rb) (rb_tail rb) (rb_length rb) (rb_growing rb) (rb_popping rb).
Definition set_head h rb : RingBuffer T :=
  Ring (rb_content rb) h (rb_tail rb) (rb_length rb) (rb_growing rb) (rb_popping rb).
Definition set_tail t rb : RingBuffer T :=
  Ring (rb_content rb) (rb_head rb) t (rb_length rb) (rb_growing rb) (rb_popping rb).
Definition add_length n rb : RingBuffer T :=
  Ring (rb_content rb) (rb_head rb) (rb_tail rb) (i64 (rb_length rb + n)) (rb_growing rb) (rb_popping rb).
Definition set_growing (f : bool) rb : RingBuffer T :=
  Ring (rb_content rb) (rb_head rb) (rb_tail rb) (rb_length rb) f (rb_popping rb).
Definition set_popping (f : bool) rb : RingBuffer T :=
  Ring (rb_content rb) (rb_head rb) (rb_tail rb) (rb_length rb) (rb_growing rb) f.

(** ** Operations *)

Definition New (size : Z) : exec (RingBuffer T) :=
  let size := roundUpPow2 size in
  its ← makeslice zero size;
  Ok (Ring (Buffer its (i64 (size - 1))) 0 0 0 false false).

(** [for i := head; i < tail; i++ { items[i&mask] = old.items[i&old.mask] }] *)
Fixpoint copy_loop (fuel : nat) old (new : list T) (mask' i t : Z) : exec (list T) :=
  if i <? t then
    match fuel with
    | O => Spins
    | S fuel =>
        x ← index (items old) (Z.land i (mask old));
        new ← store new (Z.land i mask') x;
        copy_loop fuel old new mask' (i64 (i + 1)) t
    end
  else Ok new.

(** The part of [grow] after the handshake that replaces the array. *)
Definition double old h t : exec (buffer T) :=
  let size := i64 (i64 (mask old + 1) * 2) in
  new ← makeslice zero size;
  let mask' := i64 (size - 1) in
  its ← copy_loop (Z.to_nat (t - h)) old new mask' h t;
  Ok (Buffer its mask').

Definition grow old t rb : exec (buffer T * RingBuffer T) :=
  let rb := set_growing true rb in
  if rb_popping rb then Spins else
  let h := rb_head rb in
  if i64 (t - h) <=? mask old then Ok (old, set_growing false rb) else
  b ← double old h t;
  Ok (b, set_growing false (set_content b rb)).

Definition Push x rb : exec (bool * RingBuffer T) :=
  let b := rb_content rb in
  let t := rb_tail rb in
  r ← (if mask b <? i64 (t - rb_head rb) then grow b t rb else Ok (b, rb));
  let '(b, rb) := r in
  its ← store (items b) (Z.land t (mask b)) x;
  let rb := set_content (Buffer its (mask b)) rb in
  Ok (true, add_length 1 (set_tail (i64 (t + 1)) rb)).

Definition enterConsumer rb : exec (RingBuffer T) :=
  let rb := set_popping true rb in
  if negb (rb_growing rb) then Ok rb else Spins.

Definition leaveConsumer rb : RingBuffer T := set_popping false rb.

Definition Pop rb : exec ((T * bool) * RingBuffer T) :=
  if rb_length rb =? 0 then Ok ((zero, false), rb) else
  rb ← enterConsumer rb;
  let b := rb_content rb in
  let h := rb_head rb in
  let slot := Z.land h (mask b) in
  item ← index (items b) slot;
  its ← store (items b) slot zero;
  let rb := set_content (Buffer its (mask b)) rb in
  let rb := set_head (i64 (h + 1)) (add_length (-1) rb) in
  Ok ((item, true), leaveConsumer rb).

(** The data movement of [PopN]: copy the batch into the freshly made [its] and
    clear its slots, first up to the end of the array, then from its start. *)
Definition drain (its : list T) b h n : exec (list T * buffer T) :=
  let start := Z.land h (mask b) in
  let first := Z.min n (i64 (i64 (mask b + 1) - start)) in
  seg ← subslice (items b) start (i64 (start + first));
  its ← copy_at its 0 seg;
  arr ← clear_range zero (items b) start (i64 (start + first));
  let rest := i64 (n - first) in
  if 0 <? rest then
    seg ← subslice arr 0 rest;
    its ← copy_at its first seg;
    arr ← clear_range zero arr 0 rest;
    Ok (its, Buffer arr (mask b))
  else Ok (its, Buffer arr (mask b)).

Definition PopN n rb : exec ((list T * bool) * RingBuffer T) :=
  if n <=? 0 then Ok (([], false), rb) else
  let queued := rb_length rb in
  if queued =? 0 then Ok (([], false), rb) else
  let n := Z.min n queued in
  its ← makeslice zero n;
  rb ← enterConsumer rb;
  let h := rb_head rb in
  r ← drain its (rb_content rb) h n;
  let '(its, b) := r in
  let rb := set_content b rb in
  let rb := set_head (i64 (h + n)) (add_length (i64 (- n)) rb) in
  Ok ((its, true), leaveConsumer rb).

Definition Len rb : Z := rb_length rb.

(** ** Invariant and abstract queue *)

Definition get b i : option T := items b !! Z.to_nat (Z.land i (mask b)).

(** The items at the absolute indices [lo, lo + n). *)
Fixpoint window b (lo : Z) (n : nat) : list T :=
  match n with
  | O => []
  | S n => default zero (get b lo) :: window b (lo + 1) n
  end.

Record buf_ok k b : Prop := BufOk {
  bo_k : 1 <= k <= 62;
  bo_mask : mask b = 2 ^ k - 1;
  bo_len : slen (items b) = 2 ^ k;
}.

Record wf_at k rb : Prop := WfAt {
  wf_buf : buf_ok k (rb_content rb);
  wf_head : 0 <= rb_head rb <= rb_tail rb;
  wf_room : rb_tail rb - rb_head rb <= 2 ^ k;
  wf_tail : rb_tail rb <= 2 ^ 62;
  wf_length : rb_length rb = rb_tail rb - rb_head rb;
  wf_growing : rb_growing rb = false;
  wf_popping : rb_popping rb = false;
  wf_free : forall i, rb_tail rb <= i < rb_head rb + 2 ^ k ->
            get (rb_content rb) i = Some zero;
}.
Definition wf rb : Prop := exists k, wf_at k rb.

Definition contents rb : list T :=
  window (rb_content rb) (rb_head rb) (Z.to_nat (rb_tail rb - rb_head rb)).

(** ** Slots *)

Lemma cap_bounds k b : buf_ok k b -> 2 <= 2 ^ k <= 2 ^ 62.
Proof.
  intros [? _ _]. split; [|by apply Z.pow_le_mono_r; lia].
  change 2 with (2 ^ 1) at 1. apply Z.pow_le_mono_r; lia.
Qed.

Lemma slot_mod k b i : buf_ok k b -> Z.land i (mask b) = i `mod` 2 ^ k.
Proof.
  intros [? -> _]. rewrite <- Z.land_ones by lia.
  f_equal. rewrite Z.ones_equiv. lia.
Qed.

Lemma slot_range k b i : buf_ok k b -> 0 <= Z.land i (mask b) < 2 ^ k.
Proof.
  intros Hb. rewrite (slot_mod k) by done. pose proof (cap_bounds _ _ Hb).
  apply Z.mod_pos_bound. lia.
Qed.

Lemma mod_inj c i j : 0 < c -> - c < i - j < c -> i `mod` c = j `mod` c -> i = j.
Proof.
  intros. pose proof (Z.div_mod i c). pose proof (Z.div_mod j c).
  assert (c * (i `div` c - j `div` c) = i - j) by lia.
  assert (i `div` c - j `div` c = 0) by nia. lia.
Qed.

Lemma get_some k b i : buf_ok k b -> is_Some (get b i).
Proof.
  intros Hb. unfold get. apply lookup_lt_is_Some. pose proof (slot_range k b i Hb).
  pose proof (bo_len _ _ Hb). unfold slen in *. lia.
Qed.

Lemma get_mod k b i : buf_ok k b -> get b i = items b !! Z.to_nat (i `mod` 2 ^ k).
Proof. intros Hb. unfold get. by rewrite (slot_mod k). Qed.

Lemma get_period k b i : buf_ok k b -> get b (i + 2 ^ k) = get b i.
Proof.
  intros Hb. rewrite !(get_mod k) by done. pose proof (cap_bounds _ _ Hb).
  do 2 f_equal. rewrite <- (Z.mul_1_l (2 ^ k)) at 1. by rewrite Z.mod_add by lia.
Qed.

Lemma index_ok k b i :
  buf_ok k b -> exists x, index (items b) (Z.land i (mask b)) = Ok x /\ get b i = Some x.
Proof.
  intros Hb. destruct (get_some k b i Hb) as [x Hx]. exists x. split; [|done].
  unfold index. unfold get in Hx. rewrite Hx.
  pose proof (slot_range k b i Hb). rewrite (bo_len k b Hb).
  split_test; [done|lia].
Qed.

Lemma store_ok k b i x :
  buf_ok k b ->
  exists its, store (items b) (Z.land i (mask b)) x = Ok its /\
    buf_ok k (Buffer its (mask b)) /\
    get (Buffer its (mask b)) i = Some x /\
    forall j, j `mod` 2 ^ k <> i `mod` 2 ^ k -> get (Buffer its (mask b)) j = get b j.
Proof.
  intros Hb. pose proof (slot_range k b i Hb) as Hr. pose proof (cap_bounds _ _ Hb).
  assert (buf_ok k (Buffer (<[Z.to_nat (Z.land i (mask b)) := x]> (items b)) (mask b))) as Hb'.
  { destruct Hb as [? ? Hl]. split; [done..|]. simpl. unfold slen in *. by rewrite length_insert. }
  exists (<[Z.to_nat (Z.land i (mask b)) := x]> (items b)).
  unfold store. rewrite (bo_len _ _ Hb). split_test; [|lia].
  split; [done|]. split; [done|]. split.
  - unfold get. simpl. apply list_lookup_insert_eq.
    pose proof (bo_len _ _ Hb). unfold slen in *. lia.
  - intros j Hj. unfold get. simpl. apply list_lookup_insert_ne.
    rewrite !(slot_mod k) in * by done.
    pose proof (Z.mod_pos_bound j (2 ^ k)). lia.
Qed.

(** ** Windows *)

Lemma window_length b lo (n : nat) : length (window b lo n) = n.
Proof. revert lo. induction n; intros; simpl; auto. Qed.

Lemma window_app b lo (n : nat) (m : nat) :
  window b lo (n + m) = window b lo n ++ window b (lo + Z.of_nat n) m.
Proof.
  revert lo. induction n as [|n IH]; intros lo; simpl.
  - by rewrite Z.add_0_r.
  - rewrite IH. do 3 f_equal. lia.
Qed.

Lemma window_ext b b' lo (n : nat) :
  (forall i, lo <= i < lo + Z.of_nat n -> get b i = get b' i) ->
  window b lo n = window b' lo n.
Proof.
  revert lo. induction n as [|n IH]; intros lo H; simpl; [done|].
  rewrite H by lia. f_equal. apply IH. intros. apply H. lia.
Qed.

Lemma window_snoc b lo (n : nat) :
  window b lo (S n) = window b lo n ++ [default zero (get b (lo + Z.of_nat n))].
Proof. rewrite <- Nat.add_1_r, window_app. done. Qed.

Lemma window_take b lo (n : nat) (m : nat) : (m <= n)%nat -> take m (window b lo n) = window b lo m.
Proof.
  intros. replace n with (m + (n - m))%nat by lia.
  rewrite window_app, take_app_length'; [done|]. by rewrite window_length.
Qed.

Lemma window_drop b lo (n : nat) (m : nat) :
  (m <= n)%nat -> drop m (window b lo n) = window b (lo + Z.of_nat m) (n - m).
Proof.
  intros. replace n with (m + (n - m))%nat at 1 by lia.
  rewrite window_app, drop_app_length'; [done|]. by rewrite window_length.
Qed.

Lemma window_lookup b lo (n : nat) (j : nat) :
  (j < n)%nat -> window b lo n !! j = Some (default zero (get b (lo + Z.of_nat j))).
Proof.
  revert lo j. induction n as [|n IH]; intros lo j Hj; [lia|].
  destruct j as [|j]; simpl.
  - by rewrite Z.add_0_r.
  - rewrite IH by lia. do 3 f_equal. lia.
Qed.

(** Up to the end of the array a window is a contiguous segment. *)
Lemma window_segment k b lo (n : nat) :
  buf_ok k b -> lo `mod` 2 ^ k + Z.of_nat n <= 2 ^ k ->
  take n (drop (Z.to_nat (lo `mod` 2 ^ k)) (items b)) = window b lo n.
Proof.
  intros Hb Hn. pose proof (cap_bounds _ _ Hb).
  pose proof (Z.mod_pos_bound lo (2 ^ k)). pose proof (bo_len _ _ Hb) as Hl. unfold slen in Hl.
  apply list_eq_same_length with n.
  - by rewrite window_length.
  - rewrite length_take, length_drop. lia.
  - intros i y z Hi Hy Hz. rewrite window_lookup in Hz by lia. simplify_eq.
    rewrite lookup_take_lt, lookup_drop in Hy by lia.
    rewrite (get_mod k) by done.
    replace ((lo + Z.of_nat i) `mod` 2 ^ k) with (lo `mod` 2 ^ k + Z.of_nat i); cycle 1.
    { rewrite <- (Z.mod_small (lo `mod` 2 ^ k + Z.of_nat i) (2 ^ k)) by lia.
      by rewrite Zplus_mod_idemp_l. }
    replace (Z.to_nat (lo `mod` 2 ^ k + Z.of_nat i)) with (Z.to_nat (lo `mod` 2 ^ k) + i)%nat by lia.
    by rewrite Hy.
Qed.

(** ** The growing copy *)

Lemma copy_loop_ok fuel k k' old (nb : buffer T) (i t : Z) :
  buf_ok k old -> buf_ok k' nb ->
  t - i <= Z.of_nat fuel -> 0 <= i <= t -> t < 2 ^ 62 + 1 -> t - i <= 2 ^ k' ->
  exists its, copy_loop fuel old (items nb) (mask nb) i t = Ok its /\
    buf_ok k' (Buffer its (mask nb)) /\
    (forall j, i <= j < t -> get (Buffer its (mask nb)) j = get old j) /\
    (forall j, t <= j < i + 2 ^ k' -> get (Buffer its (mask nb)) j = get nb j).
Proof.
  intros Ho. pose proof (cap_bounds k old Ho).
  revert nb i. induction fuel as [|fuel IH]; intros nb i Hn Hf Hi Ht Hc; simpl.
  - split_test; [lia|]. exists (items nb). destruct nb; simpl.
    do 2 (split; [done|]). split; intros; [lia|done].
  - split_test; cycle 1.
    { exists (items nb). destruct nb; simpl. do 2 (split; [done|]). split; intros; [lia|done]. }
    destruct (index_ok k old i Ho) as (x & -> & Hx). simpl.
    destruct (store_ok k' nb i x Hn) as (its & -> & Hb & Hsame & Hother). simpl. unwrap.
    destruct (IH (Buffer its (mask nb)) (i + 1)) as (its' & E & Hb' & Hlive & Hfree); simpl;
      [done|lia..|].
    simpl in *. exists its'. split; [done|]. split; [done|]. pose proof (cap_bounds _ _ Hn).
    split; intros j Hj.
    + destruct (decide (j = i)) as [->|]; [|apply Hlive; lia].
      rewrite <- (get_period k' _ i Hb'), Hfree by lia.
      rewrite (get_period k' _ i Hb). congruence.
    + rewrite Hfree by lia. apply Hother. intros Hm. apply mod_inj in Hm; lia.
Qed.

Lemma new_buf_ok k :
  1 <= k <= 62 -> buf_ok k (Buffer (replicate (Z.to_nat (2 ^ k)) zero) (2 ^ k - 1)).
Proof.
  intros. split; [done..|]. simpl. unfold slen. rewrite length_replicate.
  pose proof (Z.pow_pos_nonneg 2 k). lia.
Qed.

Lemma new_buf_get k i :
  1 <= k <= 62 -> get (Buffer (replicate (Z.to_nat (2 ^ k)) zero) (2 ^ k - 1)) i = Some zero.
Proof.
  intros Hk. rewrite (get_mod k) by by apply new_buf_ok. simpl.
  apply lookup_replicate_2. pose proof (Z.mod_pos_bound i (2 ^ k)). lia.
Qed.

(** [grow] doubles the array, keeps the live items and leaves the rest zero. *)
Lemma double_ok k old h t :
  buf_ok k old -> k < 62 -> 0 <= h <= t -> t <= 2 ^ 62 -> t - h <= 2 ^ k ->
  exists b, double old h t = Ok b /\ buf_ok (k + 1) b /\
    (forall j, h <= j < t -> get b j = get old j) /\
    (forall j, t <= j < h + 2 ^ (k + 1) -> get b j = Some zero).
Proof.
  intros Ho Hk Hh Ht Hn. pose proof (bo_k _ _ Ho). pose proof (cap_bounds _ _ Ho).
  assert (2 ^ (k + 1) = 2 * 2 ^ k) as E by (rewrite Z.pow_add_r by lia; lia).
  assert (2 ^ (k + 1) <= 2 ^ 62) by (apply Z.pow_le_mono_r; lia).
  unfold double. rewrite (bo_mask _ _ Ho). unwrap.
  replace ((2 ^ k - 1 + 1) * 2) with (2 ^ (k + 1)) by lia.
  rewrite makeslice_ok by lia. simpl. unwrap.
  pose proof (new_buf_ok (k + 1) ltac:(lia)) as Hb.
  destruct (copy_loop_ok (Z.to_nat (t - h)) k (k + 1) old _ h t Ho Hb)
    as (its & E' & Hb' & Hlive & Hfree); [lia..|]. simpl in E'. rewrite E'.
  simpl. exists (Buffer its (2 ^ (k + 1) - 1)). split; [done|]. split; [done|].
  split; [done|]. intros j Hj. rewrite Hfree by lia. apply new_buf_get. lia.
Qed.

(** ** The batch copy *)

Lemma get_clear k b (its : list T) (a c : Z) j :
  buf_ok k b ->
  slen its = slen (items b) ->
  (forall j, a <= Z.of_nat j < c -> its !! j = Some zero) ->
  (forall j, ~ a <= Z.of_nat j < c -> its !! j = items b !! j) ->
  get (Buffer its (mask b)) j = if decide (a <= j `mod` 2 ^ k < c) then Some zero else get b j.
Proof.
  intros Hb Hl Hin Hout. pose proof (cap_bounds _ _ Hb).
  pose proof (Z.mod_pos_bound j (2 ^ k)).
  assert (buf_ok k (Buffer its (mask b))) by (destruct Hb; split; simpl; congruence).
  rewrite !(get_mod k) by done. simpl. case_decide; [apply Hin|apply Hout]; lia.
Qed.

Lemma mod_shift c h d :
  0 <= d < c ->
  (h + d) `mod` c = if decide (h `mod` c + d < c) then h `mod` c + d else h `mod` c + d - c.
Proof.
  intros Hd. pose proof (Z.mod_pos_bound h c). rewrite <- Zplus_mod_idemp_l.
  case_decide; [by apply Z.mod_small; lia|].
  rewrite <- (Z.mod_small (h `mod` c + d - c) c) by lia.
  rewrite <- (Z_mod_plus_full (h `mod` c + d - c) 1 c). f_equal. lia.
Qed.

(** The slots [PopN] clears are those of the batch. *)
Lemma drain_cleared k b (its : list T) h n :
  buf_ok k b -> 0 < n <= 2 ^ k -> slen its = slen (items b) ->
  let s := h `mod` 2 ^ k in
  let first := Z.min n (2 ^ k - s) in
  (forall j, s <= Z.of_nat j < s + first \/ Z.of_nat j < n - first -> its !! j = Some zero) ->
  (forall j, ~ (s <= Z.of_nat j < s + first \/ Z.of_nat j < n - first) ->
             its !! j = items b !! j) ->
  buf_ok k (Buffer its (mask b)) /\
  (forall j, h <= j < h + n -> get (Buffer its (mask b)) j = Some zero) /\
  (forall j, h + n <= j < h + 2 ^ k -> get (Buffer its (mask b)) j = get b j).
Proof.
  intros Hb Hn Hl s first Hin Hout. pose proof (cap_bounds _ _ Hb).
  assert (buf_ok k (Buffer its (mask b))) as Hb' by (destruct Hb; split; simpl; congruence).
  pose proof (Z.mod_pos_bound h (2 ^ k)).
  split; [done|]. split; intros j Hj; rewrite !(get_mod k) by done; simpl;
    replace j with (h + (j - h)) by lia; rewrite mod_shift by lia;
    (case_decide; [apply Hin || apply Hout|apply Hin || apply Hout]); unfold first, s; lia.
Qed.

(** After the first clear, the wrapped part of the batch is still in place. *)
Lemma wrapped_segment k b (arr : list T) h first rest :
  buf_ok k b -> h `mod` 2 ^ k + first = 2 ^ k -> 0 <= first -> 0 <= rest <= h `mod` 2 ^ k ->
  (forall j, ~ h `mod` 2 ^ k <= Z.of_nat j < h `mod` 2 ^ k + first -> arr !! j = items b !! j) ->
  take (Z.to_nat rest) arr = window b (h + first) (Z.to_nat rest).
Proof.
  intros Hb Hs Hf Hr Hout. pose proof (cap_bounds _ _ Hb). pose proof (Z.mod_pos_bound h (2 ^ k)).
  assert ((h + first) `mod` 2 ^ k = 0) as E.
  { rewrite <- Zplus_mod_idemp_l, Hs. apply Z.mod_same. lia. }
  rewrite <- (window_segment k) by (rewrite ?E; done || lia). rewrite E. simpl.
  rewrite drop_0. apply list_eq. intros j.
  destruct (decide (j < Z.to_nat rest)%nat).
  - rewrite !lookup_take_lt by lia. apply Hout. lia.
  - rewrite !lookup_take_ge by lia. done.
Qed.

Lemma drain_ok k b h n :
  buf_ok k b -> 0 <= h <= 2 ^ 62 -> 0 < n <= 2 ^ k ->
  exists b', drain (replicate (Z.to_nat n) zero) b h n = Ok (window b h (Z.to_nat n), b') /\
    buf_ok k b' /\
    (forall j, h <= j < h + n -> get b' j = Some zero) /\
    (forall j, h + n <= j < h + 2 ^ k -> get b' j = get b j).
Proof.
  intros Hb Hh Hn. pose proof (cap_bounds _ _ Hb). pose proof (Z.mod_pos_bound h (2 ^ k)).
  pose proof (bo_len _ _ Hb) as Hlen.
  unfold drain. rewrite (slot_mod k), (bo_mask _ _ Hb) by done. unwrap.
  replace (2 ^ k - 1 + 1) with (2 ^ k) by lia.
  set (s := h `mod` 2 ^ k) in *. set (first := Z.min n (2 ^ k - s)).
  rewrite subslice_ok by (unfold first; lia).
  replace (s + first - s) with first by lia. simpl.
  pose proof (window_segment k b h (Z.to_nat first)) as Hseg. fold s in Hseg.
  rewrite Hseg by (done || unfold first; lia).
  rewrite <- (app_nil_l (replicate _ _)), copy_at_ok
    by (rewrite ?window_length, ?length_replicate; done || unfold first; lia).
  rewrite window_length, drop_replicate. simpl.
  destruct (clear_range_ok zero (items b) s (s + first)) as (arr & -> & Hal & Hin & Hout);
    [unfold first; lia..|]. simpl.
  assert (first = n \/ s + first = 2 ^ k) as Hcase by (unfold first; lia).
  assert (0 < first <= n) as Hf by (unfold first; lia).
  destruct (Z.ltb_spec 0 (n - first)) as [Hr|Hr].
  - destruct Hcase as [?|Hcase]; [lia|].
    rewrite subslice_ok by (rewrite ?Hal; lia). rewrite Z.sub_0_r, drop_0. simpl.
    rewrite (wrapped_segment k b arr h first (n - first)) by (done || lia).
    rewrite copy_at_ok by (unfold slen; rewrite ?window_length, ?length_replicate; lia).
    simpl. destruct (clear_range_ok zero arr 0 (n - first)) as (arr2 & -> & Hal2 & Hin2 & Hout2);
      [lia..|]. simpl. exists (Buffer arr2 (mask b)). split.
    + do 2 f_equal; [|by rewrite (bo_mask _ _ Hb)]. rewrite window_length, drop_replicate.
      replace (_ - _)%nat with 0%nat by lia. rewrite app_nil_r.
      replace (Z.to_nat n) with (Z.to_nat first + Z.to_nat (n - first))%nat by lia.
      rewrite window_app. do 2 f_equal. lia.
    + apply drain_cleared; [done|lia|congruence|..]; fold s first; intros j Hj.
      * destruct (decide (Z.of_nat j < n - first)); [apply Hin2; lia|].
        rewrite Hout2 by lia. apply Hin. lia.
      * rewrite Hout2 by lia. apply Hout. lia.
  - assert (first = n) as Hfn by lia. exists (Buffer arr (mask b)). split.
    + do 2 f_equal; [|by rewrite (bo_mask _ _ Hb)]. rewrite Hfn, Nat.sub_diag.
      by rewrite app_nil_r.
    + apply drain_cleared; [done|lia|congruence|..]; fold s first; intros j Hj;
        [apply Hin|apply Hout]; lia.
Qed.

(** ** Each operation refines the list queue *)

Lemma contents_length rb :
  rb_head rb <= rb_tail rb -> slen (contents rb) = rb_tail rb - rb_head rb.
Proof. intros. unfold slen, contents. rewrite window_length. lia. Qed.

Lemma New_wf size :
  0 < roundUpPow2 size ->
  (exists k, 1 <= k <= 62 /\ roundUpPow2 size = 2 ^ k) ->
  exists rb, New size = Ok rb /\ wf rb /\ contents rb = [] /\ rb_tail rb = 0.
Proof.
  intros Hp (k & Hk & E). unfold New. rewrite E in *.
  assert (2 ^ k <= 2 ^ 62) by (apply Z.pow_le_mono_r; lia).
  rewrite makeslice_ok by lia. simpl. unwrap.
  eexists. split; [done|]. split; [|done]. exists k.
  split; simpl; try done; try lia; [by apply new_buf_ok|].
  intros i _. by apply new_buf_get.
Qed.

(** Expose the record a chain of field updates builds. *)
Ltac unfold_updates :=
  unfold leaveConsumer, set_head, set_tail, add_length, set_content, set_growing, set_popping;
  simpl; unwrap.

(** Writing the slot at [tail] appends an item. *)
Lemma push_slot k b h t x :
  buf_ok k b -> 0 <= h <= t -> t - h < 2 ^ k ->
  (forall i, t <= i < h + 2 ^ k -> get b i = Some zero) ->
  exists its, store (items b) (Z.land t (mask b)) x = Ok its /\
    let b' := Buffer its (mask b) in
    buf_ok k b' /\
    window b' h (Z.to_nat (t + 1 - h)) = window b h (Z.to_nat (t - h)) ++ [x] /\
    (forall i, t + 1 <= i < h + 2 ^ k -> get b' i = Some zero).
Proof.
  intros Hb Hh Hn Hz. pose proof (cap_bounds _ _ Hb).
  destruct (store_ok k b t x Hb) as (its & E & Hb' & Hs & Ho).
  exists its. split; [done|]. split; [done|]. split.
  - replace (Z.to_nat (t + 1 - h)) with (S (Z.to_nat (t - h))) by lia.
    rewrite window_snoc. replace (h + _) with t by lia. rewrite Hs. f_equal.
    apply window_ext. intros i Hi. apply Ho. intros Hm. apply mod_inj in Hm; lia.
  - intros i Hi. rewrite Ho; [apply Hz; lia|]. intros Hm. apply mod_inj in Hm; lia.
Qed.

(** The condition under which [Push] grows the array. *)
Definition full rb : bool := mask (rb_content rb) <? rb_tail rb - rb_head rb.

Lemma Push_ok x rb :
  wf rb -> rb_tail rb < 2 ^ 62 ->
  exists rb', Push x rb = Ok (true, rb') /\ wf rb' /\
    contents rb' = contents rb ++ [x] /\ rb_tail rb' = rb_tail rb + 1 /\
    slen (items (rb_content rb')) =
      (if full rb then 2 else 1) * slen (items (rb_content rb)).
Proof.
  intros [k Hwf] Ht. destruct rb as [b h t l gr po]. destruct Hwf as [Hb Hh Hc Htl Hl Hg Hp Hz].
  simpl in *. subst l gr po. pose proof (cap_bounds _ _ Hb). pose proof (bo_len _ _ Hb) as Hlen.
  pose proof (bo_mask _ _ Hb) as Hm. unfold Push, full, grow, contents. simpl. unwrap.
  destruct (Z.ltb_spec (mask b) (t - h)).
  - rewrite (proj2 (Z.leb_gt (t - h) (mask b))) by lia.
    assert (k < 62) as Hk.
    { assert (2 ^ k < 2 ^ 62) as Hlt by lia. apply Z.pow_lt_mono_r_iff in Hlt; lia. }
    destruct (double_ok k b h t) as (b2 & -> & Hb2 & Hlive & Hfree); [done|lia..|]. simpl.
    assert (2 ^ (k + 1) = 2 * 2 ^ k) as E by (rewrite Z.pow_add_r by (destruct Hb; lia); lia).
    destruct (push_slot (k + 1) b2 h t x) as (its & -> & Hb' & Hw & Hfr); [done|lia|lia|done|].
    simpl. unfold_updates. eexists. split; [done|]. simpl. split_and!; [|rewrite Hw|done|].
    + exists (k + 1). split; simpl; unwrap; done || lia.
    + f_equal. apply window_ext. intros. apply Hlive. lia.
    + pose proof (bo_len _ _ Hb') as Hlen'. simpl in Hlen'. lia.
  - simpl. destruct (push_slot k b h t x) as (its & -> & Hb' & Hw & Hfr); [done|lia|lia|done|].
    simpl. unfold_updates. eexists. split; [done|]. simpl. split_and!; [|done|done|].
    + exists k. split; simpl; unwrap; done || lia.
    + pose proof (bo_len _ _ Hb') as Hlen'. simpl in Hlen'. lia.
Qed.

(** Removing [n] items from the front, whatever moved the data out of [b]. *)
Lemma wf_advance k b b' h t n :
  wf_at k (Ring b h t (t - h) false false) -> 0 <= n <= t - h ->
  buf_ok k b' ->
  (forall j, h <= j < h + n -> get b' j = Some zero) ->
  (forall j, h + n <= j < h + 2 ^ k -> get b' j = get b j) ->
  wf_at k (Ring b' (h + n) t (t - h - n) false false) /\
  window b' (h + n) (Z.to_nat (t - (h + n))) =
    drop (Z.to_nat n) (window b h (Z.to_nat (t - h))).
Proof.
  intros [Hb Hh Hc Htl _ _ _ Hz] Hn Hb' Hcl Hk. simpl in *. split.
  - split; simpl; try done; try lia. intros i Hi.
    destruct (decide (i < h + 2 ^ k)); [rewrite Hk by lia; apply Hz; lia|].
    rewrite <- (Z.sub_add (2 ^ k) i), (get_period k) by done. apply Hcl. lia.
  - rewrite window_drop by lia. replace (h + Z.of_nat _) with (h + n) by lia.
    replace (Z.to_nat (t - h) - Z.to_nat n)%nat with (Z.to_nat (t - (h + n))) by lia.
    apply window_ext. intros i Hi. apply Hk. lia.
Qed.

Lemma Pop_ok rb :
  wf rb ->
  exists rb', Pop rb = Ok (match contents rb with
                           | [] => (zero, false)
                           | x :: _ => (x, true)
                           end, rb') /\
    wf rb' /\ contents rb' = drop 1 (contents rb) /\ rb_tail rb' = rb_tail rb.
Proof.
  intros [k Hwf]. destruct rb as [b h t l gr po].
  pose proof Hwf as [Hb Hh Hc Htl Hl Hg Hp Hz]. simpl in *. subst l gr po.
  pose proof (cap_bounds _ _ Hb). unfold Pop, contents. simpl.
  destruct (Z.eqb_spec (t - h) 0).
  { replace (Z.to_nat (t - h)) with O by lia. simpl. eexists. split_and!; [done|by exists k|..]; simpl;
      [by replace (Z.to_nat (t - h)) with O by lia|done]. }
  unfold enterConsumer. simpl.
  destruct (index_ok k b h Hb) as (x & -> & Hx). simpl.
  destruct (store_ok k b h zero Hb) as (its & -> & Hb' & Hs & Ho). simpl. unfold_updates.
  destruct (wf_advance k b (Buffer its (mask b)) h t 1) as [Hwf' Hw]; [done|lia|done|..].
  { intros j Hj. by replace j with h by lia. }
  { intros j Hj. apply Ho. intros Hm. apply mod_inj in Hm; lia. }
  replace (t - h + -1) with (t - h - 1) by lia.
  eexists. split; [|split; [exists k; exact Hwf'|split; [exact Hw|done]]].
  replace (Z.to_nat (t - h)) with (S (Z.to_nat (t - h - 1))) by lia. simpl. by rewrite Hx.
Qed.

(** What [PopN] returns on a queue that holds [l]. *)
Definition popn_spec n (l : list T) : list T * bool :=
  if (n <=? 0) || (slen l =? 0) then ([], false) else (take (Z.to_nat n) l, true).

Lemma PopN_ok n rb :
  wf rb ->
  exists rb', PopN n rb = Ok (popn_spec n (contents rb), rb') /\
    wf rb' /\ contents rb' = drop (Z.to_nat n) (contents rb) /\ rb_tail rb' = rb_tail rb.
Proof.
  intros [k Hwf]. unfold popn_spec. rewrite contents_length by (destruct Hwf; lia).
  destruct rb as [b h t l gr po].
  pose proof Hwf as [Hb Hh Hc Htl Hl Hg Hp Hz]. simpl in *. subst l gr po.
  pose proof (cap_bounds _ _ Hb). unfold PopN, contents. simpl.
  destruct (Z.leb_spec n 0); simpl.
  { exists (Ring b h t (t - h) false false). replace (Z.to_nat n) with O by lia.
    split_and!; [done|by exists k|done..]. }
  destruct (Z.eqb_spec (t - h) 0) as [E|E].
  { exists (Ring b h t (t - h) false false). rewrite E. simpl.
    split_and!; [done|rewrite <- E; by exists k|by rewrite E, drop_nil|done]. }
  set (m := Z.min n (t - h)). rewrite makeslice_ok by lia. simpl.
  destruct (drain_ok k b h m) as (b' & -> & Hb' & Hcl & Hk); [done|lia..|]. simpl. unfold_updates.
  destruct (wf_advance k b b' h t m) as [Hwf' Hw]; [done|lia|done..|].
  replace (t - h + - m) with (t - h - m) by lia.
  eexists. split; [|split; [exists k; exact Hwf'|split; [|done]]].
  - rewrite <- window_take with (n := Z.to_nat (t - h)) by lia. do 3 f_equal.
    destruct (decide (n <= t - h)); [unfold m; f_equal; lia|].
    rewrite !take_ge; rewrite ?window_length; done || lia.
  - unfold contents. simpl. rewrite Hw. destruct (decide (n <= t - h)); [unfold m; f_equal; lia|].
    rewrite !drop_ge; rewrite ?window_length; done || lia.
Qed.
End ring.

(** ** Rounding to a power of two *)

Lemma pow2_of_land n : 0 < n -> Z.land n (n - 1) = 0 -> n = 2 ^ Z.log2 n.
Proof.
  intros Hn Hl. pose proof (Z.log2_spec n Hn) as [Hlo Hhi]. rewrite Z.pow_succ_r in Hhi
    by apply Z.log2_nonneg.
  destruct (decide (n = 2 ^ Z.log2 n)) as [|Hne]; [done|exfalso].
  assert (Z.log2 (n - 1) = Z.log2 n) as E.
  { apply Z.log2_unique; [apply Z.log2_nonneg|].
    rewrite Z.pow_succ_r by apply Z.log2_nonneg. lia. }
  assert (Z.testbit (Z.land n (n - 1)) (Z.log2 n) = true) as Hb.
  { rewrite Z.land_spec, Z.bit_log2 by done. rewrite <- E. apply Z.bit_log2.
    destruct (decide (n = 1)) as [->|]; [done|lia]. }
  by rewrite Hl, Z.bits_0 in Hb.
Qed.

Lemma len64_pow n :
  2 < n < 2 ^ 62 ->
  exists k, 2 <= k <= 62 /\ i64 (Z.shiftl 1 (bits_Len64 (u64 (i64 (n - 1))))) = 2 ^ k /\
    n <= 2 ^ k /\ 2 ^ (k - 1) < n.
Proof.
  intros Hn. unfold bits_Len64. unwrap. destruct (Z.eqb_spec (n - 1) 0); [lia|].
  pose proof (Z.log2_spec (n - 1)) as [Hlo Hhi]; [lia|]. rewrite <- Z.add_1_r in Hhi.
  assert (1 <= Z.log2 (n - 1)) by (apply Z.log2_le_pow2; simpl; lia).
  assert (Z.log2 (n - 1) < 62) by (apply Z.log2_lt_pow2; lia).
  exists (Z.log2 (n - 1) + 1). rewrite Z.shiftl_mul_pow2, Z.mul_1_l by lia.
  assert (2 ^ (Z.log2 (n - 1) + 1) <= 2 ^ 62) by (apply Z.pow_le_mono_r; lia).
  rewrite i64_id by (pose proof (Z.pow_pos_nonneg 2 (Z.log2 (n - 1) + 1)); lia).
  replace (Z.log2 (n - 1) + 1 - 1) with (Z.log2 (n - 1)) by lia.
  split_and!; lia.
Qed.

(** The result is the least power of two in [2, 2^62] that is at least [size],
    or [2^62] when there is none. *)
Lemma roundUpPow2_least size :
  - 2 ^ 63 <= size < 2 ^ 63 ->
  exists k, 1 <= k <= 62 /\ roundUpPow2 size = 2 ^ k /\
    (size <= 2 ^ 62 -> size <= 2 ^ k) /\ (1 < k -> 2 ^ (k - 1) < size).
Proof.
  intros Hs. unfold roundUpPow2, minSize, maxSize. change (Z.shiftl 1 62) with (2 ^ 62).
  destruct (Z.leb_spec size 2); [exists 1; split_and!; simpl; lia|].
  destruct (Z.leb_spec (2 ^ 62) size); [exists 62; split_and!; simpl; lia|]. unwrap.
  destruct (Z.eqb_spec (Z.land size (size - 1)) 0) as [E|].
  - apply pow2_of_land in E; [|lia]. exists (Z.log2 size).
    assert (1 <= Z.log2 size) by (apply Z.log2_le_pow2; simpl; lia).
    assert (Z.log2 size < 62) by (apply Z.log2_lt_pow2; lia).
    assert (2 ^ (Z.log2 size - 1) < 2 ^ Z.log2 size) by (apply Z.pow_lt_mono_r; lia).
    split_and!; lia.
  - destruct (len64_pow size) as (k & Hk & E & Hle & Hlt); [lia|].
    rewrite (i64_id (size - 1)), u64_id in E by lia. exists k. split_and!; lia || done.
Qed.

(** ** The queue interface

    What the ring buffer promises its clients: a first-in first-out queue.
    [q_pushes] counts the items ever pushed; the cursors are absolute, so the
    promise holds for the first [2^62] pushes. *)

Class Queue (Q T : Type) := MkQueue {
  q_new : Z -> exec Q;
  q_push : T -> Q -> exec (bool * Q);
  q_popn : Z -> Q -> exec ((list T * bool) * Q);
  q_len : Q -> Z;
  q_inv : Q -> Prop;
  q_abs : Q -> list T;
  q_pushes : Q -> Z;
  q_new_ok : forall size, - 2 ^ 63 <= size < 2 ^ 63 ->
    exists q, q_new size = Ok q /\ q_inv q /\ q_abs q = [] /\ q_pushes q = 0;
  q_push_ok : forall x q, q_inv q -> q_pushes q < 2 ^ 62 ->
    exists q', q_push x q = Ok (true, q') /\ q_inv q' /\
      q_abs q' = q_abs q ++ [x] /\ q_pushes q' = q_pushes q + 1;
  q_popn_ok : forall n q, q_inv q ->
    exists q', q_popn n q = Ok (popn_spec n (q_abs q), q') /\ q_inv q' /\
      q_abs q' = drop (Z.to_nat n) (q_abs q) /\ q_pushes q' = q_pushes q;
  q_len_ok : forall q, q_inv q -> q_len q = slen (q_abs q);
}.

Section ring_queue.
Context {T : Type} (zero : T).

Lemma New_ok size :
  - 2 ^ 63 <= size < 2 ^ 63 ->
  exists rb, New zero size = Ok rb /\ wf zero rb /\ contents zero rb = [] /\ rb_tail rb = 0.
Proof.
  intros Hs. destruct (roundUpPow2_least size Hs) as (k & Hk & E & _).
  apply New_wf; [|eauto]. rewrite E. by apply Z.pow_pos_nonneg; lia.
Qed.

Lemma Push_queue x (rb : RingBuffer T) :
  wf zero rb -> rb_tail rb < 2 ^ 62 ->
  exists rb', Push zero x rb = Ok (true, rb') /\ wf zero rb' /\
    contents zero rb' = contents zero rb ++ [x] /\ rb_tail rb' = rb_tail rb + 1.
Proof. intros Hwf Ht. destruct (Push_ok zero x rb Hwf Ht) as (rb' & ? & ? & ? & ? & _). eauto. Qed.

Lemma Len_ok (rb : RingBuffer T) : wf zero rb -> Len rb = slen (contents zero rb).
Proof.
  intros [k Hwf]. unfold Len. rewrite (wf_length _ _ _ Hwf).
  symmetry. apply contents_length. apply (wf_head _ _ _ Hwf).
Qed.

#[export] Instance ring_queue : Queue (RingBuffer T) T := {|
  q_new := New zero;
  q_push := Push zero;
  q_popn := PopN zero;
  q_len := Len;
  q_inv := wf zero;
  q_abs := contents zero;
  q_pushes := rb_tail;
  q_new_ok := New_ok;
  q_push_ok := Push_queue;
  q_popn_ok := PopN_ok zero;
  q_len_ok := Len_ok;
|}.
End ring_queue.

(** ** Sequences of operations *)

Inductive op (T : Type) := OPush (x : T) | OPop | OPopN (n : Z) | OLen.
Arguments OPush {T} x.
Arguments OPop {T}.
Arguments OPopN {T} n.
Arguments OLen {T}.

Inductive result (T : Type) := RPush (ok : bool) | RPop (x : T) (ok : bool) | RPopN (l : list T) (ok : bool) | RLen (n : Z).
Arguments RPush {T} ok.
Arguments RPop {T} x ok.
Arguments RPopN {T} l ok.
Arguments RLen {T} n.

Section sequences.
Context {T : Type} (zero : T).

(** The code. *)
Definition ring_op (o : op T) (rb : RingBuffer T) : exec (result T * RingBuffer T) :=
  match o with
  | OPush x => r ← Push zero x rb; Ok (RPush r.1, r.2)
  | OPop => r ← Pop zero rb; Ok (RPop r.1.1 r.1.2, r.2)
  | OPopN n => r ← PopN zero n rb; Ok (RPopN r.1.1 r.1.2, r.2)
  | OLen => Ok (RLen (Len rb), rb)
  end.

(** The specification: a list, oldest item first. *)
Definition list_op (o : op T) (l : list T) : result T * list T :=
  match o with
  | OPush x => (RPush true, l ++ [x])
  | OPop => match l with [] => (RPop zero false, []) | x :: l => (RPop x true, l) end
  | OPopN n => (RPopN (popn_spec n l).1 (popn_spec n l).2, drop (Z.to_nat n) l)
  | OLen => (RLen (slen l), l)
  end.

Fixpoint ring_ops (os : list (op T)) (rb : RingBuffer T) : exec (list (result T) * RingBuffer T) :=
  match os with
  | [] => Ok ([], rb)
  | o :: os =>
      r ← ring_op o rb;
      rs ← ring_ops os r.2;
      Ok (r.1 :: rs.1, rs.2)
  end.

Fixpoint list_ops (os : list (op T)) (l : list T) : list (result T) * list T :=
  match os with
  | [] => ([], l)
  | o :: os =>
      let r := list_op o l in
      let rs := list_ops os r.2 in
      (r.1 :: rs.1, rs.2)
  end.

Lemma ring_op_ok o (rb : RingBuffer T) :
  wf zero rb -> rb_tail rb < 2 ^ 62 ->
  exists rb', ring_op o rb = Ok ((list_op o (contents zero rb)).1, rb') /\ wf zero rb' /\
    contents zero rb' = (list_op o (contents zero rb)).2 /\ rb_tail rb' <= rb_tail rb + 1.
Proof.
  intros Hwf Ht. destruct o as [x| |n|]; simpl.
  - destruct (Push_queue zero x rb Hwf Ht) as (rb' & -> & ? & ? & ?). simpl. eauto with lia.
  - destruct (Pop_ok zero rb Hwf) as (rb' & -> & ? & Hc & ?). exists rb'.
    destruct (contents zero rb); simpl in *; split_and!; done || lia.
  - destruct (PopN_ok zero n rb Hwf) as (rb' & -> & ? & ? & ?). simpl. eauto with lia.
  - rewrite (Len_ok zero) by done. eauto with lia.
Qed.

Lemma ring_ops_ok os (rb : RingBuffer T) :
  wf zero rb -> rb_tail rb + slen os <= 2 ^ 62 ->
  exists rb', ring_ops os rb = Ok ((list_ops os (contents zero rb)).1, rb') /\ wf zero rb' /\
    contents zero rb' = (list_ops os (contents zero rb)).2.
Proof.
  revert rb. induction os as [|o os IH]; intros rb Hwf Hn; simpl; [eauto|].
  unfold slen in *. simpl in Hn.
  destruct (ring_op_ok o rb) as (rb1 & -> & Hwf1 & Hc1 & Ht1); [done|lia|]. simpl.
  destruct (IH rb1) as (rb2 & -> & Hwf2 & Hc2); [done|lia|]. simpl.
  rewrite Hc1 in *. eauto.
Qed.
(** [n] calls of [Pop] in a row, up to the first that finds nothing: what
    [PopN] is a faster form of. *)
Fixpoint pops (n : nat) (rb : RingBuffer T) : exec (list T * RingBuffer T) :=
  match n with
  | O => Ok ([], rb)
  | S n =>
      r ← Pop zero rb;
      if negb r.1.2 then Ok ([], r.2)
      else
        rs ← pops n r.2;
        Ok (r.1.1 :: rs.1, rs.2)
  end.

Lemma pops_ok n (rb : RingBuffer T) :
  wf zero rb ->
  exists rb', pops n rb = Ok (take n (contents zero rb), rb') /\ wf zero rb' /\
    contents zero rb' = drop n (contents zero rb).
Proof.
  revert rb. induction n as [|n IH]; intros rb Hwf; simpl; [by eexists|].
  destruct (Pop_ok zero rb Hwf) as (rb1 & -> & Hwf1 & Hc1 & _). simpl.
  destruct (contents zero rb) as [|x l]; simpl in *; [by eexists|].
  destruct (IH rb1 Hwf1) as (rb2 & -> & Hwf2 & Hc2). simpl. rewrite drop_0 in Hc1. rewrite Hc1 in *. by eexists.
Qed.
End sequences.

(** ** Properties *)

(** C25: [PopN] is repeated [Pop]: on a buffer that is not mid-operation it returns
    the items that popping one at a time would return, reports true exactly
    when there is one, and leaves the same queue. *)
Theorem popn_is_repeated_pop {T : Type} (zero : T) (n : Z) (rb : RingBuffer T) :
  wf zero rb ->
  exists l ok rb1 rb2, PopN zero n rb = Ok ((l, ok), rb1) /\ pops zero (Z.to_nat n) rb = Ok (l, rb2) /\
    ok = negb (slen l =? 0) /\ wf zero rb1 /\ wf zero rb2 /\ contents zero rb1 = contents zero rb2.
Proof.
  intros Hwf. destruct (PopN_ok zero n rb Hwf) as (rb1 & E1 & Hwf1 & Hc1 & _).
  destruct (pops_ok zero (Z.to_nat n) rb Hwf) as (rb2 & E2 & Hwf2 & Hc2).
  rewrite (surjective_pairing (popn_spec n (contents zero rb))) in E1.
  eexists _, _, rb1, rb2. split; [exact E1|]. split; [|split_and!; try done; [|by rewrite Hc1, Hc2]].
  - rewrite E2. do 2 f_equal. unfold popn_spec.
    destruct (Z.leb_spec n 0); simpl; [by replace (Z.to_nat n) with O by lia|].
    by destruct (contents zero rb); [rewrite take_nil|].
  - unfold popn_spec. destruct (Z.leb_spec n 0); simpl; [done|].
    destruct (contents zero rb) as [|x l]; [done|]. replace (Z.to_nat n) with (S (Z.to_nat n - 1)) by lia. done.
Qed.

Lemma popn_is_repeated_pop_witness :
  let rb := Ring (Buffer [8; 9] 1) 3 5 2 false false in
  exists l ok rb1 rb2, PopN 0 7 rb = Ok ((l, ok), rb1) /\ pops 0 7 rb = Ok (l, rb2) /\
    ok = negb (slen l =? 0) /\ wf 0 rb1 /\ wf 0 rb2 /\ contents 0 rb1 = contents 0 rb2.
Proof.
  apply (popn_is_repeated_pop 0 7 (Ring (Buffer [8; 9] 1) 3 5 2 false false)).
  exists 1. split; simpl; try done; lia.
Defined.

(** C24: for every sequence of operations on a fresh ring buffer of any size
    hint, with fewer than [2^62] of them, the code never panics, never waits,
    and returns exactly what a list queue (oldest item first) returns; the
    items left are those of the list. *)
Theorem ring_refines_list {T : Type} (zero : T) (size : Z) (os : list (op T)) :
  - 2 ^ 63 <= size < 2 ^ 63 -> slen os <= 2 ^ 62 ->
  exists rb rb', New zero size = Ok rb /\
    ring_ops zero os rb = Ok ((list_ops zero os []).1, rb') /\
    contents zero rb' = (list_ops zero os []).2.
Proof.
  intros Hs Hn. destruct (New_ok zero size Hs) as (rb & E & Hwf & Hc & Ht).
  destruct (ring_ops_ok zero os rb Hwf) as (rb' & Ho & _ & Hc'); [lia|].
  exists rb, rb'. rewrite Hc in *. done.
Qed.

Lemma ring_refines_list_witness :
  exists rb rb', New 0 (-7) = Ok rb /\
    ring_ops 0 [OPush 1; OPush 2; OPop; OPush 3; OPush 4; OPopN 2; OLen; OPopN 9; OPop] rb =
      Ok ([RPush true; RPush true; RPop 1 true; RPush true; RPush true; RPopN [2; 3] true;
           RLen 1; RPopN [4] true; RPop 0 false], rb') /\
    contents 0 rb' = [].
Proof.
  apply (ring_refines_list 0 (-7)
    [OPush 1; OPush 2; OPop; OPush 3; OPush 4; OPopN 2; OLen; OPopN 9; OPop]);
    [lia|vm_compute; discriminate].
Defined.

(** A successful [Push] publishes its item at the back, doubles the backing
    array when, and only when, every slot was in use, and keeps the invariant. *)
Theorem push_grows_when_full {T : Type} (zero : T) (x : T) (rb : RingBuffer T) :
  wf zero rb -> rb_tail rb < 2 ^ 62 ->
  exists rb', Push zero x rb = Ok (true, rb') /\ wf zero rb' /\
    contents zero rb' = contents zero rb ++ [x] /\
    slen (items (rb_content rb')) =
      if slen (contents zero rb) =? slen (items (rb_content rb))
      then 2 * slen (items (rb_content rb)) else slen (items (rb_content rb)).
Proof.
  intros Hwf Ht. destruct (Push_ok zero x rb Hwf Ht) as (rb' & E & Hwf' & Hc & _ & Hl).
  exists rb'. split_and!; try done. rewrite Hl. destruct Hwf as [k [Hb Hh Hr _ _ _ _ _]].
  rewrite contents_length by lia. unfold full. rewrite (bo_mask _ _ Hb), (bo_len _ _ Hb) in *.
  destruct (Z.ltb_spec (2 ^ k - 1) (rb_tail rb - rb_head rb)),
    (Z.eqb_spec (rb_tail rb - rb_head rb) (2 ^ k)); lia.
Qed.

Lemma push_grows_when_full_witness :
  let rb := Ring (Buffer [8; 9] 1) 3 5 2 false false in
  exists rb', Push 0 7 rb = Ok (true, rb') /\ wf 0 rb' /\
    contents 0 rb' = [9; 8; 7] /\ slen (items (rb_content rb')) = 4.
Proof.
  apply (push_grows_when_full 0 7 (Ring (Buffer [8; 9] 1) 3 5 2 false false)); [|done].
  exists 1. split; simpl; try done; lia.
Defined.

(** A drained buffer pins nothing: once every item has been popped, each
    slot of the backing array holds the zero value again. *)
Theorem drained_buffer_pins_nothing {T : Type} (zero : T) (rb : RingBuffer T) :
  wf zero rb -> contents zero rb = [] ->
  items (rb_content rb) = replicate (length (items (rb_content rb))) zero.
Proof.
  intros [k [Hb Hh Hr Htl _ _ _ Hz]] Hc. pose proof (cap_bounds _ _ Hb).
  apply (f_equal slen) in Hc. rewrite contents_length in Hc by lia.
  change (slen []) with 0 in Hc.
  apply list_eq_same_length with (length (items (rb_content rb)));
    [by rewrite length_replicate|done|].
  intros i x y Hi Hx Hy. apply lookup_replicate in Hy as [-> _].
  pose proof (Z.mod_pos_bound (Z.of_nat i - rb_head rb) (2 ^ k)).
  specialize (Hz (rb_head rb + (Z.of_nat i - rb_head rb) `mod` 2 ^ k)).
  pose proof (bo_len _ _ Hb) as Hl. unfold slen in Hl.
  rewrite (get_mod k), Zplus_mod_idemp_r in Hz by done.
  replace (rb_head rb + (Z.of_nat i - rb_head rb)) with (Z.of_nat i) in Hz by lia.
  rewrite (Z.mod_small (Z.of_nat i)), Nat2Z.id, Hx in Hz by lia.
  assert (Some x = Some zero) as [= ->] by (apply Hz; lia). done.
Qed.

Lemma drained_buffer_pins_nothing_witness :
  let rb := Ring (Buffer [0; 0; 0; 0] 3) 5 5 0 false false in
  wf 0 rb /\ items (rb_content rb) = replicate 4 0.
Proof.
  assert (wf 0 (Ring (Buffer [0; 0; 0; 0] 3) 5 5 0 false false)) as Hwf.
  { exists 2. split; simpl; try done; try lia.
    intros i Hi. apply (new_buf_get 0 2 i). lia. }
  split; [exact Hwf|]. exact (drained_buffer_pins_nothing 0 _ Hwf eq_refl).
Defined.

(** C26: the capacity [New] allocates is a power of two between 2 and [2^62],
    at least the hint when the hint is at most [2^62], and the least such
    power, for every [int64] hint, zero and negative ones included. *)
Theorem roundUpPow2_spec (size : Z) :
  - 2 ^ 63 <= size < 2 ^ 63 ->
  exists k, 1 <= k <= 62 /\ roundUpPow2 size = 2 ^ k /\
    (size <= 2 ^ 62 -> size <= roundUpPow2 size) /\
    forall j, 1 <= j -> size <= 2 ^ j -> roundUpPow2 size <= 2 ^ j.
Proof.
  intros Hs. destruct (roundUpPow2_least size Hs) as (k & Hk & E & Hle & Hlt).
  exists k. rewrite E. split_and!; try done; try lia. intros j Hj Hsj.
  apply Z.pow_le_mono_r; [lia|]. destruct (decide (k <= j)); [done|exfalso].
  assert (2 ^ j <= 2 ^ (k - 1)) by (apply Z.pow_le_mono_r; lia).
  specialize (Hlt ltac:(lia)). lia.
Qed.

Lemma roundUpPow2_spec_witness :
  roundUpPow2 5 = 2 ^ 3 /\ roundUpPow2 (-4) = 2 ^ 1 /\
  exists k, 1 <= k <= 62 /\ roundUpPow2 1000 = 2 ^ k /\ 
    (1000 <= 2 ^ 62 -> 1000 <= roundUpPow2 1000) /\
    forall j, 1 <= j -> 1000 <= 2 ^ j -> roundUpPow2 1000 <= 2 ^ j.
Proof.
  split; [reflexivity|]. split; [reflexivity|]. apply (roundUpPow2_spec 1000). lia.
Defined.
