(* ===== verification/RingConc.v ===== *)
(** * The ring buffer under interleaving

    [ringbuffer/ringbuffer.go] as a transition system: any number of producers
    run [Push], one consumer runs [Pop] and [PopN], and every access to shared
    memory is a step of its own, in the order of the code.  Go's atomics are
    sequentially consistent, so an execution is an interleaving of such steps;
    the accesses to the slots themselves are plain, and [conflict] states when
    two of them could be simultaneous.

    The backing arrays live in a heap ([c_bufs]); [c_content] is the pointer
    the code swaps.  [c_lock] is the mutex [mu] together with the position of
    its holder in [Push].  Two fields are ghosts no step reads: [c_n] counts the
    slots published through [tail], [c_claim] is the batch the consumer has
    been promised. *)

From S2P Require Import Prelude RingBuffer.

(** ** Program counters *)

(** Where the holder of [mu] is in [Push] and [grow]; each constructor names the
    access the goroutine performs next and carries its local variables: the
    item, the array pointer, the loaded tail and head. *)
Inductive ppc (T : Type) : Type :=
  | P_content (x : T)                       (* content.Load() *)
  | P_tail (x : T) (b : nat)                (* tail.Load() *)
  | P_check (x : T) (b : nat) (t : Z)       (* tail-head.Load() > b.mask *)
  | P_grow (x : T) (b : nat) (t : Z)        (* growing.Store(true) *)
  | P_spin (x : T) (b : nat) (t : Z)        (* for popping.Load() *)
  | P_rehead (x : T) (b : nat) (t : Z)      (* head.Load() in grow *)
  | P_double (x : T) (b : nat) (t h : Z)    (* allocate and copy *)
  | P_publish (x : T) (b : nat) (t : Z)     (* content.Store(b) *)
  | P_ungrow (x : T) (b : nat) (t : Z)      (* growing.Store(false) *)
  | P_write (x : T) (b : nat) (t : Z)       (* b.items[tail&b.mask] = item *)
  | P_settail (x : T) (t : Z)               (* tail.Store(tail + 1) *)
  | P_addlen (x : T)                        (* length.Add(1) *)
  | P_unlock.                               (* mu.Unlock() *)
Arguments P_content {T}.
Arguments P_tail {T}.
Arguments P_check {T}.
Arguments P_grow {T}.
Arguments P_spin {T}.
Arguments P_rehead {T}.
Arguments P_double {T}.
Arguments P_publish {T}.
Arguments P_ungrow {T}.
Arguments P_write {T}.
Arguments P_settail {T}.
Arguments P_addlen {T}.
Arguments P_unlock {T}.

(** Where the consumer is in [Pop] or [PopN]; [one] tells [Pop] from [PopN],
    [its] is the local result ([item], or the slice [items]). *)
Inductive cpc (T : Type) : Type :=
  | C_idle
  | C_pop                                            (* length.Load() in Pop *)
  | C_popn (n : Z)                                   (* length.Load() in PopN *)
  | C_enter (one : bool) (its : list T)              (* popping.Store(true) *)
  | C_test (one : bool) (its : list T)               (* growing.Load() *)
  | C_retreat (one : bool) (its : list T)            (* popping.Store(false) *)
  | C_wait (one : bool) (its : list T)               (* for growing.Load() *)
  | C_content (one : bool) (its : list T)            (* content.Load() *)
  | C_head (one : bool) (its : list T) (b : nat)     (* head.Load() *)
  | C_take (one : bool) (its : list T) (b : nat) (h : Z)  (* copy and clear slots *)
  | C_sub (its : list T) (h : Z)                     (* length.Add(-n) *)
  | C_sethead (its : list T) (h : Z)                 (* head.Store(head + n) *)
  | C_leave (its : list T)                           (* popping.Store(false) *)
  | C_ret (its : list T).                            (* return *)
Arguments C_idle {T}.
Arguments C_pop {T}.
Arguments C_popn {T}.
Arguments C_enter {T}.
Arguments C_test {T}.
Arguments C_retreat {T}.
Arguments C_wait {T}.
Arguments C_content {T}.
Arguments C_head {T}.
Arguments C_take {T}.
Arguments C_sub {T}.
Arguments C_sethead {T}.
Arguments C_leave {T}.
Arguments C_ret {T}.

Record cst (T : Type) := CSt {
  c_bufs : list (buffer T);
  c_content : nat;
  c_head : Z;
  c_tail : Z;
  c_length : Z;
  c_growing : bool;
  c_popping : bool;
  c_wait : gmap nat T;              (* producers blocked in mu.Lock() *)
  c_lock : option (nat * ppc T);
  c_cons : cpc T;
  c_n : Z;
  c_claim : list T;
}.
Arguments CSt {T}.
Arguments c_bufs {T}.
Arguments c_content {T}.
Arguments c_head {T}.
Arguments c_tail {T}.
Arguments c_length {T}.
Arguments c_growing {T}.
Arguments c_popping {T}.
Arguments c_wait {T}.
Arguments c_lock {T}.
Arguments c_cons {T}.
Arguments c_n {T}.
Arguments c_claim {T}.

Inductive ract (T : Type) : Type :=
  | ACallPush (p : nat) (x : T)     (* goroutine p calls Push(x) *)
  | ALock (p : nat)                 (* p's mu.Lock() succeeds *)
  | AHold                           (* a step of the holder of mu *)
  | ACallPop
  | ACallPopN (n : Z)
  | ACons.                          (* a step of the consumer *)
Arguments ACallPush {T}.
Arguments ALock {T}.
Arguments AHold {T}.
Arguments ACallPop {T}.
Arguments ACallPopN {T}.
Arguments ACons {T}.

Section conc.
Context {T : Type} (zero : T).
Implicit Types (s : cst T) (x : T) (p : nat).

(** ** Field updates *)

Definition with_lock (l : option (nat * ppc T)) s : cst T :=
  CSt (c_bufs s) (c_content s) (c_head s) (c_tail s) (c_length s) (c_growing s) (c_popping s)
      (c_wait s) l (c_cons s) (c_n s) (c_claim s).
Definition with_cons (c : cpc T) s : cst T :=
  CSt (c_bufs s) (c_content s) (c_head s) (c_tail s) (c_length s) (c_growing s) (c_popping s)
      (c_wait s) (c_lock s) c (c_n s) (c_claim s).
Definition with_wait (w : gmap nat T) s : cst T :=
  CSt (c_bufs s) (c_content s) (c_head s) (c_tail s) (c_length s) (c_growing s) (c_popping s)
      w (c_lock s) (c_cons s) (c_n s) (c_claim s).
Definition with_bufs (bs : list (buffer T)) s : cst T :=
  CSt bs (c_content s) (c_head s) (c_tail s) (c_length s) (c_growing s) (c_popping s)
      (c_wait s) (c_lock s) (c_cons s) (c_n s) (c_claim s).
Definition with_content (b : nat) s : cst T :=
  CSt (c_bufs s) b (c_head s) (c_tail s) (c_length s) (c_growing s) (c_popping s)
      (c_wait s) (c_lock s) (c_cons s) (c_n s) (c_claim s).
Definition with_head (h : Z) s : cst T :=
  CSt (c_bufs s) (c_content s) h (c_tail s) (c_length s) (c_growing s) (c_popping s)
      (c_wait s) (c_lock s) (c_cons s) (c_n s) (c_claim s).
Definition with_tail (t n : Z) s : cst T :=
  CSt (c_bufs s) (c_content s) (c_head s) t (c_length s) (c_growing s) (c_popping s)
      (c_wait s) (c_lock s) (c_cons s) n (c_claim s).
Definition with_length (n : Z) s : cst T :=
  CSt (c_bufs s) (c_content s) (c_head s) (c_tail s) n (c_growing s) (c_popping s)
      (c_wait s) (c_lock s) (c_cons s) (c_n s) (c_claim s).
Definition with_growing (f : bool) s : cst T :=
  CSt (c_bufs s) (c_content s) (c_head s) (c_tail s) (c_length s) f (c_popping s)
      (c_wait s) (c_lock s) (c_cons s) (c_n s) (c_claim s).
Definition with_popping (f : bool) s : cst T :=
  CSt (c_bufs s) (c_content s) (c_head s) (c_tail s) (c_length s) (c_growing s) f
      (c_wait s) (c_lock s) (c_cons s) (c_n s) (c_claim s).
Definition with_claim (l : list T) s : cst T :=
  CSt (c_bufs s) (c_content s) (c_head s) (c_tail s) (c_length s) (c_growing s) (c_popping s)
      (c_wait s) (c_lock s) (c_cons s) (c_n s) l.

(** ** Steps *)

(** A panic in a step leaves the goroutine without a step: [None]. *)
Definition ok {A} (e : exec A) : option A :=
  match e with Ok a => Some a | _ => None end.

(** The holder of [mu] in [Push] and [grow]. *)
Definition hold_step s : option (cst T) :=
  '(p, pc) ← c_lock s;
  let goto pc s := with_lock (Some (p, pc)) s in
  match pc with
  | P_content x => Some (goto (P_tail x (c_content s)) s)
  | P_tail x b => Some (goto (P_check x b (c_tail s)) s)
  | P_check x b t =>
      buf ← c_bufs s !! b;
      if mask buf <? i64 (t - c_head s)
      then Some (goto (P_grow x b t) s)
      else Some (goto (P_write x b t) s)
  | P_grow x b t => Some (goto (P_spin x b t) (with_growing true s))
  | P_spin x b t => if c_popping s then Some s else Some (goto (P_rehead x b t) s)
  | P_rehead x b t =>
      buf ← c_bufs s !! b;
      if i64 (t - c_head s) <=? mask buf
      then Some (goto (P_ungrow x b t) s)
      else Some (goto (P_double x b t (c_head s)) s)
  | P_double x b t h =>
      buf ← c_bufs s !! b;
      buf' ← ok (double zero buf h t);
      Some (goto (P_publish x (length (c_bufs s)) t) (with_bufs (c_bufs s ++ [buf']) s))
  | P_publish x b t => Some (goto (P_ungrow x b t) (with_content b s))
  | P_ungrow x b t => Some (goto (P_write x b t) (with_growing false s))
  | P_write x b t =>
      buf ← c_bufs s !! b;
      its ← ok (store (items buf) (Z.land t (mask buf)) x);
      Some (goto (P_settail x t) (with_bufs (<[b := Buffer its (mask buf)]> (c_bufs s)) s))
  | P_settail x t => Some (goto (P_addlen x) (with_tail (i64 (t + 1)) (c_n s + 1) s))
  | P_addlen x => Some (goto P_unlock (with_length (i64 (c_length s + 1)) s))
  | P_unlock => Some (with_lock None s)
  end.

(** The slot accesses of [Pop] ([one = true]) and [PopN]. *)
Definition take_slots (one : bool) (its : list T) (buf : buffer T) (h : Z) :
    exec (list T * buffer T) :=
  if one then
    item ← index (items buf) (Z.land h (mask buf));
    arr ← store (items buf) (Z.land h (mask buf)) zero;
    Ok ([item], Buffer arr (mask buf))
  else drain zero its buf h (slen its).

Definition held (c : cpc T) : Z :=
  match c with
  | C_enter _ its | C_test _ its | C_retreat _ its | C_wait _ its | C_content _ its
  | C_head _ its _ | C_take _ its _ _ | C_sub its _ | C_sethead its _ => slen its
  | _ => 0
  end.

Definition pend (l : option (nat * ppc T)) : Z :=
  match l with
  | Some (_, P_addlen _) => 1
  | _ => 0
  end.

(** The abstract queue: published items nobody has been promised. *)
Definition cabs s : list T :=
  match c_bufs s !! c_content s with
  | Some b => window zero b (c_head s + held (c_cons s))
                (Z.to_nat (c_tail s - pend (c_lock s) - c_head s - held (c_cons s)))
  | None => []
  end.

Definition cons_step s : option (cst T) :=
  let goto c s := with_cons c s in
  match c_cons s with
  | C_idle => None
  | C_pop =>
      if c_length s =? 0 then Some (goto C_idle s)
      else Some (with_claim (take 1 (cabs s)) (goto (C_enter true [zero]) s))
  | C_popn n =>
      if n <=? 0 then Some (goto C_idle s)
      else if c_length s =? 0 then Some (goto C_idle s)
      else
        its ← ok (makeslice zero (Z.min n (c_length s)));
        Some (with_claim (take (Z.to_nat n) (cabs s)) (goto (C_enter false its) s))
  | C_enter one its => Some (goto (C_test one its) (with_popping true s))
  | C_test one its =>
      if negb (c_growing s) then Some (goto (C_content one its) s)
      else Some (goto (C_retreat one its) s)
  | C_retreat one its => Some (goto (C_wait one its) (with_popping false s))
  | C_wait one its => if c_growing s then Some s else Some (goto (C_enter one its) s)
  | C_content one its => Some (goto (C_head one its (c_content s)) s)
  | C_head one its b => Some (goto (C_take one its b (c_head s)) s)
  | C_take one its b h =>
      buf ← c_bufs s !! b;
      r ← ok (take_slots one its buf h);
      Some (goto (C_sub r.1 h) (with_bufs (<[b := r.2]> (c_bufs s)) s))
  | C_sub its h => Some (goto (C_sethead its h) (with_length (i64 (c_length s + i64 (- slen its))) s))
  | C_sethead its h => Some (goto (C_leave its) (with_head (i64 (h + slen its)) s))
  | C_leave its => Some (goto (C_ret its) (with_popping false s))
  | C_ret its => Some (goto C_idle s)
  end.

Definition is_waiting s p : bool :=
  match c_wait s !! p with Some _ => true | None => false end.
Definition is_holder s p : bool :=
  match c_lock s with Some (q, _) => (p =? q)%nat | None => false end.

Definition rstep (a : ract T) s : option (cst T) :=
  match a with
  | ACallPush p x =>
      if is_waiting s p || is_holder s p then None
      else Some (with_wait (<[p := x]> (c_wait s)) s)
  | ALock p =>
      match c_lock s, c_wait s !! p with
      | None, Some x =>
          Some (with_lock (Some (p, P_content x)) (with_wait (delete p (c_wait s)) s))
      | _, _ => None
      end
  | AHold => hold_step s
  | ACallPop =>
      match c_cons s with C_idle => Some (with_cons C_pop s) | _ => None end
  | ACallPopN n =>
      match c_cons s with C_idle => Some (with_cons (C_popn n) s) | _ => None end
  | ACons => cons_step s
  end.

Definition rinit (size : Z) : exec (cst T) :=
  rb ← New zero size;
  Ok (CSt [rb_content rb] 0 (rb_head rb) (rb_tail rb) (rb_length rb) (rb_growing rb)
          (rb_popping rb) ∅ None C_idle 0 []).

(** ** The atomic queue *)

(** What an operation does to the abstract queue, at one instant between its
    call and its return; [EvRet] is the return of a successful [Pop] or [PopN]. *)
Inductive qev :=
  | EvPush (x : T)
  | EvEmpty
  | EvTake (n : Z)
  | EvRet (its : list T).

(** Its state: the queue, and the batch taken but not yet returned. *)
Inductive qstep : qev -> list T * list T -> list T * list T -> Prop :=
  | qs_push x q c : qstep (EvPush x) (q, c) (q ++ [x], c)
  | qs_empty c : qstep EvEmpty ([], c) ([], c)
  | qs_take n q c : 0 < n -> q <> [] ->
      qstep (EvTake n) (q, c) (drop (Z.to_nat n) q, take (Z.to_nat n) q)
  | qs_ret q c : qstep (EvRet c) (q, c) (q, c).

Inductive qsteps : list qev -> list T * list T -> list T * list T -> Prop :=
  | qsteps_nil q : qsteps [] q q
  | qsteps_cons e es q q' q'' : qstep e q q' -> qsteps es q' q'' -> qsteps (e :: es) q q''.

(** The instant at which each operation takes effect: a [Push] when it adds to
    [length], a [Pop] or [PopN] when it loads [length]. *)
Definition event (a : ract T) s : option qev :=
  match a with
  | AHold => match c_lock s with Some (_, P_addlen x) => Some (EvPush x) | _ => None end
  | ACons =>
      match c_cons s with
      | C_pop => Some (if c_length s =? 0 then EvEmpty else EvTake 1)
      | C_popn n =>
          if n <=? 0 then None
          else Some (if c_length s =? 0 then EvEmpty else EvTake n)
      | C_ret its => Some (EvRet its)
      | _ => None
      end
  | _ => None
  end.

Fixpoint rtrace (l : list (ract T)) s : list qev :=
  match l with
  | [] => []
  | a :: l =>
      match rstep a s with
      | None => []
      | Some s' => match event a s with Some e => e :: rtrace l s' | None => rtrace l s' end
      end
  end.

(** ** Invariant *)

(** [grow] has set [growing]. *)
Definition grows (l : option (nat * ppc T)) : bool :=
  match l with
  | Some (_, (P_spin _ _ _ | P_rehead _ _ _ | P_double _ _ _ _ | P_publish _ _ _ | P_ungrow _ _ _)) =>
      true
  | _ => false
  end.
(** [grow] is past its half of the handshake. *)
Definition copies (l : option (nat * ppc T)) : bool :=
  match l with
  | Some (_, (P_rehead _ _ _ | P_double _ _ _ _ | P_publish _ _ _ | P_ungrow _ _ _)) => true
  | _ => false
  end.
(** The consumer has set [popping]. *)
Definition pops (c : cpc T) : bool :=
  match c with
  | C_test _ _ | C_retreat _ _ | C_content _ _ | C_head _ _ _ | C_take _ _ _ _
  | C_sub _ _ | C_sethead _ _ | C_leave _ => true
  | _ => false
  end.
(** The consumer is in its critical section. *)
Definition critical (c : cpc T) : bool :=
  match c with
  | C_content _ _ | C_head _ _ _ | C_take _ _ _ _ | C_sub _ _ | C_sethead _ _ | C_leave _ => true
  | _ => false
  end.

Definition hold_ok (k : Z) (b : buffer T) s : Prop :=
  let here i t := i = c_content s /\ t = c_tail s in
  let room := c_tail s - c_head s < 2 ^ k in
  match c_lock s with
  | None => True
  | Some (_, pc) =>
      match pc with
      | P_content _ => True
      | P_tail _ i => i = c_content s
      | P_check _ i t | P_grow _ i t | P_spin _ i t | P_rehead _ i t => here i t
      | P_double _ i t h => here i t /\ h = c_head s /\ t - h = 2 ^ k
      | P_publish _ i t =>
          t = c_tail s /\ t - c_head s = 2 ^ k /\
          exists b', c_bufs s !! i = Some b' /\ buf_ok (k + 1) b' /\
            forall j, c_head s <= j < c_tail s -> get b' j = get b j
      | P_ungrow _ i t | P_write _ i t => here i t /\ room
      | P_settail x t => t = c_tail s /\ room /\ get b t = Some x
      | P_addlen x => get b (c_tail s - 1) = Some x
      | P_unlock => True
      end
  end.

(** Before the slots are copied out: the claim is still in them. *)
Definition claimed (one : bool) (its : list T) (b : buffer T) s : Prop :=
  its = replicate (length its) zero /\ (0 < length its)%nat /\
  (one = true -> length its = 1%nat) /\ c_claim s = window zero b (c_head s) (length its).

Definition cons_ok (b : buffer T) s : Prop :=
  match c_cons s with
  | C_idle | C_pop | C_popn _ => True
  | C_enter one its | C_test one its | C_retreat one its | C_wait one its
  | C_content one its => claimed one its b s
  | C_head one its i => claimed one its b s /\ i = c_content s
  | C_take one its i h => claimed one its b s /\ i = c_content s /\ h = c_head s
  | C_sub its h | C_sethead its h => its = c_claim s /\ h = c_head s
  | C_leave its | C_ret its => its = c_claim s
  end.

Definition subbed (c : cpc T) : Z := match c with C_sethead its _ => slen its | _ => 0 end.

Record rinv (k : Z) (b : buffer T) s : Prop := RInv {
  ri_buf : c_bufs s !! c_content s = Some b;
  ri_ok : buf_ok k b;
  ri_tail : c_tail s = c_n s;
  ri_head : 0 <= c_head s /\ c_head s + held (c_cons s) <= c_tail s - pend (c_lock s);
  ri_room : c_tail s - c_head s <= 2 ^ k;
  ri_len : c_length s = c_tail s - pend (c_lock s) - c_head s - subbed (c_cons s);
  ri_hold : hold_ok k b s;
  ri_grow : c_growing s = grows (c_lock s);
  ri_pop : c_popping s = pops (c_cons s);
  ri_excl : copies (c_lock s) = true -> critical (c_cons s) = false;
  ri_cons : cons_ok b s;
}.

(** Within this many pushes no cursor and no capacity wraps around. *)
Definition max_pushes : Z := 2 ^ 61.

Definition rInv s : Prop := exists k b, rinv k b s.

(** The abstract effect of a step. *)
Definition sim (e : option qev) s s' : Prop :=
  match e with
  | Some e => qstep e (cabs s, c_claim s) (cabs s', c_claim s')
  | None => cabs s' = cabs s /\ c_claim s' = c_claim s
  end.

(** ** Frame lemmas *)

Lemma rinv_bounds k b s :
  rinv k b s -> c_n s <= max_pushes ->
  0 <= c_head s <= c_tail s /\ c_tail s <= 2 ^ 61 /\ 2 <= 2 ^ k <= 2 ^ 62 /\
  mask b = 2 ^ k - 1 /\ 0 <= held (c_cons s) /\ 0 <= pend (c_lock s) <= 1.
Proof.
  intros [] Hn. unfold max_pushes in Hn. pose proof (cap_bounds _ _ ri_ok0).
  assert (0 <= held (c_cons s)) by (unfold held; destruct (c_cons s); unfold slen; lia).
  assert (0 <= pend (c_lock s) <= 1) by (unfold pend; repeat case_match; lia).
  pose proof (bo_mask _ _ ri_ok0). split_and!; lia.
Qed.

(** The consumer's promise survives a change of the array elsewhere. *)
Lemma cons_ok_frame b b' s s' :
  cons_ok b s -> c_cons s' = c_cons s -> c_head s' = c_head s -> c_claim s' = c_claim s ->
  (critical (c_cons s) = true -> c_content s' = c_content s) ->
  (forall j, c_head s <= j < c_head s + held (c_cons s) -> get b' j = get b j) ->
  cons_ok b' s'.
Proof.
  unfold cons_ok, claimed, critical, held. intros H -> -> -> Hct Hg.
  destruct (c_cons s); try done;
    repeat match goal with H : _ /\ _ |- _ => destruct H end;
    try rewrite Hct by done; split_and!; try done;
    (etrans; [eassumption|]; apply window_ext; intros; symmetry; apply Hg; unfold slen; lia).
Qed.

Lemma cabs_ext b b' s s' :
  c_bufs s !! c_content s = Some b -> c_bufs s' !! c_content s' = Some b' ->
  c_head s' + held (c_cons s') = c_head s + held (c_cons s) ->
  c_tail s' - pend (c_lock s') = c_tail s - pend (c_lock s) ->
  (forall j, c_head s + held (c_cons s) <= j < c_tail s - pend (c_lock s) -> get b' j = get b j) ->
  cabs s' = cabs s.
Proof.
  intros Hb Hb' Hh Ht Hg. unfold cabs. rewrite Hb, Hb', Hh.
  replace (c_tail s' - pend (c_lock s') - c_head s' - held (c_cons s'))
    with (c_tail s - pend (c_lock s) - c_head s - held (c_cons s)) by lia.
  apply window_ext. intros j Hj. apply Hg. lia.
Qed.

Ltac open_state s :=
  destruct s as [bufs ct hd tl len gr po wt lk cs n cl]; unfold sim, event in *; simpl in *.

(** Close the fields of [rinv] a step leaves alone. *)
Ltac keep_inv := split; simpl in *; try done; try congruence; try lia.

Lemma critical_pops (c : cpc T) : pops c = false -> critical c = false.
Proof. by destruct c. Qed.

(** Steps of the holder that touch no slot and no cursor. *)
Lemma hold_plain_ok k b s s' p pc :
  rinv k b s -> c_n s <= max_pushes -> c_lock s = Some (p, pc) ->
  match pc with
  | P_content _ | P_tail _ _ | P_check _ _ _ | P_grow _ _ _ | P_spin _ _ _ | P_rehead _ _ _
  | P_ungrow _ _ _ | P_unlock => True
  | _ => False
  end ->
  hold_step s = Some s' -> rInv s' /\ sim (event AHold s) s s'.
Proof.
  intros Hi Hn Hl Hpc Hs. pose proof (rinv_bounds k b s Hi Hn) as Hbd. open_state s. subst lk.
  destruct Hi as [Hb Hok Ht Hh Hr Hlen Hold Hg Hp Hx Hc]. unfold hold_ok, hold_step in *. simpl in *.
  destruct pc; try done; simpl in *;
    repeat match goal with H : _ /\ _ |- _ => destruct H end; simplify_eq; simpl in *;
    try (rewrite Hb in Hs; simpl in Hs; unwrap).
  all: repeat case_match; simplify_eq; reflect_bools.
  all: split; [exists k, b|done].
  all: keep_inv; try (unfold hold_ok; simpl; split_and!; done || lia).
  intros _. by apply critical_pops.
Qed.

(** Allocating the new array and copying into it. *)
Lemma hold_double_ok k b s s' p x i t h :
  rinv k b s -> c_n s <= max_pushes -> c_lock s = Some (p, P_double x i t h) ->
  hold_step s = Some s' -> rInv s' /\ sim (event AHold s) s s'.
Proof.
  intros Hi Hn Hl Hs. pose proof (rinv_bounds k b s Hi Hn) as Hbd. open_state s. subst lk.
  destruct Hi as [Hb Hok Ht Hh Hr Hlen Hold Hg Hp Hx Hc]. unfold hold_ok, hold_step in *. simpl in *.
  destruct Hold as ((-> & ->) & -> & Hfull). rewrite Hb in Hs. simpl in Hs.
  destruct (double_ok zero k b hd tl) as (b' & E & Hok' & Hlive & _); [done| |lia..|].
  { apply (Z.pow_lt_mono_r_iff 2); [lia|destruct Hok; lia|lia]. }
  rewrite E in Hs. simplify_eq/=.
  pose proof (lookup_lt_Some _ _ _ Hb).
  assert ((bufs ++ [b']) !! ct = Some b) as Hb2 by by rewrite lookup_app_l.
  split.
  - exists k, b. keep_inv. unfold hold_ok. simpl. split_and!; [done|lia|].
    exists b'. by rewrite lookup_app_r, Nat.sub_diag by lia.
  - split; [|done]. by eapply cabs_ext.
Qed.

(** Publishing it. *)
Lemma hold_publish_ok k b s s' p x i t :
  rinv k b s -> c_n s <= max_pushes -> c_lock s = Some (p, P_publish x i t) ->
  hold_step s = Some s' -> rInv s' /\ sim (event AHold s) s s'.
Proof.
  intros Hi Hn Hl Hs. pose proof (rinv_bounds k b s Hi Hn) as Hbd. open_state s. subst lk.
  destruct Hi as [Hb Hok Ht Hh Hr Hlen Hold Hg Hp Hx Hc]. unfold hold_ok, hold_step in *. simpl in *.
  destruct Hold as (-> & Hfull & b' & Hb' & Hok' & Hlive). simplify_eq/=.
  pose proof (cap_bounds _ _ Hok').
  assert (2 ^ (k + 1) = 2 * 2 ^ k) by (rewrite Z.pow_add_r by (destruct Hok; lia); lia).
  split.
  - exists (k + 1), b'. keep_inv; [unfold hold_ok; simpl; split_and!; done || lia|].
    eapply cons_ok_frame; [done..| |]; simpl; [by rewrite Hx|].
    intros j Hj. apply Hlive. lia.
  - split; [|done]. eapply cabs_ext; simpl; [done..|]. intros j Hj. apply Hlive. lia.
Qed.

(** Writing the item into the free slot at [tail]. *)
Lemma hold_write_ok k b s s' p x i t :
  rinv k b s -> c_n s <= max_pushes -> c_lock s = Some (p, P_write x i t) ->
  hold_step s = Some s' -> rInv s' /\ sim (event AHold s) s s'.
Proof.
  intros Hi Hn Hl Hs. pose proof (rinv_bounds k b s Hi Hn) as Hbd. open_state s. subst lk.
  destruct Hi as [Hb Hok Ht Hh Hr Hlen Hold Hg Hp Hx Hc]. unfold hold_ok, hold_step in *. simpl in *.
  destruct Hold as ((-> & ->) & Hroom). rewrite Hb in Hs. simpl in Hs.
  destruct (store_ok k b tl x Hok) as (its & E & Hok' & Hsame & Hother).
  rewrite E in Hs. simplify_eq/=. pose proof (lookup_lt_Some _ _ _ Hb).
  assert (<[ct:=Buffer its (mask b)]> bufs !! ct = Some (Buffer its (mask b))) as Hb2
    by by apply list_lookup_insert_eq.
  assert (forall j, hd <= j < n -> get (Buffer its (mask b)) j = get b j) as Hlive.
  { intros j Hj. apply Hother. intros Hm. apply mod_inj in Hm; lia. }
  split.
  - exists k, (Buffer its (mask b)). keep_inv.
    eapply cons_ok_frame; [done..|]; simpl. intros j Hj. apply Hlive. lia.
  - split; [|done]. eapply cabs_ext; simpl; [done..|]. intros j Hj. apply Hlive. lia.
Qed.

(** Advancing [tail], then [length]: the second publishes the item. *)
Lemma hold_settail_ok k b s s' p x t :
  rinv k b s -> c_n s' <= max_pushes -> c_lock s = Some (p, P_settail x t) ->
  hold_step s = Some s' -> rInv s' /\ sim (event AHold s) s s'.
Proof.
  intros Hi Hn Hl Hs. open_state s. subst lk. unfold hold_step in Hs. simplify_eq/=.
  pose proof (rinv_bounds k b _ Hi ltac:(simpl; lia)) as Hbd. simpl in Hbd.
  destruct Hi as [Hb Hok Ht Hh Hr Hlen Hold Hg Hp Hx Hc]. unfold hold_ok in Hold. simpl in *.
  destruct Hold as (-> & Hroom & Hget). unwrap. split.
  - exists k, b. keep_inv. unfold hold_ok. simpl. rewrite <- Hget. f_equal. lia.
  - split; [|done]. eapply cabs_ext; simpl; done || lia.
Qed.

Lemma hold_addlen_ok k b s s' p x :
  rinv k b s -> c_n s <= max_pushes -> c_lock s = Some (p, P_addlen x) ->
  hold_step s = Some s' -> rInv s' /\ sim (event AHold s) s s'.
Proof.
  intros Hi Hn Hl Hs. pose proof (rinv_bounds k b s Hi Hn) as Hbd. open_state s. subst lk.
  destruct Hi as [Hb Hok Ht Hh Hr Hlen Hold Hg Hp Hx Hc]. unfold hold_ok, hold_step in *. simpl in *.
  assert (0 <= subbed cs <= held cs) by (destruct cs; simpl; unfold slen; lia).
  simplify_eq/=. unwrap. split.
  - exists k, b. keep_inv.
  - unfold cabs. simpl. rewrite Hb.
    replace (Z.to_nat (n - 0 - hd - held cs)) with (S (Z.to_nat (n - 1 - hd - held cs))) by lia.
    rewrite window_snoc. replace (hd + held cs + _) with (n - 1) by lia.
    rewrite Hold. constructor.
Qed.

Lemma hold_step_ok k b s s' :
  rinv k b s -> c_n s <= max_pushes -> c_n s' <= max_pushes ->
  hold_step s = Some s' -> rInv s' /\ sim (event AHold s) s s'.
Proof.
  intros Hi Hn Hn' Hs. destruct (c_lock s) as [[p pc]|] eqn:Hl.
  - destruct pc;
      first [ by eapply hold_plain_ok | by eapply hold_double_ok | by eapply hold_publish_ok
            | by eapply hold_write_ok | by eapply hold_settail_ok | by eapply hold_addlen_ok ].
  - unfold hold_step in Hs. by rewrite Hl in Hs.
Qed.

(** Steps of the consumer that only move it, or flip its flag. *)
Lemma cons_plain_ok k b s s' :
  rinv k b s -> c_n s <= max_pushes ->
  match c_cons s with
  | C_enter _ _ | C_test _ _ | C_retreat _ _ | C_wait _ _ | C_content _ _ | C_head _ _ _
  | C_leave _ | C_ret _ => True
  | _ => False
  end ->
  cons_step s = Some s' -> rInv s' /\ sim (event ACons s) s s'.
Proof.
  intros Hi Hn Hpc Hs. open_state s.
  destruct Hi as [Hb Hok Ht Hh Hr Hlen Hold Hg Hp Hx Hc]. unfold cons_ok, cons_step in *. simpl in *.
  destruct cs; try done; simpl in *; repeat case_match; simplify_eq/=; reflect_bools;
    (split; [exists k, b|first [done | subst; constructor]]).
  all: keep_inv.
  - intros Hcp. destruct lk as [[p []]|]; simpl in *; congruence.
  - unfold cons_ok. simpl. destruct Hc. done.
Qed.

(** Claiming [m] items of a queue that holds at least [m]. *)
Lemma claim_ok k b s one its rq :
  rinv k b s -> c_n s <= max_pushes -> held (c_cons s) = 0 -> subbed (c_cons s) = 0 ->
  critical (c_cons s) = false -> pops (c_cons s) = false ->
  its = replicate (length its) zero -> (0 < length its)%nat -> (one = true -> length its = 1%nat) ->
  slen its = Z.min rq (c_length s) ->
  let s' := with_claim (take (Z.to_nat rq) (cabs s)) (with_cons (C_enter one its) s) in
  rInv s' /\ qstep (EvTake rq) (cabs s, c_claim s) (cabs s', c_claim s').
Proof.
  intros Hi Hn Hhe Hsu Hcr Hpo Hits Hpos Hone Hm s'. subst s'.
  pose proof (rinv_bounds k b s Hi Hn) as Hbd. open_state s.
  destruct Hi as [Hb Hok Ht Hh Hr Hlen Hold Hg Hp Hx Hc]. simpl in *. unfold slen in Hm.
  assert (take (Z.to_nat rq) (cabs (CSt bufs ct hd tl len gr po wt lk cs n cl)) =
          window zero b hd (length its)) as Htake.
  { unfold cabs. simpl. rewrite Hb, Hhe, Z.add_0_r.
    destruct (decide (rq <= len)).
    - rewrite window_take by lia. f_equal. lia.
    - rewrite take_ge by (rewrite window_length; lia). f_equal. lia. }
  split.
  - exists k, b. keep_inv. unfold slen. lia.
  - simpl. replace (cabs (with_claim _ _)) with
      (drop (Z.to_nat rq) (cabs (CSt bufs ct hd tl len gr po wt lk cs n cl))); cycle 1.
    { unfold cabs. simpl. rewrite Hb, Hhe, Z.add_0_r. unfold slen.
      destruct (decide (rq <= len)).
      - rewrite window_drop by lia. f_equal; lia.
      - rewrite drop_ge by (rewrite window_length; lia). by replace (Z.to_nat _) with O by lia. }
    constructor; [lia|]. intros E. rewrite E in Htake.
    apply (f_equal length) in Htake. rewrite take_nil, window_length in Htake. simpl in *. lia.
Qed.

Lemma cabs_empty k b s :
  rinv k b s -> held (c_cons s) = 0 -> subbed (c_cons s) = 0 -> c_length s = 0 -> cabs s = [].
Proof.
  intros [] Hh Hs Hl. unfold cabs. rewrite ri_buf0. by replace (Z.to_nat _) with O by lia.
Qed.

Lemma cons_claim_ok k b s s' :
  rinv k b s -> c_n s <= max_pushes ->
  match c_cons s with C_pop | C_popn _ => True | _ => False end ->
  cons_step s = Some s' -> rInv s' /\ sim (event ACons s) s s'.
Proof.
  intros Hi Hn Hpc Hs. pose proof (rinv_bounds k b s Hi Hn) as Hbd.
  assert (rinv k b (with_cons C_idle s)) as Hidle.
  { destruct Hi. open_state s. destruct cs; try done; keep_inv. }
  destruct (c_cons s) eqn:Hcs; try done; unfold sim, event, cons_step in *; rewrite Hcs in *.
  - destruct (Z.eqb_spec (c_length s) 0) as [E|E]; simplify_eq.
    + split; [by exists k, b|]. rewrite (cabs_empty k b s) by (by rewrite ?Hcs).
      rewrite (cabs_empty k b) by done. constructor.
    + change 1%nat with (Z.to_nat 1). eapply claim_ok; rewrite ?Hcs; try done.
      * simpl. lia.
      * simpl. pose proof (ri_len _ _ _ Hi) as Hl. rewrite Hcs in Hl. simpl in Hl.
        destruct Hi. rewrite Hcs in *. simpl in *. unfold slen; simpl. lia.
  - destruct (Z.leb_spec n 0); simplify_eq.
    { split; [by exists k, b|]. split; [|done]. unfold cabs. simpl. by rewrite Hcs. }
    destruct (Z.eqb_spec (c_length s) 0) as [E|E]; simplify_eq.
    + split; [by exists k, b|]. rewrite (cabs_empty k b s) by (by rewrite ?Hcs).
      rewrite (cabs_empty k b) by done. constructor.
    + assert (0 < c_length s) as Hpos.
      { destruct Hi. rewrite Hcs in *. simpl in *. lia. }
      rewrite makeslice_ok in Hs by lia. simplify_eq/=.
      eapply claim_ok; rewrite ?Hcs, ?length_replicate; try done; unfold slen;
        rewrite ?length_replicate; lia.
Qed.

(** Copying the batch out of its slots and clearing them. *)
Lemma take_slots_ok k b h one its :
  buf_ok k b -> 0 <= h <= 2 ^ 62 -> its = replicate (length its) zero ->
  (0 < length its)%nat -> slen its <= 2 ^ k -> (one = true -> length its = 1%nat) ->
  exists b', take_slots one its b h = Ok (window zero b h (length its), b') /\ buf_ok k b' /\
    mask b' = mask b /\
    (forall j, h + slen its <= j < h + 2 ^ k -> get b' j = get b j).
Proof.
  intros Hok Hh Hits Hpos Hle Hone. unfold take_slots. destruct one.
  - rewrite (Hone eq_refl) in *. destruct (index_ok k b h Hok) as (x & -> & Hx). simpl.
    destruct (store_ok k b h zero Hok) as (arr & -> & Hok' & _ & Ho). simpl. rewrite Hx.
    eexists. split_and!; [done|done|done|]. unfold slen. rewrite (Hone eq_refl).
    intros j Hj. apply Ho. intros Hm. apply mod_inj in Hm; lia.
  - unfold slen in *. destruct (drain_ok zero k b h (Z.of_nat (length its))) as (b' & E & Hok' & _ & Hk);
      [done..|lia|]. rewrite Nat2Z.id, <- Hits in E. rewrite E.
    exists b'. split_and!; [done|done| |done]. rewrite (bo_mask _ _ Hok), (bo_mask _ _ Hok'). done.
Qed.

(** What the holder of [mu] relies on is outside the batch. *)
Lemma hold_ok_take k b b' s bufs' c :
  hold_ok k b s -> copies (c_lock s) = false ->
  c_head s + held (c_cons s) <= c_tail s - pend (c_lock s) -> c_tail s - c_head s <= 2 ^ k ->
  (forall j, c_head s + held (c_cons s) <= j < c_head s + 2 ^ k -> get b' j = get b j) ->
  hold_ok k b' (with_cons c (with_bufs bufs' s)).
Proof.
  intros H Hc Hh Hr Hg. unfold hold_ok in *. simpl. unfold pend in Hh.
  destruct (c_lock s) as [[p []]|]; try done; simpl in *.
  - destruct H as (-> & ? & ?). split_and!; [done|done|]. rewrite Hg by lia. done.
  - rewrite Hg by lia. done.
Qed.

Lemma cons_take_ok k b s s' one its i h :
  rinv k b s -> c_n s <= max_pushes -> c_cons s = C_take one its i h ->
  cons_step s = Some s' -> rInv s' /\ sim (event ACons s) s s'.
Proof.
  intros Hi Hn Hcs Hs. pose proof (rinv_bounds k b s Hi Hn) as Hbd.
  assert (copies (c_lock s) = false) as Hcp.
  { destruct (copies (c_lock s)) eqn:E; [|done]. apply (ri_excl _ _ _ Hi) in E.
    by rewrite Hcs in E. }
  pose proof (hold_ok_take k b) as Hframe. specialize (Hframe) with (s := s).
  open_state s. subst cs.
  destruct Hi as [Hb Hok Ht Hh Hr Hlen Hold Hg Hp Hx Hc]. unfold cons_ok, cons_step in *. simpl in *.
  destruct Hc as ((Hits & Hpos & Hone & Hcl) & -> & ->). rewrite Hb in Hs. simpl in Hs.
  destruct (take_slots_ok k b hd one its) as (b' & E & Hok' & Hm & Hkeep);
    [done|lia|done|done|lia|done|].
  rewrite E in Hs. simplify_eq/=. pose proof (lookup_lt_Some _ _ _ Hb).
  assert (slen (window zero b hd (length its)) = slen its) as Hsl
    by (unfold slen; by rewrite window_length).
  assert (<[ct:=b']> bufs !! ct = Some b') as Hb2 by by apply list_lookup_insert_eq.
  split.
  - exists k, b'. keep_inv. apply (Hframe b'); done || lia.
  - split; [|done]. eapply cabs_ext; simpl; [done..|lia|done|].
    intros j Hj. apply Hkeep. lia.
Qed.

(** [length], then [head]: from here on the slots are free. *)
Lemma cons_sub_ok k b s s' its h :
  rinv k b s -> c_n s <= max_pushes -> c_cons s = C_sub its h ->
  cons_step s = Some s' -> rInv s' /\ sim (event ACons s) s s'.
Proof.
  intros Hi Hn Hcs Hs. pose proof (rinv_bounds k b s Hi Hn) as Hbd. open_state s. subst cs.
  destruct Hi as [Hb Hok Ht Hh Hr Hlen Hold Hg Hp Hx Hc]. unfold cons_ok, cons_step in *. simpl in *.
  simplify_eq/=. unwrap. split; [|done]. exists k, b. keep_inv.
Qed.

Lemma cons_sethead_ok k b s s' its h :
  rinv k b s -> c_n s <= max_pushes -> c_cons s = C_sethead its h ->
  cons_step s = Some s' -> rInv s' /\ sim (event ACons s) s s'.
Proof.
  intros Hi Hn Hcs Hs. pose proof (rinv_bounds k b s Hi Hn) as Hbd.
  assert (copies (c_lock s) = false) as Hcp.
  { destruct (copies (c_lock s)) eqn:E; [|done]. apply (ri_excl _ _ _ Hi) in E.
    by rewrite Hcs in E. }
  open_state s. subst cs.
  destruct Hi as [Hb Hok Ht Hh Hr Hlen Hold Hg Hp Hx Hc]. unfold cons_ok, cons_step in *. simpl in *.
  destruct Hc as (Hits & ->). simplify_eq/=. unwrap. split.
  - exists k, b. keep_inv. unfold hold_ok in *. simpl in *.
    destruct lk as [[p []]|]; simpl in *; intuition (done || lia).
  - split; [|done]. eapply cabs_ext; simpl; done || lia.
Qed.

Lemma cons_step_ok k b s s' :
  rinv k b s -> c_n s <= max_pushes -> cons_step s = Some s' ->
  rInv s' /\ sim (event ACons s) s s'.
Proof.
  intros Hi Hn Hs. destruct (c_cons s) eqn:Hcs;
    first [ by eapply cons_take_ok | by eapply cons_sub_ok | by eapply cons_sethead_ok
          | by eapply cons_claim_ok; rewrite ?Hcs
          | by eapply cons_plain_ok; rewrite ?Hcs
          | by unfold cons_step in Hs; rewrite Hcs in Hs ].
Qed.

(** ** Every step preserves the invariant and is atomic or silent *)

Lemma rstep_mono a s s' : rstep a s = Some s' -> c_n s <= c_n s' <= c_n s + 1.
Proof.
  intros Hs. open_state s. unfold rstep, hold_step, cons_step in Hs. simpl in *.
  destruct a; [| |destruct lk as [[p []]|]| | |destruct cs]; simpl in Hs;
    repeat (simplify_option_eq; try case_match; simplify_eq/=); try lia.
Qed.

Lemma rstep_ok a s s' :
  rInv s -> c_n s' <= max_pushes -> rstep a s = Some s' -> rInv s' /\ sim (event a s) s s'.
Proof.
  intros (k & b & Hi) Hn Hs. pose proof (rstep_mono _ _ _ Hs).
  destruct a as [q x|q| | |m|]; simpl in Hs.
  - case_match; simplify_eq. split; [exists k, b|done]. destruct Hi. keep_inv.
  - repeat case_match; simplify_eq. split.
    + exists k, b. destruct Hi. open_state s. subst lk. keep_inv.
    + unfold sim. simpl. split; [|done]. unfold cabs. simpl.
      by repeat match goal with H : c_lock s = _ |- _ => rewrite H | H : c_cons s = _ |- _ => rewrite H end.
  - eapply hold_step_ok; done || lia.
  - case_match; simplify_eq. split.
    + exists k, b. destruct Hi. open_state s. subst cs. keep_inv.
    + unfold sim. simpl. split; [|done]. unfold cabs. simpl.
      by repeat match goal with H : c_lock s = _ |- _ => rewrite H | H : c_cons s = _ |- _ => rewrite H end.
  - case_match; simplify_eq. split.
    + exists k, b. destruct Hi. open_state s. subst cs. keep_inv.
    + unfold sim. simpl. split; [|done]. unfold cabs. simpl.
      by repeat match goal with H : c_lock s = _ |- _ => rewrite H | H : c_cons s = _ |- _ => rewrite H end.
  - eapply cons_step_ok; done || lia.
Qed.

Lemma rinit_ok size :
  - 2 ^ 63 <= size < 2 ^ 63 ->
  exists s, rinit size = Ok s /\ rInv s /\ cabs s = [] /\ c_claim s = [] /\ c_n s = 0 /\
    c_lock s = None /\ c_cons s = C_idle /\ c_wait s = ∅.
Proof.
  intros Hs. unfold rinit. destruct (New_ok zero size Hs) as (rb & -> & (k & Hwf) & Hc & Ht).
  simpl. eexists. split; [done|]. split; [|split; [|done]].
  - exists k, (rb_content rb). destruct Hwf. keep_inv; simpl in *; try lia.
  - unfold cabs. simpl. rewrite <- Hc. unfold contents. f_equal; lia.
Qed.

Lemma run_mono l s s' : run rstep l s = Some s' -> c_n s <= c_n s'.
Proof.
  revert s. induction l as [|a l IH]; intros s Hr; simpl in Hr; [by simplify_eq|].
  destruct (rstep a s) eqn:E; simplify_eq/=. apply IH in Hr. apply rstep_mono in E. lia.
Qed.

Lemma run_ok l s s' :
  rInv s -> run rstep l s = Some s' -> c_n s' <= max_pushes ->
  rInv s' /\ qsteps (rtrace l s) (cabs s, c_claim s) (cabs s', c_claim s').
Proof.
  revert s. induction l as [|a l IH]; intros s Hi Hr Hn; simpl in *.
  { simplify_eq. split; [done|constructor]. }
  destruct (rstep a s) as [s1|] eqn:E; simplify_eq/=.
  pose proof (run_mono _ _ _ Hr). destruct (rstep_ok a s s1 Hi) as [Hi1 Hsim]; [lia|done|].
  destruct (IH s1 Hi1 Hr Hn) as [Hi' Hq]. split; [done|].
  unfold sim in Hsim. destruct (event a s).
  - by econstructor.
  - destruct Hsim as [<- <-]. done.
Qed.

(** ** Data races

    The slots are plain memory. A producer about to write a slot, or copying
    the array, conflicts with a consumer about to copy and clear one of the
    same slots of the same array. *)
Definition conflict s : bool :=
  match c_lock s, c_cons s with
  | Some (_, P_write _ b t), C_take _ its b' h =>
      (b =? b')%nat &&
      match c_bufs s !! b with
      | Some buf => existsb (fun i => Z.land (h + Z.of_nat i) (mask buf) =? Z.land t (mask buf))
                      (seq 0 (length its))
      | None => false
      end
  | Some (_, P_double _ b _ _), C_take _ _ b' _ => (b =? b')%nat
  | _, _ => false
  end.

Lemma no_conflict s : rInv s -> c_n s <= max_pushes -> conflict s = false.
Proof.
  intros (k & b & Hi) Hn. pose proof (rinv_bounds k b s Hi Hn) as Hbd. open_state s.
  destruct Hi as [Hb Hok Ht Hh Hr Hlen Hold Hg Hp Hx Hc]. unfold conflict. simpl in *.
  destruct lk as [[p []]|]; try done; destruct cs; try done; simpl in *.
  - by specialize (Hx eq_refl).
  - unfold hold_ok, cons_ok in *. simpl in *.
    destruct Hold as ((-> & ->) & ?), Hc as (? & -> & ->).
    rewrite Hb. apply andb_false_iff. right. apply not_true_is_false. intros He.
    apply existsb_exists in He as (j & Hin & Hj). apply in_seq in Hin. reflect_bools.
    rewrite !(slot_mod k) in Hj by done. unfold slen in *. apply mod_inj in Hj; lia.
Qed.

(** ** Progress *)

Lemma hold_enabled k b s p pc :
  rinv k b s -> c_n s <= max_pushes -> c_lock s = Some (p, pc) -> is_Some (hold_step s).
Proof.
  intros Hi Hn Hl. pose proof (rinv_bounds k b s Hi Hn) as Hbd. open_state s. subst lk.
  destruct Hi as [Hb Hok Ht Hh Hr Hlen Hold Hg Hp Hx Hc]. unfold hold_ok, hold_step in *. simpl in *.
  destruct pc; simpl in *; repeat match goal with H : _ /\ _ |- _ => destruct H end;
    subst; rewrite ?Hb; simpl; repeat case_match; eauto.
  - destruct (double_ok zero k b hd n) as (b' & -> & _); simpl; eauto; try lia.
    apply (Z.pow_lt_mono_r_iff 2); [lia|destruct Hok; lia|lia].
  - destruct (store_ok k b n x Hok) as (its & -> & _). simpl. eauto.
Qed.

Lemma cons_enabled k b s :
  rinv k b s -> c_n s <= max_pushes -> c_cons s <> C_idle -> is_Some (cons_step s).
Proof.
  intros Hi Hn Hl. pose proof (rinv_bounds k b s Hi Hn) as Hbd. open_state s.
  destruct Hi as [Hb Hok Ht Hh Hr Hlen Hold Hg Hp Hx Hc]. unfold cons_ok, cons_step in *. simpl in *.
  destruct cs; try done; simpl in *; repeat case_match; eauto; reflect_bools.
  - rewrite makeslice_ok by lia. simpl. eauto.
  - destruct Hc as ((? & ? & ? & ?) & -> & ->). rewrite Hb. simpl.
    destruct (take_slots_ok k b hd one its) as (b' & -> & _);
      [done|lia|done|done|lia|done|]. simpl. eauto.
Qed.

Definition hweight (l : option (nat * ppc T)) : nat :=
  match l with
  | None => 0
  | Some (_, pc) =>
      match pc with
      | P_content _ => 13 | P_tail _ _ => 12 | P_check _ _ _ => 11 | P_grow _ _ _ => 10
      | P_spin _ _ _ => 9 | P_rehead _ _ _ => 8 | P_double _ _ _ _ => 7 | P_publish _ _ _ => 6
      | P_ungrow _ _ _ => 5 | P_write _ _ _ => 4 | P_settail _ _ => 3 | P_addlen _ => 2
      | P_unlock => 1
      end
  end.

(** Remaining steps of the consumer: while a producer spins in [grow] it stands
    down, otherwise it finishes its operation. *)
Definition cweight (gr : bool) (c : cpc T) : nat :=
  match c with
  | C_idle => 0 | C_ret _ => 1 | C_leave _ => 2 | C_sethead _ _ => 3 | C_sub _ _ => 4
  | C_take _ _ _ _ => 5 | C_head _ _ _ => 6 | C_content _ _ => 7
  | C_test _ _ => if gr then 22 else 8
  | C_enter _ _ => 9 | C_wait _ _ => 20 | C_retreat _ _ => 21 | C_popn _ => 10 | C_pop => 10
  end.

Definition rmeasure s : nat :=
  50 * (20 * size (c_wait s) + hweight (c_lock s)) + cweight (c_growing s) (c_cons s).

(** Producers that still have to advance [tail]. *)
Definition howed (l : option (nat * ppc T)) : Z :=
  match l with Some (_, (P_addlen _ | P_unlock)) => 0 | Some _ => 1 | None => 0 end.
Definition owed s : Z := Z.of_nat (size (c_wait s)) + howed (c_lock s).

Definition quiet s : Prop := c_lock s = None /\ c_wait s = ∅ /\ c_cons s = C_idle.

(** The action a fair scheduler may pick next. *)
Definition next_action s : option (ract T) :=
  match c_lock s with
  | Some (_, P_spin _ _ _) => if c_popping s then Some ACons else Some AHold
  | Some _ => Some AHold
  | None =>
      match c_cons s with
      | C_idle => match map_to_list (c_wait s) with [] => None | (p, _) :: _ => Some (ALock p) end
      | _ => Some ACons
      end
  end.

(** Split the options and tests of a step, one at a time. *)
Ltac step_cases H :=
  repeat (simpl in H;
    match type of H with
    | Some _ = Some _ => injection H as <-
    | None = Some _ => discriminate H
    | (match ?e with _ => _ end) = Some _ => destruct e eqn:?
    | (?e ≫= _) = Some _ => destruct e eqn:?
    end).

Lemma hold_frame s s' :
  hold_step s = Some s' ->
  (c_popping s = false \/ match c_lock s with Some (_, P_spin _ _ _) => False | _ => True end) ->
  c_wait s' = c_wait s /\ c_cons s' = c_cons s /\
  (hweight (c_lock s') < hweight (c_lock s))%nat /\
  c_n s' + howed (c_lock s') = c_n s + howed (c_lock s).
Proof.
  intros Hs Hp. open_state s. unfold hold_step in Hs. simpl in Hs.
  destruct lk as [[p pc]|]; simpl in Hs, Hp; [|done].
  destruct pc; step_cases Hs; simpl in *; try (destruct Hp; congruence);
    split_and!; done || lia.
Qed.

Lemma cons_frame s s' :
  cons_step s = Some s' ->
  c_wait s' = c_wait s /\ c_lock s' = c_lock s /\ c_growing s' = c_growing s /\ c_n s' = c_n s /\
  (c_growing s = false \/ c_popping s = true /\ c_popping s = pops (c_cons s) ->
   (cweight (c_growing s) (c_cons s') < cweight (c_growing s) (c_cons s))%nat).
Proof.
  intros Hs. open_state s. unfold cons_step in Hs. simpl in Hs.
  destruct cs; step_cases Hs; simpl in *; split_and!; try done; intros Hc; simpl; try lia;
    try (destruct gr; simpl in *; try lia; destruct Hc as [?|[? ?]]; congruence).
Qed.

Lemma cweight_bound g1 g2 (c : cpc T) : (cweight g1 c < 50 + cweight g2 c)%nat.
Proof. destruct g1, g2, c; simpl; lia. Qed.

Lemma hold_next s :
  rInv s -> c_n s + owed s <= max_pushes ->
  match c_lock s with
  | Some (_, P_spin _ _ _) => c_popping s = false
  | Some _ => True
  | None => False
  end ->
  exists s', hold_step s = Some s' /\
    c_n s' + owed s' = c_n s + owed s /\ (rmeasure s' < rmeasure s)%nat.
Proof.
  intros (k & b & Hi) Hn Hl. unfold owed, rmeasure in *.
  assert (0 <= howed (c_lock s)) by (unfold howed; repeat case_match; lia).
  destruct (c_lock s) as [[p pc]|] eqn:El; [|done].
  destruct (hold_enabled k b s p pc Hi) as [s' Hs]; [lia|done|]. exists s'. split; [done|].
  destruct (hold_frame s s' Hs) as (-> & -> & Hw & Ho).
  { rewrite El. destruct pc; auto. }
  rewrite El in *. pose proof (cweight_bound (c_growing s') (c_growing s) (c_cons s)). lia.
Qed.

Lemma cons_next s :
  rInv s -> c_n s + owed s <= max_pushes -> c_cons s <> C_idle ->
  c_growing s = false \/ c_popping s = true ->
  exists s', cons_step s = Some s' /\
    c_n s' + owed s' = c_n s + owed s /\ (rmeasure s' < rmeasure s)%nat.
Proof.
  intros (k & b & Hi) Hn Hc Hg. unfold owed, rmeasure in *.
  assert (0 <= howed (c_lock s)) by (unfold howed; repeat case_match; lia).
  destruct (cons_enabled k b s Hi) as [s' Hs]; [lia|done|]. exists s'. split; [done|].
  destruct (cons_frame s s' Hs) as (-> & -> & Eg & -> & Hw). rewrite Eg.
  pose proof (ri_pop _ _ _ Hi). destruct Hw; [tauto|..]; lia.
Qed.

Lemma next_action_ok s :
  rInv s -> c_n s + owed s <= max_pushes -> ~ quiet s ->
  exists a s', next_action s = Some a /\ rstep a s = Some s' /\
    c_n s' + owed s' = c_n s + owed s /\ (rmeasure s' < rmeasure s)%nat.
Proof.
  intros Hi Hn Hq. pose proof Hi as (k & b & Hk). pose proof (ri_pop _ _ _ Hk) as Hp.
  pose proof (ri_grow _ _ _ Hk) as Hg. unfold next_action.
  destruct (c_lock s) as [[p pc]|] eqn:El; [destruct (c_popping s) eqn:Ep|].
  1-2: destruct pc; try (destruct (hold_next s) as (s' & Hs & ?); [done|done|by rewrite El|by eauto]).
  - destruct (cons_next s) as (s' & Hs & ?); [done..| |auto|by eauto].
    intros E. by rewrite E in Hp.
  - destruct (c_cons s) eqn:Ec;
      try (destruct (cons_next s) as (s' & Hs & ?); [done..|by rewrite Ec|auto|by eauto]).
    destruct (map_to_list (c_wait s)) as [|[p x] w] eqn:Ew.
    { apply map_to_list_empty_iff in Ew. by destruct Hq. }
    assert (c_wait s !! p = Some x) as Hx.
    { apply elem_of_map_to_list. rewrite Ew. left. }
    eexists _, _. split; [done|]. simpl. rewrite El, Hx. split; [done|].
    unfold owed, rmeasure. rewrite El. simpl.
    assert (size (c_wait s) <> 0)%nat.
    { intros Hz. apply map_size_empty_inv in Hz. by rewrite Hz in Hx. }
    rewrite map_size_delete_Some by eauto. lia.
Qed.

Lemma quiet_dec s : quiet s \/ ~ quiet s.
Proof.
  unfold quiet. destruct (c_lock s); [right; by intros []|].
  destruct (decide (c_wait s = ∅)); [|right; by intros (_ & ? & _)].
  destruct (c_cons s); auto; right; by intros (_ & _ & ?).
Qed.

Lemma run_to_quiet s :
  rInv s -> c_n s + owed s <= max_pushes ->
  exists l s', run rstep l s = Some s' /\ quiet s' /\ c_n s' = c_n s + owed s.
Proof.
  remember (rmeasure s) as m eqn:Hm. revert s Hm.
  induction m as [m IH] using lt_wf_ind. intros s -> Hi Hn.
  destruct (quiet_dec s) as [Hq|Hq].
  { exists [], s. split; [done|]. split; [done|].
    destruct Hq as (Hl & Hw & _). unfold owed. rewrite Hl, Hw, map_size_empty. simpl. lia. }
  destruct (next_action_ok s Hi Hn Hq) as (a & s1 & _ & Hs & Ho & Hlt).
  assert (0 <= owed s1) by (unfold owed, howed; repeat case_match; lia).
  destruct (rstep_ok a s s1) as [Hi1 _]; [done|lia|done|].
  destruct (IH _ Hlt s1) as (l & s' & Hr & Hq' & Hn'); [done|done|lia|].
  exists (a :: l), s'. simpl. rewrite Hs. simpl. split; [done|]. split; [done|]. lia.
Qed.
End conc.

(** ** Properties *)

(** A run used by the witnesses: three producers fill and grow a buffer of two
    slots while the consumer, which is already committed to a [PopN], stands
    down for the grow and then takes the batch. *)
Definition demo_run : list (ract Z) :=
  [ACallPush 1 11; ALock 1] ++ replicate 7 AHold ++
  [ACallPopN 3; ACons; ACons; ACallPush 2 22; ACallPush 3 33; ALock 3] ++ replicate 7 AHold ++
  [ALock 2; AHold; AHold; AHold; AHold; AHold; AHold; ACons; ACons; AHold] ++
  replicate 3 AHold ++ [ACons; ACons; AHold] ++ replicate 4 ACons ++ replicate 4 AHold ++
  replicate 6 ACons ++ [ACallPopN 5] ++ replicate 10 ACons ++ [ACallPop; ACons].

(** C4: linearizability. In every interleaving of any number of producers with
    the single consumer, within [2^61] pushes, each [Push], [Pop] and [PopN]
    takes effect on one first-in first-out queue at one instant between its
    call and its return (when it adds to or loads [length]); a successful pop
    returns exactly the items taken from the front of that queue, and a pop
    reports failure only when that queue is empty. *)
Theorem ring_linearizable {T : Type} (zero : T) (size : Z) (s0 s : cst T) (l : list (ract T)) :
  - 2 ^ 63 <= size < 2 ^ 63 -> rinit zero size = Ok s0 ->
  run (rstep zero) l s0 = Some s -> c_n s <= max_pushes ->
  qsteps (rtrace zero l s0) ([], []) (cabs zero s, c_claim s).
Proof.
  intros Hsz E Hr Hn. destruct (rinit_ok zero size Hsz) as (s1 & E1 & Hi & Hq & Hc & _).
  rewrite E in E1. injection E1 as <-. rewrite <- Hq, <- Hc at 1.
  by eapply run_ok.
Qed.

Lemma ring_linearizable_witness :
  exists s0 s, rinit 0 2 = Ok s0 /\ run (rstep 0) demo_run s0 = Some s /\
    rtrace 0 demo_run s0 =
      [EvPush 11; EvTake 3; EvPush 33; EvPush 22; EvRet [11]; EvTake 5; EvRet [33; 22]; EvEmpty] /\
    qsteps (rtrace 0 demo_run s0) ([], []) (cabs 0 s, c_claim s).
Proof.
  eexists _, _. split; [vm_compute; reflexivity|]. split; [vm_compute; reflexivity|].
  split; [vm_compute; reflexivity|].
  apply (ring_linearizable 0 2 _ _ demo_run);
    [lia|vm_compute; reflexivity|vm_compute; reflexivity|vm_compute; discriminate].
Defined.

(** C21: data-race freedom. In every reachable state, a producer that is about
    to write a slot, or to copy the array in [grow], and a consumer that is
    about to copy and clear its batch never touch the same slot of the same
    array: the growing/popping handshake and the cursors keep them apart. *)
Theorem ring_no_data_race {T : Type} (zero : T) (size : Z) (s0 s : cst T) :
  - 2 ^ 63 <= size < 2 ^ 63 -> rinit zero size = Ok s0 ->
  reachable (rstep zero) s0 s -> c_n s <= max_pushes -> conflict s = false.
Proof.
  intros Hsz E [l Hl] Hn. destruct (rinit_ok zero size Hsz) as (s1 & E1 & Hi & _).
  rewrite E in E1. injection E1 as <-. apply (no_conflict zero); [|done].
  by eapply run_ok.
Qed.

(** A producer about to write into the doubled array while the consumer is
    about to take its batch from the same array. *)
Definition race_run : list (ract Z) :=
  take 41 demo_run ++ [ACons; ACons].

Lemma ring_no_data_race_witness :
  exists s0 s, rinit 0 2 = Ok s0 /\ run (rstep 0) race_run s0 = Some s /\
    c_lock s = Some (2%nat, P_write 22 1 2) /\ c_cons s = C_take false [0] 1 0 /\
    conflict s = false.
Proof.
  eexists _, _. split; [vm_compute; reflexivity|]. split; [vm_compute; reflexivity|].
  do 2 (split; [vm_compute; reflexivity|]).
  eapply (ring_no_data_race 0 2);
    [lia|vm_compute; reflexivity|exists race_run; vm_compute; reflexivity|vm_compute; discriminate].
Defined.

(** No panic and no missing step. In every reachable state the holder of
    the mutex and the consumer, wherever they are in their operations, can take
    their next step: no index is out of range, no length negative, no pointer
    dangling. *)
Theorem ring_never_stuck {T : Type} (zero : T) (size : Z) (s0 s : cst T) :
  - 2 ^ 63 <= size < 2 ^ 63 -> rinit zero size = Ok s0 ->
  reachable (rstep zero) s0 s -> c_n s <= max_pushes ->
  (c_lock s <> None -> is_Some (rstep zero AHold s)) /\
  (c_cons s <> C_idle -> is_Some (rstep zero ACons s)).
Proof.
  intros Hsz E [l Hl] Hn. destruct (rinit_ok zero size Hsz) as (s1 & E1 & Hi & _).
  rewrite E in E1. injection E1 as <-.
  destruct (run_ok zero l s0 s Hi Hl Hn) as [(k & b & Hk) _]. split; intros H.
  - destruct (c_lock s) as [[p pc]|] eqn:El; [|done]. by eapply hold_enabled.
  - by eapply cons_enabled.
Qed.

Lemma ring_never_stuck_witness :
  exists s0 s, rinit 0 2 = Ok s0 /\ run (rstep 0) race_run s0 = Some s /\
    (c_lock s <> None -> is_Some (rstep 0 AHold s)) /\
    (c_cons s <> C_idle -> is_Some (rstep 0 ACons s)).
Proof.
  eexists _, _. split; [vm_compute; reflexivity|]. split; [vm_compute; reflexivity|].
  eapply (ring_never_stuck 0 2);
    [lia|vm_compute; reflexivity|exists race_run; vm_compute; reflexivity|vm_compute; discriminate].
Defined.

(** No deadlock and no livelock that scheduling cannot end. From every
    reachable state some finite schedule of the goroutines already running,
    with no new calls, completes every pending [Push], [Pop] and [PopN]: the
    mutex is free, nobody waits for it, and the consumer has returned; every
    waiting producer has published its item. *)
Theorem ring_operations_complete {T : Type} (zero : T) (size : Z) (s0 s : cst T) :
  - 2 ^ 63 <= size < 2 ^ 63 -> rinit zero size = Ok s0 ->
  reachable (rstep zero) s0 s -> c_n s + owed s <= max_pushes ->
  exists l s', run (rstep zero) l s = Some s' /\
    c_lock s' = None /\ c_wait s' = ∅ /\ c_cons s' = C_idle /\ c_n s' = c_n s + owed s.
Proof.
  intros Hsz E [l Hl] Hn. destruct (rinit_ok zero size Hsz) as (s1 & E1 & Hi & _).
  rewrite E in E1. injection E1 as <-.
  assert (0 <= owed s) by (unfold owed, howed; repeat case_match; lia).
  destruct (run_ok zero l s0 s Hi Hl) as [Hi' _]; [lia|].
  destruct (run_to_quiet zero s Hi' Hn) as (l' & s' & Hr & (? & ? & ?) & ?).
  by exists l', s'.
Qed.

(** A producer spins in [grow] while the consumer is about to test [growing]. *)
Lemma ring_operations_complete_witness :
  exists s0 s, rinit 0 2 = Ok s0 /\ run (rstep 0) (take 28 demo_run) s0 = Some s /\
    c_lock s = Some (2%nat, P_spin 22 0 2) /\ c_cons s = C_test false [0] /\
    exists l s', run (rstep 0) l s = Some s' /\
      c_lock s' = None /\ c_wait s' = ∅ /\ c_cons s' = C_idle /\ c_n s' = c_n s + owed s.
Proof.
  eexists _, _. split; [vm_compute; reflexivity|]. split; [vm_compute; reflexivity|].
  do 2 (split; [vm_compute; reflexivity|]).
  eapply (ring_operations_complete 0 2);
    [lia|vm_compute; reflexivity|exists (take 28 demo_run); vm_compute; reflexivity
    |vm_compute; discriminate].
Defined.
