(* ===== verification/Inbox.v ===== *)
(** * The inbox scheduler

    [actor/inbox.go]: an inbox is a queue, the [procStatus] word and the rule
    that whoever flips it from idle to running starts the processor goroutine.
    The queue is anything that satisfies [RingBuffer.Queue]; its operations are
    atomic here, with one exception: [Len] loads the length, and a [PopN] that has
    taken its batch lowers it only later, so that a goroutine that looks at the
    queue meanwhile may find a length that is gone ([AStale]).  [InboxConc]
    shows that on the interleaved ring buffer this is all there is.

    Goroutines are the entries of a list, in creation order; a finished one
    stays as [T_done].  [Invoke] runs user code, which may call [Send] or
    [Stop] on the same inbox: those calls are other entries of the list, taken
    while the processor stays at [R_invoking].  The ghosts [sent] and
    [delivered] record the order of pushes and of deliveries; [late] counts the
    batches handed over after [Stop]. *)

From S2P Require Import Prelude RingBuffer.

Definition defaultThroughput : Z := 300.
Definition stateIdle : Z := 0.
Definition stateRunning : Z := 1.
Definition stateStopped : Z := 2.

(** [in_proc] tells whether [Start] has bound a Processer. *)
Record inbox (Q : Type) := Inbox {
  in_rb : Q;
  in_proc : bool;
  in_throughput : Z;
  in_procStatus : Z;
}.
Arguments Inbox {Q}.
Arguments in_rb {Q}.
Arguments in_proc {Q}.
Arguments in_throughput {Q}.
Arguments in_procStatus {Q}.

(** Program counters: [S_] inside [Send] and [schedule], [R_] inside [process]
    and [run]. *)
Inductive thread (E : Type) : Type :=
  | S_push (e : E)              (* in.rb.Push(msg) *)
  | S_schedule                  (* CAS idle -> running; go in.process() *)
  | R_load                      (* run: atomic load of procStatus *)
  | R_pop                       (* run: in.rb.PopN(throughput) *)
  | R_call (batch : list E)     (* run: in.proc.Invoke(batch), about to be called *)
  | R_invoking                  (* inside Invoke, then Gosched *)
  | R_park                      (* process: CAS running -> idle *)
  | R_len                       (* process: in.rb.Len() == 0 *)
  | R_reclaim                   (* process: CAS idle -> running *)
  | T_done.
Arguments S_push {E}.
Arguments S_schedule {E}.
Arguments R_load {E}.
Arguments R_pop {E}.
Arguments R_call {E}.
Arguments R_invoking {E}.
Arguments R_park {E}.
Arguments R_len {E}.
Arguments R_reclaim {E}.
Arguments T_done {E}.

Record ist (Q E : Type) := ISt {
  i_in : inbox Q;
  i_threads : list (thread E);
  i_sent : list E;
  i_delivered : list E;
  i_late : nat;
}.
Arguments ISt {Q E}.
Arguments i_in {Q E}.
Arguments i_threads {Q E}.
Arguments i_sent {Q E}.
Arguments i_delivered {Q E}.
Arguments i_late {Q E}.

Inductive iact (E : Type) : Type :=
  | ASend (e : E)          (* some goroutine calls Send(e) *)
  | AStop                  (* some goroutine calls Stop() *)
  | AThread (t : nat)      (* goroutine t takes its next step *)
  | AStale (t : nat).      (* goroutine t reads a length not lowered yet *)
Arguments ASend {E}.
Arguments AStop {E}.
Arguments AThread {E}.
Arguments AStale {E}.

Section inbox.
Context {Q E : Type} `{!Queue Q E}.
Implicit Types (s : ist Q E) (th : thread E) (t : nat).

(** ** Operations *)

Definition NewInbox (size : Z) : exec (inbox Q) :=
  rb ← q_new size;
  Ok (Inbox rb false defaultThroughput stateIdle).

Definition inbox_Start (i : inbox Q) : inbox Q :=
  Inbox (in_rb i) true (in_throughput i) (in_procStatus i).

Definition with_rb (q : Q) (i : inbox Q) : inbox Q :=
  Inbox q (in_proc i) (in_throughput i) (in_procStatus i).
Definition with_status (z : Z) (i : inbox Q) : inbox Q :=
  Inbox (in_rb i) (in_proc i) (in_throughput i) z.

Definition inbox_Stop (i : inbox Q) : inbox Q := with_status stateStopped i.

(** [atomic.CompareAndSwapInt32(&in.procStatus, old, new)] *)
Definition cas (old new : Z) (i : inbox Q) : bool * inbox Q :=
  if in_procStatus i =? old then (true, with_status new i) else (false, i).

Definition set_thread t th s : ist Q E :=
  ISt (i_in s) (<[t := th]> (i_threads s)) (i_sent s) (i_delivered s) (i_late s).
Definition set_in (i : inbox Q) s : ist Q E :=
  ISt i (i_threads s) (i_sent s) (i_delivered s) (i_late s).
Definition go_process s : ist Q E :=
  ISt (i_in s) (i_threads s ++ [R_load]) (i_sent s) (i_delivered s) (i_late s).

(** [schedule]: whoever wins the CAS spawns the processor. *)
Definition schedule s : ist Q E :=
  let '(won, i) := cas stateIdle stateRunning (i_in s) in
  if won then go_process (set_in i s) else s.

Definition thread_step t s : option (ist Q E) :=
  th ← i_threads s !! t;
  let i := i_in s in
  match th with
  | S_push e =>
      match q_push e (in_rb i) with
      | Ok (_, q) =>
          Some (ISt (with_rb q i) (<[t := S_schedule]> (i_threads s))
                    (i_sent s ++ [e]) (i_delivered s) (i_late s))
      | _ => None
      end
  | S_schedule => Some (schedule (set_thread t T_done s))
  | R_load =>
      if in_procStatus i =? stateStopped
      then Some (set_thread t R_park s)
      else Some (set_thread t R_pop s)
  | R_pop =>
      match q_popn (in_throughput i) (in_rb i) with
      | Ok ((batch, ok), q) =>
          Some (set_thread t (if ok then R_call batch else R_park) (set_in (with_rb q i) s))
      | _ => None
      end
  | R_call batch =>
      if in_proc i then
        Some (ISt i (<[t := R_invoking]> (i_threads s)) (i_sent s) (i_delivered s ++ batch)
                  (if in_procStatus i =? stateStopped then S (i_late s) else i_late s))
      else None
  | R_invoking => Some (set_thread t R_load s)
  | R_park =>
      let '(won, i) := cas stateRunning stateIdle i in
      Some (set_thread t (if won then R_len else T_done) (set_in i s))
  | R_len => Some (set_thread t (if q_len (in_rb i) =? 0 then T_done else R_reclaim) s)
  | R_reclaim =>
      let '(won, i) := cas stateIdle stateRunning i in
      Some (set_thread t (if won then R_load else T_done) (set_in i s))
  | T_done => None
  end.

(** A [PopN] has taken its batch. *)
Definition is_call th : bool := match th with R_call _ => true | _ => false end.
Definition popping s : bool := existsb is_call (i_threads s).

(** [in.rb.Len() == 0] with the length the [PopN] in progress started from. *)
Definition stale_len t s : option (ist Q E) :=
  match i_threads s !! t with
  | Some R_len => if popping s then Some (set_thread t R_reclaim s) else None
  | _ => None
  end.

Definition istep (a : iact E) s : option (ist Q E) :=
  match a with
  | ASend e => Some (ISt (i_in s) (i_threads s ++ [S_push e]) (i_sent s) (i_delivered s) (i_late s))
  | AStop => Some (set_in (inbox_Stop (i_in s)) s)
  | AThread t => thread_step t s
  | AStale t => stale_len t s
  end.

Definition iinit (size : Z) : exec (ist Q E) :=
  i ← NewInbox size;
  Ok (ISt (inbox_Start i) [] [] [] 0%nat).

(** ** Invariant *)

(** Between winning a CAS to running and parking: the goroutine that owns the
    queue and the Processer. *)
Definition owner th : bool :=
  match th with R_load | R_pop | R_call _ | R_invoking | R_park => true | _ => false end.

(** It will look at the queue again before it gives up. *)
Definition waker th : bool :=
  match th with S_schedule | R_len | R_reclaim => true | _ => false end.

(** A popped batch on its way to [Invoke]. *)
Definition inflight th : list E := match th with R_call b => b | _ => [] end.

(** It may still hand over a batch after [Stop]. *)
Definition committed th : bool := match th with R_pop | R_call _ => true | _ => false end.

(** [o] is the one owner among the goroutines, if there is one. *)
Definition owned (ths : list (thread E)) (o : option (nat * thread E)) : Prop :=
  forall t th, o = Some (t, th) <-> ths !! t = Some th /\ owner th = true.

Definition awake (ths : list (thread E)) : Prop :=
  exists t th, ths !! t = Some th /\ waker th = true.

Definition owner_batch (o : option (nat * thread E)) : list E :=
  match o with Some (_, th) => inflight th | None => [] end.
Definition owner_committed (o : option (nat * thread E)) : bool :=
  match o with Some (_, th) => committed th | None => false end.

Record iinv s (o : option (nat * thread E)) : Prop := IInv {
  ii_q : q_inv (in_rb (i_in s));
  ii_pushes : q_pushes (in_rb (i_in s)) = slen (i_sent s);
  ii_proc : in_proc (i_in s) = true;
  ii_thr : in_throughput (i_in s) = defaultThroughput;
  ii_status : in_procStatus (i_in s) = stateIdle /\ o = None \/
              in_procStatus (i_in s) = stateRunning /\ o <> None \/
              in_procStatus (i_in s) = stateStopped;
  ii_owned : owned (i_threads s) o;
  ii_fifo : i_sent s = i_delivered s ++ owner_batch o ++ q_abs (in_rb (i_in s));
  ii_wake : in_procStatus (i_in s) = stateIdle -> q_abs (in_rb (i_in s)) <> [] ->
    awake (i_threads s);
  ii_batch : forall t b, o = Some (t, R_call b) ->
    (0 < length b)%nat /\ slen b <= defaultThroughput;
  ii_late : (i_late s + (if owner_committed o then 1 else 0) <= 1)%nat;
  ii_fresh : in_procStatus (i_in s) <> stateStopped -> i_late s = 0%nat;
}.

Definition iInv s : Prop := exists o, iinv s o.

(** Pushes still to be made by goroutines inside [Send]. *)
Definition to_push th : nat := match th with S_push _ => 1 | _ => 0 end.
Definition pending s : nat := sum_list_with to_push (i_threads s).

(** ** Goroutine lists *)

Lemma owned_none ths t th : owned ths None -> ths !! t = Some th -> owner th = false.
Proof.
  intros Ho Hl. destruct (owner th) eqn:Ht; [|done].
  by pose proof (proj2 (Ho t th) (conj Hl Ht)).
Qed.

Lemma owned_some ths o t th : owned ths o -> ths !! t = Some th -> owner th = true -> o = Some (t, th).
Proof. intros Ho ? ?. by apply Ho. Qed.

Lemma owned_step ths t th th' :
  owned ths (Some (t, th)) -> owner th' = true -> owned (<[t:=th']> ths) (Some (t, th')).
Proof.
  intros Ho Ht u v. destruct (proj1 (Ho t th) eq_refl) as [Hl _].
  rewrite list_lookup_insert_Some. split.
  - intros [= <- <-]. apply lookup_lt_Some in Hl. auto.
  - intros [[(-> & -> & _)|[Hn Hu]] Hv]; [done|].
    destruct Hn. apply (owned_some _ _ _ _ Ho) in Hu; [congruence|done].
Qed.

Lemma owned_release ths t th th' :
  owned ths (Some (t, th)) -> owner th' = false -> owned (<[t:=th']> ths) None.
Proof.
  intros Ho Ht u v. rewrite list_lookup_insert_Some. split; [done|].
  intros [[(-> & -> & _)|[Hn Hu]] Hv]; [congruence|].
  destruct Hn. apply (owned_some _ _ _ _ Ho) in Hu; [congruence|done].
Qed.

Lemma owned_claim ths t th th' :
  owned ths None -> ths !! t = Some th -> owner th' = true ->
  owned (<[t:=th']> ths) (Some (t, th')).
Proof.
  intros Ho Hl Ht u v. rewrite list_lookup_insert_Some. split.
  - intros [= <- <-]. apply lookup_lt_Some in Hl. auto.
  - intros [[(-> & -> & _)|[Hn Hu]] Hv]; [done|].
    by rewrite (owned_none _ _ _ Ho Hu) in Hv.
Qed.

Lemma owned_other ths o t th th' :
  owned ths o -> ths !! t = Some th -> owner th = false -> owner th' = false ->
  owned (<[t:=th']> ths) o.
Proof.
  intros Ho Hl Ht Ht' u v. rewrite (Ho u v), list_lookup_insert_Some. split.
  - intros [Hu Hv]. split; [|done]. right. split; [|done]. intros ->. congruence.
  - intros [[(-> & -> & _)|[Hn Hu]] Hv]; [congruence|done].
Qed.

Lemma owned_app ths o th : owned ths o -> owner th = false -> owned (ths ++ [th]) o.
Proof.
  intros Ho Ht u v. rewrite (Ho u v), lookup_app_Some, list_lookup_singleton_Some.
  split; [intros []; auto|].
  intros [[?|(_ & _ & <-)] Hv]; [done|congruence].
Qed.

Lemma owned_app_claim ths th :
  owned ths None -> owner th = true -> owned (ths ++ [th]) (Some (length ths, th)).
Proof.
  intros Ho Ht u v. rewrite lookup_app_Some, list_lookup_singleton_Some. split.
  - intros [= <- <-]. split; [right|done]. split_and!; done || lia.
  - intros [[Hu|(Hu & Hz & <-)] Hv]; [by rewrite (owned_none _ _ _ Ho Hu) in Hv|].
    do 2 f_equal. lia.
Qed.

Lemma awake_insert ths t th : (t < length ths)%nat -> waker th = true -> awake (<[t:=th]> ths).
Proof. intros ? ?. exists t, th. by rewrite list_lookup_insert_eq. Qed.

Lemma awake_keep ths t th th' :
  awake ths -> ths !! t = Some th -> waker th = false -> awake (<[t:=th']> ths).
Proof.
  intros (u & v & Hu & Hv) Hl Ht. exists u, v. split; [|done].
  rewrite list_lookup_insert_ne; [done|]. intros ->. congruence.
Qed.

Lemma awake_app ths th : awake ths -> awake (ths ++ [th]).
Proof. intros (u & v & Hu & Hv). exists u, v. split; [|done]. by apply lookup_app_l_Some. Qed.
(** ** The invariant is inductive *)

(** A goroutine that does not own the queue takes a step that leaves the inbox
    alone, or only moves it: the clauses about the owner are unchanged. *)
Lemma iinv_other s o t th th' :
  iinv s o -> i_threads s !! t = Some th -> owner th = false -> owner th' = false ->
  (in_procStatus (i_in s) = stateIdle -> q_abs (in_rb (i_in s)) <> [] ->
    waker th = true -> awake (<[t:=th']> (i_threads s))) ->
  iinv (set_thread t th' s) o.
Proof.
  intros Hi Hl Ht Ht' Hw. destruct Hi. split; simpl; try done.
  - by eapply owned_other.
  - intros Hs Hq. destruct (waker th) eqn:?; [by apply Hw|]. eapply awake_keep; eauto.
Qed.

(** The owner moves to another point of [run] with the batch it holds. *)
Lemma iinv_owner s t th th' :
  iinv s (Some (t, th)) -> owner th' = true -> inflight th' = inflight th ->
  (committed th' = true -> committed th = true \/ in_procStatus (i_in s) <> stateStopped) ->
  (forall b, th' = R_call b -> th = R_call b) ->
  iinv (set_thread t th' s) (Some (t, th')).
Proof.
  intros Hi Ht Hf Hc Hb. destruct Hi. simpl in *. split; simpl; try done.
  - destruct ii_status0 as [[_ ?]|[[? _]|?]]; [done|by right; left|auto].
  - by eapply owned_step.
  - by rewrite Hf.
  - intros Hs. by destruct ii_status0 as [[_ ?]|[[E' _]|E']]; [|rewrite E' in Hs..].
  - intros u b [= <- ->]. apply (ii_batch0 t). by rewrite (Hb b eq_refl).
  - destruct (committed th'); [|lia].
    destruct (Hc eq_refl) as [E'|E']; [by rewrite E' in ii_late0|]. rewrite ii_fresh0 by done. lia.
Qed.

Lemma iinv_send s o e : iinv s o ->
  iinv (ISt (i_in s) (i_threads s ++ [S_push e]) (i_sent s) (i_delivered s) (i_late s)) o.
Proof.
  intros Hi. destruct Hi. split; simpl; try done.
  - by apply owned_app.
  - intros. apply awake_app. auto.
Qed.

Lemma iinv_stop s o : iinv s o -> iinv (set_in (inbox_Stop (i_in s)) s) o.
Proof. intros Hi. destruct Hi. split; simpl; try done; auto. Qed.

Lemma iinv_push s o t e s' : iinv s o -> i_threads s !! t = Some (S_push e) ->
  thread_step t s = Some s' -> slen (i_sent s') <= 2 ^ 62 -> iinv s' o.
Proof.
  intros Hi Hl H Hb. unfold thread_step in H. rewrite Hl in H. simpl in H.
  destruct Hi.
  assert (q_pushes (in_rb (i_in s)) < 2 ^ 62) as Hq.
  { destruct (q_push _ _) as [[]| |]; [|done..]. injection H as <-. simpl in Hb.
    unfold slen in *. rewrite length_app in Hb. simpl in Hb. lia. }
  destruct (q_push_ok e _ ii_q0 Hq) as (q & Eq & Hqi & Ha & Hp). rewrite Eq in H.
  injection H as <-. split; simpl; try done.
  - rewrite Hp. unfold slen in *. rewrite length_app. simpl. lia.
  - eapply owned_other; eauto.
  - by rewrite Ha, ii_fifo0, <- !app_assoc.
  - intros _ _. apply awake_insert; [by eapply lookup_lt_Some|done].
Qed.
Lemma cas_cases old new i :
  in_procStatus i = old /\ cas old new i = (true, with_status new i) \/
  in_procStatus i <> old /\ cas old new i = (false, i).
Proof. unfold cas. split_test; auto. Qed.

Lemma owner_idle s o : iinv s o -> in_procStatus (i_in s) = stateIdle -> o = None.
Proof. intros Hi Hs. by destruct (ii_status _ _ Hi) as [[_ ?]|[[Hr _]|Hr]]; [|rewrite Hs in Hr..]. Qed.

(** A CAS from idle to running makes the goroutine that wins it the owner. *)
Lemma iinv_schedule s o t : iinv s o -> i_threads s !! t = Some S_schedule ->
  iInv (schedule (set_thread t T_done s)).
Proof.
  intros Hi Hl. unfold schedule. simpl.
  destruct (cas_cases stateIdle stateRunning (i_in s)) as [[Hs ->]|[Hs ->]].
  - pose proof (owner_idle _ _ Hi Hs) as ->. exists (Some (length (i_threads s), R_load)).
    destruct Hi. split; simpl; try done.
    + right; left. done.
    + rewrite <- (length_insert (i_threads s) t T_done). apply owned_app_claim; [|done].
      by eapply owned_other.
    + intros _. by apply ii_fresh0; rewrite Hs.
  - exists o. by apply (iinv_other s _ _ S_schedule).
Qed.

Lemma iinv_reclaim s o t : iinv s o -> i_threads s !! t = Some R_reclaim ->
  iInv (let '(won, i) := cas stateIdle stateRunning (i_in s) in
        set_thread t (if won then R_load else T_done) (set_in i s)).
Proof.
  intros Hi Hl.
  destruct (cas_cases stateIdle stateRunning (i_in s)) as [[Hs ->]|[Hs ->]].
  - pose proof (owner_idle _ _ Hi Hs) as ->. exists (Some (t, R_load)).
    destruct Hi. split; simpl; try done.
    + right; left. done.
    + eapply owned_claim; eauto.
    + intros _. by apply ii_fresh0; rewrite Hs.
  - exists o. by apply (iinv_other s _ _ R_reclaim).
Qed.

(** Parking releases the queue, and looks at it again. *)
Lemma iinv_park s t : iinv s (Some (t, R_park)) ->
  iInv (let '(won, i) := cas stateRunning stateIdle (i_in s) in
        set_thread t (if won then R_len else T_done) (set_in i s)).
Proof.
  intros Hi. exists None.
  destruct (cas_cases stateRunning stateIdle (i_in s)) as [[Hs ->]|[Hs ->]];
    destruct Hi; (split; simpl; try done).
  - auto.
  - eapply owned_release; eauto.
  - intros _ _. apply awake_insert; [|done]. apply (lookup_lt_Some _ _ R_park).
    by apply ii_owned0.
  - intros _. by apply ii_fresh0; rewrite Hs.
  - destruct ii_status0 as [[_ ?]|[[? _]|?]]; [done|contradiction|auto].
  - eapply owned_release; eauto.
  - intros Hr. by destruct ii_status0 as [[_ ?]|[[? _]|E']]; [|contradiction|rewrite E' in Hr].
Qed.

Lemma popn_cases n (l : list E) : 0 < n ->
  l = [] /\ popn_spec n l = ([], false) \/
  l <> [] /\ popn_spec n l = (take (Z.to_nat n) l, true).
Proof.
  intros Hn. unfold popn_spec. destruct l as [|x l]; split_test; auto.
  - apply orb_true_iff in Heqb as [?|?]; reflect_bools; [lia|done].
Qed.

Lemma iinv_pop s t s' : iinv s (Some (t, R_pop)) -> thread_step t s = Some s' ->
  exists th, iinv s' (Some (t, th)).
Proof.
  intros Hi H.
  assert (i_threads s !! t = Some R_pop) as Hl by (by apply (ii_owned _ _ Hi)).
  unfold thread_step in H. rewrite Hl in H. simpl in H.
  destruct (q_popn_ok (in_throughput (i_in s)) _ (ii_q _ _ Hi)) as (q & Eq & Hqi & Ha & Hp).
  rewrite Eq in H. pose proof (ii_thr _ _ Hi) as Ht. rewrite Ht in *.
  destruct (popn_cases defaultThroughput (q_abs (in_rb (i_in s))) eq_refl) as [[E0 Ep]|[E0 Ep]];
    rewrite Ep in H; injection H as <-;
    [exists R_park|exists (R_call (take 300 (q_abs (in_rb (i_in s)))))]; destruct Hi; (split; simpl; try done);
    try (eapply owned_step; done); try congruence;
    try (by intros Hs; destruct ii_status0 as [[_ ?]|[[E' _]|E']]; [|rewrite E' in Hs..]);
    try (by destruct ii_status0 as [[_ ?]|[[? _]|?]]; [done|by right; left|auto]).
  - by rewrite ii_fifo0, Ha, E0.
  - simpl in *. lia.
  - by rewrite ii_fifo0, Ha, take_drop.
  - intros u b [= <- <-]. destruct (q_abs _) as [|x l]; [done|].
    unfold slen, defaultThroughput. simpl. rewrite length_take. lia.
Qed.
Lemma iinv_call s t batch s' : iinv s (Some (t, R_call batch)) -> thread_step t s = Some s' ->
  iinv s' (Some (t, R_invoking)).
Proof.
  intros Hi H.
  assert (i_threads s !! t = Some (R_call batch)) as Hl by (by apply (ii_owned _ _ Hi)).
  unfold thread_step in H. rewrite Hl in H. simpl in H. rewrite (ii_proc _ _ Hi) in H.
  injection H as <-. destruct Hi. simpl in *. split; simpl; try done.
  - destruct ii_status0 as [[_ ?]|[[? _]|?]]; [done|by right; left|auto].
  - by eapply owned_step.
  - by rewrite ii_fifo0, <- app_assoc.
  - intros Hs. by destruct ii_status0 as [[_ ?]|[[E' _]|E']]; [|rewrite E' in Hs..].
  - split_test; lia.
  - intros Hs. split_test; [done|auto].
Qed.

Lemma thread_step_inv s t s' : iInv s -> thread_step t s = Some s' ->
  slen (i_sent s') <= 2 ^ 62 -> iInv s'.
Proof.
  intros [o Hi] H Hb. pose proof H as H'. unfold thread_step in H'.
  destruct (i_threads s !! t) as [th|] eqn:Hl; [|done]. simpl in H'.
  assert (owner th = true -> o = Some (t, th)) as Ho.
  { intros. eapply owned_some; eauto. apply Hi. }
  destruct th; simpl in Ho; try (specialize (Ho eq_refl); subst o).
  - exists o. by eapply iinv_push.
  - injection H' as <-. by eapply iinv_schedule.
  - destruct (in_procStatus (i_in s) =? stateStopped) eqn:Es; injection H' as <-;
      eexists; apply (iinv_owner s t R_load); try done.
    intros _. right. by reflect_bools.
  - destruct (iinv_pop _ _ _ Hi H) as [th Hi']. by eexists.
  - eexists. by eapply iinv_call.
  - injection H' as <-. eexists. by apply (iinv_owner s t R_invoking).
  - pose proof (iinv_park _ _ Hi) as HI. destruct (cas _ _ _). by injection H' as <-.
  - injection H' as <-. exists o. apply (iinv_other s _ _ R_len); try done; [by split_test|].
    intros _ Hq _. apply awake_insert; [by eapply lookup_lt_Some|].
    rewrite (q_len_ok _ (ii_q _ _ Hi)). destruct (q_abs _); [done|]. by split_test.
  - pose proof (iinv_reclaim _ _ _ Hi Hl) as HI. destruct (cas _ _ _). by injection H' as <-.
  - done.
Qed.

(** It is about to look again, like a goroutine that saw the queue. *)
Lemma iinv_stale s o t s' : iinv s o -> stale_len t s = Some s' -> iinv s' o.
Proof.
  unfold stale_len. intros Hi H. destruct (i_threads s !! t) as [[]|] eqn:Hl; try done.
  destruct (popping s); [|done]. injection H as <-. apply (iinv_other s _ _ R_len); try done.
  intros _ _ _. apply awake_insert; [by eapply lookup_lt_Some|done].
Qed.

Lemma istep_inv a s s' : iInv s -> istep a s = Some s' -> slen (i_sent s') <= 2 ^ 62 -> iInv s'.
Proof.
  intros Hi H Hb. destruct a as [e| |t|t]; simpl in H; simplify_eq.
  - destruct Hi as [o Hi]. exists o. by apply iinv_send.
  - destruct Hi as [o Hi]. exists o. by apply iinv_stop.
  - by eapply thread_step_inv.
  - destruct Hi as [o Hi]. exists o. by eapply iinv_stale.
Qed.

Lemma istep_sent a s s' : istep a s = Some s' -> exists l, i_sent s' = i_sent s ++ l.
Proof.
  intros H. assert (forall x : list E, exists l, x = x ++ l) as Hx by (exists []; by rewrite app_nil_r).
  destruct a as [e| |t|t]; simpl in H; simplify_eq; simpl; [by auto..| |].
  - unfold thread_step, schedule, cas in H. invert_step H; simpl; eauto.
  - unfold stale_len in H. invert_step H; simpl; eauto.
Qed.

Lemma iinit_inv size s : - 2 ^ 63 <= size < 2 ^ 63 -> iinit size = Ok s -> iInv s.
Proof.
  intros Hs H. unfold iinit, NewInbox in H.
  destruct (q_new_ok size Hs) as (q & Eq & Hq & Ha & Hp). rewrite Eq in H. simpl in H.
  injection H as <-. exists None. split; simpl; try done; auto.
  intros t th. by split; [|intros []].
Qed.

(** Everything reachable before the [2 ^ 62]th [Send] satisfies the invariant. *)
Definition inbox_run (size : Z) (acts : list (iact E)) : exec (option (ist Q E)) :=
  s ← iinit size; Ok (run istep acts s).

Lemma run_sent acts s s' : run istep acts s = Some s' -> exists l, i_sent s' = i_sent s ++ l.
Proof.
  revert s. induction acts as [|b acts IH]; intros s H; simpl in H.
  - exists []. simplify_eq. by rewrite app_nil_r.
  - destruct (istep b s) as [s2|] eqn:E2; [|done].
    apply istep_sent in E2 as [l2 E2]. destruct (IH _ H) as [l3 E3].
    exists (l2 ++ l3). by rewrite E3, E2, app_assoc.
Qed.

Lemma run_inv acts s s' :
  iInv s -> run istep acts s = Some s' -> slen (i_sent s') <= 2 ^ 62 -> iInv s'.
Proof.
  revert s. induction acts as [|a acts IH]; intros s Hi H Hb; simpl in H; [by simplify_eq|].
  destruct (istep a s) as [s1|] eqn:E1; [|done]. simpl in H.
  apply (IH s1); [|done..]. eapply istep_inv; eauto.
  destruct (run_sent _ _ _ H) as [l El].
  unfold slen in *. rewrite El, length_app in Hb. lia.
Qed.

Lemma inbox_run_inv size acts s :
  - 2 ^ 63 <= size < 2 ^ 63 -> inbox_run size acts = Ok (Some s) -> slen (i_sent s) <= 2 ^ 62 ->
  iInv s.
Proof.
  intros Hs H Hb. unfold inbox_run in H. destruct (iinit size) as [s0| |] eqn:E0; [|done..].
  injection H as H. eapply run_inv; eauto. by eapply iinit_inv.
Qed.
(** ** Every goroutine gets to its end *)

(** A bound on the steps of a goroutine, for a stopped inbox, when nothing is
    waiting to be delivered, and otherwise; a push may turn the second into the
    third. *)
Definition weight (stopped drained : bool) th : nat :=
  match th with
  | S_push _ | T_done => 0
  | S_schedule => if stopped then 1 else if drained then 5 else 7
  | R_load => if stopped then 3 else if drained then 4 else 6
  | R_pop => if stopped then 2 else if drained then 3 else 5
  | R_call _ => if stopped then 5 else if drained then 6 else 10
  | R_invoking => if stopped then 4 else if drained then 5 else 9
  | R_park => if stopped then 1 else if drained then 2 else 9
  | R_len => if stopped then 2 else if drained then 1 else 8
  | R_reclaim => if stopped then 1 else if drained then 5 else 7
  end.

Definition is_empty (l : list E) : bool := match l with [] => true | _ => false end.

Definition is_stopped (i : inbox Q) : bool := in_procStatus i =? stateStopped.

(** Nothing is queued, and no batch is on its way. *)
Definition drained s : bool := is_empty (q_abs (in_rb (i_in s))) && negb (popping s).

Definition wt s : thread E -> nat := weight (is_stopped (i_in s)) (drained s).

Definition measure s : nat :=
  100 * length (q_abs (in_rb (i_in s))) + sum_list_with (wt s) (i_threads s).

Lemma weight_drained b d d' th : implb d d' = true -> (weight b d' th <= weight b d th)%nat.
Proof. destruct th, d, d'; simpl; try done; destruct b; lia. Qed.

Lemma popping_insert s t th' i :
  is_call th' = false -> implb (popping (set_thread t th' (set_in i s))) (popping s) = true.
Proof.
  intros Hc. unfold popping. simpl. destruct (existsb _ (<[t:=th']> _)) eqn:E0; [|done]. simpl.
  apply existsb_exists in E0 as (th & Hin & Ht). apply existsb_exists. exists th. split; [|done].
  apply list_elem_of_In, list_elem_of_lookup in Hin as [u Hu]. apply list_elem_of_In, list_elem_of_lookup.
  exists u. apply list_lookup_insert_Some in Hu as [(_ & <- & _)|[_ ?]]; [congruence|done].
Qed.

(** A goroutine moves on, the queue and the phase staying. *)
Lemma measure_move s t th th' i :
  i_threads s !! t = Some th -> q_abs (in_rb i) = q_abs (in_rb (i_in s)) ->
  is_stopped i = is_stopped (i_in s) -> is_call th' = false ->
  (wt s th' < wt s th)%nat ->
  (measure (set_thread t th' (set_in i s)) < measure s)%nat.
Proof.
  intros Hl Eq Es Hc Hw. unfold measure. simpl. rewrite Eq.
  pose proof (sum_list_insert (wt s) _ _ _ th' Hl) as H.
  assert (sum_list_with (wt (set_thread t th' (set_in i s))) (<[t:=th']> (i_threads s)) <=
          sum_list_with (wt s) (<[t:=th']> (i_threads s)))%nat; [|lia].
  apply sum_list_mono. intros u. unfold wt. simpl. rewrite Es. apply weight_drained.
  unfold drained. simpl. rewrite Eq. pose proof (popping_insert s t th' i Hc) as Hp.
  destruct (is_empty _), (popping s), (popping _); done.
Qed.

Lemma measure_here s t th th' :
  i_threads s !! t = Some th -> is_call th' = false -> (wt s th' < wt s th)%nat ->
  (measure (set_thread t th' s) < measure s)%nat.
Proof. intros Hl. by apply (measure_move s t th th' (i_in s)). Qed.

(** A batch leaves the queue. *)
Lemma measure_pop s t q b :
  i_threads s !! t = Some R_pop -> q_abs (in_rb (i_in s)) <> [] ->
  q_abs q = drop 300 (q_abs (in_rb (i_in s))) ->
  (measure (set_thread t (R_call b) (set_in (with_rb q (i_in s)) s)) < measure s)%nat.
Proof.
  intros Hl Hne Hq. unfold measure. simpl. rewrite Hq, length_drop.
  set (b' := is_stopped (i_in s)).
  assert (sum_list_with (wt (set_thread t (R_call b) (set_in (with_rb q (i_in s)) s))) (<[t:=R_call b]> (i_threads s)) <=
          sum_list_with (weight b' false) (<[t:=R_call b]> (i_threads s)))%nat as H1.
  { apply sum_list_mono. intros th. by apply weight_drained. }
  pose proof (sum_list_insert (weight b' false) _ _ _ (R_call b) Hl) as H2.
  unfold wt at 2, drained. destruct (q_abs (in_rb (i_in s))) as [|x l]; [done|]. simpl in *.
  fold b'. destruct b'; simpl in H2; lia.
Qed.

Lemma stopped_neq i z : z <> stateStopped -> in_procStatus i = z -> is_stopped i = false.
Proof. intros ? <-. by apply Z.eqb_neq. Qed.

(** The weights of the two points, in each phase. *)
Ltac weigh :=
  unfold wt; simpl;
  repeat match goal with
  | |- context [if ?b then _ else _] => destruct b eqn:?
  end; lia.

Lemma cas_stopped old new i : old <> stateStopped -> new <> stateStopped ->
  in_rb (cas old new i).2 = in_rb i /\ is_stopped (cas old new i).2 = is_stopped i.
Proof.
  intros Ho Hn. destruct (cas_cases old new i) as [[Hs ->]|[Hs ->]]; [|done]. simpl.
  split; [done|]. rewrite (stopped_neq i old), (stopped_neq _ new); done.
Qed.

Lemma schedule_measure s t : i_threads s !! t = Some S_schedule ->
  (measure (schedule (set_thread t T_done s)) < measure s)%nat.
Proof.
  intros Hl. unfold schedule. simpl.
  destruct (cas_cases stateIdle stateRunning (i_in s)) as [[Hs ->]|[Hs ->]].
  - set (s' := go_process _).
    assert (forall u, wt s' u <= wt s u)%nat as Hw.
    { intros u. unfold wt. subst s'. simpl.
      rewrite (stopped_neq _ stateRunning), (stopped_neq (i_in s) stateIdle) by done. apply weight_drained.
      unfold drained, popping. simpl. rewrite existsb_app. simpl.
      pose proof (popping_insert s t T_done (i_in s) eq_refl) as Hp. unfold popping in Hp. simpl in Hp.
      destruct (is_empty _), (existsb _ (<[t:=_]> _)), (existsb _ (i_threads s)); done. }
    pose proof (sum_list_insert (wt s) _ _ _ T_done Hl) as H.
    pose proof (sum_list_mono (wt s') (wt s) (<[t:=T_done]> (i_threads s)) Hw) as Hm. specialize (Hw R_load).
    unfold measure. subst s'. simpl in *. rewrite sum_list_with_app. simpl.
    assert (wt s R_load < wt s S_schedule)%nat; [|simpl in *; lia].
    unfold wt. rewrite (stopped_neq (i_in s) stateIdle) by done. weigh.
  - apply (measure_here s t S_schedule); [done|done|]. weigh.
Qed.

(** While one goroutine owns the queue, only it may hold a batch. *)
Lemma popping_owner s o t th : iinv s o -> i_threads s !! t = Some th -> owner th = true ->
  popping s = is_call th.
Proof.
  intros Hi Hl Ho. pose proof (owned_some _ _ _ _ (ii_owned _ _ Hi) Hl Ho) as ->. unfold popping.
  destruct (existsb _ _) eqn:E0.
  - apply existsb_exists in E0 as (u & Hin & Hu). apply list_elem_of_In, list_elem_of_lookup in Hin as [v Hv].
    assert (owner u = true) as Hou by (by destruct u).
    pose proof (owned_some _ _ _ _ (ii_owned _ _ Hi) Hv Hou). by simplify_eq.
  - destruct (is_call th) eqn:Ec; [|done]. apply not_true_iff_false in E0. exfalso. apply E0.
    apply existsb_exists. exists th. split; [|done]. apply list_elem_of_In, list_elem_of_lookup. eauto.
Qed.

Lemma pop_measure s t s' : iInv s -> i_threads s !! t = Some R_pop -> thread_step t s = Some s' ->
  (measure s' < measure s)%nat.
Proof.
  intros [o Hi] Hl H. unfold thread_step in H. rewrite Hl in H. simpl in H.
  rewrite (ii_thr _ _ Hi) in H.
  destruct (q_popn_ok defaultThroughput _ (ii_q _ _ Hi)) as (q & Eq & _ & Ha & _).
  rewrite Eq in H.
  destruct (popn_cases defaultThroughput (q_abs (in_rb (i_in s))) eq_refl) as [[E0 Ep]|[E0 Ep]];
    rewrite Ep in H; injection H as <-.
  - apply (measure_move s t R_pop); simpl; [done|by rewrite Ha, E0|done..|].
    unfold wt, drained. rewrite E0, (popping_owner _ _ _ _ Hi Hl eq_refl). simpl. weigh.
  - by apply measure_pop.
Qed.

(** Every step but the push itself uses the bound up. *)
Lemma thread_step_measure s t th s' :
  iInv s -> i_threads s !! t = Some th -> to_push th = 0%nat -> thread_step t s = Some s' ->
  (measure s' < measure s)%nat.
Proof.
  intros HI Hl Hp H. pose proof H as H'. unfold thread_step in H'. rewrite Hl in H'.
  pose proof HI as [o Hi]. destruct th as [e| | | |batch| | | | |]; simpl in H'; try done.
  - injection H' as <-. by apply schedule_measure.
  - destruct (_ =? _) eqn:Es; injection H' as <-; apply (measure_here s t R_load); try done;
      unfold wt, is_stopped; rewrite Es; weigh.
  - by eapply pop_measure.
  - rewrite (ii_proc _ _ Hi) in H'. injection H' as <-.
    apply (measure_here s t (R_call batch) R_invoking); [done..|].
    unfold wt, drained. rewrite (popping_owner _ _ _ _ Hi Hl eq_refl). simpl. rewrite andb_false_r. weigh.
  - injection H' as <-. apply (measure_here s t R_invoking); [done..|weigh].
  - assert (in_procStatus (i_in s) <> stateRunning -> is_stopped (i_in s) = true) as Hst.
    { intros Hn. pose proof (owned_some _ _ _ _ (ii_owned _ _ Hi) Hl eq_refl) as ->.
      apply Z.eqb_eq. by destruct (ii_status _ _ Hi) as [[_ ?]|[[? _]|?]]. }
    destruct (cas_stopped stateRunning stateIdle (i_in s)) as [Eq Es]; [done..|].
    destruct (cas_cases stateRunning stateIdle (i_in s)) as [[Hs E']|[Hs E']];
      rewrite E' in *; injection H' as <-; simpl in Eq, Es; apply (measure_move s t R_park); try done.
    + unfold wt. rewrite (stopped_neq _ stateRunning) by done. weigh.
    + unfold wt. rewrite Hst by done. weigh.
  - injection H' as <-. rewrite (q_len_ok _ (ii_q _ _ Hi)).
    apply (measure_here s t R_len); [done|by split_test|]. unfold wt, drained.
    destruct (q_abs _); simpl; weigh.
  - destruct (cas_stopped stateIdle stateRunning (i_in s)) as [Eq Es]; [done..|].
    destruct (cas _ _ _) as [won i] eqn:Ec. injection H' as <-.
    apply (measure_move s t R_reclaim); [done|by simpl in *; rewrite Eq|done|by destruct won|].
    destruct won; [|weigh]. destruct (cas_cases stateIdle stateRunning (i_in s)) as [[Hs _]|[_ E']];
      [|congruence]. unfold wt. rewrite (stopped_neq _ stateIdle) by done. weigh.
Qed.

Lemma stale_measure s t s' : stale_len t s = Some s' -> (measure s' < measure s)%nat.
Proof.
  unfold stale_len. intros H. destruct (i_threads s !! t) as [[]|] eqn:Hl; try done.
  destruct (popping s) eqn:Hp; [|done]. injection H as <-. apply (measure_here s t R_len); [done..|].
  unfold wt, drained. rewrite Hp, andb_false_r. weigh.
Qed.

Lemma pending_insert s t th th' : i_threads s !! t = Some th ->
  (sum_list_with to_push (<[t:=th']> (i_threads s)) + to_push th = pending s + to_push th')%nat.
Proof. intros Hl. by apply sum_list_insert. Qed.

Lemma thread_step_pending s t th s' :
  i_threads s !! t = Some th -> thread_step t s = Some s' ->
  (pending s' + to_push th = pending s)%nat /\
  slen (i_sent s') = slen (i_sent s) + Z.of_nat (to_push th).
Proof.
  intros Hl H. unfold thread_step in H. rewrite Hl in H.
  pose proof (pending_insert s t th) as Hp. unfold pending at 1, slen.
  destruct th; simpl in H; unfold schedule, cas in H; invert_step H; simpl;
    rewrite ?length_app, ?sum_list_with_app; simpl;
    match goal with
    | |- context [<[t:=?x]> _] => specialize (Hp x Hl); simpl in *; lia
    end.
Qed.

(** A goroutine that is not done can move. *)
Lemma thread_step_enabled s t th :
  iInv s -> i_threads s !! t = Some th -> th <> T_done -> slen (i_sent s) < 2 ^ 62 \/ to_push th = 0%nat ->
  exists s', thread_step t s = Some s'.
Proof.
  intros [o Hi] Hl Hd Hb. unfold thread_step. rewrite Hl.
  destruct th; simpl in *; eauto; try done.
  - destruct (q_push_ok e _ (ii_q _ _ Hi)) as (q & -> & _); [|by eauto].
    rewrite (ii_pushes _ _ Hi). destruct Hb; done.
  - destruct (_ =? _); eauto.
  - destruct (q_popn_ok (in_throughput (i_in s)) _ (ii_q _ _ Hi)) as (q & -> & _).
    destruct (popn_spec _ _). eauto.
  - rewrite (ii_proc _ _ Hi). eauto.
  - destruct (cas _ _ _). eauto.
  - destruct (cas _ _ _). eauto.
Qed.

Lemma stale_pending s t s' : stale_len t s = Some s' -> pending s' = pending s /\ i_sent s' = i_sent s.
Proof.
  unfold stale_len. intros H. destruct (i_threads s !! t) as [[]|] eqn:Hl; try done.
  destruct (popping s); [|done]. injection H as <-. split; [|done].
  pose proof (pending_insert s t R_len R_reclaim Hl) as Hp. unfold pending at 1. simpl in *. lia.
Qed.

(** A step of one of the goroutines there are. *)
Definition moves s s' : Prop := exists t, istep (AThread t) s = Some s' \/ istep (AStale t) s = Some s'.

(** It makes a push that was pending, or uses the bound up. *)
Definition remaining : ist Q E -> ist Q E -> Prop := lex pending (ltof _ measure).

Lemma moves_progress s s' :
  iInv s -> moves s s' -> remaining s' s /\
  slen (i_sent s') + Z.of_nat (pending s') = slen (i_sent s) + Z.of_nat (pending s).
Proof.
  intros Hi [t [H|H]]; unfold remaining, lex, ltof.
  - assert (exists th, i_threads s !! t = Some th) as [th Hl].
    { simpl in H. unfold thread_step in H. destruct (i_threads s !! t) eqn:Hl; [eauto|done]. }
    destruct (thread_step_pending _ _ _ _ Hl H) as [Hp Hs]. split; [|lia].
    destruct (to_push th) as [|k] eqn:Hk; [right|left; lia].
    split; [lia|]. by apply (thread_step_measure s t th).
  - destruct (stale_pending _ _ _ H) as [Hp Hs]. rewrite Hp, Hs. split; [|done].
    right. split; [done|]. by apply (stale_measure s t).
Qed.

Lemma moves_inv s s' : iInv s -> moves s s' -> slen (i_sent s') <= 2 ^ 62 -> iInv s'.
Proof. intros Hi [t [H|H]] Hb; by eapply istep_inv. Qed.

(** No execution of the goroutines alone goes on for ever. *)
Lemma internal_wf s : iInv s -> slen (i_sent s) + Z.of_nat (pending s) <= 2 ^ 62 ->
  Acc (fun s2 s1 => moves s1 s2) s.
Proof.
  induction (lex_wf pending _ (ltof_wf measure) s) as [s _ IH]. intros Hi Hb.
  constructor. intros s' H. destruct (moves_progress _ _ Hi H) as [Hlt He].
  apply IH; [done| |lia]. eapply moves_inv; eauto. lia.
Qed.

(** Quiescent: no goroutine can move, so all are done. *)
Definition quiescent s : Prop := forall t, istep (AThread t) s = None.

Lemma quiescent_done s : iInv s -> slen (i_sent s) + Z.of_nat (pending s) <= 2 ^ 62 ->
  quiescent s -> forall t th, i_threads s !! t = Some th -> th = T_done.
Proof.
  intros Hi Hb Hq t th Hl.
  assert ({th = T_done} + {th <> T_done}) as [?|Hd] by (destruct th; auto; by right); [done|].
  destruct (thread_step_enabled _ _ _ Hi Hl Hd) as [s' Hs']; [|by pose proof (Hq t); simplify_eq/=].
  destruct (to_push th) eqn:Hp; [by right|left].
  assert (pending s <> 0%nat); [|lia]. intros H0.
  by rewrite (sum_list_zero _ _ H0 _ _ Hl) in Hp.
Qed.

Lemma all_done_delivered s o : iinv s o -> (forall t th, i_threads s !! t = Some th -> th = T_done) ->
  in_procStatus (i_in s) <> stateStopped ->
  in_procStatus (i_in s) = stateIdle /\ q_abs (in_rb (i_in s)) = [] /\ i_delivered s = i_sent s.
Proof.
  intros Hi Hd Hns.
  assert (o = None) as ->.
  { destruct o as [[t th]|]; [|done].
    destruct (proj1 (ii_owned _ _ Hi t th) eq_refl) as [Hl Ho]. by rewrite (Hd _ _ Hl) in Ho. }
  assert (in_procStatus (i_in s) = stateIdle) as Hs by (by destruct (ii_status _ _ Hi) as [[? _]|[[_ ?]|?]]).
  assert (q_abs (in_rb (i_in s)) = []) as Hq.
  { destruct (q_abs (in_rb (i_in s))) eqn:Eq; [done|].
    destruct (ii_wake _ _ Hi Hs) as (t & th & Hl & Hw); [by rewrite Eq|].
    by rewrite (Hd _ _ Hl) in Hw. }
  split_and!; [done..|]. rewrite (ii_fifo _ _ Hi), Hq. simpl. by rewrite app_nil_r.
Qed.

(** ** After Stop *)

Lemma stopped_step a s s' : is_stopped (i_in s) = true -> istep a s = Some s' ->
  is_stopped (i_in s') = true.
Proof.
  intros Hs H. destruct a as [e| |t|t]; simpl in H; simplify_eq; [done..| |].
  2: { unfold stale_len in H. by invert_step H. }
  unfold thread_step, schedule, cas, is_stopped in *. reflect_bools.
  invert_step H; simpl in *; unfold stateIdle, stateRunning, stateStopped in *; lia.
Qed.

(** Batches are handed over one at a time, and counted once stopped. *)
Lemma late_step a s s' : iInv s -> is_stopped (i_in s) = true -> istep a s = Some s' ->
  exists l, i_delivered s' = i_delivered s ++ l /\
    slen l <= defaultThroughput * Z.of_nat (i_late s' - i_late s) /\ (i_late s <= i_late s')%nat.
Proof.
  intros [o Hi] Hs H.
  assert (forall s1, i_delivered s1 = i_delivered s -> i_late s1 = i_late s ->
    exists l, i_delivered s1 = i_delivered s ++ l /\
    slen l <= defaultThroughput * Z.of_nat (i_late s1 - i_late s) /\ (i_late s <= i_late s1)%nat) as Hz.
  { intros s1 -> ->. exists []. rewrite app_nil_r, Nat.sub_diag. done. }
  destruct a as [e| |t|t]; simpl in H; simplify_eq; [by apply Hz..| |].
  2: { unfold stale_len in H. invert_step H. by apply Hz. }
  unfold thread_step in H. destruct (i_threads s !! t) as [th|] eqn:Hl; [|done]. simpl in H.
  destruct th as [e| | | |b| | | | |]; unfold schedule, cas, is_stopped in *; try (invert_step H; by apply Hz).
  rewrite (ii_proc _ _ Hi), Hs in H. injection H as <-. exists b.
  pose proof (owned_some _ _ _ _ (ii_owned _ _ Hi) Hl eq_refl) as ->.
  destruct (ii_batch _ _ Hi t b eq_refl). simpl. split_and!; [done|lia..].
Qed.

Lemma late_run acts s s' : iInv s -> is_stopped (i_in s) = true -> run istep acts s = Some s' ->
  slen (i_sent s') <= 2 ^ 62 ->
  exists l, i_delivered s' = i_delivered s ++ l /\
    slen l <= defaultThroughput * Z.of_nat (i_late s' - i_late s) /\ (i_late s <= i_late s')%nat.
Proof.
  revert s. induction acts as [|a acts IH]; intros s Hi Hs H Hb; simpl in H.
  - simplify_eq. exists []. rewrite app_nil_r, Nat.sub_diag. done.
  - destruct (istep a s) as [s1|] eqn:E1; [|done]. simpl in H.
    assert (iInv s1) as Hi1.
    { eapply istep_inv; eauto. destruct (run_sent _ _ _ H) as [l El].
      unfold slen in *. rewrite El, length_app in Hb. lia. }
    destruct (late_step _ _ _ Hi Hs E1) as (l1 & E2 & ? & ?).
    destruct (IH s1) as (l2 & E3 & ? & ?); [done|by eapply stopped_step|done..|].
    exists (l1 ++ l2). rewrite E3, E2, app_assoc. unfold slen, defaultThroughput in *. rewrite length_app.
    split_and!; [done|lia..].
Qed.

(** ** Properties *)

(** C20: messages are handed to the Processer in the order their pushes took
    effect, none lost or duplicated: what was sent is what was delivered, then
    at most one batch of at most 300 messages in the hands of the one
    processing goroutine, then the queue. *)
Theorem inbox_fifo size acts s :
  - 2 ^ 63 <= size < 2 ^ 63 -> inbox_run size acts = Ok (Some s) -> slen (i_sent s) <= 2 ^ 62 ->
  exists fl, i_sent s = i_delivered s ++ fl ++ q_abs (in_rb (i_in s)) /\
    slen fl <= defaultThroughput /\
    (fl <> [] -> exists t, i_threads s !! t = Some (R_call fl)).
Proof.
  intros Hs H Hb. destruct (inbox_run_inv _ _ _ Hs H Hb) as [o Hi].
  exists (owner_batch o). split_and!; [apply Hi|..]; destruct o as [[t th]|]; try done;
    destruct (proj1 (ii_owned _ _ Hi t th) eq_refl) as [Hl _]; destruct th; simpl; try done.
  - by apply (ii_batch _ _ Hi t).
  - eauto.
Qed.

(** At most one goroutine is between claiming the queue and parking, so
    [PopN] has a single caller and [Invoke] never runs twice at a time. *)
Theorem inbox_single_consumer size acts s t1 t2 th1 th2 :
  - 2 ^ 63 <= size < 2 ^ 63 -> inbox_run size acts = Ok (Some s) -> slen (i_sent s) <= 2 ^ 62 ->
  i_threads s !! t1 = Some th1 -> i_threads s !! t2 = Some th2 ->
  owner th1 = true -> owner th2 = true -> t1 = t2.
Proof.
  intros Hs H Hb H1 H2 Ho1 Ho2. destruct (inbox_run_inv _ _ _ Hs H Hb) as [o Hi].
  pose proof (owned_some _ _ _ _ (ii_owned _ _ Hi) H1 Ho1).
  pose proof (owned_some _ _ _ _ (ii_owned _ _ Hi) H2 Ho2). congruence.
Qed.

(** No wakeup is lost: while the inbox is idle and its queue is not empty,
    some goroutine is about to claim the queue or to look at it again. *)
Theorem inbox_no_lost_wakeup size acts s :
  - 2 ^ 63 <= size < 2 ^ 63 -> inbox_run size acts = Ok (Some s) -> slen (i_sent s) <= 2 ^ 62 ->
  in_procStatus (i_in s) = stateIdle -> q_abs (in_rb (i_in s)) <> [] ->
  exists t th, i_threads s !! t = Some th /\ waker th = true.
Proof.
  intros Hs H Hb Hi Hq. destruct (inbox_run_inv _ _ _ Hs H Hb) as [o HI].
  by apply (ii_wake _ _ HI).
Qed.

(** C19: once no new [Send] or [Stop] is made, every schedule of the goroutines
    is finite, and where it ends all of them are done; if the inbox was not
    stopped it is idle again, its queue is empty and everything sent has been
    delivered, in order. *)
Theorem inbox_settles size acts s :
  - 2 ^ 63 <= size < 2 ^ 63 -> inbox_run size acts = Ok (Some s) ->
  slen (i_sent s) + Z.of_nat (pending s) <= 2 ^ 62 ->
  Acc (fun s2 s1 => moves s1 s2) s /\
  (quiescent s ->
    (forall t th, i_threads s !! t = Some th -> th = T_done) /\
    (in_procStatus (i_in s) <> stateStopped ->
      in_procStatus (i_in s) = stateIdle /\ q_abs (in_rb (i_in s)) = [] /\
      i_delivered s = i_sent s)).
Proof.
  intros Hs H Hb.
  assert (iInv s) as Hi by (eapply inbox_run_inv; eauto; unfold slen in *; lia).
  split; [by apply internal_wf|]. intros Hq.
  pose proof (quiescent_done _ Hi Hb Hq) as Hd. split; [done|].
  destruct Hi as [o Hi]. by apply (all_done_delivered _ o).
Qed.

(** [Stop] is final, and after it at most the one batch already taken from
    the queue is handed over. *)
Theorem inbox_stop_final size acts s acts' s' :
  - 2 ^ 63 <= size < 2 ^ 63 -> inbox_run size acts = Ok (Some s) ->
  run istep (AStop :: acts') s = Some s' -> slen (i_sent s') <= 2 ^ 62 ->
  in_procStatus (i_in s') = stateStopped /\
  exists l, i_delivered s' = i_delivered s ++ l /\ slen l <= defaultThroughput.
Proof.
  intros Hs H H' Hb.
  assert (slen (i_sent s) <= 2 ^ 62) as Hb0.
  { destruct (run_sent _ _ _ H') as [l El]. unfold slen in *. rewrite El, length_app in Hb. lia. }
  destruct (inbox_run_inv _ _ _ Hs H Hb0) as [o Hi]. simpl in H'.
  pose proof (iinv_stop _ _ Hi) as Hi1.
  split.
  - assert (is_stopped (i_in s') = true) as Hz; [|by apply Z.eqb_eq].
    refine (run_invariant istep (fun x => is_stopped (i_in x) = true) _ acts' _ _ _ H').
    + intros a s1 s2. apply stopped_step.
    + done.
  - destruct (late_run acts' _ _ (ex_intro _ o Hi1) eq_refl H' Hb) as (l & El & Hl & _).
    exists l. split; [done|].
    assert (iInv s') as [o' Hi'] by (eapply run_inv; eauto; by exists o).
    pose proof (ii_late _ _ Hi'). unfold defaultThroughput in *. lia.
Qed.
End inbox.

(** ** Concrete executions *)

#[local] Instance z_queue : Queue (RingBuffer Z) Z := ring_queue 0.

Definition inbox_empty : ist (RingBuffer Z) Z :=
  ISt (Inbox (Ring (Buffer [] 0) 0 0 0 false false) false 0 0) [] [] [] 0.

(** The state the actions lead to, from an inbox of size 4. *)
Definition inbox_state (acts : list (iact Z)) : ist (RingBuffer Z) Z :=
  match inbox_run 4 acts with
  | Ok (Some s) => s
  | _ => inbox_empty
  end.

(** Two sends; goroutine 2 is the processor, and goes up to the park. *)
Definition inbox_demo : list (iact Z) :=
  [ASend 10; ASend 20; AThread 0; AThread 1; AThread 0; AThread 1;
   AThread 2; AThread 2; AThread 2; AThread 2; AThread 2; AThread 2].

(** A third message lands between the empty check and the park; the sender sees
    the inbox running, the processor parks and looks again. *)
Definition inbox_demo_late : list (iact Z) :=
  inbox_demo ++ [ASend 30; AThread 3; AThread 3; AThread 2; AThread 2].

(** It claims the queue back, delivers and parks. *)
Definition inbox_demo_end : list (iact Z) :=
  inbox_demo_late ++ replicate 9 (AThread 2).

Lemma inbox_fifo_witness :
  exists s fl, inbox_run 4 (take 8 inbox_demo) = Ok (Some s) /\
    i_sent s = [10; 20] /\ i_delivered s = [] /\
    i_sent s = i_delivered s ++ fl ++ q_abs (in_rb (i_in s)) /\
    (fl <> [] -> exists t, i_threads s !! t = Some (R_call fl)).
Proof.
  pose (inbox_fifo 4 (take 8 inbox_demo) (inbox_state (take 8 inbox_demo))) as H.
  destruct H as (fl & H1 & _ & H2); [lia|vm_compute; reflexivity|vm_compute; done|].
  exists (inbox_state (take 8 inbox_demo)), fl.
  split_and!; [vm_compute; reflexivity..|exact H1|exact H2].
Defined.

Lemma inbox_single_consumer_witness :
  exists s, inbox_run 4 inbox_demo = Ok (Some s) /\
    i_threads s !! 2%nat = Some R_park /\
    forall t th, i_threads s !! t = Some th -> owner th = true -> t = 2%nat.
Proof.
  exists (inbox_state inbox_demo). split_and!; [vm_compute; reflexivity..|].
  intros t th Hl Ho.
  apply (inbox_single_consumer 4 inbox_demo (inbox_state inbox_demo)
    t 2%nat th R_park);
    [lia|vm_compute; reflexivity|vm_compute; done|exact Hl|vm_compute; reflexivity|exact Ho|reflexivity].
Defined.

Lemma inbox_no_lost_wakeup_witness :
  exists s, inbox_run 4 (take 16 inbox_demo_late) = Ok (Some s) /\
    in_procStatus (i_in s) = stateIdle /\ q_abs (in_rb (i_in s)) = [30] /\
    exists t th, i_threads s !! t = Some th /\ waker th = true.
Proof.
  exists (inbox_state (take 16 inbox_demo_late)). split_and!; [vm_compute; reflexivity..|].
  apply (inbox_no_lost_wakeup 4 (take 16 inbox_demo_late));
    [lia|vm_compute; reflexivity|vm_compute; done|vm_compute; reflexivity|vm_compute; done].
Defined.

Lemma inbox_settles_witness :
  exists s, inbox_run 4 inbox_demo_end = Ok (Some s) /\
    i_sent s = [10; 20; 30] /\ i_threads s = [T_done; T_done; T_done; T_done] /\
    i_delivered s = i_sent s.
Proof.
  exists (inbox_state inbox_demo_end). split_and!; [vm_compute; reflexivity..|].
  apply (inbox_settles 4 inbox_demo_end (inbox_state inbox_demo_end));
    [lia|vm_compute; reflexivity|vm_compute; done| |vm_compute; done].
  intros [|[|[|[|t]]]]; vm_compute; reflexivity.
Defined.

(** Stopped while the processor holds a batch of two. *)
Lemma inbox_stop_final_witness :
  exists s s', inbox_run 4 (take 8 inbox_demo) = Ok (Some s) /\
    run istep (AStop :: drop 8 inbox_demo) s = Some s' /\
    i_delivered s = [] /\ i_delivered s' = [10; 20] /\
    in_procStatus (i_in s') = stateStopped /\
    exists l, i_delivered s' = i_delivered s ++ l /\ slen l <= defaultThroughput.
Proof.
  exists (inbox_state (take 8 inbox_demo)),
         (inbox_state (take 8 inbox_demo ++ AStop :: drop 8 inbox_demo)).
  split_and!; [vm_compute; reflexivity..|]. 
  apply (inbox_stop_final 4 (take 8 inbox_demo) _ (drop 8 inbox_demo));
    [lia|vm_compute; reflexivity..|vm_compute; done].
Defined.

(** Two processor goroutines of one inbox can be alive at once: one has
    parked and is about to look at the queue again, when a [Send] starts
    another, which calls [Invoke]. *)
Theorem inbox_two_processors :
  exists acts s t1 t2 batch, inbox_run 4 acts = Ok (Some s) /\
    t1 <> t2 /\ i_threads s !! t1 = Some R_len /\ i_threads s !! t2 = Some (R_call batch).
Proof.
  exists (take 15 inbox_demo_late ++ [ASend 40; AThread 4; AThread 2; AThread 4; AThread 5; AThread 5]).
  eexists _, 2%nat, 5%nat, _. split; [vm_compute; reflexivity|]. 
  split; [done|]. split; vm_compute; reflexivity.
Qed.
