(* ===== verification/InboxConc.v ===== *)
(** * The inbox on the interleaved ring buffer

    [Inbox] takes the operations of the queue as atomic, [RingConc] has them one
    access at a time.  Here [inbox.go] runs on the ring buffer at that grain: the
    goroutines inside [Push] wait for the mutex, spin in [grow] and publish; the
    one inside [PopN] goes through the handshake and copies its batch, while
    other goroutines load, store and swap the status word and read the length.

    The single-consumer premise of [RingConc] is not assumed: [ACallPopN] cannot
    be taken while another goroutine is inside [PopN], and the theorems show that
    the goroutine that wants to take it never finds that.  Every execution is one
    of [Inbox], [AStale] included, on a queue that is a list. *)

From S2P Require Import Prelude RingBuffer RingConc Inbox.

(** [G_pushing] is inside [Push], [G_popping] inside [PopN]: where exactly, the
    ring says. *)
Inductive gthread (E : Type) : Type :=
  | G_push (e : E)              (* Send: in.rb.Push(msg), about to be called *)
  | G_pushing (e : E)
  | G_schedule                  (* CAS idle -> running; go in.process() *)
  | G_load                      (* run: atomic load of procStatus *)
  | G_popn                      (* run: in.rb.PopN(throughput), about to be called *)
  | G_popping
  | G_call (batch : list E)     (* run: in.proc.Invoke(batch), about to be called *)
  | G_invoking                  (* inside Invoke, then Gosched *)
  | G_park                      (* process: CAS running -> idle *)
  | G_len                       (* process: length.Load() in Len *)
  | G_reclaim                   (* process: CAS idle -> running *)
  | G_done.
Arguments G_push {E}.
Arguments G_pushing {E}.
Arguments G_schedule {E}.
Arguments G_load {E}.
Arguments G_popn {E}.
Arguments G_popping {E}.
Arguments G_call {E}.
Arguments G_invoking {E}.
Arguments G_park {E}.
Arguments G_len {E}.
Arguments G_reclaim {E}.
Arguments G_done {E}.

(** The ghosts record the order in which pushes took effect and in which
    messages were handed over. *)
Record gst (E : Type) := GSt {
  g_in : inbox (cst E);
  g_threads : list (gthread E);
  g_sent : list E;
  g_delivered : list E;
}.
Arguments GSt {E}.
Arguments g_in {E}.
Arguments g_threads {E}.
Arguments g_sent {E}.
Arguments g_delivered {E}.

Inductive gact (E : Type) : Type :=
  | GSend (e : E)          (* some goroutine calls Send(e) *)
  | GStop                  (* some goroutine calls Stop() *)
  | GThread (t : nat).     (* goroutine t takes its next step *)
Arguments GSend {E}.
Arguments GStop {E}.
Arguments GThread {E}.

(** ** The abstract queue, as a [Queue]

    A list, with the number of pushes so far. *)
Section fifo.
Context {E : Type}.

#[export] Program Instance fifo_queue : Queue (list E * Z) E := {|
  q_new _ := Ok ([], 0);
  q_push x q := Ok (true, (q.1 ++ [x], q.2 + 1));
  q_popn n q := Ok (popn_spec n q.1, (drop (Z.to_nat n) q.1, q.2));
  q_len q := slen q.1;
  q_inv _ := True;
  q_abs := fst;
  q_pushes := snd;
|}.
Solve Obligations with simpl; eauto 10.
End fifo.

Section inbox_conc.
Context {E : Type} (zero : E).
Implicit Types (g : gst E) (th v : gthread E) (ths : list (gthread E)) (r : cst E) (t u : nat) (e : E).

(** ** Operations *)

Definition ring g : cst E := in_rb (g_in g).
Definition set_gthread t th g : gst E :=
  GSt (g_in g) (<[t := th]> (g_threads g)) (g_sent g) (g_delivered g).
Definition set_gin (i : inbox (cst E)) g : gst E :=
  GSt i (g_threads g) (g_sent g) (g_delivered g).

Definition pushed (ev : option (@qev E)) : list E :=
  match ev with Some (EvPush x) => [x] | _ => [] end.

(** A step of the ring buffer. *)
Definition ring_step (a : ract E) g : option (gst E) :=
  r ← rstep zero a (ring g);
  Some (GSt (with_rb r (g_in g)) (g_threads g) (g_sent g ++ pushed (event a (ring g))) (g_delivered g)).

(** Inside [Push]: take the mutex, or go on if it is [t] that has it; the last
    step releases it. *)
Definition push_step t e g : option (gst E) :=
  match c_lock (ring g) with
  | None => ring_step (ALock t) g
  | Some (u, pc) =>
      if (u =? t)%nat then
        g' ← ring_step AHold g;
        Some (set_gthread t (match pc with P_unlock => G_schedule | _ => G_pushing e end) g')
      else None
  end.

(** Inside [PopN]: it returns a batch, or fails where it loads [length]. *)
Definition popn_step t g : option (gst E) :=
  g' ← ring_step ACons g;
  Some (set_gthread t
    (match c_cons (ring g) with
     | C_ret its => G_call its
     | _ => match c_cons (ring g') with C_idle => G_park | _ => G_popping end
     end) g').

Definition gschedule g : gst E :=
  let '(won, i) := cas stateIdle stateRunning (g_in g) in
  if won then GSt i (g_threads g ++ [G_load]) (g_sent g) (g_delivered g) else g.

Definition gthread_step t g : option (gst E) :=
  th ← g_threads g !! t;
  let i := g_in g in
  match th with
  | G_push e => g' ← ring_step (ACallPush t e) g; Some (set_gthread t (G_pushing e) g')
  | G_pushing e => push_step t e g
  | G_schedule => Some (gschedule (set_gthread t G_done g))
  | G_load => Some (set_gthread t (if in_procStatus i =? stateStopped then G_park else G_popn) g)
  | G_popn => g' ← ring_step (ACallPopN (in_throughput i)) g; Some (set_gthread t G_popping g')
  | G_popping => popn_step t g
  | G_call batch =>
      if in_proc i then
        Some (GSt i (<[t := G_invoking]> (g_threads g)) (g_sent g) (g_delivered g ++ batch))
      else None
  | G_invoking => Some (set_gthread t G_load g)
  | G_park =>
      let '(won, i') := cas stateRunning stateIdle i in
      Some (set_gthread t (if won then G_len else G_done) (set_gin i' g))
  | G_len => Some (set_gthread t (if c_length (ring g) =? 0 then G_done else G_reclaim) g)
  | G_reclaim =>
      let '(won, i') := cas stateIdle stateRunning i in
      Some (set_gthread t (if won then G_load else G_done) (set_gin i' g))
  | G_done => None
  end.

Definition gstep (a : gact E) g : option (gst E) :=
  match a with
  | GSend e => Some (GSt (g_in g) (g_threads g ++ [G_push e]) (g_sent g) (g_delivered g))
  | GStop => Some (set_gin (inbox_Stop (g_in g)) g)
  | GThread t => gthread_step t g
  end.

Definition ginit (size : Z) : exec (gst E) :=
  r ← rinit zero size;
  Ok (GSt (inbox_Start (Inbox r false defaultThroughput stateIdle)) [] [] []).

(** ** The inbox it implements *)

(** A push has taken effect once the holder has raised [length]; a batch is out
    of the queue once [PopN] has loaded it. *)
Definition published r t : bool :=
  match c_lock r with Some (u, P_unlock) => (u =? t)%nat | _ => false end.

Definition athread r t th : thread E :=
  match th with
  | G_push e => S_push e
  | G_pushing e => if published r t then S_schedule else S_push e
  | G_schedule => S_schedule
  | G_load => R_load
  | G_popn => R_pop
  | G_popping => match c_cons r with C_idle | C_pop | C_popn _ => R_pop | _ => R_call (c_claim r) end
  | G_call batch => R_call batch
  | G_invoking => R_invoking
  | G_park => R_park
  | G_len => R_len
  | G_reclaim => R_reclaim
  | G_done => T_done
  end.

Definition ain (sent : list E) (i : inbox (cst E)) : inbox (list E * Z) :=
  Inbox (cabs zero (in_rb i), slen sent) (in_proc i) (in_throughput i) (in_procStatus i).

Definition abs late g : ist (list E * Z) E :=
  ISt (ain (g_sent g) (g_in g)) (imap (athread (ring g)) (g_threads g)) (g_sent g) (g_delivered g) late.

(** ** What the goroutines and the ring know of each other *)

Definition ppc_item (pc : ppc E) : option E :=
  match pc with
  | P_content x | P_tail x _ | P_check x _ _ | P_grow x _ _ | P_spin x _ _ | P_rehead x _ _
  | P_double x _ _ _ | P_publish x _ _ | P_ungrow x _ _ | P_write x _ _ | P_settail x _ | P_addlen x => Some x
  | P_unlock => None
  end.

Record related r ths (sent : list E) : Prop := Related {
  gr_ring : rInv zero r;
  gr_pushes : c_n r = slen sent + pend (c_lock r);
  gr_lock : forall t pc, c_lock r = Some (t, pc) -> c_wait r !! t = None /\
    exists e, ths !! t = Some (G_pushing e) /\ (ppc_item pc = Some e \/ pc = P_unlock);
  gr_wait : forall t e, c_wait r !! t = Some e -> ths !! t = Some (G_pushing e);
  gr_push : forall t e, ths !! t = Some (G_pushing e) ->
    c_wait r !! t = Some e \/ exists pc, c_lock r = Some (t, pc);
  gr_idle : forall t, ths !! t = Some G_popping -> c_cons r <> C_idle;
  gr_busy : c_cons r <> C_idle -> exists t, ths !! t = Some G_popping;
  gr_popn : match c_cons r with C_pop => False | C_popn n => n = defaultThroughput | _ => True end;
}.

Definition grel g : Prop := related (ring g) (g_threads g) (g_sent g).

(** *** Fields of the ring that its steps change *)

Lemma hold_fields r r' t pc : hold_step zero r = Some r' -> c_lock r = Some (t, pc) ->
  c_wait r' = c_wait r /\ c_cons r' = c_cons r /\ c_claim r' = c_claim r /\
  c_n r' - pend (c_lock r') = c_n r - pend (c_lock r) + slen (pushed (event AHold r)) /\
  match pc with
  | P_unlock => c_lock r' = None
  | P_addlen _ => c_lock r' = Some (t, P_unlock)
  | _ => exists pc', c_lock r' = Some (t, pc') /\ ppc_item pc' = ppc_item pc
  end.
Proof.
  intros Hs Hl. unfold hold_step in Hs. unfold event. rewrite Hl in *. simpl in Hs.
  destruct pc; invert_step Hs; simpl; unfold slen; simpl; split_and!; eauto; rewrite ?Hl; simpl; eauto; lia.
Qed.

Definition in_popn (c : cpc E) : bool :=
  match c with C_idle | C_pop | C_popn _ | C_ret _ => false | _ => true end.

Lemma cons_fields r r' : cons_step zero r = Some r' ->
  c_wait r' = c_wait r /\ c_lock r' = c_lock r /\ c_n r' = c_n r /\
  match c_cons r with
  | C_popn n =>
      if (n <=? 0) || (c_length r =? 0) then r' = with_cons C_idle r
      else in_popn (c_cons r') = true /\ c_claim r' = take (Z.to_nat n) (cabs zero r)
  | C_ret _ => r' = with_cons C_idle r
  | C_pop => True
  | _ => (in_popn (c_cons r') = true \/ exists its, c_cons r' = C_ret its) /\ c_claim r' = c_claim r
  end.
Proof.
  intros Hs. unfold cons_step in Hs.
  destruct (c_cons r) eqn:Hc; invert_step Hs; simpl; rewrite ?Hc; simpl; split_and!; eauto.
Qed.

(** *** [length] and the queue *)

(** [Len] runs behind while a batch is being taken, and only then. *)
Lemma length_cabs r : rInv zero r ->
  c_length r = slen (cabs zero r) + held (c_cons r) - subbed (c_cons r).
Proof.
  intros (k & b & [Hb ? ? ? ? ? ? ? ? ? ?]). unfold cabs. rewrite Hb. unfold slen. rewrite window_length. lia.
Qed.

Lemma length_zero r : rInv zero r -> c_length r = 0 -> cabs zero r = [].
Proof.
  intros Hi. rewrite length_cabs by done. intros H0. destruct (cabs zero r) eqn:E0; [done|]. exfalso.
  rewrite <- E0 in H0. assert (0 < slen (cabs zero r)) by (rewrite E0; unfold slen; simpl; lia).
  assert (0 <= held (c_cons r) - subbed (c_cons r)); [|lia].
  destruct (c_cons r); simpl; unfold slen; lia.
Qed.

Lemma length_behind r : rInv zero r -> c_length r <> 0 -> cabs zero r = [] -> in_popn (c_cons r) = true.
Proof.
  intros Hi. rewrite length_cabs by done. intros Hn E0. rewrite E0 in Hn. unfold slen in Hn. simpl in Hn.
  by destruct (c_cons r).
Qed.

Lemma length_exact r n : rInv zero r -> c_cons r = C_popn n -> c_length r <> 0 -> cabs zero r <> [].
Proof. intros Hi Hc Hn E0. pose proof (length_behind r Hi Hn E0) as H. by rewrite Hc in H. Qed.

(** *** Goroutine lists *)

(** Outside of the ring buffer. *)
Definition outside th : bool := match th with G_pushing _ | G_popping => false | _ => true end.

Lemma outside_insert ths t th th' u v :
  ths !! t = Some th -> outside th = true -> outside th' = true -> outside v = false ->
  <[t := th']> ths !! u = Some v <-> ths !! u = Some v.
Proof.
  intros Hl Ht Ht' Hv. rewrite list_lookup_insert_Some. split.
  - intros [(-> & -> & _)|[_ ?]]; [congruence|done].
  - intros Hu. right. split; [|done]. intros ->. congruence.
Qed.

Lemma outside_app ths l u v : Forall (fun th => outside th = true) l -> outside v = false ->
  (ths ++ l) !! u = Some v <-> ths !! u = Some v.
Proof.
  intros Hl Hv. rewrite lookup_app_Some. split; [|by left]. intros [?|[_ Hu]]; [done|].
  apply (Forall_lookup_1 _ _ _ _ Hl) in Hu. congruence.
Qed.

(** Goroutines outside of the ring come and go. *)
Lemma grel_outside g g' :
  grel g -> ring g' = ring g -> g_sent g' = g_sent g ->
  (forall u v, outside v = false -> g_threads g' !! u = Some v <-> g_threads g !! u = Some v) -> grel g'.
Proof.
  unfold grel. intros [? ? Hlock Hwait Hpush Hidle Hbusy ?] -> -> Hu. split; try done.
  - intros t pc Hl. destruct (Hlock t pc Hl) as [? (e & He & ?)]. split; [done|]. exists e. by rewrite Hu.
  - intros t e Hw. rewrite Hu by done. by apply Hwait.
  - intros t e He. rewrite Hu in He by done. by apply Hpush.
  - intros t Ht. rewrite Hu in Ht by done. by apply (Hidle t).
  - intros Hc. destruct (Hbusy Hc) as [t Ht]. exists t. by rewrite Hu.
Qed.

Lemma abs_insert r r' ths t th' :
  (forall u v, u <> t -> ths !! u = Some v -> athread r' u v = athread r u v) ->
  imap (athread r') (<[t := th']> ths) = <[t := athread r' t th']> (imap (athread r) ths).
Proof.
  intros Hu. apply list_eq. intros u. rewrite list_lookup_imap, !list_lookup_insert, list_lookup_imap.
  rewrite length_imap. destruct (decide (t = u)) as [->|Hn]; simpl.
  - destruct (decide _); simpl; [done|]. destruct (ths !! u) eqn:E0; [|done].
    apply lookup_lt_Some in E0. tauto.
  - destruct (decide _); [tauto|]. destruct (ths !! u) eqn:E0; [|done]. simpl. f_equal. by apply Hu.
Qed.

Lemma abs_lookup late g t : i_threads (abs late g) !! t = athread (ring g) t <$> g_threads g !! t.
Proof. simpl. by rewrite list_lookup_imap. Qed.

Lemma abs_outside late g t th i :
  in_rb i = ring g ->
  abs late (set_gthread t th (set_gin i g)) =
  set_thread t (athread (ring g) t th) (set_in (ain (g_sent g) i) (abs late g)).
Proof. intros Hi. unfold abs, set_thread, ring. simpl. rewrite Hi. f_equal. by apply abs_insert. Qed.

Lemma cas_ain sent old new (i : inbox (cst E)) :
  cas old new (ain sent i) = ((cas old new i).1, ain sent (cas old new i).2) /\
  in_rb (cas old new i).2 = in_rb i.
Proof. unfold cas. simpl. by destruct (_ =? _). Qed.

Lemma cas_ring old new (i i' : inbox (cst E)) won : cas old new i = (won, i') -> in_rb i' = in_rb i.
Proof. intros Ec. pose proof (proj2 (cas_ain [] old new i)) as Er. by rewrite Ec in Er. Qed.

(** ** Every step is a step of [Inbox], or none *)

Definition inbox_moves t g g' : Prop :=
  forall late, iInv (abs late g) -> exists late' a,
    istep a (abs late g) = Some (abs late' g') /\ (a = AThread t \/ a = AStale t).

Definition moved t g g' : Prop := grel g' /\ inbox_moves t g g'.

Definition follows t g g' : Prop :=
  grel g' /\ (inbox_moves t g g' \/ forall late, abs late g' = abs late g).

Lemma moved_follows t g g' : moved t g g' -> follows t g g'.
Proof. intros [? ?]. split; auto. Qed.

Ltac thread_is Hl :=
  unfold istep, thread_step; rewrite abs_lookup, Hl; simpl.

Lemma moves_outside t th th' i g :
  grel g -> g_threads g !! t = Some th -> outside th = true -> outside th' = true -> in_rb i = ring g ->
  (forall late, iInv (abs late g) -> exists a,
    istep a (abs late g) = Some (set_thread t (athread (ring g) t th') (set_in (ain (g_sent g) i) (abs late g))) /\
    (a = AThread t \/ a = AStale t)) ->
  moved t g (set_gthread t th' (set_gin i g)).
Proof.
  intros Hg Hl Ht Ht' Hi H. split.
  - eapply grel_outside; [done|done..|]. intros u v. by apply outside_insert with th.
  - intros late HI. exists late. rewrite abs_outside by done. by apply H.
Qed.

Lemma moves_schedule t g : grel g -> g_threads g !! t = Some G_schedule ->
  moved t g (gschedule (set_gthread t G_done g)).
Proof.
  intros Hg Hl. unfold gschedule. simpl.
  destruct (cas_ain (g_sent g) stateIdle stateRunning (g_in g)) as [Ec Er].
  destruct (cas stateIdle stateRunning (g_in g)) as [won i] eqn:E0. simpl in *.
  split.
  - destruct won; (eapply grel_outside; [done|done || apply Er|done|]); simpl; intros u v Hv;
      rewrite ?outside_app by (done || by repeat constructor); by apply outside_insert with G_schedule.
  - intros late _. exists late, (AThread t). split; [|by left]. thread_is Hl. unfold schedule. simpl.
    rewrite Ec. f_equal. destruct won.
    + unfold go_process, abs, ring. simpl. rewrite Er, imap_app, (abs_insert (in_rb (g_in g))) by done. done.
    + unfold abs, set_thread, ring. simpl. by rewrite (abs_insert (in_rb (g_in g))) by done.
Qed.

Lemma set_gin_self t th g : set_gthread t th g = set_gthread t th (set_gin (g_in g) g).
Proof. done. Qed.

Lemma moves_call t g batch g' : grel g -> g_threads g !! t = Some (G_call batch) ->
  gthread_step t g = Some g' -> moved t g g'.
Proof.
  intros Hg Hl H. unfold gthread_step in H. rewrite Hl in H. simpl in H.
  destruct (in_proc (g_in g)) eqn:Hp; [|done]. injection H as <-. split.
  - eapply grel_outside; [done|done..|]. intros u v. by apply outside_insert with (G_call batch).
  - intros late _. exists (if in_procStatus (g_in g) =? stateStopped then S late else late).
    exists (AThread t). split; [|by left]. thread_is Hl. rewrite Hp. unfold abs, ring. simpl.
    by rewrite (abs_insert (in_rb (g_in g))) by done.
Qed.

(** A goroutine that finds the queue empty parks for good; one that does not
    sees the queue, or a batch that is being taken. *)
Lemma popping_busy late g : grel g -> in_popn (c_cons (ring g)) = true -> popping (abs late g) = true.
Proof.
  intros Hg Hc. destruct (gr_busy _ _ _ Hg) as [u Hu]; [intros E0; by rewrite E0 in Hc|].
  apply existsb_exists. exists (athread (ring g) u G_popping). split.
  - apply list_elem_of_In, list_elem_of_lookup. exists u. by rewrite abs_lookup, Hu.
  - simpl. by destruct (c_cons (ring g)).
Qed.

Lemma moves_len t g : grel g -> g_threads g !! t = Some G_len ->
  moved t g (set_gthread t (if c_length (ring g) =? 0 then G_done else G_reclaim) g).
Proof.
  intros Hg Hl. rewrite set_gin_self. apply (moves_outside t G_len); try done; [by split_test|].
  intros late HI. destruct (Z.eqb_spec (c_length (ring g)) 0) as [E0|E0]; simpl.
  - exists (AThread t). split; [|by left]. pose proof (length_zero _ (gr_ring _ _ _ Hg) E0) as Eq.
    thread_is Hl. unfold ring in Eq. by rewrite Eq.
  - destruct (cabs zero (ring g)) as [|x q] eqn:Eq; [exists (AStale t)|exists (AThread t)]; (split; [|auto]).
    + unfold istep, stale_len. rewrite abs_lookup, Hl. simpl.
      by rewrite popping_busy by (done || by apply length_behind; [apply Hg|..]).
    + thread_is Hl. unfold ring in Eq. by rewrite Eq.
Qed.

Lemma moves_cas t th old new th1 th2 g :
  grel g -> g_threads g !! t = Some th -> outside th = true -> outside th1 = true -> outside th2 = true ->
  (forall late, thread_step t (abs late g) =
    let '(won, i) := cas old new (i_in (abs late g)) in
    Some (set_thread t (athread (ring g) t (if won then th1 else th2)) (set_in i (abs late g)))) ->
  moved t g (let '(won, i) := cas old new (g_in g) in set_gthread t (if won then th1 else th2) (set_gin i g)).
Proof.
  intros Hg Hl Ht H1 H2 H. destruct (cas_ain (g_sent g) old new (g_in g)) as [Ec Er].
  destruct (cas old new (g_in g)) as [won i] eqn:E0. simpl in *.
  apply (moves_outside t th); try done; [by destruct won|].
  intros late _. exists (AThread t). split; [|by left]. simpl. rewrite H. simpl. by rewrite Ec.
Qed.

Definition in_ring th : bool := match th with G_push _ | G_pushing _ | G_popn | G_popping => true | _ => false end.

Lemma moves_out t th g g' : grel g -> g_threads g !! t = Some th -> in_ring th = false ->
  gthread_step t g = Some g' -> moved t g g'.
Proof.
  intros Hg Hl Hr H. pose proof H as H'. unfold gthread_step in H'. rewrite Hl in H'. simpl in H'.
  destruct th; try done; try (injection H' as <-).
  - by apply moves_schedule.
  - rewrite set_gin_self. apply (moves_outside t G_load); try done; [by split_test|].
    intros late _. exists (AThread t). split; [|by left]. thread_is Hl. by destruct (_ =? _).
  - by eapply moves_call.
  - rewrite set_gin_self. apply (moves_outside t G_invoking); try done.
    intros late _. exists (AThread t). split; [|by left]. by thread_is Hl.
  - pose proof (moves_cas t G_park stateRunning stateIdle G_len G_done g Hg Hl) as Hc.
    destruct (cas stateRunning stateIdle (g_in g)) as [won i] eqn:Ec. injection H' as <-. apply Hc; try done.
    intros late. thread_is Hl. destruct (cas _ _ (ain _ _)) as [[] ?]; done.
  - by apply moves_len.
  - pose proof (moves_cas t G_reclaim stateIdle stateRunning G_load G_done g Hg Hl) as Hc.
    destruct (cas stateIdle stateRunning (g_in g)) as [won i] eqn:Ec. injection H' as <-. apply Hc; try done.
    intros late. thread_is Hl. destruct (cas _ _ (ain _ _)) as [[] ?]; done.
Qed.

(** *** Inside the ring buffer *)

Lemma athread_lock r r' u v :
  c_cons r' = c_cons r -> c_claim r' = c_claim r -> published r' u = published r u ->
  athread r' u v = athread r u v.
Proof. intros Hc Hm Hp. destruct v; simpl; try done; by rewrite ?Hc, ?Hm, ?Hp. Qed.

Lemma athread_cons r r' u v : c_lock r' = c_lock r -> v <> G_popping -> athread r' u v = athread r u v.
Proof. intros Hl Hv. destruct v; simpl; try done. unfold published. by rewrite Hl. Qed.

(** One goroutine is inside [PopN]. *)
Lemma popping_unique late g t u :
  iInv (abs late g) -> g_threads g !! t = Some G_popping -> g_threads g !! u = Some G_popping -> u = t.
Proof.
  intros [o Hi] Ht Hu. assert (owner (athread (ring g) t G_popping) = true) as Ho by (by simpl; destruct (c_cons _)).
  pose proof (owned_some _ _ t (athread (ring g) t G_popping) (ii_owned _ _ Hi)) as H1.
  pose proof (owned_some _ _ u (athread (ring g) t G_popping) (ii_owned _ _ Hi)) as H2.
  rewrite abs_lookup, Ht in H1. rewrite abs_lookup, Hu in H2.
  assert (Some (t, athread (ring g) t G_popping) = Some (u, athread (ring g) t G_popping)); [|congruence].
  rewrite <- H1, <- H2; done.
Qed.

(** A goroutine moves inside the ring, and the inbox does not see it. *)
Lemma abs_silent late g g' t th th' :
  g_threads g !! t = Some th -> g_threads g' = <[t := th']> (g_threads g) ->
  g_in g' = with_rb (ring g') (g_in g) -> cabs zero (ring g') = cabs zero (ring g) ->
  g_sent g' = g_sent g -> g_delivered g' = g_delivered g ->
  (forall u v, u <> t -> g_threads g !! u = Some v -> athread (ring g') u v = athread (ring g) u v) ->
  athread (ring g') t th' = athread (ring g) t th ->
  abs late g' = abs late g.
Proof.
  intros Hl Ht Hi Hq Hs Hd Hu Ha. unfold abs. rewrite Ht, (abs_insert (ring g)), Ha, Hs, Hd by done.
  unfold ain. fold (ring g') (ring g). rewrite Hq, Hi. simpl. f_equal. apply list_insert_id.
  by rewrite list_lookup_imap, Hl.
Qed.

Lemma ring_step_Some a g g' : ring_step a g = Some g' ->
  exists r, rstep zero a (ring g) = Some r /\
    g' = GSt (with_rb r (g_in g)) (g_threads g) (g_sent g ++ pushed (event a (ring g))) (g_delivered g).
Proof. unfold ring_step. intros H. destruct (rstep zero a (ring g)); simplify_eq/=. eauto. Qed.

Lemma follows_callpush t e g g1 :
  grel g -> g_threads g !! t = Some (G_push e) -> ring_step (ACallPush t e) g = Some g1 ->
  c_n (ring g1) <= max_pushes -> follows t g (set_gthread t (G_pushing e) g1).
Proof.
  intros Hg Hl H Hn. apply ring_step_Some in H as (r & Hr & ->). unfold ring in Hn. simpl in Hn.
  change (pushed (event (ACallPush t e) (ring g))) with (@nil E). rewrite app_nil_r.
  destruct (rstep_ok zero _ _ _ (gr_ring _ _ _ Hg) Hn Hr) as [Hi [Hq _]]. simpl in Hr.
  destruct (is_waiting (ring g) t || is_holder (ring g) t) eqn:E0; [done|]. injection Hr as <-.
  apply orb_false_iff in E0 as [Ew Eh].
  assert (published (ring g) t = false) as Hp.
  { unfold published. unfold is_holder in Eh. destruct (c_lock _) as [[u pc]|]; [|done].
    rewrite Nat.eqb_sym in Eh. by destruct pc. }
  pose proof (lookup_lt_Some _ _ _ Hl) as Hlt. split.
  - pose proof Hg as [? Hps Hlock Hwait Hpush Hidle Hbusy Hpn]. unfold grel, ring in *. split; simpl; try done.
    + intros u pc Hu. destruct (Hlock u pc Hu) as (Hw & e' & He & Hpc).
      assert (u <> t) by (unfold is_holder in Eh; rewrite Hu in Eh; by apply Nat.eqb_neq in Eh).
      split; [by rewrite lookup_insert_ne by congruence|]. exists e'. by rewrite list_lookup_insert_ne by congruence.
    + intros u e' Hu. apply lookup_insert_Some in Hu as [[<- <-]|[Hne Hu]].
      * by apply list_lookup_insert_eq.
      * rewrite list_lookup_insert_ne by done. by apply Hwait.
    + intros u e' Hu. apply list_lookup_insert_Some in Hu as [(<- & [= <-] & _)|[Hne Hu]].
      * left. by rewrite lookup_insert_eq.
      * rewrite lookup_insert_ne by done. by apply Hpush.
    + intros u Hu. apply list_lookup_insert_Some in Hu as [(_ & ? & _)|[_ Hu]]; [done|by apply (Hidle u)].
    + intros Hc. destruct (Hbusy Hc) as [u Hu]. exists u. rewrite list_lookup_insert_ne; [done|]. intros ->. congruence.
  - right. intros late. apply (abs_silent late g _ t (G_push e) (G_pushing e)); try done.
    simpl. unfold published in *. simpl. by rewrite Hp.
Qed.

Lemma follows_lock t e g g' :
  grel g -> g_threads g !! t = Some (G_pushing e) -> c_lock (ring g) = None ->
  ring_step (ALock t) g = Some g' -> c_n (ring g') <= max_pushes -> follows t g g'.
Proof.
  intros Hg Hl E0 H Hn. apply ring_step_Some in H as (r & Hr & ->). unfold ring in Hn. simpl in Hn.
  change (pushed (event (ALock t) (ring g))) with (@nil E). rewrite app_nil_r.
  destruct (rstep_ok zero _ _ _ (gr_ring _ _ _ Hg) Hn Hr) as [Hi [Hq _]]. simpl in Hr. rewrite E0 in Hr.
  assert (c_wait (ring g) !! t = Some e) as Hw by (by destruct (gr_push _ _ _ Hg t e Hl) as [?|[pc ?]]; [|congruence]).
  rewrite Hw in Hr. injection Hr as <-. split.
  - pose proof Hg as [? Hps Hlock Hwait Hpush Hidle Hbusy Hpn]. unfold grel, ring in *. split; simpl; try done.
    + by rewrite E0 in Hps.
    + intros u pc [= <- <-]. rewrite lookup_delete_eq. split; [done|]. exists e. auto.
    + intros u e' Hu. apply lookup_delete_Some in Hu as [_ Hu]. by apply Hwait.
    + intros u e' Hu. destruct (decide (u = t)) as [->|Hne]; [right; eauto|].
      rewrite lookup_delete_ne by done. left. by destruct (Hpush u e' Hu) as [?|[pc ?]]; [|congruence].
  - right. intros late. apply (abs_silent late g _ t (G_pushing e) (G_pushing e)); try done.
    + simpl. by rewrite list_insert_id.
    + intros u v Hu _. apply athread_lock; [done..|]. unfold published. unfold ring at 1. simpl. by rewrite E0.
    + unfold ring at 1. simpl. unfold published. simpl. by rewrite E0.
Qed.

(** A step of the holder of the mutex in [Push]. *)
Definition after_hold (pc : ppc E) e : gthread E := match pc with P_unlock => G_schedule | _ => G_pushing e end.

Lemma hold_rel t pc e g g1 :
  grel g -> g_threads g !! t = Some (G_pushing e) -> c_lock (ring g) = Some (t, pc) ->
  ring_step AHold g = Some g1 -> c_n (ring g1) <= max_pushes -> grel (set_gthread t (after_hold pc e) g1).
Proof.
  intros Hg Hl E0 H Hn. apply ring_step_Some in H as (r & Hr & ->). unfold ring in Hn. simpl in Hn.
  destruct (rstep_ok zero _ _ _ (gr_ring _ _ _ Hg) Hn Hr) as [Hi _]. simpl in Hr.
  destruct (hold_fields _ _ _ _ Hr E0) as (Hw & Hc & _ & Hp & Hlk).
  pose proof (lookup_lt_Some _ _ _ Hl) as Hlt.
  destruct Hg as [_ Hps Hlock Hwait Hpush Hidle Hbusy Hpn].
  destruct (Hlock t pc E0) as (Hnw & e' & He' & Hpc). assert (e' = e) as -> by congruence.
  split; change (ring (set_gthread _ _ _)) with r; rewrite ?Hw, ?Hc; try done; simpl.
  - unfold slen in *. rewrite length_app. simpl in *. lia.
  - intros u pc' Hu.
    assert (u = t /\ pc <> P_unlock /\ (ppc_item pc' = Some e \/ pc' = P_unlock)) as (-> & Hne & Hit).
    { destruct pc; destruct Hpc as [[=]|?]; try done; simpl in Hlk; subst;
        try (destruct Hlk as (pc'' & Hlk & Hit)); rewrite Hlk in Hu; simplify_eq; auto. }
    split; [done|]. exists e. split; [|done]. unfold after_hold. destruct pc; try done; by apply list_lookup_insert_eq.
  - intros u e2 Hu. rewrite list_lookup_insert_ne; [by apply Hwait|]. intros ->. congruence.
  - intros u e2 Hu. apply list_lookup_insert_Some in Hu as [(<- & Hu & _)|[Hne Hu]].
    + right. unfold after_hold in Hu. destruct pc; simplify_eq; simpl in Hlk; try (destruct Hlk as (pc'' & Hlk & _)); eauto.
    + destruct (Hpush u e2 Hu) as [?|[pc' ?]]; [by left|congruence].
  - intros u Hu. apply list_lookup_insert_Some in Hu as [(_ & Hu & _)|[_ Hu]]; [by destruct pc|by apply (Hidle u)].
  - intros Hcc. destruct (Hbusy Hcc) as [u Hu]. exists u. rewrite list_lookup_insert_ne; [done|]. intros ->. congruence.
Qed.

Lemma published_other r t pc u : c_lock r = None \/ c_lock r = Some (t, pc) -> u <> t -> published r u = false.
Proof.
  unfold published. intros [H|H] Hne; rewrite H; [done|]. destruct pc; try done. by apply Nat.eqb_neq.
Qed.

Lemma published_self r t pc : c_lock r = Some (t, pc) -> published r t = bool_decide (ppc_item pc = None).
Proof. unfold published. intros ->. destruct pc; simpl; try done. by rewrite Nat.eqb_refl. Qed.

Lemma follows_hold t pc e g g1 :
  grel g -> g_threads g !! t = Some (G_pushing e) -> c_lock (ring g) = Some (t, pc) ->
  ring_step AHold g = Some g1 -> c_n (ring g1) <= max_pushes -> follows t g (set_gthread t (after_hold pc e) g1).
Proof.
  intros Hg Hl E0 H Hn. split; [by eapply hold_rel|].
  apply ring_step_Some in H as (r & Hr & ->). unfold ring in Hn. simpl in Hn.
  destruct (rstep_ok zero _ _ _ (gr_ring _ _ _ Hg) Hn Hr) as [_ Hsim]. simpl in Hr.
  destruct (hold_fields _ _ _ _ Hr E0) as (_ & Hc & Hm & _ & Hlk).
  assert (forall u v, u <> t -> g_threads g !! u = Some v -> athread r u v = athread (ring g) u v) as Hframe.
  { intros u v Hne _. apply athread_lock; [done..|].
    rewrite (published_other (ring g) t pc) by auto.
    destruct pc; try destruct Hlk as (pc' & Hlk & _); try (eapply published_other; [|done]; by right; exact Hlk).
    apply (published_other r t P_unlock); auto. }
  destruct (gr_lock _ _ _ Hg t pc E0) as (_ & e' & He' & Hpc). assert (e' = e) as -> by congruence.
  pose proof (published_self (ring g) t pc E0) as Hp.
  assert (event AHold (ring g) = None \/ exists x, pc = P_addlen x) as [Hev|[x ->]]
    by (unfold event; rewrite E0; destruct pc; eauto).
  - right. intros late. unfold sim in Hsim. rewrite Hev in *. destruct Hsim as [Hq _]. simpl. rewrite app_nil_r.
    eapply (abs_silent late g _ t (G_pushing e)); try done. change (athread r t (after_hold pc e) = athread (ring g) t (G_pushing e)).
    simpl. rewrite Hp. unfold event in Hev. rewrite E0 in Hev.
    destruct pc; try done; simpl; destruct Hlk as (pc' & Hlk & Hit); by rewrite (published_self r t pc' Hlk), Hit.
  - left. intros late _. exists late, (AThread t). split; [|by left]. unfold sim, event in *. rewrite E0 in *.
    assert (x = e) as -> by (by destruct Hpc as [[=]|]). inversion Hsim as [? ? ? Hx Hq Hy| | |]; subst.
    thread_is Hl. rewrite Hp. simpl. unfold abs, ain. change (ring (set_gthread _ _ _)) with r. simpl.
    rewrite (abs_insert (ring g)) by done. simpl. rewrite (published_self r t _ Hlk). simpl.
    unfold ring in *. by rewrite Hy, slen_snoc.
Qed.

Lemma follows_callpop t g g1 :
  grel g -> g_threads g !! t = Some G_popn -> in_throughput (g_in g) = defaultThroughput ->
  ring_step (ACallPopN (in_throughput (g_in g))) g = Some g1 ->
  c_n (ring g1) <= max_pushes -> follows t g (set_gthread t G_popping g1).
Proof.
  intros Hg Hl Hthr H Hn. apply ring_step_Some in H as (r & Hr & ->). unfold ring in Hn. simpl in Hn.
  change (pushed (event (ACallPopN _) (ring g))) with (@nil E). rewrite app_nil_r.
  destruct (rstep_ok zero _ _ _ (gr_ring _ _ _ Hg) Hn Hr) as [Hi [Hq _]]. simpl in Hr.
  destruct (c_cons (ring g)) eqn:Ec; try done. injection Hr as <-. pose proof (lookup_lt_Some _ _ _ Hl) as Hlt.
  assert (forall u, g_threads g !! u <> Some G_popping) as Hno.
  { intros u Hu. by pose proof (gr_idle _ _ _ Hg u Hu). }
  split.
  - pose proof Hg as [? Hps Hlock Hwait Hpush Hidle Hbusy Hpn]. unfold grel, ring in *. split; simpl; try done.
    + intros u pc Hu. destruct (Hlock u pc Hu) as (Hw & e' & He & Hpc). split; [done|]. exists e'.
      rewrite list_lookup_insert_ne; [done|]. intros ->. congruence.
    + intros u e' Hu. rewrite list_lookup_insert_ne; [by apply Hwait|]. intros ->. apply Hwait in Hu. congruence.
    + intros u e' Hu. apply list_lookup_insert_Some in Hu as [(_ & ? & _)|[_ Hu]]; [done|by apply Hpush].
    + intros _. exists t. by apply list_lookup_insert_eq.
  - right. intros late. apply (abs_silent late g _ t G_popn G_popping); try done.
    intros u v Hne Hu. apply athread_cons; [done|]. intros ->. by apply (Hno u).
Qed.

(** Where a step of [PopN] leaves its goroutine. *)
Definition after_popn (c c' : cpc E) : gthread E :=
  match c with C_ret its => G_call its | _ => match c' with C_idle => G_park | _ => G_popping end end.

Lemma popn_rel t g g1 late :
  grel g -> g_threads g !! t = Some G_popping -> iInv (abs late g) ->
  ring_step ACons g = Some g1 -> c_n (ring g1) <= max_pushes ->
  grel (set_gthread t (after_popn (c_cons (ring g)) (c_cons (ring g1))) g1).
Proof.
  intros Hg Hl HI H Hn. apply ring_step_Some in H as (r & Hr & ->). unfold ring in Hn. simpl in Hn.
  destruct (rstep_ok zero _ _ _ (gr_ring _ _ _ Hg) Hn Hr) as [Hi _]. simpl in Hr.
  destruct (cons_fields _ _ Hr) as (Hw & Hlk & Hcn & Hc).
  change (ring (GSt _ _ _ _)) with r.
  assert (pushed (event ACons (ring g)) = []) as Hev by (unfold event; destruct (c_cons (ring g)); repeat case_match; done).
  rewrite Hev, app_nil_r. pose proof (lookup_lt_Some _ _ _ Hl) as Hlt.
  set (th' := after_popn (c_cons (ring g)) (c_cons r)).
  assert (c_cons r = C_idle /\ outside th' = true \/ in_popn (c_cons r) = true /\ th' = G_popping \/
    (exists its, c_cons r = C_ret its) /\ th' = G_popping) as Hth.
  { pose proof (gr_popn _ _ _ Hg) as Hp. subst th'. unfold after_popn.
    destruct (c_cons (ring g)) eqn:Ec; rewrite ?Ec in *; try done; try (destruct Hc as [[Hin|[? Hits]] _];
      [right; left; split; [done|]; revert Hin; by destruct (c_cons r)|right; right; rewrite Hits; eauto]).
    - destruct (_ || _); [left; by subst r|]. destruct Hc as [Hin _]. right; left. split; [done|]. revert Hin. by destruct (c_cons r).
    - left. by subst r. }
  clearbody th'. pose proof (popping_unique late g t) as Hone. clear Hc Hev.
  destruct Hg as [_ Hps Hlock Hwait Hpush Hidle Hbusy Hpn].
  split; change (ring (set_gthread _ _ _)) with r; rewrite ?Hw, ?Hcn, ?Hlk; simpl; try done.
  - intros u pc Hu. destruct (Hlock u pc Hu) as (? & e' & He & Hpc). split; [done|]. exists e'.
    rewrite list_lookup_insert_ne; [done|]. intros ->. congruence.
  - intros u e' Hu. rewrite list_lookup_insert_ne; [by apply Hwait|]. intros ->. apply Hwait in Hu. congruence.
  - intros u e' Hu. apply list_lookup_insert_Some in Hu as [(_ & -> & _)|[_ Hu]]; [|by apply Hpush].
    by destruct Hth as [[_ ?]|[[_ ?]|[_ ?]]].
  - intros u Hu. apply list_lookup_insert_Some in Hu as [(_ & -> & _)|[Hne Hu]].
    + destruct Hth as [[_ ?]|[[Hin _]|[[its Hin] _]]]; [done|intros E0; by rewrite E0 in Hin|congruence].
    + destruct Hne. symmetry. by apply Hone.
  - intros Hcc. exists t. destruct Hth as [[? _]|[[_ ->]|[_ ->]]]; [done|by apply list_lookup_insert_eq..].
  - destruct Hth as [[-> _]|[[Hin _]|[[its ->] _]]]; [done|revert Hin; by destruct (c_cons r)|done].
Qed.

Lemma ret_claim r its : rInv zero r -> c_cons r = C_ret its -> its = c_claim r.
Proof. intros (k & b & Hi) Hc. pose proof (ri_cons _ _ _ _ Hi) as H. unfold cons_ok in H. by rewrite Hc in H. Qed.

(** The step of [t] inside [PopN], to the ring [r]. *)
Definition popped t r g : gst E :=
  GSt (with_rb r (g_in g)) (<[t := after_popn (c_cons (ring g)) (c_cons r)]> (g_threads g)) (g_sent g) (g_delivered g).

Lemma athread_popping r t : in_popn (c_cons r) = true \/ (exists its, c_cons r = C_ret its) ->
  athread r t (match c_cons r with C_idle => G_park | _ => G_popping end) = R_call (c_claim r).
Proof. intros [H|[its H]]; destruct (c_cons r) eqn:Ec; try done; simpl; by rewrite Ec. Qed.

(** Where it loads [length], the batch leaves the queue. *)
Lemma popn_load late t g r :
  grel g -> g_threads g !! t = Some G_popping -> in_throughput (g_in g) = defaultThroughput ->
  c_cons (ring g) = C_popn defaultThroughput -> cons_step zero (ring g) = Some r ->
  sim zero (event ACons (ring g)) (ring g) r ->
  (forall u v, u <> t -> g_threads g !! u = Some v -> athread r u v = athread (ring g) u v) ->
  thread_step t (abs late g) = Some (abs late (popped t r g)).
Proof.
  intros Hg Hl Hthr Ec Hr Hsim Hframe. destruct (cons_fields _ _ Hr) as (_ & _ & _ & Hc).
  unfold sim, event in Hsim. rewrite Ec in *. simpl in Hc.
  thread_is Hl. rewrite Hthr, Ec. simpl. fold (ring g). unfold abs, popped, ain. simpl.
  change (ring (GSt _ _ _ _)) with r. rewrite (abs_insert (ring g)) by done. fold (ring g). rewrite Ec.
  destruct (Z.eqb_spec (c_length (ring g)) 0) as [E0|E0].
  - subst r. rewrite (length_zero _ (gr_ring _ _ _ Hg) E0) in *. simpl in *. inversion Hsim; subst. done.
  - destruct Hc as [Hin Hm]. inversion Hsim as [|?|n q c Hpos Hne Hq| ]; subst.
    destruct (popn_cases defaultThroughput (cabs zero (ring g)) eq_refl) as [[? _]|[_ ->]]; [done|].
    simpl. rewrite athread_popping by auto. by rewrite Hm.
Qed.

(** The rest of [PopN] the inbox does not see. *)
Lemma popn_silent late t g r :
  grel g -> g_threads g !! t = Some G_popping ->
  match c_cons (ring g) with C_idle | C_pop | C_popn _ => False | _ => True end ->
  cons_step zero (ring g) = Some r -> sim zero (event ACons (ring g)) (ring g) r ->
  (forall u v, u <> t -> g_threads g !! u = Some v -> athread r u v = athread (ring g) u v) ->
  abs late (popped t r g) = abs late g.
Proof.
  intros Hg Hl Hin Hr Hsim Hframe. destruct (cons_fields _ _ Hr) as (_ & _ & _ & Hc).
  assert (cabs zero r = cabs zero (ring g)) as Hq.
  { unfold sim, event in Hsim. destruct (c_cons (ring g)); try done; try apply Hsim. by inversion Hsim. }
  eapply (abs_silent late g _ t G_popping); try done. change (ring (popped t r g)) with r.
  assert (athread (ring g) t G_popping = R_call (c_claim (ring g))) as -> by (simpl; by destruct (c_cons (ring g))).
  unfold after_popn. destruct (c_cons (ring g)) eqn:Ec; try done;
    try (destruct Hc as [Hc <-]; by apply athread_popping).
  simpl. f_equal. by apply ret_claim; [apply Hg|].
Qed.

Lemma follows_popping t g g' late :
  grel g -> g_threads g !! t = Some G_popping -> in_throughput (g_in g) = defaultThroughput ->
  popn_step t g = Some g' -> c_n (ring g') <= max_pushes -> iInv (abs late g) -> follows t g g'.
Proof.
  intros Hg Hl Hthr H Hn HI. unfold popn_step in H. destruct (ring_step ACons g) as [g1|] eqn:E1; [|done].
  injection H as <-. change (ring (set_gthread _ _ g1)) with (ring g1) in Hn.
  split; [by apply (popn_rel t g g1 late)|].
  apply ring_step_Some in E1 as (r & Hr & ->). change (ring (GSt _ _ _ _)) with r in *.
  destruct (rstep_ok zero _ _ _ (gr_ring _ _ _ Hg) Hn Hr) as [_ Hsim]. simpl in Hr.
  destruct (cons_fields _ _ Hr) as (_ & Hlk & _ & _).
  assert (pushed (event ACons (ring g)) = []) as -> by (unfold event; destruct (c_cons (ring g)); repeat case_match; done).
  rewrite app_nil_r. change (set_gthread t _ _) with (popped t r g).
  assert (forall u v, u <> t -> g_threads g !! u = Some v -> athread r u v = athread (ring g) u v) as Hframe.
  { intros u v Hne Hu. apply athread_cons; [done|]. intros ->. destruct Hne. by apply (popping_unique late g). }
  pose proof (gr_popn _ _ _ Hg) as Hpn. pose proof (gr_idle _ _ _ Hg t Hl) as Hni.
  pose proof (fun l => popn_load l t g r) as Hload. pose proof (fun l => popn_silent l t g r) as Hsil.
  destruct (c_cons (ring g)) eqn:Ec; try done; try (right; intros l; by apply Hsil).
  left. intros l _. exists l, (AThread t). split; [|by left]. apply Hload; congruence || done.
Qed.

Lemma follows_thread t g g' late :
  grel g -> iInv (abs late g) -> gthread_step t g = Some g' -> c_n (ring g') <= max_pushes -> follows t g g'.
Proof.
  intros Hg HI H Hn. pose proof H as H'. unfold gthread_step in H'.
  destruct (g_threads g !! t) as [th|] eqn:Hl; [|done]. simpl in H'.
  assert (in_throughput (g_in g) = defaultThroughput) as Hthr by (destruct HI as [o Hi]; apply (ii_thr _ _ Hi)).
  destruct (in_ring th) eqn:Hin; [|by apply moved_follows, (moves_out t th)]. destruct th; try done.
  - destruct (ring_step _ g) as [g1|] eqn:E1; [|done]. injection H' as <-. by apply (follows_callpush t e).
  - unfold push_step in H'. destruct (c_lock (ring g)) as [[u pc]|] eqn:El; [|by eapply follows_lock].
    destruct (Nat.eqb_spec u t) as [->|]; [|done]. destruct (ring_step AHold g) as [g1|] eqn:E1; [|done].
    injection H' as <-. by apply (follows_hold t pc e).
  - destruct (ring_step _ g) as [g1|] eqn:E1; [|done]. injection H' as <-. by apply follows_callpop.
  - by apply (follows_popping t g g' late).
Qed.

Lemma ring_step_mono a g g' : ring_step a g = Some g' -> c_n (ring g) <= c_n (ring g') <= c_n (ring g) + 1.
Proof. intros H. apply ring_step_Some in H as (r & Hr & ->). by apply (rstep_mono zero a). Qed.

Lemma gstep_mono a g g' : gstep a g = Some g' -> c_n (ring g) <= c_n (ring g') <= c_n (ring g) + 1.
Proof.
  intros H. destruct a as [e| |t]; simpl in H; [simplify_eq; unfold ring; simpl; lia..|].
  unfold gthread_step in H. destruct (g_threads g !! t) as [th|]; [|done]. simpl in H.
  destruct th; try done; unfold push_step, popn_step, gschedule in H;
    repeat case_match; try (destruct (ring_step _ g) as [g1|] eqn:E1; [|done]); simpl in H; simplify_eq;
    try (exact (ring_step_mono _ _ _ E1)); unfold ring; simpl;
    repeat match goal with Hc : cas _ _ _ = _ |- _ => apply cas_ring in Hc; simpl in Hc; rewrite ?Hc end; lia.
Qed.

(** The calls of [Send] and [Stop] an execution makes. *)
Definition calls (acts : list (iact E)) : list (iact E) :=
  omap (fun a => match a with ASend e => Some (ASend e) | AStop => Some AStop | _ => None end) acts.
Definition gcalls (acts : list (gact E)) : list (iact E) :=
  omap (fun a => match a with GSend e => Some (ASend e) | GStop => Some AStop | GThread _ => None end) acts.

Lemma calls_app l l' : calls (l ++ l') = calls l ++ calls l'.
Proof. apply omap_app. Qed.

Lemma inbox_run_snoc size acts a (s s' : ist (list E * Z) E) :
  inbox_run size acts = Ok (Some s) -> istep a s = Some s' -> inbox_run size (acts ++ [a]) = Ok (Some s').
Proof.
  unfold inbox_run. destruct (iinit size) as [s0| |]; simpl; try done. intros [= H] Ha.
  rewrite run_app, H. simpl. by rewrite Ha.
Qed.

(** The inbox an execution implements: an execution of [Inbox] with the same
    calls that has come to the same state. *)
Definition implements size (gacts : list (gact E)) g : Prop :=
  exists acts late, inbox_run size acts = Ok (Some (abs late g)) /\ calls acts = gcalls gacts.

Record shadowed size gacts g : Prop := Shadowed {
  tk_rel : grel g;
  tk_impl : implements size gacts g;
}.

Lemma grel_sent g : grel g -> slen (g_sent g) <= c_n (ring g).
Proof.
  intros Hg. rewrite (gr_pushes _ _ _ Hg).
  assert (0 <= pend (c_lock (ring g))) by (unfold pend; repeat case_match; lia). lia.
Qed.

Lemma grel_bound late g : grel g -> c_n (ring g) <= max_pushes -> slen (i_sent (abs late g)) <= 2 ^ 62.
Proof. intros Hg Hn. pose proof (grel_sent g Hg). unfold max_pushes in Hn. simpl. lia. Qed.

Lemma implements_step size gacts g g' a s' late acts :
  inbox_run size acts = Ok (Some (abs late g)) -> calls acts = gcalls gacts ->
  istep a (abs late g) = Some (abs s' g') -> forall b, calls [a] = gcalls [b] -> implements size (gacts ++ [b]) g'.
Proof.
  intros Hr Hc Hs b Hb. exists (acts ++ [a]), s'. split; [by eapply inbox_run_snoc|].
  rewrite calls_app, Hc, Hb. unfold gcalls. by rewrite omap_app.
Qed.

Lemma shadowed_step size gacts a g g' :
  - 2 ^ 63 <= size < 2 ^ 63 -> shadowed size gacts g -> gstep a g = Some g' -> c_n (ring g') <= max_pushes ->
  shadowed size (gacts ++ [a]) g'.
Proof.
  intros Hsz [Hg (acts & late & Hr & Hc)] H Hn.
  assert (c_n (ring g) <= max_pushes) as Hn0 by (apply gstep_mono in H; lia).
  assert (iInv (abs late g)) as HI by (eapply inbox_run_inv; [done|done|by apply grel_bound]).
  destruct a as [e| |t]; simpl in H.
  - simplify_eq. split.
    + eapply grel_outside; [done|done..|]. intros u v. simpl. apply outside_app. by repeat constructor.
    + eapply (implements_step _ _ g _ (ASend e) late late); try done.
      unfold abs. simpl. rewrite imap_app. done.
  - simplify_eq. split; [by eapply grel_outside|].
    by eapply (implements_step _ _ g _ AStop late late).
  - destruct (follows_thread t g g' late Hg HI H Hn) as [Hg' Hf]. split; [done|].
    destruct Hf as [Hf|He]; [destruct (Hf late HI) as (late' & b & Hb & Hab)|].
    2: { exists acts, late. rewrite He. split; [done|]. unfold gcalls. rewrite omap_app. simpl. by rewrite app_nil_r. }
    eapply (implements_step _ _ g _ b late' late); try done. by destruct Hab as [->| ->].
Qed.

Lemma shadowed_init size : - 2 ^ 63 <= size < 2 ^ 63 ->
  exists g, ginit size = Ok g /\ shadowed size [] g.
Proof.
  intros Hsz. unfold ginit. destruct (rinit_ok zero size Hsz) as (r & -> & Hi & Hq & _ & Hn & Hl & Hc & Hw).
  simpl. eexists. split; [done|]. split.
  - split; unfold ring; simpl; rewrite ?Hl, ?Hc, ?Hn, ?Hw; done.
  - exists [], 0%nat. split; [|done]. unfold inbox_run, iinit, NewInbox, abs, ain, ring. simpl. by rewrite Hq.
Qed.

Lemma run_gmono acts g g' : run gstep acts g = Some g' -> c_n (ring g) <= c_n (ring g').
Proof.
  revert g. induction acts as [|a acts IH]; intros g H; simpl in H; [by simplify_eq|].
  destruct (gstep a g) as [g1|] eqn:E1; [|done]. simpl in H. apply IH in H. apply gstep_mono in E1. lia.
Qed.

Lemma shadowed_run size gacts acts g g' :
  - 2 ^ 63 <= size < 2 ^ 63 -> shadowed size gacts g -> run gstep acts g = Some g' -> c_n (ring g') <= max_pushes ->
  shadowed size (gacts ++ acts) g'.
Proof.
  intros Hsz. revert gacts g. induction acts as [|a acts IH]; intros gacts g Ht H Hn; simpl in H.
  - simplify_eq. by rewrite app_nil_r.
  - destruct (gstep a g) as [g1|] eqn:E1; [|done]. simpl in H. replace (gacts ++ a :: acts) with ((gacts ++ [a]) ++ acts) by (by rewrite <- app_assoc).
    apply (IH _ g1); [|done..]. eapply shadowed_step; eauto. apply run_gmono in H. lia.
Qed.

End inbox_conc.

(** ** Property *)

(** C5: [inbox.go] on the interleaved [ringbuffer.go] implements [Inbox]: every
    execution, one access to shared memory at a time, has come to a state that an
    execution of [Inbox] reaches, with the same calls of [Send] and [Stop] in the
    same order, on a queue that is a list: the same status word, the same
    messages sent and delivered, as queue the published items nobody has been
    promised, and every goroutine where it is, inside [Push] before or after its
    push took effect, inside [PopN] before or after it took its batch. *)
Theorem inbox_on_ring {E} (zero : E) size g0 acts g :
  - 2 ^ 63 <= size < 2 ^ 63 -> ginit zero size = Ok g0 -> run (gstep zero) acts g0 = Some g ->
  c_n (ring g) <= max_pushes ->
  exists iacts s, inbox_run (Q:=list E * Z) size iacts = Ok (Some s) /\ calls iacts = gcalls acts /\
    q_abs (in_rb (i_in s)) = cabs zero (ring g) /\ in_procStatus (i_in s) = in_procStatus (g_in g) /\
    i_sent s = g_sent g /\ i_delivered s = g_delivered g /\
    i_threads s = imap (athread (ring g)) (g_threads g).
Proof.
  intros Hsz E0 Hr Hn. destruct (shadowed_init zero size Hsz) as (g1 & E1 & Ht). rewrite E0 in E1. injection E1 as <-.
  destruct (shadowed_run zero size [] acts g0 g Hsz Ht Hr Hn) as [_ (iacts & late & H & Hc)].
  exists iacts, (abs zero late g). by split_and!.
Qed.

(** ** Concrete executions *)

(** Goroutine 0 sends 11 and starts goroutine 1, which hands it over and parks;
    2 sends 22 and starts 3, whose [PopN] has loaded [length] and no more. *)
Definition ring_demo : list (gact Z) :=
  GSend 11 :: replicate 10 (GThread 0) ++ replicate 18 (GThread 1) ++
  GSend 22 :: replicate 10 (GThread 2) ++ replicate 3 (GThread 3).

Definition ginbox_empty : gst Z :=
  GSt (Inbox (CSt [] 0 0 0 0 false false ∅ None C_idle 0 []) false 0 0) [] [] [].

(** The state the actions lead to, from an inbox of size 2. *)
Definition ring_state (acts : list (gact Z)) : gst Z :=
  match ginit 0 2 with Ok g => default ginbox_empty (run (gstep 0) acts g) | _ => ginbox_empty end.

(** Goroutine 1 looks at the queue again while 3 takes what is left: the queue is
    empty, [Len] is not zero, and 1 goes on to claim an inbox that is running. *)
Lemma inbox_on_ring_witness :
  exists g0 g, ginit 0 2 = Ok g0 /\ run (gstep 0) ring_demo g0 = Some g /\
    g_threads g = [G_done; G_len; G_done; G_popping] /\ cabs 0 (ring g) = [] /\ c_length (ring g) = 1 /\
    exists iacts s, inbox_run (Q:=list Z * Z) 2 iacts = Ok (Some s) /\ calls iacts = [ASend 11; ASend 22] /\
      i_delivered s = [11] /\ i_threads s = [T_done; R_len; T_done; R_call [22]].
Proof.
  eexists _, (ring_state ring_demo). split; [vm_compute; reflexivity|]. do 4 (split; [vm_compute; reflexivity|]).
  destruct (inbox_on_ring 0 2 _ ring_demo (ring_state ring_demo) ltac:(lia) eq_refl) as (iacts & s & Hr & Hc & _ & _ & _ & Hd & Ht);
    [vm_compute; reflexivity|vm_compute; discriminate|].
  exists iacts, s. split; [exact Hr|]. split; [rewrite Hc; vm_compute; reflexivity|].
  split; [rewrite Hd|rewrite Ht]; vm_compute; reflexivity.
Defined.
