(* ===== verification/InboxLive.v ===== *)
(** * The inbox on the interleaved ring buffer comes to rest

    Goroutines of [InboxConc] wait for the mutex of [Push], spin in [grow] and in
    the consumer's half of the handshake.  Here nobody is stuck for good, and from
    every reachable state some schedule ends all that was started.  The measure is
    lexicographic: pushes to make, the work [Inbox.measure] counts, calls into the
    ring buffer, and the steps [RingConc.rmeasure] counts. *)

From S2P Require Import Prelude RingBuffer RingConc Inbox InboxConc.

Section progress.
Context {E : Type} (zero : E).
Implicit Types (g : gst E) (th v : gthread E) (ths : list (gthread E)) (r : cst E) (t u : nat) (e : E).
Notation abs := (abs zero).
Notation grel := (grel zero).
Notation gthread_step := (gthread_step zero).
Notation gstep := (gstep zero).
Notation shadowed := (shadowed zero).
Notation ring_step := (ring_step zero).
Notation follows := (follows zero).
Notation moved := (moved zero).

(** A goroutine that is not done can move, unless another one has the mutex. *)
Lemma gthread_enabled late g t th :
  grel g -> iInv (abs late g) -> c_n (ring g) <= max_pushes -> g_threads g !! t = Some th -> th <> G_done ->
  (forall u pc, c_lock (ring g) = Some (u, pc) -> (exists e, th = G_pushing e) -> u = t) ->
  is_Some (gthread_step t g).
Proof.
  intros Hg [o Hi] Hn Hl Hd Hu. pose proof (gr_ring _ _ _ _ Hg) as (k & b & Hr).
  unfold gthread_step. rewrite Hl. simpl. destruct th; try done; eauto.
  - unfold ring_step. simpl. destruct (is_waiting (ring g) t || is_holder (ring g) t) eqn:E0; [|simpl; eauto].
    apply orb_true_iff in E0 as [E0|E0].
    + unfold is_waiting in E0. destruct (c_wait (ring g) !! t) eqn:Ew; [|done]. apply (gr_wait _ _ _ _ Hg) in Ew. congruence.
    + unfold is_holder in E0. destruct (c_lock (ring g)) as [[u pc]|] eqn:El; [|done]. apply Nat.eqb_eq in E0 as <-.
      destruct (gr_lock _ _ _ _ Hg t pc El) as (_ & e' & He & _). congruence.
  - unfold push_step, ring_step. destruct (c_lock (ring g)) as [[u pc]|] eqn:El.
    + rewrite (Hu u pc) by eauto. rewrite Nat.eqb_refl. simpl.
      destruct (hold_enabled zero k b (ring g) u pc) as [r ->]; simpl; eauto.
    + simpl. rewrite El. destruct (gr_push _ _ _ _ Hg t e Hl) as [->|[pc ?]]; [simpl; eauto|congruence].
  - unfold ring_step. simpl. destruct (c_cons (ring g)) eqn:Ec; simpl; eauto.
    all: exfalso; destruct (gr_busy _ _ _ _ Hg) as [u Hpu]; [congruence|].
    all: assert (Some (t, R_pop) = Some (u, athread (ring g) u G_popping)) as [= <- _]; [|congruence].
    all: rewrite <- (owned_some _ _ t R_pop (ii_owned _ _ Hi)), <- (owned_some _ _ u (athread (ring g) u G_popping) (ii_owned _ _ Hi));
      rewrite ?abs_lookup, ?Hl, ?Hpu; try done; simpl; by destruct (c_cons _).
  - unfold popn_step, ring_step. simpl.
    destruct (cons_enabled zero k b (ring g)) as [r ->]; simpl; eauto. by apply (gr_idle _ _ _ _ Hg t).
  - pose proof (ii_proc _ _ Hi) as Hp. simpl in Hp. rewrite Hp. eauto.
  - destruct (cas _ _ _). eauto.
  - destruct (cas _ _ _). eauto.
Qed.

(** Calls of [Push] and [PopN] still to be made. *)
Definition to_call th : nat := match th with G_push _ | G_popn => 1 | _ => 0 end.
Definition to_gpush th : nat := match th with G_push _ => 1 | _ => 0 end.
Definition uncalled g : nat := sum_list_with to_call (g_threads g).

(** Pushes still to be made, in the ring buffer and before it. *)
Definition gowed g : Z := owed (ring g) + Z.of_nat (sum_list_with to_gpush (g_threads g)).

Lemma gowed_nonneg g : 0 <= gowed g.
Proof. unfold gowed, owed, howed. repeat case_match; lia. Qed.

(** What is left of an execution: pushes to make, then the work of the inbox,
    then calls into the ring buffer, then its own steps. *)
Definition gremaining : gst E -> gst E -> Prop :=
  lex (fun g => pending (abs 0 g)) (lex (fun g => measure (abs 0 g))
    (lex uncalled (ltof _ (fun g => rmeasure (ring g))))).

Lemma gremaining_wf : well_founded gremaining.
Proof. apply lex_wf, lex_wf, lex_wf, ltof_wf. Qed.

(** A step that the inbox sees uses up its work, one that it does not has to
    count for the ring buffer. *)
Lemma follows_remaining t g g' late :
  iInv (abs late g) -> follows t g g' ->
  (uncalled g' < uncalled g \/ uncalled g' = uncalled g /\ rmeasure (ring g') < rmeasure (ring g))%nat ->
  gremaining g' g.
Proof.
  intros HI [_ [Hm|Hs]] Hr.
  - destruct (Hm late HI) as (late' & a & Ha & Hat).
    destruct (moves_progress (abs late g) (abs late' g') HI) as [Hlt _].
    { exists t. destruct Hat; subst a; auto. }
    destruct Hlt as [Hlt|[He Hlt]]; [by left|right; split; [done|by left]].
  - specialize (Hs 0%nat). right. rewrite Hs. split; [done|]. right. split; [by rewrite Hs|]. done.
Qed.

Lemma moves_remaining t g g' late : iInv (abs late g) -> moved t g g' -> gremaining g' g.
Proof.
  intros HI [_ Hm]. destruct (Hm late HI) as (late' & a & Ha & Hat).
  destruct (moves_progress (abs late g) (abs late' g') HI) as [[Hlt|[He Hlt]] _].
  - exists t. destruct Hat; subst a; auto.
  - by left.
  - right. split; [done|by left].
Qed.

(** *** The goroutine behind a step of the ring buffer *)

Lemma sum_same f (l : list (gthread E)) t th th' :
  l !! t = Some th -> f th = 0%nat -> f th' = 0%nat -> sum_list_with f (<[t := th']> l) = sum_list_with f l.
Proof. intros Hl H1 H2. pose proof (sum_list_insert f l t th th' Hl). lia. Qed.

Definition goes_on (a : ract E) : Prop := match a with AHold | ALock _ | ACons => True | _ => False end.

Lemma ring_goroutine g a r :
  grel g -> goes_on a -> rstep zero a (ring g) = Some r ->
  exists t g', gthread_step t g = Some g' /\ ring g' = r /\ uncalled g' = uncalled g /\
    sum_list_with to_gpush (g_threads g') = sum_list_with to_gpush (g_threads g).
Proof.
  intros Hg Ha Hr. unfold uncalled. destruct a as [p x|p| | |n|]; try done.
  - simpl in Hr. destruct (c_lock (ring g)) eqn:El; [done|]. destruct (c_wait (ring g) !! p) as [x|] eqn:Ew; [|done].
    exists p. unfold gthread_step. rewrite (gr_wait _ _ _ _ Hg p x Ew). simpl. unfold push_step, ring_step. rewrite El.
    simpl. rewrite El, Ew. injection Hr as <-. eexists. by split.
  - simpl in Hr. destruct (c_lock (ring g)) as [[t pc]|] eqn:El; [|unfold hold_step in Hr; by rewrite El in Hr].
    destruct (gr_lock _ _ _ _ Hg t pc El) as (_ & e & He & _).
    exists t. unfold gthread_step. rewrite He. simpl. unfold push_step, ring_step. rewrite El, Nat.eqb_refl. simpl.
    rewrite Hr. simpl. eexists. split; [done|]. split; [done|]. simpl.
    split; (apply (sum_same _ _ _ _ _ He); [done|by destruct pc]).
  - simpl in Hr. destruct (gr_busy _ _ _ _ Hg) as [t Ht]; [unfold cons_step in Hr; by intros E0; rewrite E0 in Hr|].
    exists t. unfold gthread_step. rewrite Ht. simpl. unfold popn_step, ring_step. simpl. rewrite Hr. simpl.
    eexists. split; [done|]. split; [done|]. simpl. split; apply (sum_same _ _ _ _ _ Ht); try done; by repeat case_match.
Qed.

Lemma next_goes_on r a : next_action r = Some a -> goes_on a.
Proof. unfold next_action. intros H. repeat case_match; by simplify_eq. Qed.

Lemma out_frame t th g g' : g_threads g !! t = Some th -> in_ring th = false -> gthread_step t g = Some g' ->
  ring g' = ring g /\ sum_list_with to_gpush (g_threads g') = sum_list_with to_gpush (g_threads g).
Proof.
  intros Hl Hin H. unfold gthread_step, gschedule in H. rewrite Hl in H. simpl in H.
  destruct th; try done; repeat case_match; simplify_eq; unfold ring; simpl;
    rewrite ?sum_list_with_app; simpl; rewrite ?Nat.add_0_r;
    (split; [done || by eapply cas_ring; eauto|apply (sum_same _ _ _ _ _ Hl); [done|try case_match; done]]).
Qed.

Lemma callpush_frame t e g g' : grel g -> g_threads g !! t = Some (G_push e) -> gthread_step t g = Some g' ->
  c_n (ring g') = c_n (ring g) /\ gowed g' = gowed g /\ (uncalled g' < uncalled g)%nat.
Proof.
  intros Hg Hl H. unfold gthread_step in H. rewrite Hl in H. simpl in H. unfold ring_step in H. simpl in H.
  destruct (is_waiting (ring g) t || is_holder (ring g) t) eqn:E0; [done|]. simpl in H. injection H as <-.
  apply orb_false_iff in E0 as [Ew _]. unfold is_waiting in Ew.
  destruct (c_wait (ring g) !! t) eqn:Ew'; [done|]. split; [done|].
  pose proof (sum_list_insert to_gpush _ _ _ (G_pushing e) Hl) as Hp.
  pose proof (sum_list_insert to_call _ _ _ (G_pushing e) Hl) as Hc.
  unfold gowed, uncalled, owed, ring in *. simpl in *. rewrite map_size_insert_None by done. split; lia.
Qed.

Lemma callpopn_frame t g g' : g_threads g !! t = Some G_popn -> gthread_step t g = Some g' ->
  c_n (ring g') = c_n (ring g) /\ gowed g' = gowed g /\ (uncalled g' < uncalled g)%nat.
Proof.
  intros Hl H. unfold gthread_step in H. rewrite Hl in H. simpl in H. unfold ring_step in H. simpl in H.
  destruct (c_cons (ring g)); try done. simpl in H. injection H as <-. split; [done|].
  pose proof (sum_list_insert to_gpush _ _ _ G_popping Hl) as Hp.
  pose proof (sum_list_insert to_call _ _ _ G_popping Hl) as Hc.
  unfold gowed, uncalled, owed, ring in *. simpl in *. split; lia.
Qed.

Definition all_gdone g : Prop := forall t th, g_threads g !! t = Some th -> th = G_done.

Lemma gthread_done th : {th = G_done} + {th <> G_done}.
Proof. destruct th; first [by left|by right]. Qed.

Lemma all_gdone_dec g : all_gdone g \/ exists t th, g_threads g !! t = Some th /\ th <> G_done.
Proof.
  unfold all_gdone. induction (g_threads g) as [|th ths [IH|(t & th' & ? & ?)]].
  - left. intros t th H. by destruct t.
  - destruct (gthread_done th) as [->|Hd]; [left|right; by exists 0%nat, th].
    intros [|t] th' Hl; simpl in Hl; [congruence|by apply (IH t)].
  - right. by exists (S t), th'.
Qed.

(** While not everybody is done, somebody can do something that counts. *)
Lemma gprogress g late :
  grel g -> iInv (abs late g) -> c_n (ring g) + gowed g <= max_pushes -> ~ all_gdone g ->
  exists t g', gthread_step t g = Some g' /\ gremaining g' g /\
    c_n (ring g') + gowed g' = c_n (ring g) + gowed g.
Proof.
  intros Hg HI Hn Hd. pose proof (gowed_nonneg g) as Ho.
  assert (c_n (ring g) + owed (ring g) <= max_pushes) as Hno by (unfold gowed in *; lia).
  assert (forall t g', gthread_step t g = Some g' -> c_n (ring g') + gowed g' = c_n (ring g) + gowed g -> follows t g g') as Hf.
  { intros t g' H He. eapply follows_thread; eauto. pose proof (gowed_nonneg g'). lia. }
  destruct (quiet_dec (ring g)) as [(Hlk & Hw & Hc)|Hq].
  - destruct (all_gdone_dec g) as [?|(t & th & Hl & Hth)]; [done|].
    destruct (gthread_enabled late g t th) as [g' H]; [done|done|lia|done|done|intros; congruence|].
    exists t, g'. split; [done|]. destruct (in_ring th) eqn:Hin.
    + assert (c_n (ring g') = c_n (ring g) /\ gowed g' = gowed g /\ (uncalled g' < uncalled g)%nat) as (Hcn & Hgo & Hun).
      { destruct th; try done; [by eapply callpush_frame|..|by eapply callpopn_frame|].
        - destruct (gr_push _ _ _ _ Hg t e Hl) as [Hwt|[pc ?]]; [by rewrite Hw in Hwt|congruence].
        - by destruct (gr_idle _ _ _ _ Hg t). }
      split; [|lia]. eapply follows_remaining; [done|by apply Hf; [|lia]|by left].
    + destruct (out_frame t th g g' Hl Hin H) as [Hr Hs].
      split; [|unfold gowed; by rewrite Hr, Hs]. eapply moves_remaining; [done|]. by eapply moves_out.
  - destruct (next_action_ok zero (ring g)) as (a & r & Ha & Hr & He & Hlt); [apply Hg|done..|].
    destruct (ring_goroutine g a r Hg (next_goes_on _ _ Ha) Hr) as (t & g' & H & <- & Hu & Hs).
    exists t, g'. split; [done|]. assert (c_n (ring g') + gowed g' = c_n (ring g) + gowed g) as He' by (unfold gowed; lia).
    split; [|done]. eapply follows_remaining; [done|by apply Hf|by right].
Qed.

Lemma run_to_done size gacts g :
  - 2 ^ 63 <= size < 2 ^ 63 -> shadowed size gacts g -> c_n (ring g) + gowed g <= max_pushes ->
  exists ts g', run gstep (GThread <$> ts) g = Some g' /\ all_gdone g' /\
    shadowed size (gacts ++ (GThread <$> ts)) g' /\ c_n (ring g') <= max_pushes.
Proof.
  intros Hsz. revert gacts. induction (gremaining_wf g) as [g _ IH]. intros gacts Ht Hn.
  pose proof (gowed_nonneg g) as Ho. destruct (all_gdone_dec g) as [Hd|Hnd].
  { exists [], g. simpl. rewrite app_nil_r. split_and!; try done. lia. }
  pose proof Ht as [Hg (acts & late & Hr & _)].
  assert (iInv (abs late g)) as HI by (eapply inbox_run_inv; [done|done|apply grel_bound; [done|lia]]).
  destruct (gprogress g late) as (t & g1 & H & Hlt & He); [done|done|done| |].
  { intros Hd. destruct Hnd as (t & th & Hl & Hth). by apply Hth, (Hd t). }
  pose proof (gowed_nonneg g1). destruct (IH g1 Hlt (gacts ++ [GThread t])) as (ts & g' & Hrun & Hd & Ht' & Hn').
  - apply (shadowed_step zero _ _ _ g); done || lia.
  - lia.
  - exists (t :: ts), g'. simpl. rewrite H. simpl. split; [done|]. split; [done|]. split; [|done].
    by rewrite <- app_assoc in Ht'.
Qed.

(** Once everybody is done the inbox is at rest. *)
Lemma done_at_rest size gacts g :
  - 2 ^ 63 <= size < 2 ^ 63 -> shadowed size gacts g -> c_n (ring g) <= max_pushes -> all_gdone g ->
  in_procStatus (g_in g) <> stateStopped ->
  in_procStatus (g_in g) = stateIdle /\ c_length (ring g) = 0 /\ g_delivered g = g_sent g.
Proof.
  intros Hsz [Hg (acts & late & Hr & _)] Hn Hd Hs.
  assert (iInv (abs late g)) as [o Hi] by (eapply inbox_run_inv; [done|done|by apply grel_bound]).
  destruct (all_done_delivered _ o Hi) as (Hst & Hq & Hdel); [|done|].
  - intros t th Hl. rewrite abs_lookup in Hl. destruct (g_threads g !! t) as [gth|] eqn:Hg'; [|done].
    apply Hd in Hg'. subst. by injection Hl as <-.
  - split; [done|]. split; [|done]. simpl in Hq. fold (ring g) in Hq.
    destruct (decide (c_length (ring g) = 0)) as [|Hl]; [done|exfalso].
    pose proof (length_behind zero _ (gr_ring _ _ _ _ Hg) Hl Hq) as Hin.
    destruct (gr_busy _ _ _ _ Hg) as [t Ht]; [intros E0; by rewrite E0 in Hin|]. by apply Hd in Ht.
Qed.
End progress.

(** ** Property *)

(** C9: nobody is stuck, and all that was started can end.  In every reachable
    state a goroutine that is not done can take its next step or waits for the
    mutex of [Push], whose holder can: in particular [PopN] is never called while
    another goroutine is inside it.  And some schedule of the goroutines there are
    brings all of them to their end; unless the inbox was stopped it is then idle,
    the ring buffer is empty and everything sent has been handed over in order. *)
Theorem inbox_on_ring_settles {E} (zero : E) size g0 acts g :
  - 2 ^ 63 <= size < 2 ^ 63 -> ginit zero size = Ok g0 -> run (gstep zero) acts g0 = Some g ->
  c_n (ring g) + gowed g <= max_pushes ->
  (forall t th, g_threads g !! t = Some th -> th <> G_done ->
    is_Some (gstep zero (GThread t) g) \/
    exists e u pc, th = G_pushing e /\ c_lock (ring g) = Some (u, pc) /\ is_Some (gstep zero (GThread u) g)) /\
  exists ts g', run (gstep zero) (GThread <$> ts) g = Some g' /\ all_gdone g' /\
    (in_procStatus (g_in g') <> stateStopped ->
      in_procStatus (g_in g') = stateIdle /\ c_length (ring g') = 0 /\ g_delivered g' = g_sent g').
Proof.
  intros Hsz E0 Hr Hn. pose proof (gowed_nonneg g) as Ho.
  destruct (shadowed_init zero size Hsz) as (g1 & E1 & Ht). rewrite E0 in E1. injection E1 as <-.
  pose proof (shadowed_run zero size [] acts g0 g Hsz Ht Hr ltac:(lia)) as Htg. split.
  - intros t th Hl Hd. destruct Htg as [Hg (iacts & late & H & _)].
    assert (iInv (abs zero late g)) as HI by (eapply inbox_run_inv; [done|done|apply grel_bound; [done|lia]]).
    pose proof (gthread_enabled zero late g) as Hen.
    destruct (c_lock (ring g)) as [[u pc]|] eqn:El; [|left; apply (Hen t th); done || lia].
    destruct (decide (u = t)) as [->|Hne]; [left; apply (Hen t th); try done; [lia|]; intros; congruence|].
    destruct (gr_lock _ _ _ _ Hg u pc El) as (_ & e & He & _).
    assert (is_Some (gthread_step zero u g)) by (apply (Hen u (G_pushing e)); try done; [lia|]; intros; congruence).
    assert ((exists e', th = G_pushing e') \/ ~ exists e', th = G_pushing e') as [[e' ->]|Hnp].
    { destruct th; try (right; by intros [? ?]). left. eauto. }
    + right. by exists e', u, pc.
    + left. apply (Hen t th); done || lia.
  - destruct (run_to_done zero size _ g Hsz Htg Hn) as (ts & g' & Hrun & Hd & Ht' & Hn').
    exists ts, g'. split; [done|]. split; [done|]. by apply (done_at_rest zero size (([] ++ acts) ++ (GThread <$> ts)) g').
Qed.

(** Goroutine 2 has the mutex, 3 waits for it and 1 is parked. *)
Definition ring_contended : list (gact Z) :=
  take 29 ring_demo ++ [GSend 22; GSend 33; GThread 3; GThread 2; GThread 2; GThread 2].

Lemma inbox_on_ring_settles_witness :
  exists g0 g, ginit 0 2 = Ok g0 /\ run (gstep 0) ring_contended g0 = Some g /\
    g_threads g = [G_done; G_len; G_pushing 22; G_pushing 33] /\
    gstep 0 (GThread 3) g = None /\ is_Some (gstep 0 (GThread 2) g) /\
    exists ts g', run (gstep 0) (GThread <$> ts) g = Some g' /\ all_gdone g' /\
      (in_procStatus (g_in g') <> stateStopped ->
        in_procStatus (g_in g') = stateIdle /\ c_length (ring g') = 0 /\ g_delivered g' = g_sent g').
Proof.
  eexists _, (ring_state ring_contended). split; [vm_compute; reflexivity|]. do 3 (split; [vm_compute; reflexivity|]).
  split; [vm_compute; eauto|].
  apply (inbox_on_ring_settles 0 2 _ ring_contended (ring_state ring_contended) ltac:(lia) eq_refl);
    [vm_compute; reflexivity|vm_compute; discriminate].
Defined.
