(* ===== verification/Pid.v ===== *)
(** * Addresses

    [actor/pid.go] with the functions that make IDs: [Engine.buildID]
    ([actor/engine.go]) and the ID arithmetic of [Context.SpawnChild] and
    [shortName] ([actor/context.go]).  A [*PID] is an [option PID], a Go string
    the [string] of its bytes.  The package-level counters are explicit: a
    function that draws a number returns the counter it leaves. *)

From S2P Require Import Prelude.
From stdpp Require Export pretty.
From Stdlib Require Export Ascii.
From Stdlib Require String.

Open Scope Z_scope.

Record PID := MkPID { Address : string; ID : string }.

#[export] Instance PID_eq_dec : EqDecision PID.
Proof. solve_decision. Defined.

Definition NewPID (address id : string) : PID := MkPID address id.

Definition slash : ascii := "/".

(** The two [strings.Builder]s of the file write [a], a slash and [b]. *)
Definition join_slash (a b : string) : string := a +:+ String slash b.

Definition PID_String (p : option PID) : string :=
  match p with
  | None => "<nil>"
  | Some p => join_slash (Address p) (ID p)
  end.

Definition PID_Equals (p other : option PID) : bool :=
  match p, other with
  | None, None => true
  | Some p, Some other => String.eqb (Address p) (Address other) && String.eqb (ID p) (ID other)
  | _, _ => false
  end.

Definition PID_Child (p : option PID) (id : string) : PID :=
  match p with
  | None => NewPID "" id
  | Some p =>
      if String.eqb (ID p) "" then NewPID (Address p) id
      else NewPID (Address p) (join_slash (ID p) id)
  end.

Definition localAddress : string := "local".
Definition LocalLookupAddr : string := "local".

(** [strings.LastIndexByte(id, '/')]; -1 is [None]. *)
Fixpoint LastIndexByte (c : ascii) (s : string) : option nat :=
  match s with
  | EmptyString => None
  | String a s' =>
      match LastIndexByte c s' with
      | Some i => Some (S i)
      | None => if Ascii.eqb a c then Some 0%nat else None
      end
  end.

Fixpoint string_drop (n : nat) (s : string) : string :=
  match n, s with
  | S n, String _ s => string_drop n s
  | _, _ => s
  end.

Definition shortName (id : string) : string :=
  match LastIndexByte slash id with
  | Some i => string_drop (S i) id
  | None => id
  end.

(** [strconv.FormatUint(n, 10)] *)
Definition FormatUint (n : Z) : string := pretty (Z.to_N n).

(** [atomic.AddUint64(&counter, 1)]: the new value. *)
Definition next_counter (counter : Z) : Z := u64 (counter + 1).

(** [Engine.buildID] with [pidCounter]. *)
Definition buildID (kind id : string) (pidCounter : Z) : string * Z :=
  if String.eqb id "" then
    let n := next_counter pidCounter in
    (join_slash kind (FormatUint n), n)
  else (join_slash kind id, pidCounter).

(** The ID [SpawnChild] gives to a child of [parent], with [childIDCounter]. *)
Definition childID (parent : PID) (kind id : string) (childIDCounter : Z) : string * Z :=
  let '(id, n) :=
    if String.eqb id "" then
      let n := next_counter childIDCounter in (FormatUint n, n)
    else (id, childIDCounter) in
  (ID (PID_Child (Some parent) (join_slash kind id)), n).

(** ** Strings with slashes *)

Definition no_slash (s : string) : Prop := LastIndexByte slash s = None.

Lemma LastIndexByte_join a b :
  LastIndexByte slash (join_slash a b) =
  match LastIndexByte slash b with
  | Some i => Some (String.length a + S i)%nat
  | None => Some (String.length a)
  end.
Proof.
  unfold join_slash. induction a as [|c a IH]; simpl.
  - by destruct (LastIndexByte slash b).
  - rewrite IH. by destruct (LastIndexByte slash b).
Qed.

Lemma string_drop_join a b n :
  string_drop (String.length a + S n) (join_slash a b) = string_drop n b.
Proof. unfold join_slash. induction a as [|c a IH]; simpl; auto. Qed.

(** The last segment does not depend on what is in front of it. *)
Lemma shortName_join a b : shortName (join_slash a b) = shortName b.
Proof.
  unfold shortName. rewrite LastIndexByte_join.
  destruct (LastIndexByte slash b) as [i|].
  - rewrite <- Nat.add_succ_r. apply string_drop_join.
  - rewrite <- (Nat.add_1_r (String.length a)). by rewrite string_drop_join.
Qed.

Lemma shortName_no_slash s : no_slash s -> shortName s = s.
Proof. unfold shortName. by intros ->. Qed.

Lemma join_slash_inj a b1 b2 : join_slash a b1 = join_slash a b2 -> b1 = b2.
Proof.
  unfold join_slash. induction a as [|c a IH]; simpl; [by intros [= ->]|].
  intros [= H]. auto.
Qed.

Lemma length_join_slash a b :
  String.length (join_slash a b) = (String.length a + S (String.length b))%nat.
Proof. unfold join_slash. induction a as [|c a IH]; simpl; [done|]. by rewrite IH. Qed.

(** A slash-free last segment can be split off in one way only. *)
Lemma join_slash_inj_last a1 b1 a2 b2 :
  no_slash b1 -> no_slash b2 -> join_slash a1 b1 = join_slash a2 b2 -> a1 = a2 /\ b1 = b2.
Proof.
  intros H1 H2 H.
  assert (b1 = b2) as ->.
  { apply (f_equal shortName) in H. rewrite !shortName_join in H.
    by rewrite !shortName_no_slash in H. }
  split; [|done]. pose proof (f_equal String.length H) as Hl. rewrite !length_join_slash in Hl.
  unfold join_slash in H. revert a2 H Hl.
  induction a1 as [|c a1 IH]; intros [|c2 a2] H Hl; simpl in *; try done; [lia..|].
  injection H as -> H. f_equal. apply IH; [done|lia].
Qed.

(** ** Decimal numbers *)

Lemma no_slash_cons c s : c <> slash -> no_slash s -> no_slash (String c s).
Proof.
  unfold no_slash. intros Hc Hs. simpl. rewrite Hs.
  by destruct (Ascii.eqb_spec c slash).
Qed.

Lemma pretty_N_char_slash n : pretty_N_char n <> slash.
Proof. unfold pretty_N_char. by repeat case_match. Qed.

Lemma pretty_N_go_no_slash x s : no_slash s -> no_slash (pretty_N_go x s).
Proof.
  revert s. induction (N.lt_wf_0 x) as [x _ IH]. intros s Hs.
  destruct (decide (x = 0)%N) as [->|Hx]; [by rewrite pretty_N_go_0|].
  rewrite pretty_N_go_step by lia. apply IH; [apply N.div_lt; lia|].
  apply no_slash_cons; [apply pretty_N_char_slash|done].
Qed.

Lemma FormatUint_no_slash n : no_slash (FormatUint n).
Proof.
  unfold FormatUint, pretty, pretty_N. case_decide; [done|]. by apply pretty_N_go_no_slash.
Qed.

Lemma FormatUint_inj m n : 0 <= m -> 0 <= n -> FormatUint m = FormatUint n -> m = n.
Proof. unfold FormatUint. intros ? ? H. apply (inj pretty) in H. lia. Qed.

Lemma pretty_N_go_empty x s : pretty_N_go x s = "" -> s = "" /\ x = 0%N.
Proof.
  revert s. induction (N.lt_wf_0 x) as [x _ IH]. intros s H.
  destruct (decide (x = 0)%N) as [->|Hx]; [by rewrite pretty_N_go_0 in H|].
  rewrite pretty_N_go_step in H by lia.
  apply IH in H as [H _]; [done|]. apply N.div_lt; lia.
Qed.

Lemma FormatUint_nonempty n : FormatUint n <> "".
Proof.
  unfold FormatUint, pretty, pretty_N. case_decide; [done|]. intros Hg.
  by apply pretty_N_go_empty in Hg as [_ ?].
Qed.

(** ** Properties *)

(** [Equals] decides equality of addresses, nil receivers and arguments
    included. *)
Lemma pid_equals_spec p q : PID_Equals p q = true <-> p = q.
Proof.
  destruct p as [[a i]|], q as [[b j]|]; simpl; try done.
  rewrite andb_true_iff, !String.eqb_eq. naive_solver.
Qed.

(** A child's ID determines the name it was spawned under, and the short
    name of a child whose own ID has no slash is that ID, however deep its
    parent is nested. *)
Theorem child_names (p : PID) (kind id id' : string) :
  (PID_Child (Some p) id = PID_Child (Some p) id' -> id = id') /\
  (no_slash id -> shortName (ID (PID_Child (Some p) (join_slash kind id))) = id).
Proof.
  simpl. split.
  - destruct (String.eqb _ _); intros H; injection H as H; [done|]. by apply join_slash_inj in H.
  - intros Hid. destruct (String.eqb _ _); simpl; by rewrite ?shortName_join, shortName_no_slash.
Qed.

Lemma child_names_witness :
  PID_Child (Some (NewPID "local" "a/1")) "w/2" = NewPID "local" "a/1/w/2" /\
  shortName (ID (PID_Child (Some (NewPID "local" "a/1")) (join_slash "w" "2"))) = "2".
Proof.
  split; [vm_compute; reflexivity|].
  apply (child_names (NewPID "local" "a/1") "w" "2" "2"). vm_compute. reflexivity.
Defined.

(** The IDs of a sequence of spawns, each given its kind and the ID it asked for
    ("" for none), drawn one after the other from the counter. *)
Fixpoint spawn_ids (l : list (string * string)) (n : Z) : list string :=
  match l with
  | [] => []
  | (kind, id) :: l => let '(s, n) := buildID kind id n in s :: spawn_ids l n
  end.

(** How many of them draw a number. *)
Definition autos (l : list (string * string)) : nat := length (filter (fun x => x.2 = "") l).

Lemma next_counter_add n k : u64 (next_counter n + k) = u64 (n + 1 + k).
Proof. unfold next_counter, u64. by rewrite Zplus_mod_idemp_l. Qed.

(** The number an automatic spawn draws. *)
Lemma spawn_ids_auto l n i kind : l !! i = Some (kind, "") ->
  spawn_ids l n !! i = Some (join_slash kind (FormatUint (u64 (n + 1 + Z.of_nat (autos (take i l)))))).
Proof.
  revert n i. induction l as [|[k id] l IH]; intros n i Hi; [done|]. destruct i as [|i].
  - injection Hi as -> ->. simpl. do 3 f_equal. unfold next_counter, autos. simpl. by rewrite Z.add_0_r.
  - simpl in Hi |- *. unfold buildID. destruct (String.eqb_spec id "") as [->|Hn]; simpl; rewrite (IH _ _ Hi); do 3 f_equal.
    + unfold autos. rewrite filter_cons_True by done. simpl length.
      rewrite <- Z.add_assoc, next_counter_add. f_equal. lia.
    + unfold autos. by rewrite filter_cons_False by done.
Qed.

Lemma autos_app l l' : autos (l ++ l') = (autos l + autos l')%nat.
Proof. unfold autos. by rewrite filter_app, length_app. Qed.

(** An earlier automatic spawn has drawn a smaller number. *)
Lemma autos_lt l i j kind :
  (i < j)%nat -> l !! i = Some (kind, "") -> (autos (take i l) < autos (take j l))%nat.
Proof.
  intros Hij Hi. assert (take j l = take i l ++ (kind, "") :: take (j - S i) (drop (S i) l)) as ->.
  { apply take_drop_middle in Hi as E. rewrite <- E at 1. rewrite take_app.
    rewrite length_take_le by (apply lookup_lt_Some in Hi; lia). rewrite (take_ge (take i l)) by (rewrite length_take; lia).
    f_equal. by replace (j - i)%nat with (S (j - S i)) by lia. }
  rewrite autos_app. unfold autos at 3. rewrite filter_cons_True by done. simpl. lia.
Qed.

Lemma u64_apart a b : u64 a = u64 b -> 0 < b - a -> 2 ^ 64 <= b - a.
Proof.
  unfold u64. intros H Hlt. pose proof (Z.div_mod a (2 ^ 64) ltac:(lia)). pose proof (Z.div_mod b (2 ^ 64) ltac:(lia)). lia.
Qed.

Lemma auto_ids_apart l n i j k1 k2 :
  (i < j)%nat -> slen l <= 2 ^ 64 -> l !! i = Some (k1, "") -> l !! j = Some (k2, "") ->
  spawn_ids l n !! i <> spawn_ids l n !! j.
Proof.
  intros Hij Hl Hi Hj H. rewrite (spawn_ids_auto _ _ _ _ Hi), (spawn_ids_auto _ _ _ _ Hj) in H. injection H as H.
  apply join_slash_inj_last in H as [_ H]; try apply FormatUint_no_slash.
  apply FormatUint_inj in H; [|unfold u64; apply Z.mod_pos_bound; lia..].
  pose proof (autos_lt _ _ _ _ Hij Hi) as Hlt. apply u64_apart in H; [|lia].
  assert (autos (take j l) < length l)%nat as Hle; [|unfold slen in Hl; lia].
  pose proof (lookup_lt_Some _ _ _ Hj). unfold autos. eapply Nat.le_lt_trans; [apply length_filter|].
  rewrite length_take. lia.
Qed.

(** C30: IDs generated from the counter never collide with one another: among
    2^64 spawns one after the other, of whatever kinds and mixed with spawns
    under explicit IDs, from any value of the counter, those that did not ask
    for an ID all get different ones. *)
Theorem auto_ids_distinct (l : list (string * string)) (n : Z) (i j : nat) (k1 k2 : string) :
  slen l <= 2 ^ 64 -> l !! i = Some (k1, "") -> l !! j = Some (k2, "") -> i <> j ->
  spawn_ids l n !! i <> spawn_ids l n !! j.
Proof.
  intros Hl Hi Hj Hn. destruct (Nat.lt_total i j) as [?|[?|?]]; [by eapply auto_ids_apart|done|].
  intros E. symmetry in E. revert E. by eapply auto_ids_apart.
Qed.

Lemma auto_ids_distinct_witness :
  let l := [("a", ""); ("a", "7"); ("a/1", ""); ("a", "")] in
  spawn_ids l (2 ^ 64 - 2) = ["a/18446744073709551615"; "a/7"; "a/1/0"; "a/1"] /\
  spawn_ids l (2 ^ 64 - 2) !! 0%nat <> spawn_ids l (2 ^ 64 - 2) !! 3%nat.
Proof.
  intros l. split; [vm_compute; reflexivity|].
  apply (auto_ids_distinct l (2 ^ 64 - 2) 0 3 "a" "a"); [vm_compute; discriminate|reflexivity|reflexivity|discriminate].
Defined.

(** An explicit ID can equal a generated one: [WithID] with the number the
    counter is about to reach takes the ID of the next automatic spawn. *)
Theorem explicit_id_collides (kind : string) (n : Z) :
  (buildID kind (FormatUint (next_counter n)) n).1 = (buildID kind "" n).1.
Proof.
  unfold buildID. pose proof (FormatUint_nonempty (next_counter n)) as H.
  apply String.eqb_neq in H. by rewrite H.
Qed.
