(* ===== verification/Middleware.v ===== *)
(** * Receive middleware

    [actor/middleware.go].  A [ReceiveFunc] is a handler of the one argument
    [*Context]; what it does is left open in the first section.  The second one
    reads a handler as the trace of its effects and whether it panicked, which
    is what [WithLogging] depends on. *)

From S2P Require Import Prelude.

Section chain.
Context {R : Type}.    (* ReceiveFunc *)

Definition Middleware : Type := R -> R.

(** [for i := len(mw) - 1; i >= 0; i-- { h = mw[i](h) }], from index [i - 1]. *)
Fixpoint chain_loop (mw : list Middleware) (i : nat) (h : R) : exec R :=
  match i with
  | O => Ok h
  | S i => m ← index mw (Z.of_nat i); chain_loop mw i (m h)
  end.

Definition buildChain (mw : list Middleware) (receive : R) : exec R :=
  match mw with
  | [] => Ok receive
  | _ => chain_loop mw (length mw) receive
  end.

(** The option: [nil] for no middleware, otherwise a copy of the slice. *)
Definition WithMiddleware_value (zero : Middleware) (mw : list Middleware) : exec (list Middleware) :=
  if slen mw =? 0 then Ok []
  else
    dst ← makeslice zero (slen mw);
    copy_at dst 0 mw.

(** The composition the documentation describes: [a(b(receive))]. *)
Definition compose (mw : list Middleware) (receive : R) : R := foldr (fun m h => m h) receive mw.

Lemma index_nat {A} (l : list A) (i : nat) (x : A) : l !! i = Some x -> index l (Z.of_nat i) = Ok x.
Proof.
  intros H. pose proof (lookup_lt_Some _ _ _ H). unfold index, slen.
  split_test; [by rewrite Nat2Z.id, H|exfalso; lia_bool].
Qed.

Lemma chain_loop_ok mw i h : (i <= length mw)%nat -> chain_loop mw i h = Ok (compose (take i mw) h).
Proof.
  revert h. induction i as [|i IH]; intros h Hi; [done|]. simpl.
  destruct (lookup_lt_is_Some_2 mw i) as [m Hm]; [lia|].
  rewrite (index_nat _ _ _ Hm). simpl. rewrite IH by lia.
  rewrite (take_S_r _ _ _ Hm). unfold compose. by rewrite foldr_app.
Qed.

Lemma buildChain_ok mw h : buildChain mw h = Ok (compose mw h).
Proof.
  unfold buildChain. destruct mw as [|m mw]; [done|].
  rewrite chain_loop_ok by done. by rewrite firstn_all.
Qed.

Lemma copy_at_all {A} (zero : A) (l : list A) :
  (dst ← makeslice zero (slen l); copy_at dst 0 l) = Ok l.
Proof.
  rewrite makeslice_ok by apply slen_nonneg. simpl. unfold slen. rewrite Nat2Z.id.
  pose proof (copy_at_ok [] (replicate (length l) zero) l 0 eq_refl) as H.
  rewrite length_replicate in H. specialize (H (le_n _)). simpl in H.
  rewrite H, drop_ge, app_nil_r by (rewrite length_replicate; done). done.
Qed.

Lemma WithMiddleware_ok zero mw : WithMiddleware_value zero mw = Ok mw.
Proof.
  unfold WithMiddleware_value. split_test; [|apply copy_at_all].
  destruct mw; [done|]. unfold slen in *. simpl in *. lia.
Qed.
End chain.

(** ** Traces *)

Section traces.
Context {Ctx Ev : Type}.

(** The effects in order, and whether the call ended in a panic. *)
Definition handler : Type := Ctx -> list Ev * bool.

(** A middleware that acts before and after the rest of the chain; a panic
    below it skips what comes after. *)
Definition around (before after : Ctx -> list Ev) (next : handler) : handler := fun c =>
  let '(l, panicked) := next c in
  if panicked then (before c ++ l, true) else (before c ++ l ++ after c, false).

(** [WithLogging]: one record after [next] has returned. *)
Definition WithLogging (record : Ctx -> Ev) (next : handler) : handler := fun c =>
  let '(l, panicked) := next c in
  if panicked then (l, true) else (l ++ [record c], false).

(** C32: the chain is composed outermost first, once: [WithMiddleware] and
    [buildChain] never fail, middlewares run in the order given before the
    receiver and unwind in reverse, and a panic in the receiver skips every
    after-part. *)
Theorem middleware_order (zero : handler -> handler) (ms : list ((Ctx -> list Ev) * (Ctx -> list Ev)))
    (receive : handler) (c : Ctx) :
  exists mw h,
    WithMiddleware_value zero (map (fun m => around m.1 m.2) ms) = Ok mw /\
    buildChain mw receive = Ok h /\
    h c = (flat_map (fun m => m.1 c) ms ++ (receive c).1 ++
             (if (receive c).2 then [] else flat_map (fun m => m.2 c) (rev ms)),
           (receive c).2).
Proof.
  eexists _, _. split; [apply WithMiddleware_ok|]. split; [apply buildChain_ok|].
  induction ms as [|[b a] ms IH]; [by simpl; destruct (receive c) as [l []]; simpl; rewrite ?app_nil_r|].
  transitivity (around b a (compose (map (fun m => around m.1 m.2) ms) receive) c); [done|].
  unfold around at 1. rewrite IH. simpl.
  destruct (receive c).2; [by rewrite app_assoc|].
  rewrite flat_map_app. simpl. by rewrite app_nil_r, !app_assoc.
Qed.

(** [WithLogging] leaves the handler's effects alone and adds exactly one
    record after it, and none when the handler panics. *)
Theorem logging_once (record : Ctx -> Ev) (receive : handler) (c : Ctx) :
  exists h, buildChain [WithLogging record] receive = Ok h /\
    h c = ((receive c).1 ++ (if (receive c).2 then [] else [record c]), (receive c).2).
Proof.
  eexists. split; [apply buildChain_ok|]. simpl. unfold WithLogging.
  destruct (receive c) as [l []]; simpl; by rewrite ?app_nil_r.
Qed.
End traces.
