(* ===== verification/Opts.v ===== *)
(** * Spawn options

    [actor/opts.go] and [WithMiddleware].  The Producer and the Middleware are
    values of abstract types; [int] and [time.Duration] are 64-bit, [MaxRestarts]
    is an [int32]. *)

From S2P Require Import Prelude Pid Middleware.

Definition defaultInboxSize : Z := 1024.
Definition defaultMaxRestarts : Z := 3.
(** 500 ms, in nanoseconds. *)
Definition defaultRestartDelay : Z := 500 * 1000000.

Section opts.
Context {P M : Type}.

Record Opts := MkOpts {
  Producer : P;
  Kind : string;
  o_ID : string;
  InboxSize : Z;
  MaxRestarts : Z;
  RestartDelay : Z;
  Tags : list string;
  o_Middleware : list M;
  parent : option PID;
}.

Definition DefaultOpts (p : P) : Opts :=
  MkOpts p "actor" "" defaultInboxSize defaultMaxRestarts defaultRestartDelay [] [] None.

Definition OptFunc : Type := Opts -> Opts.

Definition set_Kind (k : string) (o : Opts) : Opts :=
  MkOpts (Producer o) k (o_ID o) (InboxSize o) (MaxRestarts o) (RestartDelay o) (Tags o)
    (o_Middleware o) (parent o).
Definition set_parent (p : option PID) (o : Opts) : Opts :=
  MkOpts (Producer o) (Kind o) (o_ID o) (InboxSize o) (MaxRestarts o) (RestartDelay o) (Tags o)
    (o_Middleware o) p.
Definition set_InboxSize (n : Z) (o : Opts) : Opts :=
  MkOpts (Producer o) (Kind o) (o_ID o) n (MaxRestarts o) (RestartDelay o) (Tags o)
    (o_Middleware o) (parent o).
Definition set_MaxRestarts (n : Z) (o : Opts) : Opts :=
  MkOpts (Producer o) (Kind o) (o_ID o) (InboxSize o) n (RestartDelay o) (Tags o)
    (o_Middleware o) (parent o).
Definition set_RestartDelay (d : Z) (o : Opts) : Opts :=
  MkOpts (Producer o) (Kind o) (o_ID o) (InboxSize o) (MaxRestarts o) d (Tags o)
    (o_Middleware o) (parent o).
Definition set_Tags (t : list string) (o : Opts) : Opts :=
  MkOpts (Producer o) (Kind o) (o_ID o) (InboxSize o) (MaxRestarts o) (RestartDelay o) t
    (o_Middleware o) (parent o).
Definition set_Middleware (mw : list M) (o : Opts) : Opts :=
  MkOpts (Producer o) (Kind o) (o_ID o) (InboxSize o) (MaxRestarts o) (RestartDelay o) (Tags o)
    mw (parent o).

Definition WithID (id : string) : OptFunc := fun o =>
  MkOpts (Producer o) (Kind o) id (InboxSize o) (MaxRestarts o) (RestartDelay o) (Tags o)
    (o_Middleware o) (parent o).

Definition WithInboxSize (size : Z) : OptFunc := fun o =>
  if size <=? 0 then set_InboxSize defaultInboxSize o else set_InboxSize size o.

Definition WithMaxRestarts (n : Z) : OptFunc := fun o =>
  if n <? 0 then set_MaxRestarts 0 o else set_MaxRestarts (i32 n) o.

Definition WithRestartDelay (d : Z) : OptFunc := fun o =>
  if d <? 0 then set_RestartDelay defaultRestartDelay o else set_RestartDelay d o.

(** [make] and [copy]: the caller's slice is not kept. *)
Definition WithTags (tags : list string) : OptFunc := fun o =>
  match (dst ← makeslice "" (slen tags); copy_at dst 0 tags) with
  | Ok dst => set_Tags dst o
  | _ => o
  end.

(** [nil] for no middleware; otherwise a copy, as for the tags. *)
Definition WithMiddleware (mw : list M) : OptFunc := fun o =>
  match mw with
  | [] => set_Middleware [] o
  | m :: _ =>
      match (dst ← makeslice m (slen mw); copy_at dst 0 mw) with
      | Ok dst => set_Middleware dst o
      | _ => o
      end
  end.

(** [for _, opt := range opts { opt(&o) }] *)
Fixpoint apply_opts (opts : list OptFunc) (o : Opts) : Opts :=
  match opts with
  | [] => o
  | opt :: opts => apply_opts opts (opt o)
  end.

(** The start of [Engine.Spawn] and [Context.SpawnChild]. *)
Definition build_opts (p : P) (kind : string) (opts : list OptFunc) : Opts :=
  apply_opts opts (set_Kind kind (DefaultOpts p)).

(** ** What a list of options means *)

(** The options the package offers, as data. *)
Inductive option_spec :=
  | O_ID (id : string)
  | O_InboxSize (n : Z)
  | O_MaxRestarts (n : Z)
  | O_RestartDelay (d : Z)
  | O_Tags (t : list string)
  | O_Middleware (mw : list M).

Definition opt_func (s : option_spec) : OptFunc :=
  match s with
  | O_ID id => WithID id
  | O_InboxSize n => WithInboxSize n
  | O_MaxRestarts n => WithMaxRestarts n
  | O_RestartDelay d => WithRestartDelay d
  | O_Tags t => WithTags t
  | O_Middleware mw => WithMiddleware mw
  end.

(** The last value a list of options gives to a field. *)
Definition last_of {A} (f : option_spec -> option A) : A -> list option_spec -> A :=
  foldl (fun acc s => match f s with Some x => x | None => acc end).

Definition the_id s := match s with O_ID id => Some id | _ => None end.
Definition the_size s := match s with O_InboxSize n => Some n | _ => None end.
Definition the_restarts s := match s with O_MaxRestarts n => Some n | _ => None end.
Definition the_delay s := match s with O_RestartDelay d => Some d | _ => None end.
Definition the_tags s := match s with O_Tags t => Some t | _ => None end.
Definition the_middleware s := match s with O_Middleware mw => Some mw | _ => None end.

(** The clamping that is documented: sizes that are not positive fall back to the
    default, so do negative delays, and negative restart counts mean none. *)
Definition clamp_size (n : Z) : Z := if n <=? 0 then defaultInboxSize else n.
Definition clamp_restarts (n : Z) : Z := Z.max 0 n.
Definition clamp_delay (d : Z) : Z := if d <? 0 then defaultRestartDelay else d.

(** A restart count that does not fit is truncated to an [int32], not clamped. *)
Definition stored_restarts (n : Z) : Z := if n <? 2 ^ 31 then clamp_restarts n else i32 n.

Lemma WithTags_ok t o : WithTags t o = set_Tags t o.
Proof. unfold WithTags. by rewrite copy_at_all. Qed.

Lemma WithMiddleware_set mw o : WithMiddleware mw o = set_Middleware mw o.
Proof. destruct mw as [|m mw]; [done|]. unfold WithMiddleware. by rewrite copy_at_all. Qed.

Lemma apply_opts_fields l p k id n r d t mw pa :
  apply_opts (map opt_func l) (MkOpts p k id (clamp_size n) (stored_restarts r) (clamp_delay d) t mw pa) =
  MkOpts p k (last_of the_id id l) (clamp_size (last_of the_size n l))
    (stored_restarts (last_of the_restarts r l)) (clamp_delay (last_of the_delay d l))
    (last_of the_tags t l) (last_of the_middleware mw l) pa.
Proof.
  revert id n r d t mw. induction l as [|s l IH]; intros; [done|].
  destruct s as [id'|n'|r'|d'|t'|mw']; simpl; [by rewrite <- IH|..].
  - rewrite <- IH. f_equal. unfold WithInboxSize, clamp_size, set_InboxSize. by destruct (n' <=? 0).
  - rewrite <- IH. f_equal. unfold WithMaxRestarts, stored_restarts, clamp_restarts, set_MaxRestarts. simpl.
    split_test; split_test; f_equal; try lia. rewrite i32_id by lia. lia.
  - rewrite <- IH. f_equal. unfold WithRestartDelay, clamp_delay, set_RestartDelay. by destruct (d' <? 0).
  - rewrite WithTags_ok. by rewrite <- IH.
  - rewrite WithMiddleware_set. by rewrite <- IH.
Qed.

Lemma build_opts_fields p kind l :
  build_opts p kind (map opt_func l) =
  MkOpts p kind (last_of the_id "" l) (clamp_size (last_of the_size defaultInboxSize l))
    (stored_restarts (last_of the_restarts defaultMaxRestarts l))
    (clamp_delay (last_of the_delay defaultRestartDelay l))
    (last_of the_tags [] l) (last_of the_middleware [] l) None.
Proof. apply (apply_opts_fields l p kind "" defaultInboxSize defaultMaxRestarts defaultRestartDelay). Qed.

Lemma last_of_inv {A} (f : option_spec -> option A) (I : A -> Prop) d l :
  I d -> Forall (fun s => forall x, f s = Some x -> I x) l -> I (last_of f d l).
Proof.
  intros Hd Hl. revert d Hd. induction Hl as [|s l Hs _ IH]; intros d Hd; simpl; [done|].
  apply IH. destruct (f s) eqn:E; auto.
Qed.

(** C31: options compose in order and the last one wins: whatever options are
    given, each field ends with the value of the last option that sets it, or its
    default, and no option touches another field.  Invalid values are clamped as
    documented: an inbox size or a delay that is not valid is the default, a
    negative restart count is 0.  The one exception is a restart count of 2^31
    or more, which does not fit and is truncated to an [int32]. *)
Theorem options_last_win (p : P) (kind : string) (l : list option_spec) :
  let restarts := last_of the_restarts defaultMaxRestarts l in
  exists limit,
    build_opts p kind (map opt_func l) =
      MkOpts p kind (last_of the_id "" l) (clamp_size (last_of the_size defaultInboxSize l)) limit
        (clamp_delay (last_of the_delay defaultRestartDelay l))
        (last_of the_tags [] l) (last_of the_middleware [] l) None /\
    (restarts < 2 ^ 31 -> limit = clamp_restarts restarts) /\
    (2 ^ 31 <= restarts -> limit = i32 restarts).
Proof.
  eexists. split; [apply build_opts_fields|]. unfold stored_restarts. split; intros; split_test; (done || lia).
Qed.

(** Whatever options are given, the inbox size is positive, the restart
    delay is not negative, and the restart limit is an [int32] that is not
    negative unless some [WithMaxRestarts] got 2^31 or more. *)
Theorem options_clamped (p : P) (kind : string) (l : list option_spec) :
  let o := build_opts p kind (map opt_func l) in
  0 < InboxSize o /\ 0 <= RestartDelay o /\ - 2 ^ 31 <= MaxRestarts o < 2 ^ 31 /\
  (Forall (fun s => forall n, the_restarts s = Some n -> n < 2 ^ 31) l -> 0 <= MaxRestarts o).
Proof.
  simpl. rewrite build_opts_fields. simpl.
  unfold clamp_size, clamp_delay, stored_restarts, clamp_restarts, defaultInboxSize, defaultRestartDelay.
  pose proof (wrap_signed_range 32 (last_of the_restarts defaultMaxRestarts l)) as Hw.
  split_and!; [split_test; lia|split_test; lia|split_test; unfold i32; lia..|].
  intros Hl. pose proof (last_of_inv the_restarts (fun n => n < 2 ^ 31) defaultMaxRestarts l eq_refl Hl) as Hlt.
  simpl in Hlt. split_test; lia.
Qed.
End opts.

(** [WithMaxRestarts] with [2^31] stores the most negative [int32] instead
    of clamping, so the actor gives up at its first panic: the new restart
    count 1 exceeds the limit. *)
Theorem max_restarts_truncated {P M : Type} (p : P) (kind : string) :
  MaxRestarts (build_opts (M := M) p kind [WithMaxRestarts (2 ^ 31)]) = - 2 ^ 31 /\
  MaxRestarts (build_opts (M := M) p kind [WithMaxRestarts (2 ^ 31)]) < i32 (0 + 1).
Proof. split; reflexivity. Qed.
