(* ===== verification/Trace.v ===== *)
(** * Cleaning a stack trace

    [process.cleanTrace] ([actor/process.go]) over byte slices, with the parts
    of package [bytes] it uses. *)

From S2P Require Import Prelude.
From Stdlib Require Import Ascii.
Open Scope list_scope.
Open Scope Z_scope.

Definition bytes : Type := list ascii.

Fixpoint bytes_of (s : string) : bytes :=
  match s with EmptyString => [] | String c s => c :: bytes_of s end.

Definition newline : ascii := "010".

(** [bytes.Split(s, []byte("\n"))]: never an empty list. *)
Fixpoint Split (s : bytes) : list bytes :=
  match s with
  | [] => [[]]
  | c :: s =>
      if Ascii.eqb c newline then [] :: Split s
      else match Split s with [] => [[c]] | l :: ls => (c :: l) :: ls end
  end.

(** [bytes.Join(ls, []byte("\n"))] *)
Fixpoint Join (ls : list bytes) : bytes :=
  match ls with
  | [] => []
  | [l] => l
  | l :: ls => l ++ newline :: Join ls
  end.

Fixpoint HasPrefix (s p : bytes) : bool :=
  match p, s with
  | [], _ => true
  | a :: p, b :: s => Ascii.eqb a b && HasPrefix s p
  | _ :: _, [] => false
  end.

Definition panic_marker : bytes := bytes_of "panic(".

(** The loop at line [i] of [lines]; [todo] are the lines from [i] on. *)
Fixpoint clean_loop (stack : bytes) (lines : list bytes) (header : bytes) (i : nat) (todo : list bytes)
  : bytes :=
  match todo with
  | [] => stack
  | line :: todo =>
      if negb (HasPrefix line panic_marker) then clean_loop stack lines header (S i) todo
      else if (length lines <=? i + 2)%nat then stack
      else Join (header :: drop (i + 2) lines)
  end.

Definition cleanTrace (stack : bytes) : bytes :=
  match Split stack with
  | [] => stack
  | header :: _ => clean_loop stack (Split stack) header 0 (Split stack)
  end.

(** ** Split and Join *)

Definition one_line (l : bytes) : Prop := newline ∉ l.

Lemma Split_nonempty s : Split s <> [].
Proof. destruct s as [|c s]; simpl; [done|]. repeat case_match; done. Qed.

Lemma Split_lines s : Forall one_line (Split s).
Proof.
  induction s as [|c s IH]; simpl; [repeat constructor; apply not_elem_of_nil|].
  destruct (Ascii.eqb_spec c newline) as [->|Hc]; [by constructor; [apply not_elem_of_nil|]|].
  assert (forall l, one_line l -> one_line (c :: l)) as Hcons.
  { intros l Hl H. apply elem_of_cons in H as [H|H]; [congruence|by apply Hl]. }
  destruct (Split s) as [|l ls].
  - constructor; [|done]. apply Hcons, not_elem_of_nil.
  - inversion_clear IH. by constructor; [apply Hcons|].
Qed.

Lemma Join_cons l ls : ls <> [] -> Join (l :: ls) = l ++ newline :: Join ls.
Proof. by destruct ls. Qed.

Lemma Join_Split s : Join (Split s) = s.
Proof.
  induction s as [|c s IH]; [done|]. pose proof (Split_nonempty s) as Hne. simpl.
  destruct (Ascii.eqb_spec c newline) as [->|Hc]; [by rewrite Join_cons, IH|].
  destruct (Split s) as [|l [|l2 ls]]; [done| |]; simpl in *; by rewrite <- IH.
Qed.

Lemma Split_app_line l s : one_line l -> Split (l ++ newline :: s) = l :: Split s.
Proof.
  intros Hl. induction l as [|c l IH]; simpl; [done|].
  destruct (Ascii.eqb_spec c newline) as [->|Hc]; [exfalso; apply Hl; left|].
  rewrite IH; [done|]. intros H. apply Hl. by right.
Qed.

Lemma Split_one_line l : one_line l -> Split l = [l].
Proof.
  intros Hl. induction l as [|c l IH]; simpl; [done|].
  destruct (Ascii.eqb_spec c newline) as [->|Hc]; [exfalso; apply Hl; left|].
  rewrite IH; [done|]. intros H. apply Hl. by right.
Qed.

Lemma Split_Join ls : ls <> [] -> Forall one_line ls -> Split (Join ls) = ls.
Proof.
  intros Hne Hls. induction Hls as [|l ls Hl Hls IH]; [done|].
  destruct ls as [|l2 ls]; [by apply Split_one_line|].
  rewrite Join_cons by done. rewrite Split_app_line by done. by rewrite IH.
Qed.

(** ** The loop *)

Definition is_panic (l : bytes) : bool := HasPrefix l panic_marker.

Lemma clean_loop_skip stack lines header pre todo i :
  Forall (fun l => is_panic l = false) pre ->
  clean_loop stack lines header i (pre ++ todo) =
  clean_loop stack lines header (i + length pre) todo.
Proof.
  intros Hp. revert i. induction Hp as [|l pre Hl _ IH]; intros i; simpl; [by rewrite Nat.add_0_r|].
  unfold is_panic in Hl. rewrite Hl. simpl. rewrite IH. f_equal. lia.
Qed.

Lemma first_panic ls :
  Forall (fun l => is_panic l = false) ls \/
  exists pre l post, ls = pre ++ l :: post /\ Forall (fun l => is_panic l = false) pre /\ is_panic l = true.
Proof.
  induction ls as [|l ls [IH|(pre & l' & post & -> & Hp & Hl)]]; [by left|..];
    destruct (is_panic l) eqn:E; try (by right; exists [], l, ls);
    try (by right; exists [], l, (pre ++ l' :: post)).
  - left. by constructor.
  - right. exists (l :: pre), l', post. split_and!; [done|by constructor|done].
Qed.

(** C33: [cleanTrace] finds the first line that starts with [panic(].  With no
    such line, or nothing after its [file:line], the trace is returned
    unchanged; otherwise its lines are the header and everything after the
    panic frame, none of them altered. *)
Theorem cleanTrace_spec (stack : bytes) :
  (Forall (fun l => is_panic l = false) (Split stack) /\ cleanTrace stack = stack) \/
  exists pre marker post,
    Split stack = pre ++ marker :: post /\
    Forall (fun l => is_panic l = false) pre /\ is_panic marker = true /\
    ((length post <= 1)%nat /\ cleanTrace stack = stack \/
     exists loc frame rest header tl, post = loc :: frame :: rest /\
       Split stack = header :: tl /\ Split (cleanTrace stack) = header :: frame :: rest).
Proof.
  assert (Forall one_line (Split stack)) as Hlines by apply Split_lines.
  unfold cleanTrace. destruct (Split stack) as [|header tl] eqn:Es; [by apply Split_nonempty in Es|].
  destruct (first_panic (header :: tl)) as [Hn|(pre & l & post & Hs & Hp & Hl)].
  - left. split; [done|].
    rewrite <- (app_nil_r (header :: tl)) at 2. by rewrite clean_loop_skip.
  - right. exists pre, l, post. split_and!; [done..|].
    assert (clean_loop stack (header :: tl) header 0 (header :: tl) =
      if (length (pre ++ l :: post) <=? length pre + 2)%nat then stack
      else Join (header :: drop (length pre + 2) (pre ++ l :: post))) as ->.
    { rewrite Hs at 2. rewrite clean_loop_skip by done. simpl. unfold is_panic in Hl.
      by rewrite Hl, <- Hs. }
    rewrite length_app.
    destruct (Nat.leb_spec (length pre + length (l :: post)) (length pre + 2)) as [Hle|Hle]; simpl in Hle.
    + left. split; [lia|done].
    + right. destruct post as [|loc [|frame rest]]; simpl in Hle; [lia..|].
      exists loc, frame, rest, header, tl. split_and!; [done|done|].
      replace (drop (length pre + 2) (pre ++ l :: loc :: frame :: rest)) with (frame :: rest).
      2: { rewrite drop_app_ge by lia. by replace (length pre + 2 - length pre)%nat with 2%nat by lia. }
      rewrite Split_Join; [done..|].
      rewrite Hs in Hlines. apply Forall_app in Hlines as [_ Hlines].
      assert (one_line header) as Hh.
      { assert (header ∈ pre ++ l :: loc :: frame :: rest) as Hin by (rewrite <- Hs; left).
        pose proof (Split_lines stack) as Hall. rewrite Es, Hs in Hall.
        rewrite Forall_forall in Hall. by apply Hall. }
      constructor; [done|]. by inversion_clear Hlines as [|? ? _ H2]; inversion_clear H2.
Qed.

(** Splitting a trace into lines and joining the lines gives it back, and
    joining lines and splitting gives the lines back. *)
Theorem trace_lines_roundtrip (stack : bytes) (ls : list bytes) :
  ls <> [] -> Forall one_line ls -> Join (Split stack) = stack /\ Split (Join ls) = ls.
Proof. intros Hne Hls. split; [apply Join_Split|by apply Split_Join]. Qed.

Definition demo_trace : bytes :=
  Join (map bytes_of ["goroutine 1"; "debug.Stack()"; "x.go:1"; "panic(1)"; "panic.go:9"; "main.f()"; "f.go:3"]%string).

Lemma trace_lines_roundtrip_witness :
  Join (Split demo_trace) = demo_trace /\ Split (Join [bytes_of "a"; bytes_of "b"]) = [bytes_of "a"; bytes_of "b"].
Proof.
  apply (trace_lines_roundtrip demo_trace [bytes_of "a"; bytes_of "b"]); [done|].
  repeat constructor; unfold one_line; simpl; rewrite list_elem_of_singleton; discriminate.
Defined.

Example cleanTrace_demo :
  cleanTrace demo_trace = Join (map bytes_of ["goroutine 1"; "main.f()"; "f.go:3"]%string).
Proof. vm_compute. reflexivity. Qed.
