(* ===== verification/Registry.v ===== *)
(** * The registry of live processes

    [actor/registry.go].  A map from the ID of a PID to a Processer; every
    method runs under the registry's lock, so it is one atomic operation here.
    A [Processer] value is a handle compared like a Go pointer; the only method
    the registry calls is [PID()]. *)

From S2P Require Import Prelude Pid.

(** What the registry needs from the values it stores. *)
Class Processer (V : Type) := {
  processer_eq : EqDecision V;
  proc_PID : V -> PID;
}.
#[export] Existing Instance processer_eq.

(** [registry.lookup] *)
Notation registry V := (gmap string V).

Section registry.
Context {V : Type} `{!Processer V}.

Implicit Types (r : registry V) (p q : V) (pid : option PID).

Definition newRegistry : registry V := ∅.

Definition getByID (id : string) r : option V := r !! id.

Definition get pid r : option V :=
  match pid with None => None | Some pid => getByID (ID pid) r end.

Definition add p r : bool * registry V :=
  let id := ID (proc_PID p) in
  match r !! id with
  | Some existing => (bool_decide (existing = p), r)
  | None => (true, <[id := p]> r)
  end.

Definition remove pid r : registry V :=
  match pid with None => r | Some pid => delete (ID pid) r end.

Definition len r : Z := Z.of_nat (size r).

(** ** The invariant: every process is stored under its own ID *)

Definition reg_ok r : Prop := forall id p, r !! id = Some p -> ID (proc_PID p) = id.

Lemma reg_ok_new : reg_ok newRegistry.
Proof. intros id p H. unfold newRegistry in H. by rewrite lookup_empty in H. Qed.

Lemma reg_ok_add p r : reg_ok r -> reg_ok (add p r).2.
Proof.
  intros Hr. unfold add. destruct (r !! ID (proc_PID p)) eqn:E; simpl; [done|].
  intros id q. rewrite lookup_insert_Some. naive_solver.
Qed.

Lemma reg_ok_remove pid r : reg_ok r -> reg_ok (remove pid r).
Proof. intros Hr. destruct pid; [|done]. intros id q. simpl. rewrite lookup_delete_Some. naive_solver. Qed.

Inductive reg_op := R_add (p : V) | R_remove (pid : option PID).

Definition reg_apply (o : reg_op) r : registry V :=
  match o with R_add p => (add p r).2 | R_remove pid => remove pid r end.

Lemma reg_ok_ops l : reg_ok (foldl (fun r o => reg_apply o r) newRegistry l).
Proof.
  assert (forall r, reg_ok r -> reg_ok (foldl (fun r o => reg_apply o r) r l)) as H.
  { induction l as [|o l IH]; intros r Hr; simpl; [done|]. apply IH.
    destruct o; [by apply reg_ok_add|by apply reg_ok_remove]. }
  apply H, reg_ok_new.
Qed.

Lemma add_lookup p r id :
  (add p r).2 !! id =
  if String.eqb (ID (proc_PID p)) id
  then Some (match r !! id with Some q => q | None => p end) else r !! id.
Proof.
  unfold add. destruct (String.eqb_spec (ID (proc_PID p)) id) as [<-|Hn].
  - destruct (r !! _) eqn:E; simpl; [done|]. by rewrite lookup_insert_eq.
  - destruct (r !! ID _) eqn:E; simpl; [done|]. by rewrite lookup_insert_ne.
Qed.

(** C28: whatever sequence of registrations and removals has run, a process is
    found only under its own ID; registering keeps the incumbent of an ID and
    reports a collision exactly when that incumbent is another process, and
    then the process registered is the one [get] finds; removal removes that
    ID and no other. *)
Theorem registry_spec (l : list reg_op) (p : V) (pid : option PID) :
  let r := foldl (fun r o => reg_apply o r) newRegistry l in
  (forall id q, getByID id r = Some q -> ID (proc_PID q) = id) /\
  ((add p r).1 = true <-> get (Some (proc_PID p)) (add p r).2 = Some p) /\
  ((add p r).1 = false <-> exists q, get (Some (proc_PID p)) r = Some q /\ q <> p) /\
  ((add p r).1 = false -> (add p r).2 = r) /\
  (forall id, id <> ID (proc_PID p) -> getByID id (add p r).2 = getByID id r) /\
  get pid (remove pid r) = None /\
  (forall id, (forall x, pid = Some x -> ID x <> id) -> getByID id (remove pid r) = getByID id r) /\
  len r <= len (add p r).2 <= len r + 1.
Proof.
  simpl. set (r := foldl _ _ _). pose proof (reg_ok_ops l) as Hr. fold r in Hr.
  unfold get, getByID, add, len. split_and!.
  - done.
  - destruct (r !! _) as [q|] eqn:E; simpl.
    + rewrite E, bool_decide_eq_true. naive_solver.
    + by rewrite lookup_insert_eq.
  - destruct (r !! _) as [q|] eqn:E; simpl.
    + rewrite bool_decide_eq_false. naive_solver.
    + naive_solver.
  - destruct (r !! _); simpl; done.
  - intros id Hid. destruct (r !! _); simpl; [done|]. by rewrite lookup_insert_ne.
  - destruct pid; simpl; [by rewrite lookup_delete_eq|done].
  - intros id Hid. destruct pid as [x|]; simpl; [|done]. rewrite lookup_delete_ne; [done|]. by apply Hid.
  - destruct (r !! _) eqn:E; simpl; [lia|]. rewrite map_size_insert_None by done. lia.
  - destruct (r !! _) eqn:E; simpl; [lia|]. rewrite map_size_insert_None by done. lia.
Qed.
End registry.
