(* ===== verification/EventStream.v ===== *)
(** * The event stream

    [actor/eventstream.go]: subscribers keyed by PID ID, and the critical
    section of [broadcast], which drops the subscribers whose actor is gone and
    snapshots the others; the sends that follow are in [Engine].

    Go iterates over a map in an unspecified order: [order] is the order of one
    iteration, any permutation of the entries. *)

From S2P Require Import Prelude Pid.

(** [eventStream.subs] *)
Notation eventStream := (gmap string PID).
Implicit Types (s subs : eventStream) (pid : option PID).

Definition newEventStream : eventStream := ∅.

Definition subscribe pid s : eventStream :=
  match pid with None => s | Some p => <[ID p := p]> s end.

Definition unsubscribe pid s : eventStream :=
  match pid with None => s | Some p => delete (ID p) s end.

Definition subs_len s : Z := Z.of_nat (size s).

(** One turn of [for id, pid := range s.subs]: [gone] is
    [e.registry.get(pid) == nil]. *)
Definition scan_step (gone : bool) (id : string) (pid : PID) (st : eventStream * list PID)
  : eventStream * list PID :=
  if gone then (delete id st.1, st.2) else (st.1, st.2 ++ [pid]).

(** The critical section of [broadcast], for a registry that does not change
    while it runs. *)
Definition snapshot (gone : PID -> bool) (order : list (string * PID)) s : eventStream * list PID :=
  foldl (fun st e => scan_step (gone e.2) e.1 e.2 st) (s, []) order.

(** ** Properties *)

Definition subs_ok s : Prop := forall id p, s !! id = Some p -> ID p = id.

Lemma subs_ok_subscribe pid s : subs_ok s -> subs_ok (subscribe pid s).
Proof. intros Hs. destruct pid as [p|]; [|done]. intros id q. simpl. rewrite lookup_insert_Some. naive_solver. Qed.

Lemma subs_ok_unsubscribe pid s : subs_ok s -> subs_ok (unsubscribe pid s).
Proof. intros Hs. destruct pid as [p|]; [|done]. intros id q. simpl. rewrite lookup_delete_Some. naive_solver. Qed.

Definition gone_in (gone : PID -> bool) (order : list (string * PID)) (id : string) : Prop :=
  exists p, (id, p) ∈ order /\ gone p = true.

Lemma gone_in_cons gone i p order id :
  gone_in gone ((i, p) :: order) id <-> (i = id /\ gone p = true) \/ gone_in gone order id.
Proof.
  unfold gone_in. split.
  - intros (q & [[= -> ->]|Hq]%elem_of_cons & Hg); [auto|right; eauto].
  - intros [[-> Hg]|(q & Hq & Hg)]; [exists p; split; [left|done]|exists q; split; [by right|done]].
Qed.

Lemma scan_subs gone order st id :
  (foldl (fun st e => scan_step (gone e.2) e.1 e.2 st) st order).1 !! id = None <->
  gone_in gone order id \/ st.1 !! id = None.
Proof.
  revert st. induction order as [|[i p] order IH]; intros st; simpl.
  - split; [auto|]. intros [(q & Hq & _)|H]; [by apply not_elem_of_nil in Hq|done].
  - rewrite IH, gone_in_cons. unfold scan_step. simpl.
    destruct (gone p); simpl; [rewrite lookup_delete_None|]; intuition congruence.
Qed.

Lemma scan_kept gone order st id p :
  (foldl (fun st e => scan_step (gone e.2) e.1 e.2 st) st order).1 !! id = Some p -> st.1 !! id = Some p.
Proof.
  revert st. induction order as [|[i q] order IH]; intros st H; simpl in H; [done|].
  apply IH in H. unfold scan_step in H. destruct (gone q); simpl in H; [|done].
  by apply lookup_delete_Some in H as [_ ?].
Qed.

Lemma scan_live gone order st :
  (foldl (fun st e => scan_step (gone e.2) e.1 e.2 st) st order).2 =
  st.2 ++ (filter (fun e => gone e.2 = false) order).*2.
Proof.
  revert st. induction order as [|[i p] order IH]; intros st; simpl; [by rewrite app_nil_r|].
  rewrite IH. unfold scan_step. simpl. destruct (gone p) eqn:Eg; simpl.
  - by rewrite filter_cons_False by (simpl; congruence).
  - by rewrite filter_cons_True, <- app_assoc by done.
Qed.

Lemma scan_lookup gone order s id :
  order ≡ₚ map_to_list s ->
  (snapshot gone order s).1 !! id = filter (fun e => gone e.2 = false) s !! id.
Proof.
  intros Ho. unfold snapshot.
  destruct (filter (fun e => gone e.2 = false) s !! id) as [p|] eqn:E.
  - apply map_lookup_filter_Some in E as [Hs Hg]. simpl in Hg.
    destruct ((foldl _ _ _).1 !! id) as [q|] eqn:E2.
    + apply scan_kept in E2. simpl in E2. congruence.
    + apply scan_subs in E2 as [(q & Hq & Hq')|E2]; [|simpl in E2; congruence].
      rewrite Ho in Hq. apply elem_of_map_to_list in Hq. congruence.
  - apply scan_subs. simpl. destruct (s !! id) as [p|] eqn:Es; [left|by right].
    exists p. rewrite Ho. split; [by apply elem_of_map_to_list|].
    rewrite map_lookup_filter_None in E. destruct (gone p) eqn:Eg; [done|].
    destruct E as [E|E]; [congruence|]. by destruct (E _ Es).
Qed.

Lemma scan_permutation gone order s :
  order ≡ₚ map_to_list s ->
  (snapshot gone order s).2 ≡ₚ (map_to_list (filter (fun e => gone e.2 = false) s)).*2.
Proof.
  intros Ho. unfold snapshot. rewrite scan_live. simpl. apply fmap_Permutation.
  apply NoDup_Permutation.
  - apply NoDup_filter. rewrite Ho. apply NoDup_map_to_list.
  - apply NoDup_map_to_list.
  - intros [id p]. rewrite list_elem_of_filter, Ho, !elem_of_map_to_list, map_lookup_filter_Some. naive_solver.
Qed.

(** C29: one broadcast over a settled registry: whatever the iteration order,
    exactly the subscribers whose actor is gone leave the table, and the
    snapshot holds each remaining subscriber exactly once. *)
Theorem broadcast_snapshot (gone : PID -> bool) (order : list (string * PID)) (s : eventStream) :
  order ≡ₚ map_to_list s -> subs_ok s ->
  (snapshot gone order s).1 = filter (fun e => gone e.2 = false) s /\
  (forall p, p ∈ (snapshot gone order s).2 <-> s !! ID p = Some p /\ gone p = false) /\
  NoDup (snapshot gone order s).2.
Proof.
  intros Ho Hs. split; [apply map_eq; intros id; by apply scan_lookup|].
  pose proof (scan_permutation gone order s Ho) as Hp. split.
  - intros p. rewrite Hp, list_elem_of_fmap. split.
    + intros ([id q] & -> & H). apply elem_of_map_to_list, map_lookup_filter_Some in H as [H Hg].
      simpl. by rewrite (Hs _ _ H).
    + intros [H Hg]. exists (ID p, p). split; [done|]. by apply elem_of_map_to_list, map_lookup_filter_Some.
  - rewrite Hp. apply NoDup_fmap_2_strong; [|apply NoDup_map_to_list].
    intros [i p] [j q] Hi Hj. simpl. intros ->.
    apply elem_of_map_to_list, map_lookup_filter_Some in Hi as [Hi _].
    apply elem_of_map_to_list, map_lookup_filter_Some in Hj as [Hj _].
    by rewrite <- (Hs _ _ Hi), <- (Hs _ _ Hj).
Qed.

(** Two live subscribers and a dead one; the first subscribes twice. *)
Definition demo_subs : eventStream :=
  subscribe (Some (NewPID "local" "a")) (subscribe (Some (NewPID "local" "b"))
    (subscribe (Some (NewPID "local" "dead")) (subscribe (Some (NewPID "local" "a")) newEventStream))).

Definition demo_gone (p : PID) : bool := String.eqb (ID p) "dead".

Lemma subs_ok_new : subs_ok newEventStream.
Proof. intros id p H. unfold newEventStream in H. by rewrite lookup_empty in H. Qed.

Lemma broadcast_snapshot_witness :
  subs_len demo_subs = 3 /\
  subs_len (snapshot demo_gone (rev (map_to_list demo_subs)) demo_subs).1 = 2 /\
  NoDup (snapshot demo_gone (rev (map_to_list demo_subs)) demo_subs).2.
Proof.
  split; [vm_compute; reflexivity|]. split; [vm_compute; reflexivity|].
  apply (broadcast_snapshot demo_gone (rev (map_to_list demo_subs)) demo_subs).
  - symmetry. apply Permutation_rev.
  - repeat apply subs_ok_subscribe. apply subs_ok_new.
Defined.
