(* ===== verification/World.v ===== *)
(** * The state of a running engine

    The data of [actor/engine.go], [actor/process.go], [actor/context.go],
    [actor/events.go], [actor/lifecycle.go], [actor/envelope.go],
    [actor/receiver.go], [actor/response.go] and [actor/repeat.go], and the
    goroutines that work on it.

    User code (the [Receive] methods, the Producers, the middleware, code that
    calls the engine from outside) is not part of the repository: a [Receive]
    method is a [prog], a program whose calls into the package are the
    constructors of [api]; the types and functions it comes from are the fields
    of the class [UserCode].

    A goroutine is a stack of [instr]uctions, the next one first: each stands
    for a piece of a function that touches shared state at most once (one
    lookup, one critical section, one atomic), and pushes what comes after it.
    Timestamps, stack traces, panic values, log output and the length of a
    sleep carry no state and are left out. *)

From S2P Require Import Prelude Pid Opts Registry EventStream.

(** ** Messages *)

(** [any], as far as the package looks at it. *)
Inductive msg (U : Type) : Type :=
  | NilMsg
  | Initialized
  | Started
  | Stopped
  | ActorInitializedEvent (pid : PID)
  | ActorStartedEvent (pid : PID)
  | ActorStoppedEvent (pid : PID)
  | ActorRestartedEvent (pid : PID) (restarts : Z)
  | DeadLetterEvent (target : option PID) (message : msg U) (sender : option PID)
  | poisonPill (cancel : nat)
  | User (u : U).
Arguments NilMsg {U}.
Arguments Initialized {U}.
Arguments Started {U}.
Arguments Stopped {U}.
Arguments ActorInitializedEvent {U}.
Arguments ActorStartedEvent {U}.
Arguments ActorStoppedEvent {U}.
Arguments ActorRestartedEvent {U}.
Arguments DeadLetterEvent {U}.
Arguments poisonPill {U}.
Arguments User {U}.

Record Envelope (U : Type) := MkEnv { Msg : msg U; Sender : option PID }.
Arguments MkEnv {U}.
Arguments Msg {U}.
Arguments Sender {U}.

(** ** User code *)

Inductive producer (Pr : Type) : Type :=
  | P_user (p : Pr)
  | P_deadletter               (* newDeadLetter *)
  | P_response (ch : nat).     (* the responder of Request, around its replyCh *)
Arguments P_user {Pr}.
Arguments P_deadletter {Pr}.
Arguments P_response {Pr}.

(** Calls into the package: [C_] are methods of [Context], [E_] of [Engine],
    [R_] of [Response], [S_] of [SendRepeater].  [Offer] is the [select] of the
    responder of [Request] on the [replyCh] it has captured; a [Receive] without
    one offers to nobody. *)
Inductive api (U Pr M : Type) : Type :=
  | C_Message | C_Sender | C_PID | C_Parent
  | C_Send (to : option PID) (m : msg U)
  | C_Respond (m : msg U)
  | C_Forward (to : option PID)
  | C_SpawnChild (p : Pr) (kind : string) (opts : list (@option_spec M))
  | C_Child (id : string)
  | C_Children
  | C_SendRepeat (to : option PID) (m : msg U) (interval : Z)
  | Offer (m : msg U)
  | E_Send (to : option PID) (m : msg U)
  | E_SendWithSender (to : option PID) (m : msg U) (sender : option PID)
  | E_Spawn (p : Pr) (kind : string) (opts : list (@option_spec M))
  | E_SpawnProc (n : nat) (pid : PID)     (* a Processer of the user's own *)
  | E_Request (pid : option PID) (m : msg U)
  | E_SendRepeat (to : option PID) (m : msg U) (interval : Z)
  | E_SendAfter (to : option PID) (m : msg U)
  | E_Poison (pid : option PID)
  | E_Stop (pid : option PID)
  | E_PoisonAfter (pid : option PID)
  | E_Subscribe (pid : option PID)
  | E_Unsubscribe (pid : option PID)
  | E_BroadcastEvent (m : msg U)
  | R_Result (n : nat)
  | S_Stop (n : option nat)
  | Wait (ctx : nat).                     (* <-ctx.Done() *)
Arguments C_Message {U Pr M}.
Arguments C_Sender {U Pr M}.
Arguments C_PID {U Pr M}.
Arguments C_Parent {U Pr M}.
Arguments C_Send {U Pr M}.
Arguments C_Respond {U Pr M}.
Arguments C_Forward {U Pr M}.
Arguments C_SpawnChild {U Pr M}.
Arguments C_Child {U Pr M}.
Arguments C_Children {U Pr M}.
Arguments C_SendRepeat {U Pr M}.
Arguments Offer {U Pr M}.
Arguments E_Send {U Pr M}.
Arguments E_SendWithSender {U Pr M}.
Arguments E_Spawn {U Pr M}.
Arguments E_SpawnProc {U Pr M}.
Arguments E_Request {U Pr M}.
Arguments E_SendRepeat {U Pr M}.
Arguments E_SendAfter {U Pr M}.
Arguments E_Poison {U Pr M}.
Arguments E_Stop {U Pr M}.
Arguments E_PoisonAfter {U Pr M}.
Arguments E_Subscribe {U Pr M}.
Arguments E_Unsubscribe {U Pr M}.
Arguments E_BroadcastEvent {U Pr M}.
Arguments R_Result {U Pr M}.
Arguments S_Stop {U Pr M}.
Arguments Wait {U Pr M}.

(** Results of the calls; a [context.Context], a [*Response] and a
    [*SendRepeater] are their numbers, an [error] whether it is there. *)
Inductive val (U : Type) : Type :=
  | VUnit
  | VMsg (m : msg U)
  | VPid (p : option PID)
  | VPids (l : list PID)
  | VCtx (ctx : nat)
  | VResponse (n : nat)
  | VResult (m : msg U) (err : bool)
  | VRepeater (n : nat).
Arguments VUnit {U}.
Arguments VMsg {U}.
Arguments VPid {U}.
Arguments VPids {U}.
Arguments VCtx {U}.
Arguments VResponse {U}.
Arguments VResult {U}.
Arguments VRepeater {U}.

(** A piece of user code: it reads and writes the state of a receiver through a
    pointer to it, calls the package, returns or panics. *)
Inductive prog (U RS Pr M : Type) : Type :=
  | Ret
  | Panic
  | Get (r : nat) (k : RS -> prog U RS Pr M)
  | Put (r : nat) (s : RS) (k : prog U RS Pr M)
  | Call (o : api U Pr M) (k : val U -> prog U RS Pr M).
Arguments Ret {U RS Pr M}.
Arguments Panic {U RS Pr M}.
Arguments Get {U RS Pr M}.
Arguments Put {U RS Pr M}.
Arguments Call {U RS Pr M}.

(** What the repository does not contain: the message values, the state of
    receivers, the Producers with the state of the receivers they build, the
    method [Receive] of the receiver at a pointer, the middlewares.  A Producer
    is a constructor: it returns a new receiver, without a panic and without a
    call into the package. *)
Class UserCode (U RS Pr M : Type) := {
  u_init : Pr -> RS;
  u_receive : Pr -> nat -> prog U RS Pr M;
  u_wrap : M -> prog U RS Pr M -> prog U RS Pr M;
}.

(** ** Processes *)

(** A Processer in the registry: a [*process] by its index, or a value of
    another type. *)
Record handle := MkHandle { h_num : nat; h_custom : bool; h_PID : PID }.

#[export] Instance handle_eq_dec : EqDecision handle.
Proof. solve_decision. Defined.

#[export] Instance handle_processer : Processer handle :=
  {| processer_eq := handle_eq_dec; proc_PID := h_PID |}.

(** [process] with its [Inbox] and its [Context].  A receiver is the Producer it
    came from and the pointer to its state. *)
Record process (U RS Pr M : Type) := MkProcess {
  p_opts : @Opts (producer Pr) M;
  p_pid : PID;
  p_queue : list (Envelope U);          (* inbox.rb *)
  p_procStatus : Z;                     (* inbox.procStatus *)
  p_bound : bool;                       (* inbox.proc != nil *)
  p_message : msg U;                    (* context.message *)
  p_sender : option PID;                (* context.sender *)
  p_receiver : option (producer Pr * nat);
  p_chain : option (prog U RS Pr M);
  p_stopped : bool;
  p_cancels : list nat;
  p_restarts : Z;
  p_children : gmap string PID;
}.
Arguments MkProcess {U RS Pr M}.
Arguments p_opts {U RS Pr M}.
Arguments p_pid {U RS Pr M}.
Arguments p_queue {U RS Pr M}.
Arguments p_procStatus {U RS Pr M}.
Arguments p_bound {U RS Pr M}.
Arguments p_message {U RS Pr M}.
Arguments p_sender {U RS Pr M}.
Arguments p_receiver {U RS Pr M}.
Arguments p_chain {U RS Pr M}.
Arguments p_stopped {U RS Pr M}.
Arguments p_cancels {U RS Pr M}.
Arguments p_restarts {U RS Pr M}.
Arguments p_children {U RS Pr M}.

(** ** Futures and scheduled sends *)

(** [Response], with the [replyCh] its [await] was given; [r_err] says whether
    [err] is [ErrRequestTimeout], [r_done] whether [done] is closed. *)
Record response (U : Type) := MkResponse {
  r_pid : PID;
  r_replyCh : nat;
  r_result : msg U;
  r_err : bool;
  r_done : bool;
}.
Arguments MkResponse {U}.
Arguments r_pid {U}.
Arguments r_replyCh {U}.
Arguments r_result {U}.
Arguments r_err {U}.
Arguments r_done {U}.

(** [SendRepeater]: which of its channels are closed, whether [once] has run;
    [s_sent] is a ghost, the sends it has made. *)
Record SendRepeater := MkRepeater { s_stop : bool; s_done : bool; s_once : bool; s_sent : nat }.

Definition newSendRepeater : SendRepeater := MkRepeater false false false 0.

(** ** Goroutines *)

Inductive instr (U RS Pr M : Type) : Type :=
  (* user code; [self] is the process whose invokeMsg recovers its panics *)
  | I_user (self : option nat) (p : prog U RS Pr M)
  | I_cont (self : option nat) (k : val U -> prog U RS Pr M)
  | I_return (v : val U)
  (* Engine: routing and events *)
  | I_sendMessage (to : option PID) (m : msg U) (sender : option PID)
  | I_deliver (i : nat) (env : Envelope U)          (* in.rb.Push(msg) *)
  | I_schedule (i : nat)                            (* CAS idle -> running *)
  | I_broadcast (m : msg U)                         (* s.mu.Lock() *)
  | I_scan (m : msg U) (todo : list (string * PID)) (live : list PID)
  | I_fanout (m : msg U) (live : list PID)
  (* Engine: poison *)
  | I_poison (pid : option PID) (c : nat)
  | I_addCancel (i : nat) (c : nat)
  | I_cancel (c : nat)
  | I_cancels (cs : list nat)
  | I_wait (c : nat)
  | I_poisonAndWait (pid : PID)                     (* goroutine of shutdownChildren *)
  (* Request and Response.await *)
  | I_requested (ch : nat) (pid : option PID) (m : msg U)  (* the PID returned *)
  | I_newResponse (ch : nat) (resp : PID)
  | I_await (n : nat)
  | I_closeDone (n : nat)                           (* close(r.done) *)
  (* SendRepeat, SendAfter and Stop *)
  | I_send (n : nat) (to : option PID) (m : msg U)  (* e.Send(pid, msg) of repeater n *)
  | I_repeat (n : nat) (to : option PID) (m : msg U) (interval : Z)
  | I_ticker (n : nat) (to : option PID) (m : msg U)
  | I_timer (n : nat) (to : option PID) (m : msg U)
  | I_closeRepeater (n : nat)                       (* close(repeater.done) *)
  | I_waitRepeater (n : nat)                        (* <-r.done *)
  (* Engine: spawn *)
  | I_spawnProc (i : nat)
  | I_childOf (self : nat)                          (* SpawnChild, the PID returned *)
  | I_addChild (j : nat) (pid : PID)
  | I_newEngine                                     (* NewEngine, the PID returned *)
  | I_subscribe (pid : option PID)
  | I_addProc (h : handle)                          (* registry.add *)
  (* process *)
  | I_Start (i : nat)
  | I_registerProcess (i : nat)
  | I_invokeMsg (i : nat) (lifecycle : bool) (env : Envelope U)
  | I_tryRestart (i : nat)
  | I_Shutdown (i : nat)
  | I_leaveParent (i : nat)
  | I_removeChild (j : nat) (pid : PID)
  | I_unregister (i : nat)
  | I_inboxStop (i : nat)
  | I_Invoke (i : nat) (msgs : list (Envelope U))
  | I_shutdownChildren (i : nat)
  | I_join (gs : list nat)                          (* wg.Wait() *)
  (* Inbox: process and run *)
  | I_load (i : nat)
  | I_popN (i : nat)
  | I_park (i : nat)
  | I_len (i : nat)
  | I_reclaim (i : nat).
Arguments I_user {U RS Pr M}.
Arguments I_cont {U RS Pr M}.
Arguments I_return {U RS Pr M}.
Arguments I_sendMessage {U RS Pr M}.
Arguments I_deliver {U RS Pr M}.
Arguments I_schedule {U RS Pr M}.
Arguments I_broadcast {U RS Pr M}.
Arguments I_scan {U RS Pr M}.
Arguments I_fanout {U RS Pr M}.
Arguments I_poison {U RS Pr M}.
Arguments I_addCancel {U RS Pr M}.
Arguments I_cancel {U RS Pr M}.
Arguments I_cancels {U RS Pr M}.
Arguments I_wait {U RS Pr M}.
Arguments I_poisonAndWait {U RS Pr M}.
Arguments I_requested {U RS Pr M}.
Arguments I_newResponse {U RS Pr M}.
Arguments I_await {U RS Pr M}.
Arguments I_closeDone {U RS Pr M}.
Arguments I_send {U RS Pr M}.
Arguments I_repeat {U RS Pr M}.
Arguments I_ticker {U RS Pr M}.
Arguments I_timer {U RS Pr M}.
Arguments I_closeRepeater {U RS Pr M}.
Arguments I_waitRepeater {U RS Pr M}.
Arguments I_spawnProc {U RS Pr M}.
Arguments I_childOf {U RS Pr M}.
Arguments I_addChild {U RS Pr M}.
Arguments I_newEngine {U RS Pr M}.
Arguments I_subscribe {U RS Pr M}.
Arguments I_addProc {U RS Pr M}.
Arguments I_Start {U RS Pr M}.
Arguments I_registerProcess {U RS Pr M}.
Arguments I_invokeMsg {U RS Pr M}.
Arguments I_tryRestart {U RS Pr M}.
Arguments I_Shutdown {U RS Pr M}.
Arguments I_leaveParent {U RS Pr M}.
Arguments I_removeChild {U RS Pr M}.
Arguments I_unregister {U RS Pr M}.
Arguments I_inboxStop {U RS Pr M}.
Arguments I_Invoke {U RS Pr M}.
Arguments I_shutdownChildren {U RS Pr M}.
Arguments I_join {U RS Pr M}.
Arguments I_load {U RS Pr M}.
Arguments I_popN {U RS Pr M}.
Arguments I_park {U RS Pr M}.
Arguments I_len {U RS Pr M}.
Arguments I_reclaim {U RS Pr M}.

(** A delivery to user code, recorded when [invokeMsg] starts. *)
Record delivery (U : Type) := MkDelivery { d_proc : nat; d_lifecycle : bool; d_env : Envelope U }.
Arguments MkDelivery {U}.
Arguments d_proc {U}.
Arguments d_lifecycle {U}.
Arguments d_env {U}.

(** ** The world *)

(** [w_log] is a ghost.  Context number [c] is cancelled when it is in
    [w_cancelled]; [w_ctxs] have been made.  A [replyCh] has room for one
    message.  [w_receivers] is the memory of the receivers: the state of each one
    that was built, [None] for those of the package, which have none. *)
Record world (U RS Pr M : Type) := MkWorld {
  w_registry : registry handle;
  w_subs : eventStream;
  w_subs_locked : bool;
  w_deadletter : option PID;
  w_procs : list (process U RS Pr M);
  w_pidCounter : Z;
  w_childIDCounter : Z;
  w_ctxs : nat;
  w_cancelled : gset nat;
  w_replyChs : list (option (msg U));
  w_responses : list (response U);
  w_repeaters : list SendRepeater;
  w_receivers : list (option RS);
  w_goroutines : list (list (instr U RS Pr M));
  w_log : list (delivery U);
}.
Arguments MkWorld {U RS Pr M}.
Arguments w_registry {U RS Pr M}.
Arguments w_subs {U RS Pr M}.
Arguments w_subs_locked {U RS Pr M}.
Arguments w_deadletter {U RS Pr M}.
Arguments w_procs {U RS Pr M}.
Arguments w_pidCounter {U RS Pr M}.
Arguments w_childIDCounter {U RS Pr M}.
Arguments w_ctxs {U RS Pr M}.
Arguments w_cancelled {U RS Pr M}.
Arguments w_replyChs {U RS Pr M}.
Arguments w_responses {U RS Pr M}.
Arguments w_repeaters {U RS Pr M}.
Arguments w_receivers {U RS Pr M}.
Arguments w_goroutines {U RS Pr M}.
Arguments w_log {U RS Pr M}.

Section updates.
Context {U RS Pr M : Type}.
Notation world := (world U RS Pr M).
Notation process := (process U RS Pr M).
Implicit Types (w : world) (p : process).

Definition set_registry (x : registry handle) w : world :=
  MkWorld x (w_subs w) (w_subs_locked w) (w_deadletter w) (w_procs w)
    (w_pidCounter w) (w_childIDCounter w) (w_ctxs w) (w_cancelled w) (w_replyChs w)
    (w_responses w) (w_repeaters w) (w_receivers w) (w_goroutines w) (w_log w).
Definition set_subs (x : eventStream) w : world :=
  MkWorld (w_registry w) x (w_subs_locked w) (w_deadletter w) (w_procs w)
    (w_pidCounter w) (w_childIDCounter w) (w_ctxs w) (w_cancelled w) (w_replyChs w)
    (w_responses w) (w_repeaters w) (w_receivers w) (w_goroutines w) (w_log w).
Definition set_subs_locked (x : bool) w : world :=
  MkWorld (w_registry w) (w_subs w) x (w_deadletter w) (w_procs w)
    (w_pidCounter w) (w_childIDCounter w) (w_ctxs w) (w_cancelled w) (w_replyChs w)
    (w_responses w) (w_repeaters w) (w_receivers w) (w_goroutines w) (w_log w).
Definition set_deadletter (x : option PID) w : world :=
  MkWorld (w_registry w) (w_subs w) (w_subs_locked w) x (w_procs w)
    (w_pidCounter w) (w_childIDCounter w) (w_ctxs w) (w_cancelled w) (w_replyChs w)
    (w_responses w) (w_repeaters w) (w_receivers w) (w_goroutines w) (w_log w).
Definition set_procs (x : list process) w : world :=
  MkWorld (w_registry w) (w_subs w) (w_subs_locked w) (w_deadletter w) x
    (w_pidCounter w) (w_childIDCounter w) (w_ctxs w) (w_cancelled w) (w_replyChs w)
    (w_responses w) (w_repeaters w) (w_receivers w) (w_goroutines w) (w_log w).
Definition set_pidCounter (x : Z) w : world :=
  MkWorld (w_registry w) (w_subs w) (w_subs_locked w) (w_deadletter w) (w_procs w)
    x (w_childIDCounter w) (w_ctxs w) (w_cancelled w) (w_replyChs w)
    (w_responses w) (w_repeaters w) (w_receivers w) (w_goroutines w) (w_log w).
Definition set_childIDCounter (x : Z) w : world :=
  MkWorld (w_registry w) (w_subs w) (w_subs_locked w) (w_deadletter w) (w_procs w)
    (w_pidCounter w) x (w_ctxs w) (w_cancelled w) (w_replyChs w)
    (w_responses w) (w_repeaters w) (w_receivers w) (w_goroutines w) (w_log w).
Definition set_ctxs (x : nat) w : world :=
  MkWorld (w_registry w) (w_subs w) (w_subs_locked w) (w_deadletter w) (w_procs w)
    (w_pidCounter w) (w_childIDCounter w) x (w_cancelled w) (w_replyChs w)
    (w_responses w) (w_repeaters w) (w_receivers w) (w_goroutines w) (w_log w).
Definition set_cancelled (x : gset nat) w : world :=
  MkWorld (w_registry w) (w_subs w) (w_subs_locked w) (w_deadletter w) (w_procs w)
    (w_pidCounter w) (w_childIDCounter w) (w_ctxs w) x (w_replyChs w)
    (w_responses w) (w_repeaters w) (w_receivers w) (w_goroutines w) (w_log w).
Definition set_replyChs (x : list (option (msg U))) w : world :=
  MkWorld (w_registry w) (w_subs w) (w_subs_locked w) (w_deadletter w) (w_procs w)
    (w_pidCounter w) (w_childIDCounter w) (w_ctxs w) (w_cancelled w) x
    (w_responses w) (w_repeaters w) (w_receivers w) (w_goroutines w) (w_log w).
Definition set_responses (x : list (response U)) w : world :=
  MkWorld (w_registry w) (w_subs w) (w_subs_locked w) (w_deadletter w) (w_procs w)
    (w_pidCounter w) (w_childIDCounter w) (w_ctxs w) (w_cancelled w) (w_replyChs w)
    x (w_repeaters w) (w_receivers w) (w_goroutines w) (w_log w).
Definition set_repeaters (x : list SendRepeater) w : world :=
  MkWorld (w_registry w) (w_subs w) (w_subs_locked w) (w_deadletter w) (w_procs w)
    (w_pidCounter w) (w_childIDCounter w) (w_ctxs w) (w_cancelled w) (w_replyChs w)
    (w_responses w) x (w_receivers w) (w_goroutines w) (w_log w).
Definition set_receivers (x : list (option RS)) w : world :=
  MkWorld (w_registry w) (w_subs w) (w_subs_locked w) (w_deadletter w) (w_procs w)
    (w_pidCounter w) (w_childIDCounter w) (w_ctxs w) (w_cancelled w) (w_replyChs w)
    (w_responses w) (w_repeaters w) x (w_goroutines w) (w_log w).
Definition set_goroutines (x : list (list (instr U RS Pr M))) w : world :=
  MkWorld (w_registry w) (w_subs w) (w_subs_locked w) (w_deadletter w) (w_procs w)
    (w_pidCounter w) (w_childIDCounter w) (w_ctxs w) (w_cancelled w) (w_replyChs w)
    (w_responses w) (w_repeaters w) (w_receivers w) x (w_log w).
Definition set_log (x : list (delivery U)) w : world :=
  MkWorld (w_registry w) (w_subs w) (w_subs_locked w) (w_deadletter w) (w_procs w)
    (w_pidCounter w) (w_childIDCounter w) (w_ctxs w) (w_cancelled w) (w_replyChs w)
    (w_responses w) (w_repeaters w) (w_receivers w) (w_goroutines w) x.

Definition set_queue (x : list (Envelope U)) p : process :=
  MkProcess (p_opts p) (p_pid p) x (p_procStatus p) (p_bound p) (p_message p) (p_sender p)
    (p_receiver p) (p_chain p) (p_stopped p) (p_cancels p) (p_restarts p) (p_children p).
Definition set_procStatus (x : Z) p : process :=
  MkProcess (p_opts p) (p_pid p) (p_queue p) x (p_bound p) (p_message p) (p_sender p)
    (p_receiver p) (p_chain p) (p_stopped p) (p_cancels p) (p_restarts p) (p_children p).
Definition set_bound (x : bool) p : process :=
  MkProcess (p_opts p) (p_pid p) (p_queue p) (p_procStatus p) x (p_message p) (p_sender p)
    (p_receiver p) (p_chain p) (p_stopped p) (p_cancels p) (p_restarts p) (p_children p).
Definition set_message (x : msg U) p : process :=
  MkProcess (p_opts p) (p_pid p) (p_queue p) (p_procStatus p) (p_bound p) x (p_sender p)
    (p_receiver p) (p_chain p) (p_stopped p) (p_cancels p) (p_restarts p) (p_children p).
Definition set_sender (x : option PID) p : process :=
  MkProcess (p_opts p) (p_pid p) (p_queue p) (p_procStatus p) (p_bound p) (p_message p) x
    (p_receiver p) (p_chain p) (p_stopped p) (p_cancels p) (p_restarts p) (p_children p).
Definition set_receiver (x : option (producer Pr * nat)) p : process :=
  MkProcess (p_opts p) (p_pid p) (p_queue p) (p_procStatus p) (p_bound p) (p_message p)
    (p_sender p) x (p_chain p) (p_stopped p) (p_cancels p) (p_restarts p) (p_children p).
Definition set_chain (x : option (prog U RS Pr M)) p : process :=
  MkProcess (p_opts p) (p_pid p) (p_queue p) (p_procStatus p) (p_bound p) (p_message p)
    (p_sender p) (p_receiver p) x (p_stopped p) (p_cancels p) (p_restarts p) (p_children p).
Definition set_stopped (x : bool) p : process :=
  MkProcess (p_opts p) (p_pid p) (p_queue p) (p_procStatus p) (p_bound p) (p_message p)
    (p_sender p) (p_receiver p) (p_chain p) x (p_cancels p) (p_restarts p) (p_children p).
Definition set_cancels (x : list nat) p : process :=
  MkProcess (p_opts p) (p_pid p) (p_queue p) (p_procStatus p) (p_bound p) (p_message p)
    (p_sender p) (p_receiver p) (p_chain p) (p_stopped p) x (p_restarts p) (p_children p).
Definition set_restarts (x : Z) p : process :=
  MkProcess (p_opts p) (p_pid p) (p_queue p) (p_procStatus p) (p_bound p) (p_message p)
    (p_sender p) (p_receiver p) (p_chain p) (p_stopped p) (p_cancels p) x (p_children p).
Definition set_children (x : gmap string PID) p : process :=
  MkProcess (p_opts p) (p_pid p) (p_queue p) (p_procStatus p) (p_bound p) (p_message p)
    (p_sender p) (p_receiver p) (p_chain p) (p_stopped p) (p_cancels p) (p_restarts p) x.

Definition upd_proc (i : nat) (f : process -> process) w : world :=
  set_procs (alter f i (w_procs w)) w.

Definition upd_response (n : nat) (f : response U -> response U) w : world :=
  set_responses (alter f n (w_responses w)) w.
Definition upd_repeater (n : nat) (f : SendRepeater -> SendRepeater) w : world :=
  set_repeaters (alter f n (w_repeaters w)) w.
End updates.
