(* ===== verification/Engine.v ===== *)
(** * The engine and its processes, step by step

    [actor/engine.go], [actor/process.go], [actor/context.go],
    [actor/eventstream.go], [actor/deadletter.go], [actor/response.go],
    [actor/repeat.go] and the scheduling of [actor/inbox.go], as a transition
    system on [World.world].

    [instr_step] is one step of the goroutine whose stack is [ins :: st]: it
    returns the new world and the new stack of that goroutine.  [pick] is the
    order Go chooses when the step ranges over a map, and the case of a [select]
    when it is one.  Time is not measured: a timer may fire at any moment, which
    is [pick]'s choice.  The queue of an inbox is
    the list of its envelopes, which [Inbox] and [RingConc] justify, and
    [engine.registry] and [engine.events] are the ones [NewEngine] builds, so
    the tests for [nil] of both are left out. *)

From S2P Require Import Prelude RingBuffer Inbox Pid Middleware Opts Registry EventStream World.

(** An order of iteration over [l]: every permutation is some [pick]'s. *)
Fixpoint insert_at {A} (n : nat) (x : A) (l : list A) : list A :=
  match n, l with
  | S n, y :: l => y :: insert_at n x l
  | _, _ => x :: l
  end.
Fixpoint iteration {A} (pick : nat) (l : list A) : list A :=
  match l with
  | [] => []
  | x :: l => insert_at (pick mod S (length l)) x (iteration (pick / S (length l)) l)
  end.

Section engine.
Context {U RS Pr M : Type} `{!UserCode U RS Pr M}.
Notation world := (world U RS Pr M).
Notation process := (process U RS Pr M).
Notation instr := (instr U RS Pr M).
Notation prog := (prog U RS Pr M).
Notation stack := (list instr).
Implicit Types (w : world) (p : process) (ins : instr) (st : stack) (i j g pick : nat).

(** The result of a step that leaves the shared state alone. *)
Definition goto st w : option (world * stack) := Some (w, st).

(** [go f()] *)
Definition go (st' : stack) w : world := set_goroutines (w_goroutines w ++ [st']) w.

(** [context.WithCancel(context.Background())] *)
Definition WithCancel w : nat * world := (w_ctxs w, set_ctxs (S (w_ctxs w)) w).

Definition cancel (c : nat) w : world := set_cancelled ({[c]} ∪ w_cancelled w) w.

(** ** Producers and receivers *)

(** The state a Producer gives to a new receiver, and [p.opts.Producer()]. *)
Definition init_state (pr : producer Pr) : option RS :=
  match pr with P_user u => Some (u_init u) | P_deadletter | P_response _ => None end.
Definition produce (pr : producer Pr) w : (producer Pr * nat) * world :=
  ((pr, length (w_receivers w)), set_receivers (w_receivers w ++ [init_state pr]) w).

(** The responder of [Request]. *)
Definition offer_message : prog :=
  Call C_Message (fun v => match v with VMsg m => Call (Offer m) (fun _ => Ret) | _ => Ret end).
Definition responder : prog :=
  Call C_Message (fun v =>
    match v with
    | VMsg (Initialized | Started | Stopped) => Ret
    | _ => offer_message
    end).

(** The method value [receiver.Receive]; [deadLetterActor] only logs. *)
Definition receive_of (r : producer Pr * nat) : prog :=
  match r.1 with
  | P_user u => u_receive u r.2
  | P_deadletter => Ret
  | P_response _ => responder
  end.

Definition handle_of i p : handle := MkHandle i false (p_pid p).

(** [e.registry.get(pid).( *process)] *)
Definition get_process (pid : option PID) w : option nat :=
  match get pid (w_registry w) with
  | Some h => if h_custom h then None else Some (h_num h)
  | None => None
  end.

(** The child set of a process. *)
Definition addChild j (pid : PID) w : world :=
  upd_proc j (fun p => set_children (<[ID pid := pid]> (p_children p)) p) w.
Definition removeChild j (pid : PID) w : world :=
  upd_proc j (fun p => set_children (delete (ID pid) (p_children p)) p) w.

(** ** Building a process *)

(** [newProcess]: the process and its index. *)
Definition newProcess (o : @Opts (producer Pr) M) w : nat * world :=
  let p := MkProcess o (NewPID localAddress (o_ID o)) [] stateIdle false
             NilMsg None None None false [] 0 ∅ in
  (length (w_procs w), set_procs (w_procs w ++ [p]) w).

Definition with_id (id : string) (o : @Opts (producer Pr) M) : @Opts (producer Pr) M := WithID id o.

(** [Engine.Spawn], up to [spawnProc]. *)
Definition spawn (pr : producer Pr) (kind : string) (opts : list (@option_spec M)) w : nat * world :=
  let o := build_opts pr kind (map opt_func opts) in
  let '(id, n) := buildID kind (o_ID o) (w_pidCounter w) in
  newProcess (with_id id o) (set_pidCounter n w).

(** [Context.SpawnChild], up to [spawnProc], for the parent [pid]. *)
Definition spawn_child (pid : PID) (pr : producer Pr) (kind : string)
    (opts : list (@option_spec M)) w : nat * world :=
  let o := build_opts pr kind (map opt_func opts) in
  let '(id, n) := childID pid kind (o_ID o) (w_childIDCounter w) in
  newProcess (set_parent (Some pid) (with_id id o)) (set_childIDCounter n w).

(** ** Calls from user code *)

(** [Context.Child] over one iteration of the child set. *)
Definition child_lookup (self : PID) (id : string) (pids : list PID) : option PID :=
  let qualified := ID (PID_Child (Some self) id) in
  find (fun pid => String.eqb (ID pid) qualified || String.eqb (shortName (ID pid)) id) pids.

Definition childPIDs pick p : list PID := iteration pick (map_to_list (p_children p)).*2.

(** [replyCh <- m] in a [select] with a [default]: a message that finds the
    channel full is dropped. *)
Definition offer (pr : producer Pr) (m : msg U) w : world :=
  match pr with
  | P_response ch =>
      match w_replyChs w !! ch with
      | Some None => set_replyChs (<[ch := Some m]> (w_replyChs w)) w
      | _ => w
      end
  | _ => w
  end.

(** [SendRepeat], up to the immediate send. *)
Definition send_repeat (to : option PID) (m : msg U) (interval : Z) st w : option (world * stack) :=
  let n := length (w_repeaters w) in
  goto (I_send n to m :: I_repeat n to m interval :: st)
    (set_repeaters (w_repeaters w ++ [newSendRepeater]) w).

(** A method of the [Context] of process [i], answering at once. *)
Definition answer (self : option nat) (k : val U -> prog) (v : val U) st w : option (world * stack) :=
  goto (I_user self (k v) :: st) w.

Definition context_call pick i (o : api U Pr M) (k : val U -> prog) st w : option (world * stack) :=
  p ← w_procs w !! i;
  let back := I_cont (Some i) k in
  match o with
  | C_Message => answer (Some i) k (VMsg (p_message p)) st w
  | C_Sender => answer (Some i) k (VPid (p_sender p)) st w
  | C_PID => answer (Some i) k (VPid (Some (p_pid p))) st w
  | C_Parent => answer (Some i) k (VPid (parent (p_opts p))) st w
  | C_Send to m => goto (I_sendMessage to m (Some (p_pid p)) :: I_return VUnit :: back :: st) w
  | C_Respond m =>
      match p_sender p with
      | None => answer (Some i) k VUnit st w
      | Some to => goto (I_sendMessage (Some to) m None :: I_return VUnit :: back :: st) w
      end
  | C_Forward to =>
      goto (I_sendMessage to (p_message p) (p_sender p) :: I_return VUnit :: back :: st) w
  | C_SpawnChild pr kind opts =>
      let '(n, w) := spawn_child (p_pid p) (P_user pr) kind opts w in
      goto (I_spawnProc n :: I_childOf i :: back :: st) w
  | C_Child id => answer (Some i) k (VPid (child_lookup (p_pid p) id (childPIDs pick p))) st w
  | C_Children => answer (Some i) k (VPids (childPIDs pick p)) st w
  | C_SendRepeat to m interval => send_repeat to m interval (back :: st) w
  | Offer m =>
      answer (Some i) k VUnit st (match p_receiver p with Some (pr, _) => offer pr m w | None => w end)
  | _ => None
  end.

(** [SendAfter]: the repeater and its goroutine. *)
Definition SendAfter (to : option PID) (m : msg U) w : nat * world :=
  let n := length (w_repeaters w) in
  (n, go [I_timer n to m] (set_repeaters (w_repeaters w ++ [newSendRepeater]) w)).

(** [Request], up to the spawn of the responder. *)
Definition Request (pid : option PID) (m : msg U) st w : option (world * stack) :=
  let ch := length (w_replyChs w) in
  let '(n, w) := spawn (P_response ch) "response" [] (set_replyChs (w_replyChs w ++ [None]) w) in
  goto (I_spawnProc n :: I_requested ch pid m :: st) w.

(** [Result]; the call waits while this is [None]. *)
Definition Result (n : nat) w : option (val U) :=
  r ← w_responses w !! n;
  if r_done r then Some (VResult (r_result r) (r_err r)) else None.

(** [r.once.Do(func() { close(r.stop) })]; closing a closed channel panics. *)
Definition stop_once (n : nat) w : option world :=
  r ← w_repeaters w !! n;
  if s_once r then Some w
  else if s_stop r then None
  else Some (upd_repeater n (fun r => MkRepeater true (s_done r) true (s_sent r)) w).

Definition engine_call (self : option nat) (o : api U Pr M) (k : val U -> prog) st w
  : option (world * stack) :=
  let back := I_cont self k in
  match o with
  | E_Send to m => goto (I_sendMessage to m None :: I_return VUnit :: back :: st) w
  | E_SendWithSender to m sender =>
      goto (I_sendMessage to m sender :: I_return VUnit :: back :: st) w
  | E_Spawn pr kind opts =>
      let '(n, w) := spawn (P_user pr) kind opts w in
      goto (I_spawnProc n :: back :: st) w
  | E_SpawnProc n pid =>
      goto (I_addProc (MkHandle n true pid) :: I_return (VPid (Some pid)) :: back :: st) w
  | E_Request pid m => Request pid m (back :: st) w
  | E_SendRepeat to m interval => send_repeat to m interval (back :: st) w
  | E_SendAfter to m =>
      let '(n, w) := SendAfter to m w in answer self k (VRepeater n) st w
  | E_Poison pid | E_Stop pid =>
      let '(c, w) := WithCancel w in
      goto (I_poison pid c :: I_return (VCtx c) :: back :: st) w
  | E_PoisonAfter pid =>
      let '(c, w) := WithCancel w in
      answer self k (VCtx c) st (go [I_poison pid c] w)
  | E_Subscribe pid => goto (I_subscribe pid :: I_return VUnit :: back :: st) w
  | E_Unsubscribe pid =>
      if w_subs_locked w then None
      else answer self k VUnit st (set_subs (unsubscribe pid (w_subs w)) w)
  | E_BroadcastEvent m => goto (I_broadcast m :: I_return VUnit :: back :: st) w
  | R_Result n => v ← Result n w; answer self k v st w
  | S_Stop None => answer self k VUnit st w
  | S_Stop (Some n) =>
      w ← stop_once n w; goto (I_waitRepeater n :: I_return VUnit :: back :: st) w
  | Wait c => if decide (c ∈ w_cancelled w) then answer self k VUnit st w else None
  | _ => None
  end.

Definition is_context_call (o : api U Pr M) : bool :=
  match o with
  | C_Message | C_Sender | C_PID | C_Parent | C_Send _ _ | C_Respond _ | C_Forward _
  | C_SpawnChild _ _ _ | C_Child _ | C_Children | C_SendRepeat _ _ _ | Offer _ => true
  | _ => false
  end.

(** A write through a pointer to a receiver. *)
Definition set_state (s : RS) (x : option RS) : option RS :=
  match x with Some _ => Some s | None => None end.

(** A panic in user code ends in the deferred [recover] of the [invokeMsg] that
    called it; outside of [invokeMsg] it ends the program. *)
Definition user_step pick (self : option nat) (u : prog) st w : option (world * stack) :=
  match u with
  | Ret => goto st w
  | Panic => match self with Some i => goto (I_tryRestart i :: st) w | None => None end
  | Get r k =>
      match w_receivers w !! r with
      | Some (Some s) => goto (I_user self (k s) :: st) w
      | _ => None
      end
  | Put r s k => goto (I_user self k :: st) (set_receivers (alter (set_state s) r (w_receivers w)) w)
  | Call o k =>
      if is_context_call o
      then i ← self; context_call pick i o k st w
      else engine_call self o k st w
  end.

(** The end of [SpawnChild]: the child of PID [pid] is recorded, if this process
    is in the registry. *)
Definition childOf_return i (pid : PID) st w : option (world * stack) :=
  p ← w_procs w !! i;
  match get_process (Some (p_pid p)) w with
  | Some j => goto (I_addChild j pid :: I_return (VPid (Some pid)) :: st) w
  | None => goto (I_return (VPid (Some pid)) :: st) w
  end.

(** [Request] sends its message once its responder, of PID [resp], is there. *)
Definition requested_return (ch : nat) (to : option PID) (m : msg U) (resp : PID) st w
  : option (world * stack) :=
  goto (I_sendMessage to m (Some resp) :: I_newResponse ch resp :: st) w.

(** The end of [NewEngine]: the dead-letter actor, of PID [pid], is subscribed. *)
Definition newEngine_return (pid : PID) st w : option (world * stack) :=
  goto (I_subscribe (Some pid) :: st) (set_deadletter (Some pid) w).

(** A value reaches the caller. *)
Definition return_step (v : val U) st w : option (world * stack) :=
  match st, v with
  | I_cont self k :: st, _ => goto (I_user self (k v) :: st) w
  | I_childOf i :: st, VPid (Some pid) => childOf_return i pid st w
  | I_requested ch to m :: st, VPid (Some resp) => requested_return ch to m resp st w
  | I_newEngine :: st, VPid (Some pid) => newEngine_return pid st w
  | (I_childOf _ | I_requested _ _ _ | I_newEngine) :: _, _ => None
  | _, _ => goto st w
  end.

(** ** Routing *)

Definition is_deadletter_event (m : msg U) : bool :=
  match m with DeadLetterEvent _ _ _ => true | _ => false end.

(** [Engine.sendMiss] *)
Definition sendMiss (pid : option PID) (m : msg U) (sender : option PID) st w
  : option (world * stack) :=
  if (match w_deadletter w with Some d => PID_Equals pid (Some d) | None => false end) then goto st w
  else if is_deadletter_event m then goto st w
  else goto (I_broadcast (DeadLetterEvent pid m sender) :: st) w.

Definition sendMessage (to : option PID) (m : msg U) (sender : option PID) st w
  : option (world * stack) :=
  match get to (w_registry w) with
  | None => sendMiss to m sender st w
  | Some h => if h_custom h then goto st w else goto (I_deliver (h_num h) (MkEnv m sender) :: st) w
  end.

(** [eventStream.broadcast]: the map is copied out under the lock, one
    [registry.get] at a time. *)
Definition broadcast pick (m : msg U) st w : option (world * stack) :=
  if w_subs_locked w then None
  else goto (I_scan m (iteration pick (map_to_list (w_subs w))) [] :: st) (set_subs_locked true w).

Definition scan (m : msg U) (todo : list (string * PID)) (live : list PID) st w
  : option (world * stack) :=
  match todo with
  | [] => goto (I_fanout m live :: st) (set_subs_locked false w)
  | (id, pid) :: todo =>
      let gone := match get (Some pid) (w_registry w) with None => true | Some _ => false end in
      let '(subs, live) := scan_step gone id pid (w_subs w, live) in
      goto (I_scan m todo live :: st) (set_subs subs w)
  end.

Definition fanout (m : msg U) (live : list PID) st w : option (world * stack) :=
  match live with
  | [] => goto st w
  | pid :: live => goto (I_sendMessage (Some pid) m None :: I_fanout m live :: st) w
  end.

(** ** Inboxes *)

Definition deliver i (env : Envelope U) st w : option (world * stack) :=
  goto (I_schedule i :: st) (upd_proc i (fun p => set_queue (p_queue p ++ [env]) p) w).

Definition inbox_schedule i st w : option (world * stack) :=
  p ← w_procs w !! i;
  if p_procStatus p =? stateIdle
  then goto st (go [I_load i] (upd_proc i (set_procStatus stateRunning) w))
  else goto st w.

Definition inbox_load i st w : option (world * stack) :=
  p ← w_procs w !! i;
  if p_procStatus p =? stateStopped then goto (I_park i :: st) w else goto (I_popN i :: st) w.

Definition inbox_popN i st w : option (world * stack) :=
  p ← w_procs w !! i;
  if negb (p_bound p) then None
  else
    let '(batch, ok) := popn_spec defaultThroughput (p_queue p) in
    if ok
    then goto (I_Invoke i batch :: I_load i :: st)
           (upd_proc i (set_queue (drop (Z.to_nat defaultThroughput) (p_queue p))) w)
    else goto (I_park i :: st) w.

Definition inbox_park i st w : option (world * stack) :=
  p ← w_procs w !! i;
  if p_procStatus p =? stateRunning
  then goto (I_len i :: st) (upd_proc i (set_procStatus stateIdle) w)
  else goto st w.

Definition inbox_len i st w : option (world * stack) :=
  p ← w_procs w !! i;
  if slen (p_queue p) =? 0 then goto st w else goto (I_reclaim i :: st) w.

Definition inbox_reclaim i st w : option (world * stack) :=
  p ← w_procs w !! i;
  if p_procStatus p =? stateIdle
  then goto (I_load i :: st) (upd_proc i (set_procStatus stateRunning) w)
  else goto st w.

(** ** Poison *)

Definition poison (pid : option PID) (c : nat) st w : option (world * stack) :=
  match get_process pid w with
  | None => goto (I_cancel c :: st) w
  | Some i => goto (I_addCancel i c :: st) w
  end.

Definition addCancel i (c : nat) st w : option (world * stack) :=
  p ← w_procs w !! i;
  if p_stopped p then goto (I_cancel c :: st) w
  else goto (I_deliver i (MkEnv (poisonPill c) None) :: st)
         (upd_proc i (fun p => set_cancels (p_cancels p ++ [c]) p) w).

(** ** Futures *)

(** The end of [Request]. *)
Definition newResponse (ch : nat) (resp : PID) st w : option (world * stack) :=
  let n := length (w_responses w) in
  goto (I_return (VResponse n) :: st)
    (go [I_await n] (set_responses (w_responses w ++ [MkResponse resp ch NilMsg false false]) w)).

(** The [select] of [await]: a reply, or the timer. *)
Definition await pick (n : nat) st w : option (world * stack) :=
  r ← w_responses w !! n;
  let st := I_poisonAndWait (r_pid r) :: I_closeDone n :: st in
  if Nat.even pick then
    match w_replyChs w !! r_replyCh r with
    | Some (Some m) =>
        goto st (upd_response n (fun r => MkResponse (r_pid r) (r_replyCh r) m (r_err r) (r_done r))
                   (set_replyChs (<[r_replyCh r := None]> (w_replyChs w)) w))
    | _ => None
    end
  else
    goto st (upd_response n (fun r => MkResponse (r_pid r) (r_replyCh r) (r_result r) true (r_done r)) w).

Definition closeDone (n : nat) st w : option (world * stack) :=
  r ← w_responses w !! n;
  if r_done r then None
  else goto st (upd_response n (fun r => MkResponse (r_pid r) (r_replyCh r) (r_result r) (r_err r) true) w).

(** ** Scheduled sends *)

Definition set_done (r : SendRepeater) : SendRepeater := MkRepeater (s_stop r) true (s_once r) (s_sent r).
Definition sent_once_more (r : SendRepeater) : SendRepeater :=
  MkRepeater (s_stop r) (s_done r) (s_once r) (S (s_sent r)).

Definition closeRepeater (n : nat) st w : option (world * stack) :=
  r ← w_repeaters w !! n;
  if s_done r then None else goto st (upd_repeater n set_done w).

(** [SendRepeat] after the immediate send. *)
Definition repeat_started (n : nat) (to : option PID) (m : msg U) (interval : Z) st w
  : option (world * stack) :=
  if interval <=? 0 then closeRepeater n (I_return (VRepeater n) :: st) w
  else goto (I_return (VRepeater n) :: st) (go [I_ticker n to m] w).

(** [e.Send(pid, msg)] *)
Definition send (n : nat) (to : option PID) (m : msg U) st w : option (world * stack) :=
  sendMessage to m None st (upd_repeater n sent_once_more w).

(** The [select]s of the two goroutines: the timer, or [stop]. *)
Definition ticker pick (n : nat) (to : option PID) (m : msg U) st w : option (world * stack) :=
  r ← w_repeaters w !! n;
  if Nat.even pick
  then goto (I_send n to m :: I_ticker n to m :: st) w
  else if s_stop r then goto (I_closeRepeater n :: st) w else None.

Definition timer pick (n : nat) (to : option PID) (m : msg U) st w : option (world * stack) :=
  r ← w_repeaters w !! n;
  if Nat.even pick
  then goto (I_send n to m :: I_closeRepeater n :: st) w
  else if s_stop r then goto (I_closeRepeater n :: st) w else None.

Definition waitRepeater (n : nat) st w : option (world * stack) :=
  r ← w_repeaters w !! n;
  if s_done r then goto st w else None.

(** ** Processes *)

Definition spawnProc i st w : option (world * stack) :=
  p ← w_procs w !! i;
  match getByID (ID (p_pid p)) (w_registry w) with
  | Some existing => goto (I_return (VPid (Some (h_PID existing))) :: st) w
  | None =>
      goto (I_Start i :: I_return (VPid (Some (p_pid p))) :: st) (upd_proc i (set_bound true) w)
  end.

Definition lifecycle i (m : msg U) : instr := I_invokeMsg i true (MkEnv m None).

(** [Start], up to its first delivery. *)
Definition Start i st w : option (world * stack) :=
  p ← w_procs w !! i;
  let '(r, w) := produce (Producer (p_opts p)) w in
  match buildChain (map u_wrap (o_Middleware (p_opts p))) (receive_of r) with
  | Ok h =>
      goto (lifecycle i Initialized :: I_broadcast (ActorInitializedEvent (p_pid p)) ::
            I_registerProcess i ::
            lifecycle i Started :: I_broadcast (ActorStartedEvent (p_pid p)) :: st)
        (upd_proc i (fun p => set_chain (Some h) (set_receiver (Some r) p)) w)
  | _ => None
  end.

Definition registerProcess i st w : option (world * stack) :=
  p ← w_procs w !! i;
  goto st (set_registry (add (handle_of i p) (w_registry w)).2 w).

Definition unregisterProcess i st w : option (world * stack) :=
  p ← w_procs w !! i;
  goto st (set_registry (remove (Some (p_pid p)) (w_registry w)) w).

(** [invokeMsg]: [withEnvelope], then the chain, or [Receive] without one. *)
Definition invokeMsg i (life : bool) (env : Envelope U) st w : option (world * stack) :=
  p ← w_procs w !! i;
  let w := set_log (w_log w ++ [MkDelivery i life env]) w in
  let w := upd_proc i (fun p => set_sender (Sender env) (set_message (Msg env) p)) w in
  match p_chain p, p_receiver p with
  | Some h, _ => goto (I_user (Some i) h :: st) w
  | None, Some r => goto (I_user (Some i) (receive_of r) :: st) w
  | None, None => goto (I_tryRestart i :: st) w
  end.

Definition tryRestart i st w : option (world * stack) :=
  p ← w_procs w !! i;
  if MaxRestarts (p_opts p) =? 0 then goto (I_Shutdown i :: st) w
  else
    let restarts := i32 (p_restarts p + 1) in
    let w := upd_proc i (set_restarts restarts) w in
    if MaxRestarts (p_opts p) <? restarts then goto (I_Shutdown i :: st) w
    else goto (I_broadcast (ActorRestartedEvent (p_pid p) restarts) :: I_Start i :: st) w.

Definition Shutdown i st w : option (world * stack) :=
  p ← w_procs w !! i;
  if p_stopped p then goto st w
  else
    goto (I_leaveParent i :: lifecycle i Stopped :: I_broadcast (ActorStoppedEvent (p_pid p)) ::
          I_unregister i :: I_inboxStop i :: I_cancels (p_cancels p) :: st)
      (upd_proc i (fun p => set_cancels [] (set_stopped true p)) w).

Definition leaveParent i st w : option (world * stack) :=
  p ← w_procs w !! i;
  match parent (p_opts p) with
  | None => goto st w
  | Some pa =>
      match get_process (Some pa) w with
      | Some j => goto (I_removeChild j (p_pid p) :: st) w
      | None => goto st w
      end
  end.

(** [Invoke] and [handlePoison]: what follows a pill in the batch is dropped. *)
Definition Invoke i (msgs : list (Envelope U)) st w : option (world * stack) :=
  match msgs with
  | [] => goto st w
  | env :: msgs =>
      match Msg env with
      | poisonPill c => goto (I_shutdownChildren i :: I_Shutdown i :: I_cancel c :: st) w
      | _ => goto (I_invokeMsg i false env :: I_Invoke i msgs :: st) w
      end
  end.

(** One goroutine per child; [wg.Wait()] waits for all of them. *)
Definition shutdownChildren pick i st w : option (world * stack) :=
  p ← w_procs w !! i;
  let pids := childPIDs pick p in
  let n := length (w_goroutines w) in
  goto (I_join (seq n (length pids)) :: st)
    (set_goroutines (w_goroutines w ++ map (fun pid => [I_poisonAndWait pid]) pids) w).

Definition all_done (gs : list nat) w : bool :=
  forallb (fun g => match w_goroutines w !! g with Some [] => true | _ => false end) gs.

(** ** One step *)

Definition instr_step pick ins st w : option (world * stack) :=
  match ins with
  | I_user self u => user_step pick self u st w
  | I_cont self k => None
  | I_return v => return_step v st w
  | I_sendMessage to m sender => sendMessage to m sender st w
  | I_deliver i env => deliver i env st w
  | I_schedule i => inbox_schedule i st w
  | I_broadcast m => broadcast pick m st w
  | I_scan m todo live => scan m todo live st w
  | I_fanout m live => fanout m live st w
  | I_poison pid c => poison pid c st w
  | I_addCancel i c => addCancel i c st w
  | I_cancel c => goto st (cancel c w)
  | I_cancels [] => goto st w
  | I_cancels (c :: cs) => goto (I_cancels cs :: st) (cancel c w)
  | I_wait c => if decide (c ∈ w_cancelled w) then goto st w else None
  | I_poisonAndWait pid =>
      let '(c, w) := WithCancel w in goto (I_poison (Some pid) c :: I_wait c :: st) w
  | I_requested _ _ _ => None
  | I_newResponse ch resp => newResponse ch resp st w
  | I_await n => await pick n st w
  | I_closeDone n => closeDone n st w
  | I_send n to m => send n to m st w
  | I_repeat n to m interval => repeat_started n to m interval st w
  | I_ticker n to m => ticker pick n to m st w
  | I_timer n to m => timer pick n to m st w
  | I_closeRepeater n => closeRepeater n st w
  | I_waitRepeater n => waitRepeater n st w
  | I_spawnProc i => spawnProc i st w
  | I_childOf i => None
  | I_addChild j pid =>
      goto st (addChild j pid w)
  | I_newEngine => None
  | I_subscribe pid =>
      if w_subs_locked w then None else goto st (set_subs (subscribe pid (w_subs w)) w)
  | I_addProc h => goto st (set_registry (add h (w_registry w)).2 w)
  | I_Start i => Start i st w
  | I_registerProcess i => registerProcess i st w
  | I_invokeMsg i life env => invokeMsg i life env st w
  | I_tryRestart i => tryRestart i st w
  | I_Shutdown i => Shutdown i st w
  | I_leaveParent i => leaveParent i st w
  | I_removeChild j pid =>
      goto st (removeChild j pid w)
  | I_unregister i => unregisterProcess i st w
  | I_inboxStop i => goto st (upd_proc i (set_procStatus stateStopped) w)
  | I_Invoke i msgs => Invoke i msgs st w
  | I_shutdownChildren i => shutdownChildren pick i st w
  | I_join gs => if all_done gs w then goto st w else None
  | I_load i => inbox_load i st w
  | I_popN i => inbox_popN i st w
  | I_park i => inbox_park i st w
  | I_len i => inbox_len i st w
  | I_reclaim i => inbox_reclaim i st w
  end.

Inductive act :=
  | A_step (g pick : nat)       (* goroutine g takes its next step *)
  | A_go (u : prog).            (* code outside of every actor starts running *)

(** [NewEngine] has returned: it ran on goroutine 0. *)
Definition engine_ready w : bool := all_done [0%nat] w.

Definition step (a : act) w : option world :=
  match a with
  | A_step g pick =>
      st ← w_goroutines w !! g;
      match st with
      | [] => None
      | ins :: st =>
          r ← instr_step pick ins st w;
          Some (set_goroutines (<[g := r.2]> (w_goroutines r.1)) r.1)
      end
  | A_go u => if engine_ready w then Some (go [I_user None u] w) else None
  end.

(** [EngineConfig]; no producer is the default dead-letter actor. *)
Record EngineConfig := MkConfig { deadletter : option Pr }.

Definition NewEngineConfig : EngineConfig := MkConfig None.
Definition WithDeadletter (p : option Pr) (c : EngineConfig) : EngineConfig := MkConfig p.

(** [NewEngine]: the dead-letter actor is being spawned, under the package-level
    counters as earlier engines left them. *)
Definition NewEngine (cfg : EngineConfig) (pidCounter childIDCounter : Z) : world :=
  let w := MkWorld newRegistry newEventStream false None [] pidCounter childIDCounter 0 ∅
             [] [] [] [] [] [] in
  let '(n, w) := spawn (from_option P_user P_deadletter (deadletter cfg)) "deadletter" [Opts.O_ID "deadletter"] w in
  set_goroutines [[I_spawnProc n; I_newEngine]] w.
End engine.

Arguments MkConfig {Pr}.
Arguments deadletter {Pr}.
Arguments NewEngineConfig {Pr}.
Arguments WithDeadletter {Pr}.
