(* ===== verification/Accounting.v ===== *)
(** * Accounting over goroutine stacks

    Invariants of the engine are equations between what the shared state
    records and what the instructions on the goroutines' stacks still have to
    do.  [total f] adds up a weight over every instruction of every stack; a
    step replaces one instruction, so an invariant is checked one instruction
    at a time. *)

From S2P Require Import Prelude RingBuffer Inbox Pid Middleware Opts Registry EventStream World Engine.

(** ** Case analysis on one step *)

(** Unfold the instruction's definition and split its tests. *)
Ltac step_instr H :=
  unfold user_step, context_call, engine_call, answer, return_step, childOf_return, requested_return, newEngine_return, produce, send,
    sendMessage, sendMiss,
    broadcast, scan, fanout, deliver, inbox_schedule, inbox_load, inbox_popN, inbox_park, inbox_len,
    inbox_reclaim, poison, addCancel, addChild, removeChild, send_repeat, SendAfter, Request, Result, stop_once, offer, newResponse, await, closeDone,
    repeat_started, closeRepeater, ticker, timer, waitRepeater, spawnProc, Start, registerProcess, unregisterProcess, invokeMsg,
    tryRestart, Shutdown, leaveParent, Invoke, shutdownChildren, goto, WithCancel, spawn, spawn_child,
    newProcess in H;
  repeat (simplify_option_eq; try case_match; simplify_eq/=;
    try match type of H with (?x ≫= _) = Some _ => is_var x; destruct x; [|discriminate H] end).

Section accounting.
Context {U RS Pr M : Type} `{!UserCode U RS Pr M}.
Notation world := (world U RS Pr M).
Notation process := (process U RS Pr M).
Notation instr := (instr U RS Pr M).
Notation stack := (list instr).
Implicit Types (ps : list process) (w : world) (p : process) (ins : instr) (st : stack) (f : instr -> nat) (i j g pick : nat).

Definition weight_of f (gs : list stack) : nat := sum_list_with (sum_list_with f) gs.
Definition total f w : nat := weight_of f (w_goroutines w).

Lemma weight_of_app f gs gs' : weight_of f (gs ++ gs') = (weight_of f gs + weight_of f gs')%nat.
Proof. apply sum_list_with_app. Qed.

Lemma weight_of_insert f gs g st st' :
  gs !! g = Some st ->
  (weight_of f (<[g:=st']> gs) + sum_list_with f st = weight_of f gs + sum_list_with f st')%nat.
Proof. apply sum_list_insert. Qed.

Lemma weight_of_lookup f gs g st : gs !! g = Some st -> (sum_list_with f st <= weight_of f gs)%nat.
Proof.
  intros Hg. pose proof (weight_of_insert f gs g st [] Hg) as H. simpl in H. lia.
Qed.

Lemma weight_of_pos f gs : weight_of f gs <> 0%nat ->
  exists g st, gs !! g = Some st /\ (1 <= sum_list_with f st)%nat.
Proof.
  unfold weight_of. induction gs as [|st gs IH]; simpl; [done|]. intros Hn.
  destruct (decide (sum_list_with f st = 0%nat)) as [E|E]; [|exists 0%nat, st; split; [done|lia]].
  destruct IH as (g & st' & ? & ?); [lia|]. by exists (S g), st'.
Qed.

Lemma total_go f st w : total f (go st w) = (total f w + sum_list_with f st)%nat.
Proof. unfold total, go. simpl. rewrite weight_of_app. unfold weight_of. simpl. lia. Qed.

Lemma weight_of_map {A} f (h : A -> stack) (n : nat) (l : list A) :
  (forall x, sum_list_with f (h x) = n) -> weight_of f (map h l) = (n * length l)%nat.
Proof. intros Hn. induction l as [|x l IH]; unfold weight_of in *; simpl; [lia|]. rewrite IH, Hn. lia. Qed.

(** A step only adds goroutines; the others keep their stacks. *)
Lemma instr_step_goroutines pick ins st w r :
  instr_step pick ins st w = Some r -> exists new, w_goroutines r.1 = w_goroutines w ++ new.
Proof.
  intros H. assert (forall w0 : world, exists new : list stack, w_goroutines w0 = w_goroutines w0 ++ new) as Hn.
  { intros w0. exists []. by rewrite app_nil_r. }
  destruct ins; simpl in H; step_instr H; simpl; eauto.
Qed.

Lemma step_inv g pick w w' :
  step (A_step g pick) w = Some w' ->
  exists ins st r, w_goroutines w !! g = Some (ins :: st) /\
    instr_step pick ins st w = Some r /\
    w' = set_goroutines (<[g := r.2]> (w_goroutines r.1)) r.1.
Proof.
  intros H. simpl in H. destruct (w_goroutines w !! g) as [[|ins st]|] eqn:Eg; simplify_eq/=.
  destruct (instr_step pick ins st w) as [r|] eqn:Er; simplify_eq/=. eauto 10.
Qed.

(** The weight of the whole, before and after a step. *)
Lemma step_total f g pick w ins st r :
  w_goroutines w !! g = Some (ins :: st) -> instr_step pick ins st w = Some r ->
  (total f (set_goroutines (<[g := r.2]> (w_goroutines r.1)) r.1) + (f ins + sum_list_with f st) =
   total f r.1 + sum_list_with f r.2)%nat.
Proof.
  intros Hg Hr. destruct (instr_step_goroutines _ _ _ _ _ Hr) as [new Hnew].
  unfold total. simpl. apply (weight_of_insert f (w_goroutines r.1) g (ins :: st)).
  rewrite Hnew. by apply lookup_app_l_Some.
Qed.

Lemma weight_of_map_zero {A} f (h : A -> stack) (l : list A) :
  (forall x, sum_list_with f (h x) = 0%nat) -> weight_of f (map h l) = 0%nat.
Proof. intros Hn. by rewrite (weight_of_map f h 0). Qed.
End accounting.

(** ** A field of a process, of a response, of a repeater *)

Section field.
Context {T : Type}.
Implicit Types (ps : list T) (p : T) (i j : nat).

Definition pget {A} (sel : T -> A) (d : A) i ps : A :=
  match ps !! i with Some p => sel p | None => d end.

Lemma pget_some {A} (sel : T -> A) d i ps p : ps !! i = Some p -> pget sel d i ps = sel p.
Proof. unfold pget. by intros ->. Qed.

Lemma pget_alter {A} (sel : T -> A) d i j (h : T -> T) ps :
  pget sel d i (alter h j ps) =
  if decide (i = j) then match ps !! i with Some p => sel (h p) | None => d end else pget sel d i ps.
Proof.
  unfold pget. case_decide as E; [subst j|].
  - rewrite list_lookup_alter_eq. by destruct (ps !! i).
  - by rewrite list_lookup_alter_ne.
Qed.

Lemma pget_alter_eq {A} (sel : T -> A) d i (h : T -> T) ps p :
  ps !! i = Some p -> pget sel d i (alter h i ps) = sel (h p).
Proof. intros Hp. rewrite pget_alter, decide_True by done. by rewrite Hp. Qed.

Lemma pget_alter_ne {A} (sel : T -> A) d i j (h : T -> T) ps :
  i <> j -> pget sel d i (alter h j ps) = pget sel d i ps.
Proof. intros Hn. by rewrite pget_alter, decide_False. Qed.

Lemma pget_none {A} (sel : T -> A) d i ps : ps !! i = None -> pget sel d i ps = d.
Proof. unfold pget. by intros ->. Qed.

Lemma alter_none i (h : T -> T) ps : ps !! i = None -> alter h i ps = ps.
Proof.
  revert i. induction ps as [|q ps IH]; intros [|i] Hp; simplify_eq/=; [done..|].
  f_equal. by apply IH.
Qed.

Lemma pget_keep {A} (sel : T -> A) d i j (h : T -> T) ps :
  (forall p, sel (h p) = sel p) -> pget sel d i (alter h j ps) = pget sel d i ps.
Proof.
  intros Hh. rewrite pget_alter. case_decide as E; [|done]. unfold pget. by destruct (ps !! i).
Qed.

Lemma pget_new {A} (sel : T -> A) d i ps p : sel p = d -> pget sel d i (ps ++ [p]) = pget sel d i ps.
Proof.
  intros Hp. unfold pget. destruct (decide (i < length ps)%nat) as [Hi|Hi].
  - by rewrite lookup_app_l.
  - rewrite (lookup_ge_None_2 ps) by lia. destruct (decide (i = length ps)) as [->|Hn].
    + by rewrite lookup_app_r, Nat.sub_diag by lia.
    + by rewrite lookup_ge_None_2 by (rewrite length_app; simpl; lia).
Qed.

Lemma sum_alter (f : T -> nat) j (h : T -> T) ps p :
  ps !! j = Some p ->
  (sum_list_with f (alter h j ps) + f p = sum_list_with f ps + f (h p))%nat.
Proof.
  revert j. induction ps as [|q ps IH]; intros [|j] Hp; simplify_eq/=; [lia|].
  specialize (IH j Hp). lia.
Qed.

Lemma sum_alter_keep (f : T -> nat) j (h : T -> T) ps :
  (forall p, f (h p) = f p) -> sum_list_with f (alter h j ps) = sum_list_with f ps.
Proof.
  intros Hh. revert j. induction ps as [|q ps IH]; intros [|j]; simpl; try done.
  - by rewrite Hh.
  - f_equal. apply IH.
Qed.
End field.

(** ** Indicator weights *)

Definition b2n (b : bool) : nat := if b then 1 else 0.
Definition eqn (i j : nat) : nat := if decide (i = j) then 1 else 0.

Lemma eqn_refl i : eqn i i = 1%nat.
Proof. unfold eqn. by rewrite decide_True. Qed.

Lemma eqn_ne i j : i <> j -> eqn i j = 0%nat.
Proof. intros. unfold eqn. by rewrite decide_False. Qed.

Lemma eqn_le i j : (eqn i j <= 1)%nat.
Proof. unfold eqn. case_decide; lia. Qed.

(** One step of a goroutine, [H : step (A_step g pick) w = Some w']: name the
    instruction, balance one or more weights over the step, then look at each
    branch of each instruction. *)
Ltac step_open H :=
  let ins := fresh "ins" in let st := fresh "st" in let r := fresh "r" in
  let Hg := fresh "Hg" in let Hr := fresh "Hr" in
  apply step_inv in H as (ins & st & r & Hg & Hr & ->).

Ltac balance f :=
  match goal with
  | Hg : w_goroutines _ !! _ = Some _, Hr : instr_step _ _ _ _ = Some _ |- _ =>
      let Ht := fresh "Ht" in pose proof (step_total f _ _ _ _ _ _ Hg Hr) as Ht;
      let Hle := fresh "Hle" in pose proof (weight_of_lookup f _ _ _ Hg) as Hle
  end.

Ltac step_split :=
  unfold total in *;
  match goal with
  | Hr : instr_step _ ?ins _ _ = Some _ |- _ => destruct ins; simpl in Hr; step_instr Hr
  end; simpl in *;
  rewrite ?weight_of_app, ?sum_list_with_app, ?pget_keep, ?pget_new, ?sum_alter_keep in * by done;
  rewrite ?weight_of_map_zero in * by done; simpl in *; try lia.

Ltac account H f := step_open H; balance f; step_split.

(** Code outside of the actors starts. *)
Ltac account_go H :=
  simpl in H; destruct (engine_ready _) eqn:?; [injection H as <-|discriminate H];
  rewrite ?total_go; simpl in *; try lia.

(** Is process [i] the one the instruction works on, [j]?  [H] is its lookup. *)
Ltac at_process i j H :=
  destruct (decide (i = j)) as [->|?];
  [rewrite ?eqn_refl in *; rewrite ?(pget_alter_eq _ _ _ _ _ _ H) in *; rewrite ?(pget_some _ _ _ _ _ H) in *
  |rewrite ?eqn_ne in * by done; rewrite ?pget_alter_ne in * by done]; simpl in *.
