(* ===== verification/Teardown.v ===== *)
(** * Teardown

    What [Shutdown], [addCancel] and [Poison] promise: one Stopped per process,
    and no Poison waiter left behind. *)

From S2P Require Import Prelude RingBuffer Inbox Pid Middleware Opts Registry EventStream World Engine Accounting.

Section teardown.
Context {U RS Pr M : Type} `{!UserCode U RS Pr M}.
Notation world := (world U RS Pr M).
Notation process := (process U RS Pr M).
Notation instr := (instr U RS Pr M).
Notation stack := (list instr).
Implicit Types (w : world) (p : process) (ins : instr) (st : stack) (i j g pick c : nat).
Implicit Types (ps : list process).

(** ** Stopped is delivered once *)

Definition is_Stopped (m : msg U) : bool := match m with Stopped => true | _ => false end.

(** The delivery of Stopped that [Shutdown] still has to make. *)
Definition stop_pending i ins : nat :=
  match ins with
  | I_invokeMsg j true env => eqn i j * b2n (is_Stopped (Msg env))
  | _ => 0
  end.

(** The deliveries made. *)
Definition stop_logged i (d : delivery U) : nat :=
  eqn i (d_proc d) * b2n (d_lifecycle d && is_Stopped (Msg (d_env d))).

Definition stops i w : nat := sum_list_with (stop_logged i) (w_log w).

Definition stop_inv i w : Prop :=
  (stops i w + total (stop_pending i) w = b2n (pget p_stopped false i (w_procs w)))%nat.

Lemma stop_logged_eq i j life (env : Envelope U) :
  stop_logged i (MkDelivery j life env) = (eqn i j * b2n (life && is_Stopped (Msg env)))%nat.
Proof. done. Qed.

Lemma stop_inv_step i a w w' : stop_inv i w -> step a w = Some w' -> stop_inv i w'.
Proof.
  unfold stop_inv, stops. intros Hi H. destruct a as [g pick|u]; [|account_go H].
  account H (stop_pending i); rewrite ?stop_logged_eq; simpl; try lia.
  (* Shutdown *)
  revert Ht. rewrite pget_alter. unfold eqn.
  destruct (decide (i = _)) as [->|Hn]; intros Ht; [|lia].
  erewrite pget_some in Hi by done. simplify_option_eq.
  match goal with E : p_stopped _ = false |- _ => rewrite E in Hi end. simpl in *. lia.
Qed.

(** ** No Poison waiter is forgotten *)

Definition occurs c (cs : list nat) : nat := sum_list_with (eqn c) cs.

(** A goroutine about to register or to fire the cancel of context [c]. *)
Definition holds c ins : nat :=
  match ins with
  | I_poison _ c' | I_addCancel _ c' | I_cancel c' => eqn c c'
  | I_cancels cs => occurs c cs
  | _ => 0
  end.

(** A process that has not stopped and will fire it. *)
Definition registered c p : nat := if p_stopped p then 0 else occurs c (p_cancels p).

Definition waiter_inv c w : Prop :=
  (c < w_ctxs w)%nat -> c ∈ w_cancelled w \/
  (1 <= total (holds c) w + sum_list_with (registered c) (w_procs w))%nat.

(** Firing [c'] fires [c] or leaves it where it was. *)
Lemma waiter_cancel c c' (s : gset nat) (n n' : nat) :
  (c ∈ s \/ (1 <= n)%nat) -> (n <= n' + eqn c c')%nat -> c ∈ {[c']} ∪ s \/ (1 <= n')%nat.
Proof.
  intros H Hn. destruct (decide (c = c')) as [->|Hc]; [left; set_solver|].
  rewrite eqn_ne in Hn by done. destruct H; [left; set_solver|right; lia].
Qed.

(** A context that has just been made is held. *)
Lemma waiter_new c (m : nat) (s : gset nat) (n n' : nat) :
  ((c < m)%nat -> c ∈ s \/ (1 <= n)%nat) -> (c < S m)%nat -> (n + eqn c m <= n')%nat ->
  c ∈ s \/ (1 <= n')%nat.
Proof.
  intros H Hc Hn. destruct (decide (c = m)) as [->|Hm]; [rewrite eqn_refl in Hn; right; lia|].
  destruct H; [lia|by left|right; lia].
Qed.

Lemma waiter_keep c (s : gset nat) (n n' : nat) :
  (c ∈ s \/ (1 <= n)%nat) -> (n <= n')%nat -> c ∈ s \/ (1 <= n')%nat.
Proof. intros [?|?] ?; [by left|right; lia]. Qed.

Lemma occurs_app c cs cs' : occurs c (cs ++ cs') = (occurs c cs + occurs c cs')%nat.
Proof. apply sum_list_with_app. Qed.

Lemma waiter_inv_step c a w w' : waiter_inv c w -> step a w = Some w' -> waiter_inv c w'.
Proof.
  unfold waiter_inv. intros Hi H Hc. destruct a as [g pick|u].
  2: { account_go H. apply (waiter_keep _ _ _ _ (Hi Hc)). lia. }
  account H (holds c);
    first [ apply (waiter_keep _ _ _ _ (Hi Hc)); lia
          | apply (waiter_new _ _ _ _ _ Hi Hc); lia
          | apply (waiter_cancel _ _ _ _ _ (Hi Hc)); lia
          | apply (waiter_keep _ _ _ _ (Hi Hc)) ].
  - (* addCancel *)
    pose proof (sum_alter (registered c) i (fun p => set_cancels (p_cancels p ++ [c0]) p) _ _ Heqo) as Hs.
    unfold registered in Hs at 2 4. simpl in Hs. rewrite occurs_app in Hs. simpl in Hs.
    destruct (p_stopped _); [done|]. unfold occurs in *. simpl in Hs. lia.
  - (* Shutdown *)
    pose proof (sum_alter (registered c) i (fun p => set_cancels [] (set_stopped true p)) _ _ Heqo) as Hs.
    unfold registered in Hs at 2 4. simpl in Hs. destruct (p_stopped _); [done|]. lia.
Qed.
End teardown.
