(* ===== verification/Scheduling.v ===== *)
(** * The scheduling of the processes' inboxes

    For every process: the status word, the goroutines that own or will revisit
    its queue, the pills on their way to it.  Together with [Teardown] this
    shows that a settled engine has released every Poison waiter. *)

From S2P Require Import Prelude RingBuffer Inbox Pid Middleware Opts Registry EventStream.
From S2P Require Import World Engine Accounting Teardown.

(** Status, queue, owners, wakers. *)
Definition sched_ok {A} (s : Z) (q : list A) (ow wk : nat) : Prop :=
  (s = stateIdle /\ ow = 0%nat /\ (q = [] \/ (1 <= wk)%nat)) \/
  (s = stateRunning /\ ow = 1%nat) \/ (s = stateStopped /\ (ow <= 1)%nat).

Lemma sched_keep {A} s (q : list A) ow wk ow' wk' :
  sched_ok s q ow wk -> ow' = ow -> (wk <= wk')%nat -> sched_ok s q ow' wk'.
Proof. unfold sched_ok. intros H -> Hw. intuition lia. Qed.

(** Cases of [sched_ok], with the tests reflected. *)
Ltac sched_done Hi :=
  first [apply (sched_keep _ _ _ _ _ _ Hi); lia
        |reflect_bools; unfold sched_ok, stateIdle, stateRunning, stateStopped in *; intuition lia].

Section scheduling.
Context {U RS Pr M : Type} `{!UserCode U RS Pr M}.
Notation world := (world U RS Pr M).
Notation process := (process U RS Pr M).
Notation instr := (instr U RS Pr M).
Notation stack := (list instr).
Implicit Types (w : world) (p : process) (ins : instr) (st : stack) (i j g pick c : nat).
Implicit Types (ps : list process).

(** ** The scheduling of one inbox *)

(** The goroutine that owns the queue of [i]; one inside [Invoke] has an
    [I_load] waiting below. *)
Definition owns i ins : nat :=
  match ins with I_load j | I_popN j | I_park j => eqn i j | _ => 0 end.

(** Goroutines that will look at the queue of [i] again. *)
Definition wakes i ins : nat :=
  match ins with I_schedule j | I_len j | I_reclaim j => eqn i j | _ => 0 end.

Definition sched_inv i w : Prop :=
  sched_ok (pget p_procStatus stateIdle i (w_procs w)) (pget p_queue [] i (w_procs w))
    (total (owns i) w) (total (wakes i) w).

Lemma slen_zero {A} (l : list A) : (slen l =? 0) = true -> l = [].
Proof. unfold slen. destruct l; simpl; [done|lia]. Qed.

Lemma sched_inv_step i a w w' : sched_inv i w -> step a w = Some w' -> sched_inv i w'.
Proof.
  unfold sched_inv. intros Hi H. destruct a as [g pick|u].
  2: { account_go H. by rewrite !Nat.add_0_r. }
  step_open H. balance (owns i). balance (wakes i). step_split;
    try (apply (sched_keep _ _ _ _ _ _ Hi); lia).
  - (* deliver *)
    destruct (w_procs w !! i0) as [p|] eqn:Hp.
    + at_process i i0 Hp; sched_done Hi.
    + rewrite alter_none by done. sched_done Hi.
  - (* schedule, idle *) at_process i i0 Heqo; sched_done Hi.
  - (* schedule *) at_process i i0 Heqo; sched_done Hi.
  - (* inboxStop *)
    destruct (w_procs w !! i0) as [p|] eqn:Hp.
    + at_process i i0 Hp; sched_done Hi.
    + rewrite alter_none by done. sched_done Hi.
  - (* popN *) at_process i i0 Heqo; sched_done Hi.
  - (* park, running *) at_process i i0 Heqo; sched_done Hi.
  - (* park *) at_process i i0 Heqo; sched_done Hi.
  - (* len *) at_process i i0 Heqo; [apply slen_zero in H0; rewrite H0 in *|]; sched_done Hi.
  - (* reclaim, idle *) at_process i i0 Heqo; sched_done Hi.
  - (* reclaim *) at_process i i0 Heqo; sched_done Hi.
Qed.
End scheduling.
