(* ===== verification/Settled.v ===== *)
(** * A settled engine has released every Poison waiter

    The pills on their way to a process, and the theorem that follows from the
    accounting of [Teardown] and [Scheduling]: when no goroutine is left, every
    context that Poison has handed out is cancelled. *)

From S2P Require Import Prelude RingBuffer Inbox Pid Middleware Opts Registry EventStream.
From S2P Require Import World Engine Accounting Teardown Scheduling.

Section settled.
Context {U RS Pr M : Type} `{!UserCode U RS Pr M}.
Notation world := (world U RS Pr M).
Notation process := (process U RS Pr M).
Notation instr := (instr U RS Pr M).
Notation stack := (list instr).
Implicit Types (w : world) (p : process) (ins : instr) (st : stack) (i j g pick c : nat).
Implicit Types (ps : list process).

(** ** Only a stopped process has a stopped inbox *)

Definition closes i ins : nat := match ins with I_inboxStop j => eqn i j | _ => 0 end.

Definition status_inv i w : Prop :=
  pget p_stopped false i (w_procs w) = false ->
  pget p_procStatus stateIdle i (w_procs w) <> stateStopped /\ total (closes i) w = 0%nat.

Lemma status_inv_step i a w w' : status_inv i w -> step a w = Some w' -> status_inv i w'.
Proof.
  unfold status_inv. intros Hi H. destruct a as [g pick|u].
  2: { account_go H. by rewrite Nat.add_0_r. }
  step_open H. balance (closes i). step_split; intros Hs; try (destruct (Hi Hs); split; [done|lia]).
  - (* schedule *) at_process i i0 Heqo; destruct (Hi Hs); split; done || lia.
  - (* Shutdown *) at_process i i0 Heqo; [done|]. destruct (Hi Hs); split; done || lia.
  - (* inboxStop *)
    destruct (Hi Hs) as [Hst Hc]. destruct (decide (i = i0)) as [->|Hn].
    + rewrite eqn_refl in *. lia.
    + rewrite eqn_ne, pget_alter_ne in * by done. split; [done|lia].
  - (* park *) at_process i i0 Heqo; destruct (Hi Hs); split; done || lia.
  - (* reclaim *) at_process i i0 Heqo; destruct (Hi Hs); split; done || lia.
Qed.

Lemma popn_batch {A} n (l b : list A) : popn_spec n l = (b, true) -> take (Z.to_nat n) l = b.
Proof. unfold popn_spec. by destruct (_ || _); intros [= <-]. Qed.

(** ** A process with waiters has a pill coming *)

Definition is_pill (m : msg U) : bool := match m with poisonPill _ => true | _ => false end.
Definition pills (l : list (Envelope U)) : nat := sum_list_with (fun env => b2n (is_pill (Msg env))) l.

Lemma pills_app l l' : pills (l ++ l') = (pills l + pills l')%nat.
Proof. apply sum_list_with_app. Qed.

Definition carries i ins : nat :=
  match ins with
  | I_deliver j env => eqn i j * b2n (is_pill (Msg env))
  | I_Invoke j msgs => eqn i j * pills msgs
  | I_Shutdown j => eqn i j
  | _ => 0
  end.

Definition pill_inv i w : Prop :=
  pget p_stopped false i (w_procs w) = true \/ pget p_cancels [] i (w_procs w) = [] \/
  (1 <= total (carries i) w + pills (pget p_queue [] i (w_procs w)))%nat.

Lemma pill_keep (s : bool) (cs : list nat) (n n' : nat) :
  s = true \/ cs = [] \/ (1 <= n)%nat -> (n <= n')%nat -> s = true \/ cs = [] \/ (1 <= n')%nat.
Proof. intuition lia. Qed.

Lemma pill_inv_step i a w w' : pill_inv i w -> step a w = Some w' -> pill_inv i w'.
Proof.
  unfold pill_inv. intros Hi H. destruct a as [g pick|u].
  2: { account_go H. by rewrite Nat.add_0_r. }
  step_open H. balance (carries i). step_split; try (apply (pill_keep _ _ _ _ Hi); lia).
  - (* deliver *)
    destruct (w_procs w !! i0) as [p|] eqn:Hp.
    + at_process i i0 Hp; [|apply (pill_keep _ _ _ _ Hi); lia].
      apply (pill_keep _ _ _ _ Hi). rewrite pills_app. simpl. unfold pills in *. simpl. lia.
    + rewrite alter_none by done. destruct (decide (i = i0)) as [->|Hn].
      * right; left. by apply pget_none.
      * rewrite eqn_ne in * by done. apply (pill_keep _ _ _ _ Hi). lia.
  - (* addCancel *)
    at_process i i0 Heqo; [right; right; lia|]. apply (pill_keep _ _ _ _ Hi). lia.
  - (* Shutdown, stopped already *)
    at_process i i0 Heqo; [by left|]. apply (pill_keep _ _ _ _ Hi). lia.
  - (* Shutdown *)
    at_process i i0 Heqo; [by left|]. apply (pill_keep _ _ _ _ Hi). lia.
  - (* Invoke, a pill *)
    destruct (decide (i = i0)) as [->|Hn]; [rewrite eqn_refl in *; right; right; lia|].
    rewrite eqn_ne in * by done. apply (pill_keep _ _ _ _ Hi). lia.
  - (* popN *)
    assert (pills (p_queue H) = pills l + pills (drop (Z.to_nat defaultThroughput) (p_queue H)))%nat as Hq.
    { rewrite <- (popn_batch _ _ _ H1), <- pills_app. by rewrite take_drop. }
    at_process i i0 Heqo; apply (pill_keep _ _ _ _ Hi); lia.
Qed.

(** ** Reachable worlds *)

Definition settled_inv w : Prop :=
  forall i, (stop_inv i w /\ waiter_inv i w) /\ sched_inv i w /\ status_inv i w /\ pill_inv i w.

Lemma settled_inv_step a w w' : settled_inv w -> step a w = Some w' -> settled_inv w'.
Proof.
  intros Hi H i. destruct (Hi i) as ((? & ?) & ? & ? & ?).
  split_and!; eauto using stop_inv_step, waiter_inv_step, sched_inv_step, status_inv_step, pill_inv_step.
Qed.

Lemma settled_inv_new cfg pc cc : settled_inv (NewEngine cfg pc cc).
Proof.
  intros i. unfold stop_inv, waiter_inv, sched_inv, status_inv, pill_inv, pget.
  simpl. split_and!; destruct i as [|i]; simpl; unfold sched_ok; auto; try done; lia.
Qed.

(** Everything an engine can do, from [NewEngine] on. *)
Definition engine_reaches cfg pc cc w : Prop := reachable step (NewEngine cfg pc cc) w.

Lemma settled_inv_reachable cfg pc cc w : engine_reaches cfg pc cc w -> settled_inv w.
Proof.
  apply reachable_invariant; [intros a w1 w2; apply settled_inv_step|apply settled_inv_new].
Qed.

(** No goroutine is left. *)
Definition settled w : Prop := forall g st, w_goroutines w !! g = Some st -> st = [].

Lemma settled_total f w : settled w -> total f w = 0%nat.
Proof.
  unfold settled, total, weight_of. intros Hs. induction (w_goroutines w) as [|st gs IH]; simpl; [done|].
  rewrite (Hs 0%nat st eq_refl). simpl. apply IH. intros g. apply (Hs (S g)).
Qed.

Lemma settled_queue i w : settled_inv w -> settled w ->
  pget p_stopped false i (w_procs w) = true \/
  pget p_procStatus stateIdle i (w_procs w) = stateIdle /\ pget p_queue [] i (w_procs w) = [].
Proof.
  intros Hi Hs. destruct (Hi i) as (_ & Hsch & Hst & _).
  unfold sched_inv, status_inv in *. rewrite !settled_total in * by done.
  destruct (pget p_stopped false i (w_procs w)); [by left|right].
  destruct (Hst eq_refl) as [Hns _]. unfold sched_ok in Hsch. intuition lia.
Qed.

Lemma registered_none c ps : sum_list_with (registered c) ps <> 0%nat ->
  exists i, pget p_stopped false i ps = false /\ pget p_cancels [] i ps <> [] /\ (i < length ps)%nat.
Proof.
  induction ps as [|p ps IH]; simpl; [done|]. intros H.
  destruct (decide (registered c p = 0%nat)) as [E|E].
  - destruct IH as (i & ? & ? & ?); [lia|]. exists (S i). split_and!; [done..|lia].
  - exists 0%nat. unfold registered, pget in *. simpl. destruct (p_stopped p); [done|].
    split_and!; [done| |lia]. intros E2. by rewrite E2 in E.
Qed.

(** ** Properties *)

(** C10: [Shutdown] delivers Stopped at most once to a process, however many
    pills, panics and restarts it goes through, and never before the process
    has claimed its stopped flag. *)
Theorem stopped_at_most_once cfg pc cc w i :
  engine_reaches cfg pc cc w ->
  (stops i w <= 1)%nat /\ (pget p_stopped false i (w_procs w) = false -> stops i w = 0%nat).
Proof.
  intros H. destruct (settled_inv_reachable _ _ _ _ H i) as ((Hs & _) & _).
  unfold stop_inv in Hs. destruct (pget p_stopped false i (w_procs w)); simpl in Hs; split; (done || lia).
Qed.

(** No Poison waiter is ever forgotten: a context that is not cancelled is
    in the hands of a goroutine that will register or fire it, or registered
    with a process that has not stopped. *)
Theorem waiter_never_lost cfg pc cc w c :
  engine_reaches cfg pc cc w -> (c < w_ctxs w)%nat -> c ∉ w_cancelled w ->
  (1 <= total (holds c) w)%nat \/
  exists i p, w_procs w !! i = Some p /\ p_stopped p = false /\ c ∈ p_cancels p.
Proof.
  intros H Hc Hn. destruct (settled_inv_reachable _ _ _ _ H c) as ((_ & Hw) & _).
  destruct (Hw Hc) as [?|Hw']; [done|].
  destruct (decide (total (holds c) w = 0%nat)) as [E|E]; [right|left; lia].
  assert (sum_list_with (registered c) (w_procs w) <> 0%nat) as Hr by lia. clear -Hr.
  induction (w_procs w) as [|p ps IH]; simpl in Hr; [done|].
  destruct (decide (registered c p = 0%nat)) as [E|E].
  - destruct IH as (i & q & ? & ? & ?); [lia|]. by exists (S i), q.
  - exists 0%nat, p. unfold registered in E. destruct (p_stopped p); [done|].
    split_and!; [done..|]. unfold occurs in E. clear -E. induction (p_cancels p) as [|c' cs IH]; simpl in E; [done|].
    destruct (decide (c = c')) as [->|Hn]; [by left|]. right. apply IH. rewrite eqn_ne in E by done. lia.
Qed.

(** C1: when every goroutine has finished, every context that Poison,
    PoisonAfter or the cascade to children ever made is cancelled: nobody is
    left waiting on a stop that will not happen. *)
Theorem settled_waiters_released cfg pc cc w c :
  engine_reaches cfg pc cc w -> settled w -> (c < w_ctxs w)%nat -> c ∈ w_cancelled w.
Proof.
  intros H Hs Hc. pose proof (settled_inv_reachable _ _ _ _ H) as Hi.
  destruct (Hi c) as ((_ & Hw) & _). destruct (Hw Hc) as [?|Hw']; [done|].
  rewrite settled_total in Hw' by done.
  destruct (registered_none c (w_procs w)) as (i & Hst & Hcs & _); [lia|].
  destruct (settled_queue i w Hi Hs) as [Hq|[_ Hq]]; [congruence|].
  destruct (Hi i) as (_ & _ & _ & Hp). unfold pill_inv in Hp.
  rewrite settled_total, Hq in Hp by done. unfold pills in Hp. simpl in Hp.
  destruct Hp as [?|[?|?]]; [congruence|done|lia].
Qed.

(** When every goroutine has finished, the mailbox of every process that
    has not stopped is idle and empty: nothing accepted is left undelivered. *)
Theorem settled_mailboxes_empty cfg pc cc w i p :
  engine_reaches cfg pc cc w -> settled w -> w_procs w !! i = Some p -> p_stopped p = false ->
  p_procStatus p = stateIdle /\ p_queue p = [].
Proof.
  intros H Hs Hp Hst. destruct (settled_queue i w (settled_inv_reachable _ _ _ _ H) Hs) as [Hq|Hq];
    rewrite !(pget_some _ _ _ _ _ Hp) in Hq; [congruence|done].
Qed.

(** The mailbox of a process has at most one consumer: over all goroutines
    there is at most one instruction of [run] up to the park, so batches are
    taken and handed to [Invoke] by one goroutine at a time. *)
Theorem one_consumer_per_process cfg pc cc w i :
  engine_reaches cfg pc cc w -> (total (owns i) w <= 1)%nat.
Proof.
  intros H. destruct (settled_inv_reachable _ _ _ _ H i) as (_ & Hsch & _).
  unfold sched_inv, sched_ok in Hsch. intuition lia.
Qed.
End settled.
