(* ===== verification/Futures.v ===== *)
(** * Futures and scheduled sends

    What [Response] and [SendRepeater] promise: every future is resolved once
    and its outcome never changes, [done] is closed by exactly one goroutine,
    and after a repeater is done nothing is sent for it any more. *)

From S2P Require Import Prelude RingBuffer Inbox Pid Middleware Opts Registry EventStream.
From S2P Require Import World Engine Accounting Teardown Scheduling Settled.

Section futures.
Context {U RS Pr M : Type} `{!UserCode U RS Pr M}.
Notation world := (world U RS Pr M).
Notation process := (process U RS Pr M).
Notation instr := (instr U RS Pr M).
Notation stack := (list instr).
Implicit Types (w : world) (p : process) (ins : instr) (st : stack) (i j g pick c n : nat).

(** ** One goroutine per future *)

(** The goroutine that will close [done] of response [n]. *)
Definition resolving n ins : nat :=
  match ins with I_await j | I_closeDone j => eqn n j | _ => 0 end.

(** The call or goroutine that will close [done] of repeater [n]. *)
Definition scheduling n ins : nat :=
  match ins with
  | I_repeat j _ _ _ | I_ticker j _ _ | I_timer j _ _ | I_closeRepeater j => eqn n j
  | _ => 0
  end.

(** A send of repeater [n] that is still to be made. *)
Definition sending n ins : nat := match ins with I_send j _ _ => eqn n j | _ => 0 end.

(** Is there an object number [n]? *)
Definition made {A} n (l : list A) : nat := Nat.min 1 (length l - n).

Lemma made_snoc {A} n (l : list A) x : made n (l ++ [x]) = (made n l + eqn n (length l))%nat.
Proof. unfold made, eqn. rewrite length_app. cbn [length]. case_decide; lia. Qed.

Lemma made_alter {A} n j (h : A -> A) (l : list A) : made n (alter h j l) = made n l.
Proof. unfold made. by rewrite length_alter. Qed.

Lemma made_lookup {A} n (l : list A) x : l !! n = Some x -> made n l = 1%nat.
Proof. intros H%lookup_lt_Some. unfold made. lia. Qed.

Lemma made_not_last {A} n (l : list A) : made n l = 1%nat -> eqn n (length l) = 0%nat.
Proof. unfold made. intros H. apply eqn_ne. lia. Qed.

Lemma pget_made {A B} (sel : A -> B) d n (l : list A) x :
  made n l = 1%nat -> pget sel d n (l ++ [x]) = pget sel d n l.
Proof. unfold made, pget. intros H. by rewrite lookup_app_l by lia. Qed.

Lemma pget_last {A B} (sel : A -> B) d (l : list A) x : pget sel d (length l) (l ++ [x]) = sel x.
Proof. unfold pget. by rewrite list_lookup_middle. Qed.

Definition response_inv n w : Prop :=
  (total (resolving n) w + pget (fun r => b2n (r_done r)) 0 n (w_responses w) =
   made n (w_responses w))%nat.

Definition repeater_inv n w : Prop :=
  (total (scheduling n) w + pget (fun r => b2n (s_done r)) 0 n (w_repeaters w) =
   made n (w_repeaters w))%nat.

(** [close(r.stop)] is what [once] does. *)
Definition once_inv n w : Prop := pget s_stop false n (w_repeaters w) = pget s_once false n (w_repeaters w).

Lemma response_inv_step n a w w' : response_inv n w -> step a w = Some w' -> response_inv n w'.
Proof.
  unfold response_inv. intros Hi H. destruct a as [g pick|u]; [|account_go H].
  step_open H. balance (resolving n). step_split; rewrite ?made_snoc, ?made_alter; try lia.
  (* closeDone *)
  at_process n n0 Heqo; rewrite ?H0 in *; simpl in *; lia.
Qed.

Lemma repeater_inv_step n a w w' : repeater_inv n w -> step a w = Some w' -> repeater_inv n w'.
Proof.
  unfold repeater_inv. intros Hi H. destruct a as [g pick|u]; [|account_go H].
  step_open H. balance (scheduling n). step_split; rewrite ?made_snoc, ?made_alter; try lia;
    match goal with E : w_repeaters w !! _ = Some _ |- _ => at_process n n0 E end;
    repeat match goal with E : s_done _ = false |- _ => rewrite E in *; clear E end; simpl in *; lia.
Qed.

Lemma once_inv_step n a w w' : once_inv n w -> step a w = Some w' -> once_inv n w'.
Proof.
  unfold once_inv. intros Hi H. destruct a as [g pick|u].
  2: { account_go H. done. }
  step_open H. step_split; try done.
  by at_process n n1 Heqo0.
Qed.

Lemma futures_inv_new n cfg pc cc :
  response_inv n (NewEngine cfg pc cc) /\ repeater_inv n (NewEngine cfg pc cc) /\ once_inv n (NewEngine cfg pc cc).
Proof. done. Qed.

Definition futures_inv n w : Prop := response_inv n w /\ repeater_inv n w /\ once_inv n w.

Lemma futures_inv_step n a w w' : futures_inv n w -> step a w = Some w' -> futures_inv n w'.
Proof.
  intros (Hr & Hs & Ho) H. split_and!; eauto using response_inv_step, repeater_inv_step, once_inv_step.
Qed.

Lemma futures_inv_reachable n cfg pc cc w : engine_reaches cfg pc cc w -> futures_inv n w.
Proof.
  apply reachable_invariant; [intros a w1 w2; apply futures_inv_step|apply futures_inv_new].
Qed.

(** What such a goroutine works on is there, and open. *)
Lemma resolving_open n g w ins st :
  response_inv n w -> w_goroutines w !! g = Some (ins :: st) -> resolving n ins = 1%nat ->
  exists r, w_responses w !! n = Some r /\ r_done r = false.
Proof.
  unfold response_inv, total, made. intros Hi Hg Hn.
  pose proof (weight_of_lookup (resolving n) _ _ _ Hg) as Hle. simpl in Hle.
  destruct (w_responses w !! n) as [r|] eqn:Hr.
  - exists r. split; [done|]. rewrite (pget_some _ _ _ _ _ Hr) in Hi. destruct (r_done r); cbn [b2n] in Hi; [lia|done].
  - apply lookup_ge_None_1 in Hr. lia.
Qed.

Lemma scheduling_open n g w ins st :
  repeater_inv n w -> w_goroutines w !! g = Some (ins :: st) -> scheduling n ins = 1%nat ->
  exists r, w_repeaters w !! n = Some r /\ s_done r = false.
Proof.
  unfold repeater_inv, total, made. intros Hi Hg Hn.
  pose proof (weight_of_lookup (scheduling n) _ _ _ Hg) as Hle. simpl in Hle.
  destruct (w_repeaters w !! n) as [r|] eqn:Hr.
  - exists r. split; [done|]. rewrite (pget_some _ _ _ _ _ Hr) in Hi. destruct (s_done r); cbn [b2n] in Hi; [lia|done].
  - apply lookup_ge_None_1 in Hr. lia.
Qed.

(** ** The outcome of a response *)

Definition awaiting n ins : nat := match ins with I_await j => eqn n j | _ => 0 end.

Lemma awaiting_le n w : (total (awaiting n) w <= total (resolving n) w)%nat.
Proof. apply sum_list_mono. intros st. apply sum_list_mono. intros [] ; simpl; lia. Qed.

(** Until [await] has chosen, there is no outcome; a timeout has no result. *)
Definition outcome_inv n w : Prop :=
  ((1 <= total (awaiting n) w)%nat -> pget r_err false n (w_responses w) = false) /\
  ((1 <= total (awaiting n) w)%nat \/ pget r_err false n (w_responses w) = true ->
   pget r_result NilMsg n (w_responses w) = NilMsg).

Lemma outcome_inv_step n a w w' :
  response_inv n w -> outcome_inv n w -> step a w = Some w' -> outcome_inv n w'.
Proof.
  unfold outcome_inv, response_inv. intros Hr [He Hm] H. destruct a as [g pick|u].
  2: { account_go H. rewrite Nat.add_0_r. done. }
  pose proof (awaiting_le n w) as Hle'. assert (made n (w_responses w) <= 1)%nat as Hone by (unfold made; lia).
  step_open H. balance (awaiting n). step_split; try (split; intros; (apply He || apply Hm); intuition lia).
  - (* newResponse *)
    destruct (decide (n = length (w_responses w))) as [->|Hn].
    + by rewrite !pget_none by (by apply lookup_ge_None_2).
    + rewrite eqn_ne in Ht by done. split; intros; (apply He || apply Hm); intuition lia.
  - (* await, a reply *)
    at_process n n0 Heqo; [|split; intros; (apply He || apply Hm); intuition lia].
    rewrite He in * by lia. split; [done|]. intros [?|?]; [lia|done].
  - (* await, the timer *)
    at_process n n0 Heqo; [|split; intros; (apply He || apply Hm); intuition lia].
    split; [lia|]. intros _. apply Hm. lia.
Qed.

Lemma outcome_inv_reachable n cfg pc cc w : engine_reaches cfg pc cc w -> outcome_inv n w.
Proof.
  intros H. assert (response_inv n w /\ outcome_inv n w) as [_ ?]; [|done]. revert H.
  apply (reachable_invariant step (fun w => response_inv n w /\ outcome_inv n w)).
  - intros a w1 w2 [Hr Ho] Hs. split; [by eapply response_inv_step|by eapply outcome_inv_step].
  - done.
Qed.

(** Nobody else writes to a response. *)
Lemma response_kept n a w w' r :
  total (resolving n) w = 0%nat -> w_responses w !! n = Some r -> step a w = Some w' ->
  w_responses w' !! n = Some r.
Proof.
  intros Hz Hr H. destruct a as [g pick|u].
  2: { simpl in H. destruct (engine_ready _); [|done]. by injection H as <-. }
  step_open H. balance (resolving n). step_split; try done.
  - by apply lookup_app_l_Some.
  - destruct (decide (n = n0)) as [->|Hn]; [rewrite eqn_refl in *; lia|by rewrite list_lookup_alter_ne].
  - destruct (decide (n = n0)) as [->|Hn]; [rewrite eqn_refl in *; lia|by rewrite list_lookup_alter_ne].
  - destruct (decide (n = n0)) as [->|Hn]; [rewrite eqn_refl in *; lia|by rewrite list_lookup_alter_ne].
Qed.

Lemma response_done_idle n w r :
  response_inv n w -> w_responses w !! n = Some r -> r_done r = true -> total (resolving n) w = 0%nat.
Proof.
  unfold response_inv. intros Hi Hr Hd.
  rewrite (pget_some _ _ _ _ _ Hr), Hd, (made_lookup _ _ _ Hr) in Hi. simpl in Hi. lia.
Qed.

(** ** The sends of a repeater *)

Definition sent n w : nat := pget s_sent 0%nat n (w_repeaters w).

Lemma repeater_done_idle n w r :
  repeater_inv n w -> w_repeaters w !! n = Some r -> s_done r = true -> total (scheduling n) w = 0%nat.
Proof.
  unfold repeater_inv. intros Hi Hr Hd.
  rewrite (pget_some _ _ _ _ _ Hr), Hd, (made_lookup _ _ _ Hr) in Hi. simpl in Hi. lia.
Qed.

(** A send is made by the call or goroutine that will close [done]. *)
Fixpoint owned n st : Prop :=
  match st with
  | [] => True
  | ins :: st => (sending n ins <= sum_list_with (scheduling n) st)%nat /\ owned n st
  end.

Definition owned_inv n w : Prop := Forall (owned n) (w_goroutines w).

Lemma sending_step n pick ins st w r :
  owned n (ins :: st) -> instr_step pick ins st w = Some r ->
  owned n r.2 /\ exists new, w_goroutines r.1 = w_goroutines w ++ new /\ Forall (owned n) new.
Proof.
  intros [_ Hs] H. destruct ins; simpl in H; step_instr H; simpl in *;
    (split; [intuition lia|first [exists []; rewrite app_nil_r; by split|eexists; split; [done|]]]);
    try (by repeat constructor); apply Forall_map, Forall_true; by intros.
Qed.

Lemma owned_inv_step n a w w' : owned_inv n w -> step a w = Some w' -> owned_inv n w'.
Proof.
  unfold owned_inv. intros Hi H. destruct a as [g pick|u].
  - step_open H. destruct (sending_step n pick ins st w r) as (H2 & new & Hn & Hnew);
      [by apply (Forall_lookup_1 _ _ _ _ Hi Hg)|done|].
    simpl. rewrite Hn. apply Forall_insert; [by apply Forall_app|done].
  - account_go H. apply Forall_app. split; [done|by repeat constructor].
Qed.

Lemma owned_inv_reachable n cfg pc cc w : engine_reaches cfg pc cc w -> owned_inv n w.
Proof. apply reachable_invariant; [intros a w1 w2; apply owned_inv_step|by repeat constructor]. Qed.

(** Nobody sends for a repeater without a goroutine. *)
Lemma sending_none n w : owned_inv n w -> total (scheduling n) w = 0%nat -> total (sending n) w = 0%nat.
Proof.
  unfold owned_inv, total, weight_of. induction 1 as [|st gs Ho _ IH]; simpl; [done|]. intros Hz.
  rewrite IH by lia. assert (sum_list_with (scheduling n) st = 0%nat) as Hst by lia. clear Hz IH.
  induction st as [|ins st IH]; simpl in *; [done|]. destruct Ho as [Hi Ho]. specialize (IH Ho). lia.
Qed.

Lemma repeater_done_kept n k a w w' :
  repeater_inv n w -> owned_inv n w -> pget s_done false n (w_repeaters w) = true /\ sent n w = k ->
  step a w = Some w' -> pget s_done false n (w_repeaters w') = true /\ sent n w' = k.
Proof.
  unfold sent. intros Hi Ho [Hd Hk] H.
  destruct (w_repeaters w !! n) as [r|] eqn:Hr; [|by rewrite (pget_none _ _ _ _ Hr) in Hd].
  assert (made n (w_repeaters w) = 1%nat) as Hm by (by eapply made_lookup).
  rewrite (pget_some _ _ _ _ _ Hr) in Hd. pose proof (repeater_done_idle _ _ _ Hi Hr Hd) as Hz.
  pose proof (sending_none _ _ Ho Hz) as Hz'.
  destruct a as [g pick|u].
  2: { account_go H. by rewrite (pget_some _ _ _ _ _ Hr). }
  step_open H. balance (scheduling n). balance (sending n). rewrite <- (pget_some s_done false _ _ _ Hr) in Hd.
  step_split; rewrite ?pget_made by done; try done;
    (destruct (decide (n = n0)) as [->|Hne]; [rewrite eqn_refl in *; lia|by rewrite !pget_alter_ne]).
Qed.

(** Goroutines that may still send: more than once, or once. *)
Definition ticking n ins : nat :=
  match ins with
  | I_ticker j _ _ => eqn n j
  | I_repeat j _ _ interval => eqn n j * b2n (negb (interval <=? 0))
  | _ => 0
  end.
Definition timing n ins : nat := match ins with I_timer j _ _ => eqn n j | _ => 0 end.

Definition sends_inv (lo hi n : nat) w : Prop :=
  made n (w_repeaters w) = 1%nat /\ total (ticking n) w = 0%nat /\
  (lo <= sent n w + total (sending n) w)%nat /\ (sent n w + total (sending n) w + total (timing n) w <= hi)%nat.

Lemma sends_inv_step lo hi n a w w' : sends_inv lo hi n w -> step a w = Some w' -> sends_inv lo hi n w'.
Proof.
  unfold sends_inv, sent. intros (Hm & Htk & Hlo & Hhi) H. destruct a as [g pick|u]; [|account_go H].
  step_open H. balance (ticking n). balance (timing n). balance (sending n).
  pose proof (made_not_last _ _ Hm) as Hl.
  step_split; rewrite ?made_snoc, ?made_alter, ?pget_made by done; rewrite ?Hl in *; split_and!; try lia;
    (destruct (lookup_lt_is_Some_2 (w_repeaters w) n) as [x Hx]; [unfold made in Hm; lia|]);
    (destruct (decide (n = n0)) as [->|Hne];
     [rewrite (pget_alter_eq _ _ _ _ _ _ Hx), (pget_some _ _ _ _ _ Hx), eqn_refl in *; simpl; lia
     |rewrite eqn_ne, pget_alter_ne in * by done; lia]).
Qed.

(** The calls that promise a single send, and the sends they begin with. *)
Definition single_shot (o : api U Pr M) : option nat :=
  match o with
  | E_SendAfter _ _ => Some 0%nat
  | E_SendRepeat _ _ interval | C_SendRepeat _ _ interval => if interval <=? 0 then Some 1%nat else None
  | _ => None
  end.

Lemma single_shot_starts lo self o k g pick st w w' :
  repeater_inv (length (w_repeaters w)) w -> owned_inv (length (w_repeaters w)) w -> single_shot o = Some lo ->
  w_goroutines w !! g = Some (I_user self (Call o k) :: st) -> step (A_step g pick) w = Some w' ->
  sends_inv lo 1 (length (w_repeaters w)) w'.
Proof.
  unfold repeater_inv, sends_inv, sent. intros Hr How Ho Hg H. set (n := length (w_repeaters w)) in *.
  assert (total (ticking n) w <= total (scheduling n) w)%nat as Htk.
  { apply sum_list_mono. intros st'. apply sum_list_mono. intros []; simpl; try lia. destruct (interval <=? 0); simpl; lia. }
  assert (total (timing n) w <= total (scheduling n) w)%nat as Htm.
  { apply sum_list_mono. intros st'. apply sum_list_mono. intros []; simpl; lia. }
  assert (w_repeaters w !! n = None) as Hn by (apply lookup_ge_None_2; unfold n; lia).
  assert (made n (w_repeaters w) = 0%nat) as Hm by (unfold made, n; lia).
  rewrite (pget_none _ _ _ _ Hn), Hm in Hr. pose proof (sending_none _ _ How ltac:(lia)) as Hsd.
  step_open H. rewrite Hg0 in Hg. injection Hg as -> ->. rename Hg0 into Hg.
  balance (ticking n). balance (timing n). balance (sending n). unfold total in *.
  destruct o; simplify_eq/=; step_instr Hr0; simpl in *; subst n;
    rewrite ?weight_of_app in *; rewrite made_snoc, pget_last, Hm; simpl in *;
    pose proof (eqn_refl (length (w_repeaters w))); split_and!; lia.
Qed.

(** ** Properties *)

(** C14: a future is resolved once: after [done] of a [Response] is closed its
    result and its error never change, so every call of [Result], from any
    goroutine, gives the same answer; and a timeout carries no result. *)
Theorem response_resolved_once cfg pc cc w w' n r :
  engine_reaches cfg pc cc w -> w_responses w !! n = Some r -> r_done r = true -> reachable step w w' ->
  w_responses w' !! n = Some r /\ (r_err r = true -> r_result r = NilMsg).
Proof.
  intros H Hr Hd Hw. split.
  - destruct (futures_inv_reachable n _ _ _ _ H) as (Hi & _).
    assert (response_inv n w' /\ w_responses w' !! n = Some r) as [_ ?]; [|done]. revert Hw.
    apply (reachable_invariant step (fun w => response_inv n w /\ w_responses w !! n = Some r)); [|done].
    intros a w1 w2 [Hi1 Hr1] Hs. split; [by eapply response_inv_step|].
    eapply response_kept; [|done..]. by eapply response_done_idle.
  - destruct (outcome_inv_reachable n _ _ _ _ H) as [_ Hm].
    rewrite !(pget_some _ _ _ _ _ Hr) in Hm. auto.
Qed.

(** C16: [Stop] is the end of a repeater: once [done] is closed, which [Stop] waits
    for, no send is pending for it on any goroutine and no goroutine is left that
    could make one, and however the engine goes on the number of sends made
    stays what it was. *)
Theorem repeater_done_is_final cfg pc cc w w' n r :
  engine_reaches cfg pc cc w -> w_repeaters w !! n = Some r -> s_done r = true -> reachable step w w' ->
  total (sending n) w' = 0%nat /\ total (scheduling n) w' = 0%nat /\ sent n w' = s_sent r.
Proof.
  intros H Hr Hd Hw. destruct (futures_inv_reachable n _ _ _ _ H) as (_ & Hi & _).
  assert ((repeater_inv n w' /\ owned_inv n w') /\ pget s_done false n (w_repeaters w') = true /\ sent n w' = s_sent r)
    as ((Hi' & Ho') & Hd' & Hs').
  - revert Hw. apply (reachable_invariant step (fun w => (repeater_inv n w /\ owned_inv n w) /\
      pget s_done false n (w_repeaters w) = true /\ sent n w = s_sent r)).
    + intros a w1 w2 ((Hi1 & Ho1) & Hd1 & Hs1) Hst.
      split; [split; [by eapply repeater_inv_step|by eapply owned_inv_step]|]. by eapply repeater_done_kept.
    + unfold sent. rewrite !(pget_some _ _ _ _ _ Hr). split; [split; [done|by eapply owned_inv_reachable]|done].
  - unfold pget in Hd'. destruct (w_repeaters w' !! n) as [r'|] eqn:Hr'; [|done].
    pose proof (repeater_done_idle _ _ _ Hi' Hr' Hd') as Hz. split_and!; [by apply sending_none|done..].
Qed.

(** C22: [SendAfter] sends at most once, and [SendRepeat] with an interval that is
    not positive exactly once, whatever happens afterwards: the sends made and
    those that are pending are never more than one, and for [SendRepeat] never
    less. *)
Theorem single_shot_sends_once cfg pc cc w w1 w2 lo self o k g pick st :
  engine_reaches cfg pc cc w -> single_shot o = Some lo ->
  w_goroutines w !! g = Some (I_user self (Call o k) :: st) -> step (A_step g pick) w = Some w1 ->
  reachable step w1 w2 ->
  let n := length (w_repeaters w) in (lo <= sent n w2 + total (sending n) w2 <= 1)%nat.
Proof.
  intros H Ho Hg Hs Hw n. destruct (futures_inv_reachable n _ _ _ _ H) as (_ & Hi & _).
  assert (sends_inv lo 1 n w2) as (_ & _ & ? & ?); [|lia]. revert Hw. apply reachable_invariant.
  - intros a w3 w4. apply sends_inv_step.
  - eapply single_shot_starts; [done|by eapply owned_inv_reachable|done..].
Qed.

(** A stopped repeater is not forgotten: as long as [done] is open there is
    a goroutine that owns the repeater, and when that goroutine is at its
    [select] it can take the [stop] case. *)
Theorem stop_can_be_obeyed cfg pc cc w n r :
  engine_reaches cfg pc cc w -> w_repeaters w !! n = Some r -> s_stop r = true -> s_done r = false ->
  exists g st, w_goroutines w !! g = Some st /\ (1 <= sum_list_with (scheduling n) st)%nat /\
    forall ins st', st = ins :: st' -> scheduling n ins = 1%nat -> exists w', step (A_step g 1) w = Some w'.
Proof.
  intros H Hr Hst Hd. destruct (futures_inv_reachable n _ _ _ _ H) as (_ & Hi & _).
  unfold repeater_inv in Hi. rewrite (pget_some _ _ _ _ _ Hr), Hd, (made_lookup _ _ _ Hr) in Hi. simpl in Hi.
  destruct (weight_of_pos (scheduling n) (w_goroutines w)) as (g & st & Hg & Hs); [unfold total in Hi; lia|].
  exists g, st. split_and!; [done..|]. intros ins st' -> Hins. simpl. rewrite Hg. simpl.
  destruct ins; simpl in Hins; try done; unfold eqn in Hins; case_decide; simplify_eq; simpl;
    unfold repeat_started, ticker, timer, closeRepeater; try case_match; simpl; rewrite ?Hr; simpl;
    rewrite ?Hst, ?Hd; eauto.
Qed.

(** C23: when every goroutine has finished, every future is resolved, and every
    repeater is done. *)
Theorem settled_futures_resolved cfg pc cc w :
  engine_reaches cfg pc cc w -> settled w ->
  (forall n r, w_responses w !! n = Some r -> r_done r = true) /\
  (forall n r, w_repeaters w !! n = Some r -> s_done r = true).
Proof.
  intros H Hs. split; intros n r Hr; destruct (futures_inv_reachable n _ _ _ _ H) as (Hi & Hi' & _);
    unfold response_inv, repeater_inv in *; rewrite ?settled_total in * by done.
  - rewrite (pget_some _ _ _ _ _ Hr), (made_lookup _ _ _ Hr) in Hi. by destruct (r_done r).
  - rewrite (pget_some _ _ _ _ _ Hr), (made_lookup _ _ _ Hr) in Hi'. by destruct (s_done r).
Qed.
End futures.
