(* ===== verification/Lifecycle.v ===== *)
(** * The lifecycle of a process

    Initialized is the first message a process gets, nothing can reach it
    before, and restarts stay within the budget. *)

From S2P Require Import Prelude RingBuffer Inbox Pid Middleware Opts Registry EventStream.
From S2P Require Import World Engine Accounting Settled.

Section lifecycle.
Context {U RS Pr M : Type} `{!UserCode U RS Pr M}.
Notation world := (world U RS Pr M).
Notation process := (process U RS Pr M).
Notation instr := (instr U RS Pr M).
Notation stack := (list instr).
Implicit Types (w : world) (p : process) (ins : instr) (st : stack) (i j g pick c : nat).
Implicit Types (ps : list process) (log : list (delivery U)).

Definition is_Initialized (m : msg U) : bool := match m with Initialized => true | _ => false end.

(** The deliveries to process [i], in order. *)
Definition deliveries i log : list (delivery U) := filter (fun d => d_proc d = i) log.

Definition init_delivery (d : delivery U) : bool := d_lifecycle d && is_Initialized (Msg (d_env d)).

(** ** Nothing touches a process before Initialized *)

(** Deliver Initialized, or start. *)
Definition guard i ins : bool :=
  match ins with
  | I_Start j => bool_decide (i = j)
  | I_invokeMsg j life env => bool_decide (i = j) && life && is_Initialized (Msg env)
  | _ => false
  end.

(** Work on process [i] that must come after. *)
Definition touches i ins : bool :=
  match ins with
  | I_user (Some j) _ | I_cont (Some j) _ | I_deliver j _ | I_schedule j | I_addCancel j _
  | I_registerProcess j | I_invokeMsg j _ _ | I_tryRestart j | I_Shutdown j
  | I_unregister j | I_inboxStop j | I_Invoke j _ | I_shutdownChildren j
  | I_load j | I_popN j | I_park j | I_len j | I_reclaim j => bool_decide (i = j)
  | I_addProc h => negb (h_custom h)
  | _ => false
  end.

Fixpoint guarded i st : bool :=
  match st with
  | [] => true
  | ins :: st => guard i ins || negb (touches i ins) && guarded i st
  end.

Definition unregistered i (r : registry handle) : Prop :=
  forall id h, r !! id = Some h -> h_custom h = false -> h_num h <> i.

Record fresh i w : Prop := Fresh {
  fr_stacks : Forall (fun st => guarded i st = true) (w_goroutines w);
  fr_queue : pget p_queue [] i (w_procs w) = [];
  fr_registry : unregistered i (w_registry w);
}.

Definition born_inv i w : Prop :=
  match deliveries i (w_log w) with
  | [] => fresh i w
  | d :: _ => init_delivery d = true
  end.

Lemma get_process_unregistered i pid w j :
  unregistered i (w_registry w) -> get_process pid w = Some j -> j <> i.
Proof.
  unfold get_process, get, getByID. intros Hu H. destruct pid as [pid|]; [|done].
  destruct (w_registry w !! ID pid) as [h|] eqn:E; [|done].
  destruct (h_custom h) eqn:Ec; [done|]. injection H as <-. by eapply Hu.
Qed.

Lemma unregistered_add i h (r : registry handle) :
  unregistered i r -> (h_custom h = false -> h_num h <> i) -> unregistered i (add h r).2.
Proof.
  intros Hu Hh id h' H Hc. rewrite add_lookup in H.
  destruct (String.eqb _ _); [|by eapply Hu].
  injection H as <-. destruct (r !! id) as [q|] eqn:E; [by eapply Hu|by apply Hh].
Qed.

Lemma unregistered_remove i pid (r : registry handle) : unregistered i r -> unregistered i (remove pid r).
Proof.
  intros Hu. destruct pid as [pid|]; [|done]. intros id h H. simpl in H.
  apply lookup_delete_Some in H as [_ H]. by eapply Hu.
Qed.

Lemma deliveries_snoc i log d :
  deliveries i (log ++ [d]) = deliveries i log ++ (if decide (d_proc d = i) then [d] else []).
Proof.
  unfold deliveries. by rewrite filter_app.
Qed.

Lemma guarded_children i (pids : list PID) :
  Forall (fun st => guarded i st = true) (map (fun pid => [I_poisonAndWait pid]) pids : list stack).
Proof. induction pids; simpl; by constructor. Qed.

(** A step that delivers nothing keeps a process fresh. *)
Lemma fresh_step i g pick w ins st r :
  fresh i w -> w_goroutines w !! g = Some (ins :: st) -> instr_step pick ins st w = Some r ->
  (forall life env, ins <> I_invokeMsg i life env) ->
  guarded i r.2 = true /\ Forall (fun st => guarded i st = true) (w_goroutines r.1) /\
  pget p_queue [] i (w_procs r.1) = [] /\ unregistered i (w_registry r.1).
Proof.
  intros [Hs Hq Hr] Hg H Hno.
  assert (guarded i (ins :: st) = true) as Hst by (by eapply Forall_lookup_1 in Hg; [|exact Hs]).
  destruct ins; simpl in H; step_instr H; simpl in *;
    rewrite ?pget_keep, ?pget_new by done.
  all: try (split_and!; done).
  all: try (split_and!; [done|apply Forall_app; split; [done|by constructor]|done..]).
  - (* sendMessage *) unfold get, getByID in *. destruct to; [|done]. by edestruct (Hr _ _ H0).
  - (* deliver *) rewrite pget_alter_ne by done. by split_and!.
  - (* schedule *) split_and!; [done|apply Forall_app; split; [done|]|done..].
    constructor; [|done]. simpl. by rewrite bool_decide_eq_false_2.
  - (* poison *) by destruct (get_process_unregistered _ _ _ _ Hr H0).
  - (* send *) unfold get, getByID in *. destruct to; [|done]. by edestruct (Hr _ _ H0).
  - (* addProc *)
    rewrite negb_involutive in Hst. apply andb_true_iff in Hst as [Hc Hst].
    split_and!; [done..|]. by apply unregistered_add; [|congruence].
  - (* registerProcess *) split_and!; [done..|]. by apply unregistered_add; [|intros _; apply not_eq_sym].
  - (* invokeMsg *) by edestruct Hno.
  - (* invokeMsg *) by edestruct Hno.
  - (* invokeMsg *) by edestruct Hno.
  - (* unregister *) split_and!; [done..|]. by apply (unregistered_remove _ (Some (p_pid H0))).
  - (* shutdownChildren *)
    split_and!; [done|apply Forall_app; split; [done|apply guarded_children]|done..].
  - (* popN *) rewrite pget_alter_ne by done. by split_and!.
Qed.

(** The delivery of a message by [invokeMsg]. *)
Lemma invoke_log pick j life (env : Envelope U) st w r :
  instr_step pick (I_invokeMsg j life env) st w = Some r -> w_log r.1 = w_log w ++ [MkDelivery j life env].
Proof. intros H. simpl in H. step_instr H; done. Qed.

Lemma other_log pick ins st w r :
  (forall j life env, ins <> I_invokeMsg j life env) -> instr_step pick ins st w = Some r ->
  w_log r.1 = w_log w.
Proof.
  intros Hno H. destruct ins; simpl in H; try (step_instr H; done).
  by edestruct Hno.
Qed.

Lemma is_invoke ins :
  {x | ins = I_invokeMsg x.1.1 x.1.2 x.2} + {forall j life env, ins <> I_invokeMsg j life env}.
Proof. destruct ins; try (by right). left. by eexists (_, _, _). Qed.

Lemma invoke_other_fresh i j g pick life (env : Envelope U) w st r :
  i <> j -> fresh i w -> w_goroutines w !! g = Some (I_invokeMsg j life env :: st) ->
  instr_step pick (I_invokeMsg j life env) st w = Some r ->
  fresh i (set_goroutines (<[g := r.2]> (w_goroutines r.1)) r.1).
Proof.
  intros Hij Hf Hg H.
  destruct (fresh_step _ _ _ _ _ _ _ Hf Hg H) as (? & ? & ? & ?); [congruence|].
  split; simpl; [by apply Forall_insert|done..].
Qed.

Lemma born_inv_step i a w w' : born_inv i w -> step a w = Some w' -> born_inv i w'.
Proof.
  unfold born_inv. intros Hi H. destruct a as [g pick|u].
  2: { simpl in H. destruct (engine_ready w); [|done]. injection H as <-. simpl.
       destruct (deliveries i (w_log w)); [|done]. destruct Hi as [Hs Hq Hr].
       split; simpl; [|done..]. apply Forall_app. split; [done|by constructor]. }
  step_open H. simpl. destruct (is_invoke ins) as [[[[j life] env] ->]|Hno].
  - change (instr_step pick (I_invokeMsg j life env) st w = Some r) in Hr. simpl in Hg.
    pose proof (invoke_log _ _ _ _ _ _ _ Hr) as ->. rewrite deliveries_snoc. simpl.
    destruct (decide (j = i)) as [->|Hj].
    + destruct (deliveries i (w_log w)) as [|d ds] eqn:Ed; [|done]. simpl.
      destruct Hi as [Hs _ _]. eapply Forall_lookup_1 in Hs; [|exact Hg]. simpl in Hs.
      unfold init_delivery. simpl. rewrite bool_decide_eq_true_2 in Hs by done. simpl in Hs.
      by destruct (life && is_Initialized (Msg env)).
    + rewrite app_nil_r. destruct (deliveries i (w_log w)) as [|d ds]; [|done].
      by apply (invoke_other_fresh i j g pick life env w st r); [congruence|..].
  - rewrite (other_log _ _ _ _ _ Hno Hr). destruct (deliveries i (w_log w)) as [|d ds]; [|done].
    destruct (fresh_step _ _ _ _ _ _ _ Hi Hg Hr) as (? & ? & ? & ?); [intros; apply Hno|].
    split; simpl; [by apply Forall_insert|done..].
Qed.

Lemma born_inv_new i cfg pc cc : born_inv i (NewEngine cfg pc cc).
Proof.
  split; simpl; [by constructor|unfold pget; by destruct i|].
  intros id h Hh. unfold newRegistry in Hh. by rewrite lookup_empty in Hh.
Qed.

Lemma born_inv_reachable i cfg pc cc w : engine_reaches cfg pc cc w -> born_inv i w.
Proof.
  apply reachable_invariant; [intros a w1 w2; apply born_inv_step|apply born_inv_new].
Qed.

(** ** Restarts *)

(** User code of [i] that may still panic, or has. *)
Definition attempts i ins : nat :=
  match ins with
  | I_tryRestart j | I_user (Some j) _ | I_cont (Some j) _ => eqn i j
  | _ => 0
  end.

(** Incarnations of [i] that are about to be initialised. *)
Definition starts i ins : nat :=
  match ins with
  | I_Start j | I_spawnProc j => eqn i j
  | I_invokeMsg j life env => eqn i j * b2n (life && is_Initialized (Msg env))
  | _ => 0
  end.

Definition init_logged i (d : delivery U) : nat := eqn i (d_proc d) * b2n (init_delivery d).
Definition inits i log : nat := sum_list_with (init_logged i) log.

Definition limit p : nat := 1 + Z.to_nat (Z.min (p_restarts p) (Z.max 0 (MaxRestarts (p_opts p)))).

Lemma inits_snoc i log j life (env : Envelope U) :
  inits i (log ++ [MkDelivery j life env]) =
  (inits i log + eqn i j * b2n (life && is_Initialized (Msg env)))%nat.
Proof. unfold inits. rewrite sum_list_with_app. unfold init_logged at 2. unfold init_delivery. simpl. lia. Qed.

(** Restarts and attempts against the length of the log, incarnations begun
    and pending against the limit. *)
Definition budget (r : Z) (att : nat) (len : Z) (ini sta lim : nat) : Prop :=
  0 <= r /\ r + Z.of_nat att <= len /\ (ini + sta <= lim)%nat.

Definition budget_inv i w : Prop :=
  slen (w_log w) < 2 ^ 31 ->
  budget (pget p_restarts 0 i (w_procs w)) (total (attempts i) w) (slen (w_log w))
    (inits i (w_log w)) (total (starts i) w) (pget limit 0%nat i (w_procs w)).

Lemma budget_keep r att len ini sta lim att' len' ini' sta' lim' :
  budget r att len ini sta lim -> Z.of_nat att' + len <= Z.of_nat att + len' ->
  (ini' + sta' + lim <= ini + sta + lim')%nat -> budget r att' len' ini' sta' lim'.
Proof. unfold budget. lia. Qed.

Lemma limit_new i ps p : p_restarts p = 0 ->
  pget limit 0%nat i (ps ++ [p]) = (pget limit 0%nat i ps + eqn i (length ps))%nat.
Proof.
  intros Hp. unfold pget. destruct (decide (i < length ps)%nat) as [Hi|Hi].
  - rewrite lookup_app_l, eqn_ne by lia. destruct (ps !! i); lia.
  - rewrite (lookup_ge_None_2 ps) by lia. destruct (decide (i = length ps)) as [->|Hn].
    + rewrite lookup_app_r, Nat.sub_diag, eqn_refl by lia. unfold limit. simpl. rewrite Hp. lia.
    + rewrite lookup_ge_None_2, eqn_ne by (rewrite ?length_app; simpl; lia). done.
Qed.

Lemma budget_inv_step i a w w' : budget_inv i w -> step a w = Some w' -> budget_inv i w'.
Proof.
  unfold budget_inv. intros Hi H Hlog. destruct a as [g pick|u].
  2: { account_go H. rewrite !Nat.add_0_r. auto. }
  step_open H. balance (attempts i). balance (starts i). step_split;
    rewrite ?slen_snoc, ?limit_new, ?inits_snoc in * by done; specialize (Hi ltac:(lia));
    try (apply (budget_keep _ _ _ _ _ _ _ _ _ _ _ Hi); lia).
  - (* invokeMsg *) pose proof (eqn_le i i0). apply (budget_keep _ _ _ _ _ _ _ _ _ _ _ Hi); lia.
  - (* invokeMsg *) pose proof (eqn_le i i0). apply (budget_keep _ _ _ _ _ _ _ _ _ _ _ Hi); lia.
  - (* invokeMsg *) pose proof (eqn_le i i0). apply (budget_keep _ _ _ _ _ _ _ _ _ _ _ Hi); lia.
  - (* tryRestart, give up *)
    at_process i i0 Heqo; [|apply (budget_keep _ _ _ _ _ _ _ _ _ _ _ Hi); lia].
    unfold budget, limit in *. simpl in *. rewrite i32_id in * by lia. lia.
  - (* tryRestart, restart *)
    at_process i i0 Heqo; [|apply (budget_keep _ _ _ _ _ _ _ _ _ _ _ Hi); lia].
    unfold budget, limit in *. simpl in *. rewrite i32_id in * by lia. reflect_bools. lia.
Qed.

Lemma budget_inv_new i cfg pc cc : budget_inv i (NewEngine cfg pc cc).
Proof.
  intros _. unfold budget, pget. simpl. unfold total, weight_of. simpl.
  destruct i as [|i]; simpl; rewrite ?eqn_refl, ?eqn_ne by done; unfold limit, inits, slen; simpl; lia.
Qed.

Lemma budget_inv_reachable i cfg pc cc w : engine_reaches cfg pc cc w -> budget_inv i w.
Proof.
  apply reachable_invariant; [intros a w1 w2; apply budget_inv_step|apply budget_inv_new].
Qed.

(** ** Properties *)

(** C13: Initialized is the first message a process ever gets, and until it has
    been delivered nobody can reach the process: it is in no registry entry,
    its mailbox is empty, and no goroutine is consuming it. *)
Theorem initialized_first cfg pc cc w i :
  engine_reaches cfg pc cc w ->
  (deliveries i (w_log w) = [] /\ unregistered i (w_registry w) /\
     pget p_queue [] i (w_procs w) = []) \/
  exists env rest, deliveries i (w_log w) = MkDelivery i true env :: rest /\ Msg env = Initialized.
Proof.
  intros H. pose proof (born_inv_reachable i _ _ _ _ H) as Hb. unfold born_inv in Hb.
  destruct (deliveries i (w_log w)) as [|d ds] eqn:Ed.
  - left. destruct Hb. auto.
  - right. assert (d ∈ deliveries i (w_log w)) as Hd by (rewrite Ed; left).
    unfold deliveries in Hd. apply list_elem_of_filter in Hd as [Hd _].
    destruct d as [j life env]. simpl in Hd. subst j. exists env, ds.
    unfold init_delivery in Hb. simpl in Hb. apply andb_true_iff in Hb as [-> Hm].
    split; [done|]. by destruct (Msg env).
Qed.

(** C17: a process is initialised at most once more than its restart limit
    allows restarts, over fewer than 2^31 deliveries: supervision cannot
    restart an actor for ever. *)
Theorem restart_budget cfg pc cc w i p :
  engine_reaches cfg pc cc w -> slen (w_log w) < 2 ^ 31 -> w_procs w !! i = Some p ->
  Z.of_nat (inits i (w_log w)) <= 1 + Z.max 0 (MaxRestarts (p_opts p)).
Proof.
  intros H Hl Hp. pose proof (budget_inv_reachable i _ _ _ _ H Hl) as (Hr & _ & Hb).
  rewrite (pget_some _ _ _ _ _ Hp) in *. unfold limit in Hb. lia.
Qed.
End lifecycle.
