(* ===== verification/WellFormed.v ===== *)
(** * Well-formed worlds

    The invariant that the encoding of goroutines as stacks keeps: the
    instructions that look a process up name an existing one, a frame that waits
    for a value, or for a PID, has above it an instruction that hands one over,
    and the event stream's lock is held by a goroutine that is copying the
    table.  The theorems of the other files rest on it. *)

From S2P Require Import Prelude RingBuffer Inbox Pid Middleware Opts Registry EventStream.
From S2P Require Import World Engine Accounting Settled Lifecycle.

Section wellformed.
Context {U RS Pr M : Type} `{!UserCode U RS Pr M}.
Notation world := (world U RS Pr M).
Notation process := (process U RS Pr M).
Notation instr := (instr U RS Pr M).
Notation stack := (list instr).
Implicit Types (w : world) (p : process) (ins prev : instr) (st : stack) (i j g pick c n : nat).
Implicit Types (ps : list process).

(** ** Indices *)

Definition valid n ins : bool :=
  match ins with
  | I_user (Some j) _ | I_cont (Some j) _ | I_deliver j _ | I_schedule j | I_addCancel j _
  | I_spawnProc j | I_childOf j | I_Start j
  | I_registerProcess j | I_invokeMsg j _ _ | I_tryRestart j | I_Shutdown j | I_leaveParent j
  | I_unregister j | I_inboxStop j | I_Invoke j _ | I_shutdownChildren j
  | I_load j | I_popN j | I_park j | I_len j | I_reclaim j => bool_decide (j < n)%nat
  | I_addProc h => h_custom h
  | _ => true
  end.

Definition valid_registry n (r : registry handle) : Prop :=
  forall id h, r !! id = Some h -> h_custom h = false -> (h_num h < n)%nat.

(** ** Frames *)

Definition is_scan ins : bool := match ins with I_scan _ _ _ => true | _ => false end.

(** The instruction ends by handing a value to the frame below. *)
Definition returns ins : bool :=
  match ins with
  | I_return _ | I_spawnProc _ | I_childOf _ | I_requested _ _ _ | I_newResponse _ _ | I_repeat _ _ _ _ => true
  | _ => false
  end.
Definition returns_pid ins : bool :=
  match ins with I_return (VPid (Some _)) | I_spawnProc _ => true | _ => false end.

Definition awaits ins : bool :=
  match ins with I_cont _ _ | I_childOf _ | I_requested _ _ _ | I_newEngine => true | _ => false end.

(** [prev] may be directly above [ins]. *)
Definition feeds prev ins : bool :=
  match ins with
  | I_cont _ _ => returns prev
  | I_childOf _ | I_requested _ _ _ | I_newEngine => returns_pid prev
  | _ => true
  end.

Fixpoint shape_below prev st : bool :=
  match st with
  | [] => true
  | ins :: st => feeds prev ins && negb (is_scan ins) && shape_below ins st
  end.

Definition shape st : bool :=
  match st with [] => true | ins :: st => negb (awaits ins) && shape_below ins st end.

Definition scans ins : nat := match ins with I_scan _ _ _ => 1 | _ => 0 end.

Record wf_world w : Prop := WfWorld {
  wf_valid : Forall (Forall (fun ins => valid (length (w_procs w)) ins = true)) (w_goroutines w);
  wf_registry : valid_registry (length (w_procs w)) (w_registry w);
  wf_shape : Forall (fun st => shape st = true) (w_goroutines w);
  wf_lock : total scans w = b2n (w_subs_locked w);
}.

Lemma feeds_plain prev prev' ins : returns prev = false -> feeds prev ins = true -> feeds prev' ins = true.
Proof. destruct ins; simpl; try done; destruct prev; simpl; done. Qed.

(** What may be below an instruction that returns nothing may be anywhere. *)
Lemma shape_plain prev prev' st : returns prev = false -> shape_below prev st = true -> shape_below prev' st = true.
Proof.
  destruct st as [|ins st]; simpl; [done|]. intros Hp H.
  apply andb_true_iff in H as [[Hf Hs]%andb_true_iff Ht].
  by rewrite (feeds_plain _ prev' _ Hp Hf), Hs, Ht.
Qed.

Lemma shape_tail prev st : returns prev = false -> shape_below prev st = true -> shape st = true.
Proof.
  destruct st as [|ins st]; simpl; [done|]. intros Hp H.
  apply andb_true_iff in H as [[Hf Hs]%andb_true_iff Ht]. rewrite Ht, andb_true_r.
  destruct ins; simpl in *; try done; destruct prev; simpl in *; done.
Qed.

Lemma shape_pid prev pid st : shape_below prev st = true -> shape_below (I_return (VPid (Some pid))) st = true.
Proof.
  destruct st as [|ins st]; simpl; [done|]. intros H.
  apply andb_true_iff in H as [[Hf Hs]%andb_true_iff Ht]. rewrite Hs, Ht.
  by destruct ins.
Qed.

Lemma valid_mono n n' ins : (n <= n')%nat -> valid n ins = true -> valid n' ins = true.
Proof.
  intros Hn. destruct ins; simpl; try done; try (intros H; apply bool_decide_eq_true in H;
    apply bool_decide_eq_true; lia);
    destruct self; try done; intros H; apply bool_decide_eq_true in H; apply bool_decide_eq_true; lia.
Qed.

Lemma length_alter_procs {A} (h : A -> A) j (l : list A) : length (alter h j l) = length l.
Proof. apply length_alter. Qed.

(** Another value in place of one that is not a PID. *)
Lemma shape_value prev prev' st :
  shape_below prev st = true -> returns_pid prev = false -> returns prev' = true -> shape_below prev' st = true.
Proof.
  destruct st as [|ins st]; simpl; [done|]. intros H Hp Hr.
  apply andb_true_iff in H as [[Hf Hs]%andb_true_iff Ht]. rewrite Hs, Ht.
  destruct ins; simpl in *; rewrite ?Hr; try done; congruence.
Qed.

Ltac split_bools :=
  repeat match goal with H : _ && _ = true |- _ => apply andb_true_iff in H as [? ?] end.

(** ** Shapes are preserved *)

Lemma step_shape pick ins st w r :
  shape (ins :: st) = true -> instr_step pick ins st w = Some r -> shape r.2 = true.
Proof.
  intros Hs H. simpl in Hs. apply andb_true_iff in Hs as [Ha Hs].
  destruct ins; simpl in H, Ha; step_instr H; simpl;
    try (by eapply shape_tail; [|exact Hs]); try (by eapply shape_plain; [|exact Hs]);
    try simpl in Hs; split_bools; try done; eauto using shape_pid, shape_value.
Qed.

Lemma step_shapes pick ins st w r :
  Forall (fun st => shape st = true) (w_goroutines w) -> instr_step pick ins st w = Some r ->
  Forall (fun st => shape st = true) (w_goroutines r.1).
Proof.
  intros Hs H. destruct ins; simpl in H; step_instr H; simpl; try done.
  all: apply Forall_app; split; [done|]; try by repeat constructor.
  induction (childPIDs _ _); simpl; by constructor.
Qed.

(** ** Indices stay valid *)

Lemma step_procs pick ins st w r :
  instr_step pick ins st w = Some r -> (length (w_procs w) <= length (w_procs r.1))%nat.
Proof.
  intros H. destruct ins; simpl in H; step_instr H; simpl; rewrite ?length_alter, ?length_app; lia.
Qed.

Lemma get_process_valid pid w j :
  valid_registry (length (w_procs w)) (w_registry w) -> get_process pid w = Some j ->
  (j < length (w_procs w))%nat.
Proof.
  unfold get_process, get, getByID. intros Hr H. destruct pid as [pid|]; [|done].
  destruct (w_registry w !! ID pid) as [h|] eqn:E; [|done].
  destruct (h_custom h) eqn:Ec; [done|]. injection H as <-. by eapply Hr.
Qed.

Lemma valid_registry_add n h (r : registry handle) :
  valid_registry n r -> (h_custom h = false -> (h_num h < n)%nat) -> valid_registry n (add h r).2.
Proof.
  intros Hr Hh id h' H Hc. rewrite add_lookup in H.
  destruct (String.eqb _ _); [|by eapply Hr].
  injection H as <-. destruct (r !! id) as [q|] eqn:Eq; [by eapply Hr|by apply Hh].
Qed.

Lemma valid_registry_remove n pid (r : registry handle) : valid_registry n r -> valid_registry n (remove pid r).
Proof.
  intros Hr. destruct pid as [pid|]; [|done]. intros id h H. simpl in H.
  apply lookup_delete_Some in H as [_ H]. by eapply Hr.
Qed.

Lemma valid_registry_mono n n' (r : registry handle) : (n <= n')%nat -> valid_registry n r -> valid_registry n' r.
Proof. intros Hn Hr id h H Hc. specialize (Hr id h H Hc). lia. Qed.

Lemma lookup_procs_lt w j p : w_procs w !! j = Some p -> (j < length (w_procs w))%nat.
Proof. apply lookup_lt_Some. Qed.

Lemma get_valid pid w h :
  valid_registry (length (w_procs w)) (w_registry w) -> get pid (w_registry w) = Some h ->
  h_custom h = false -> (h_num h < length (w_procs w))%nat.
Proof. intros Hr H Hc. destruct pid as [pid|]; [|done]. by eapply Hr. Qed.

Ltac valid_index Hr :=
  rewrite ?length_alter, ?length_app in *; simpl in *; apply bool_decide_eq_true;
  repeat match goal with
  | H : bool_decide _ = true |- _ => apply bool_decide_eq_true in H
  | H : w_procs _ !! _ = Some _ |- _ => apply lookup_lt_Some in H
  | H : get_process _ _ = Some _ |- _ => apply (get_process_valid _ _ _ Hr) in H
  end; lia.

Lemma step_valid pick ins st w r :
  valid_registry (length (w_procs w)) (w_registry w) ->
  Forall (fun ins => valid (length (w_procs w)) ins = true) (ins :: st) ->
  instr_step pick ins st w = Some r ->
  Forall (fun ins => valid (length (w_procs r.1)) ins = true) r.2.
Proof.
  intros Hr Hs H. pose proof (step_procs _ _ _ _ _ H) as Hn.
  assert (Forall (fun ins => valid (length (w_procs r.1)) ins = true) (ins :: st)) as Hs'.
  { eapply Forall_impl; [exact Hs|]. intros x. by apply valid_mono. }
  inversion Hs' as [|? ? Hi Ht]; subst. clear Hs' Hs.
  destruct ins; simpl in H, Hi; step_instr H; simpl in *; try done;
    repeat (constructor; simpl; try done);
    try (by inversion Ht); try valid_index Hr.
  all: apply bool_decide_eq_true; by eapply get_valid.
Qed.

Lemma step_valid_all pick ins st w r :
  Forall (Forall (fun ins => valid (length (w_procs w)) ins = true)) (w_goroutines w) ->
  Forall (fun ins => valid (length (w_procs w)) ins = true) (ins :: st) ->
  instr_step pick ins st w = Some r ->
  Forall (Forall (fun ins => valid (length (w_procs r.1)) ins = true)) (w_goroutines r.1).
Proof.
  intros Hs Hi H. pose proof (step_procs _ _ _ _ _ H) as Hn.
  assert (Forall (Forall (fun ins => valid (length (w_procs r.1)) ins = true)) (w_goroutines w)) as Hs'.
  { eapply Forall_impl; [exact Hs|]. intros x Hx. eapply Forall_impl; [exact Hx|].
    intros y. by apply valid_mono. }
  inversion Hi as [|? ? Hv _]; subst. clear Hs Hi.
  destruct ins; simpl in H, Hv; step_instr H; simpl in *; try done;
    (apply Forall_app; split; [done|]); try (by repeat constructor).
  - repeat constructor. simpl. valid_index Hs'.
  - induction (childPIDs _ _); simpl; by repeat constructor.
Qed.

Lemma step_registry_valid pick ins st w r :
  valid_registry (length (w_procs w)) (w_registry w) -> valid (length (w_procs w)) ins = true ->
  instr_step pick ins st w = Some r -> valid_registry (length (w_procs r.1)) (w_registry r.1).
Proof.
  intros Hr Hi H. pose proof (step_procs _ _ _ _ _ H) as Hn.
  apply (valid_registry_mono _ _ _ Hn) in Hr.
  destruct ins; simpl in H, Hi; step_instr H; simpl in *; try done.
  - apply valid_registry_add; [done|congruence].
  - apply valid_registry_add; [done|]. intros _. simpl. by eapply lookup_lt_Some.
  - by apply (valid_registry_remove _ (Some (p_pid H0))).
Qed.

(** ** The invariant *)

Lemma wf_world_step a w w' : wf_world w -> step a w = Some w' -> wf_world w'.
Proof.
  intros [Hv Hr Hs Hl] H. destruct a as [g pick|u].
  - step_open H.
    pose proof (Forall_lookup_1 _ _ _ _ Hv Hg) as Hvg.
    pose proof (Forall_lookup_1 _ _ _ _ Hs Hg) as Hsg. simpl in Hsg.
    split; simpl.
    + apply Forall_insert; [by eapply step_valid_all|by eapply step_valid].
    + eapply step_registry_valid; eauto. by inversion Hvg.
    + apply Forall_insert; [by eapply step_shapes|by eapply step_shape].
    + balance scans. clear Hv Hr Hs Hvg Hsg. step_split; destruct (w_subs_locked w); simpl in *; (done || lia).
  - account_go H. split; simpl; rewrite ?total_go; simpl; try done; try lia.
    + apply Forall_app. split; [done|by repeat constructor].
    + apply Forall_app. split; [done|by repeat constructor].
Qed.

Lemma wf_world_new cfg pc cc : wf_world (NewEngine cfg pc cc).
Proof.
  split; simpl; [repeat constructor| |by repeat constructor|done].
  intros id h Hh. unfold newRegistry in Hh. by rewrite lookup_empty in Hh.
Qed.

Lemma wf_world_reachable cfg pc cc w : engine_reaches cfg pc cc w -> wf_world w.
Proof.
  apply reachable_invariant; [intros a w1 w2; apply wf_world_step|apply wf_world_new].
Qed.

End wellformed.
