(* ===== verification/Progress.v ===== *)
(** * The engine never gets stuck

    In a reachable world a goroutine of the engine waits for nothing but a
    context, other goroutines, a timer, a future, or the lock of the event
    stream, whose holder can move: no channel is closed twice, no index is out
    of range, no Processer is nil. *)

From S2P Require Import Prelude RingBuffer Inbox Pid Middleware Opts Registry EventStream.
From S2P Require Import World Engine Accounting Settled Futures Lifecycle WellFormed.

Section progress.
Context {U RS Pr M : Type} `{!UserCode U RS Pr M}.
Notation world := (world U RS Pr M).
Notation process := (process U RS Pr M).
Notation instr := (instr U RS Pr M).
Notation stack := (list instr).
Implicit Types (w : world) (p : process) (ins prev : instr) (st : stack) (i j g pick c n : nat).
Implicit Types (ps : list process).

(** ** The processor always has its Processer *)

(** Incarnations of [i] that are starting. *)
Definition starting i ins : nat :=
  match ins with
  | I_Start j => eqn i j
  | I_invokeMsg j life env => eqn i j * b2n (life && is_Initialized (Msg env))
  | _ => 0
  end.

Definition bound_inv i w : Prop :=
  (deliveries i (w_log w) <> [] \/ (1 <= total (starting i) w)%nat) ->
  pget p_bound false i (w_procs w) = true.

(** Work on a process that is not starting it means it has been initialised. *)
Lemma touched_born i g w ins st :
  born_inv i w -> w_goroutines w !! g = Some (ins :: st) -> guard i ins = false -> touches i ins = true ->
  deliveries i (w_log w) <> [].
Proof.
  unfold born_inv. intros Hb Hg Hgu Ht E. rewrite E in Hb. destruct Hb as [Hs _ _].
  eapply Forall_lookup_1 in Hs; [|exact Hg]. simpl in Hs. by rewrite Hgu, Ht in Hs.
Qed.

(** An [invokeMsg] on top of a stack: its process has started, or is about to
    get Initialized. *)
Lemma invoke_born i j g w life (env : Envelope U) st n' :
  born_inv i w -> w_goroutines w !! g = Some (I_invokeMsg j life env :: st) ->
  (eqn i j * b2n (life && is_Initialized (Msg env)) + n' <= total (starting i) w)%nat ->
  deliveries i (w_log w ++ [MkDelivery j life env]) <> [] \/ (1 <= n')%nat ->
  deliveries i (w_log w) <> [] \/ (1 <= total (starting i) w)%nat.
Proof.
  intros Hb Hg Hle Hd. destruct (decide (i = j)) as [->|Hn].
  - destruct (life && is_Initialized (Msg env)) eqn:El.
    + right. rewrite eqn_refl in Hle. simpl in Hle. lia.
    + left. eapply touched_born; [done|exact Hg|..]; simpl; rewrite bool_decide_eq_true_2 by done; done.
  - rewrite deliveries_snoc, decide_False, app_nil_r in Hd by (simpl; congruence).
    destruct Hd as [Hd|Hd]; [by left|right; lia].
Qed.

Lemma bound_inv_step i a w w' :
  bound_inv i w -> born_inv i w -> step a w = Some w' -> bound_inv i w'.
Proof.
  unfold bound_inv. intros Hi Hb H. destruct a as [g pick|u].
  2: { account_go H. intros [?|?]; apply Hi; [by left|]. right. lia. }
  step_open H. balance (starting i). step_split;
    try (intros [?|?]; apply Hi; [by left|right; lia]).
  - (* spawnProc *)
    destruct (decide (i = i0)) as [->|Hn]; [by rewrite (pget_alter_eq _ _ _ _ _ _ Heqo)|].
    rewrite eqn_ne, pget_alter_ne in * by done. intros [?|?]; apply Hi; [by left|right; lia].
  - intros Hd. apply Hi. eapply invoke_born; [done|exact Hg| |exact Hd]. unfold total. lia.
  - intros Hd. apply Hi. eapply invoke_born; [done|exact Hg| |exact Hd]. unfold total. lia.
  - intros Hd. apply Hi. eapply invoke_born; [done|exact Hg| |exact Hd]. unfold total. lia.
  - (* tryRestart *)
    destruct (decide (i = i0)) as [->|Hn].
    + intros _. apply Hi. left. eapply touched_born; [done|exact Hg|done|].
      by apply bool_decide_eq_true_2.
    + rewrite eqn_ne in * by done. intros [?|?]; apply Hi; [by left|right; lia].
Qed.

Lemma bound_inv_reachable i cfg pc cc w : engine_reaches cfg pc cc w -> bound_inv i w.
Proof.
  intros H. assert (bound_inv i w /\ born_inv i w) as [? _]; [|done]. revert H.
  apply (reachable_invariant step (fun w => bound_inv i w /\ born_inv i w)).
  - intros a w1 w2 [Hi Hb] Hs. split; [by eapply bound_inv_step|by eapply born_inv_step].
  - split; [|apply born_inv_new]. intros [Hd|Hd]; [done|].
    unfold total, weight_of in Hd. simpl in Hd. lia.
Qed.

(** ** Properties *)

(** A call of user code that cannot go on: [<-ctx.Done()] before the cancel,
    [unsubscribe] under the lock of the event stream, [Result] before [done] is
    closed, [Stop] on a repeater that was never made. *)
Definition call_waits w (o : api U Pr M) : Prop :=
  match o with
  | Wait c => c ∉ w_cancelled w
  | E_Unsubscribe _ => w_subs_locked w = true
  | R_Result n => pget r_done false n (w_responses w) = false
  | S_Stop (Some n) => w_repeaters w !! n = None
  | _ => False
  end.

(** User code that cannot go on, in a [Receive] ([self] is its process) or
    outside of every actor: such a call; a read through a pointer to no receiver
    with a state; and outside of an actor a panic, which ends the program, or
    the use of a [Context] it has not got. *)
Definition user_waits w (self : option nat) (u : prog U RS Pr M) : Prop :=
  match u with
  | Ret | Put _ _ _ => False
  | Panic => self = None
  | Get r _ => forall s, w_receivers w !! r <> Some (Some s)
  | Call o _ => if is_context_call o then self = None else call_waits w o
  end.

Definition waits w ins : Prop :=
  match ins with
  | I_user self u => user_waits w self u
  | I_wait c => c ∉ w_cancelled w
  | I_join gs => all_done gs w = false
  | I_broadcast _ | I_subscribe _ => w_subs_locked w = true
  | I_await n => forall r m, w_responses w !! n = Some r -> w_replyChs w !! r_replyCh r <> Some (Some m)
  | I_ticker n _ _ | I_timer n _ _ => pget s_stop true n (w_repeaters w) = false
  | I_waitRepeater n => pget s_done false n (w_repeaters w) = false
  | _ => False
  end.

(** The lock is released by a goroutine that can always move. *)
Lemma lock_holder w : wf_world w -> w_subs_locked w = true ->
  exists g m todo live st, w_goroutines w !! g = Some (I_scan m todo live :: st).
Proof.
  intros [_ _ Hs Hl] Hlock. rewrite Hlock in Hl. simpl in Hl.
  assert (exists g st, w_goroutines w !! g = Some st /\ sum_list_with scans st <> 0%nat) as (g & st & Hg & Hn).
  { unfold total, weight_of in Hl. clear Hs Hlock. induction (w_goroutines w) as [|st gs IH]; simpl in Hl; [done|].
    destruct (decide (sum_list_with scans st = 0%nat)) as [E0|E0]; [|by exists 0%nat, st].
    destruct IH as (g & st' & ? & ?); [lia|]. by exists (S g), st'. }
  eapply Forall_lookup_1 in Hs; [|exact Hg]. destruct st as [|ins st]; [done|]. simpl in Hs, Hn.
  assert (sum_list_with scans st = 0%nat) as E0.
  { apply andb_true_iff in Hs as [_ Hs]. clear -Hs. revert ins Hs.
    induction st as [|ins' st IH]; intros ins Hs; simpl in *; [done|].
    apply andb_true_iff in Hs as [[_ Hsc]%andb_true_iff Hs]. rewrite (IH _ Hs).
    by destruct ins'. }
  destruct ins; simpl in Hn; try lia. by exists g, m, todo, live, st.
Qed.

Lemma valid_lookup w j : bool_decide (j < length (w_procs w))%nat = true -> exists p, w_procs w !! j = Some p.
Proof. intros H. apply bool_decide_eq_true in H. by apply lookup_lt_is_Some_2. Qed.

(** The process an instruction works on. *)
Definition subject ins : nat :=
  match ins with
  | I_user (Some j) _ | I_cont (Some j) _ | I_deliver j _ | I_schedule j | I_addCancel j _
  | I_registerProcess j | I_invokeMsg j _ _ | I_tryRestart j | I_Shutdown j
  | I_unregister j | I_inboxStop j | I_Invoke j _ | I_shutdownChildren j
  | I_load j | I_popN j | I_park j | I_len j | I_reclaim j => j
  | _ => 0
  end.

Lemma touches_subject n ins : valid n ins = true -> forall j, touches j ins = true -> j = subject ins.
Proof.
  intros Hv j Hj. destruct ins; simpl in *; try done; try (by apply bool_decide_eq_true in Hj);
    try (destruct self; [by apply bool_decide_eq_true in Hj|done]). by rewrite Hv in Hj.
Qed.

(** Use the lookups that well-formedness gives, then split the tests of [H]. *)
Ltac enabled H :=
  repeat match goal with
  | Hp : w_procs _ !! _ = Some _ |- _ => progress (rewrite Hp in H; simpl in H)
  end;
  repeat (case_match; simplify_eq/=); try done.

Lemma scan_enabled pick w m todo live st :
  exists r, instr_step pick (I_scan m todo live) st w = Some r.
Proof.
  simpl. destruct todo as [|[id pid] todo]; simpl; [by eexists|].
  destruct (scan_step _ _ _ _). by eexists.
Qed.

(** The instructions of [Response] and [SendRepeater]. *)
Definition future_instr ins : option nat :=
  match ins with
  | I_await n | I_closeDone n | I_repeat n _ _ _ | I_ticker n _ _ | I_timer n _ _
  | I_closeRepeater n | I_waitRepeater n => Some n
  | _ => None
  end.

Lemma future_blocked n g pick ins st w :
  futures_inv n w -> w_goroutines w !! g = Some (ins :: st) -> future_instr ins = Some n ->
  instr_step pick ins st w = None -> waits w ins.
Proof.
  intros (Hr & Hs & _) Hg Hn H.
  pose proof (resolving_open n g w ins st Hr Hg) as Hro. pose proof (scheduling_open n g w ins st Hs Hg) as Hso.
  destruct ins; simplify_eq/=; rewrite ?eqn_refl in *;
    try (destruct Hro as (r & Er & Ed); [done|]); try (destruct Hso as (r & Er & Ed); [done|]);
    unfold await, closeDone, repeat_started, ticker, timer, closeRepeater, waitRepeater, goto, pget in *;
    rewrite ?Er, ?Ed in *; simpl in *; simplify_option_eq; repeat case_match; simplify_eq/=; try done;
    intros r' m' Hr' Hm; simplify_eq/=; congruence.
Qed.

(** A blocked call of user code. *)
Lemma user_blocked self pick u st w :
  (forall n, once_inv n w) -> (forall i, self = Some i -> (i < length (w_procs w))%nat) ->
  user_step pick self u st w = None -> user_waits w self u.
Proof.
  intros Ho Hi H.
  destruct u as [| |r k|r s k|o k]; simpl in *; try done.
  - by destruct self.
  - intros s Hs. by rewrite Hs in H.
  - destruct (is_context_call o) eqn:Eo.
    + destruct self as [i|]; [exfalso|done]. destruct (lookup_lt_is_Some_2 _ _ (Hi i eq_refl)) as [p Hp].
      unfold context_call, send_repeat, answer, goto, spawn_child, newProcess in H.
      destruct o; try discriminate Eo; simpl in H; enabled H.
    + unfold engine_call, send_repeat, SendAfter, Request, Result, answer, goto, WithCancel, spawn, newProcess in H.
      destruct o; try discriminate Eo; simpl in H |- *; enabled H.
      * (* Result *) unfold pget. destruct (w_responses w !! n) as [r|]; [|done]. simpl in H. by destruct (r_done r).
      * (* Stop *)
        specialize (Ho n0). unfold once_inv, pget, stop_once in *. destruct (w_repeaters w !! n0) as [r|]; [|done].
        simpl in H. rewrite Ho in H. by destruct (s_once r).
Qed.

Lemma blocked_waits i g pick ins st w :
  (forall n, futures_inv n w) -> wf_world w -> born_inv i w -> bound_inv i w -> w_goroutines w !! g = Some (ins :: st) ->
  (forall j, touches j ins = true -> j = i) ->
  instr_step pick ins st w = None -> waits w ins.
Proof.
  intros Hf [Hv Hr Hsh _] Hbo Hbd Hg Hj H.
  destruct (future_instr ins) as [n|] eqn:Hn; [by eapply future_blocked|].
  eapply Forall_lookup_1 in Hv; [|exact Hg]. eapply Forall_lookup_1 in Hsh; [|exact Hg].
  inversion Hv as [|? ? Hi Hst]; subst. simpl in Hsh. apply andb_true_iff in Hsh as [Ha Hsh].
  destruct ins; simpl in H, Hi, Ha, Hj |- *; try done;
    try (destruct (valid_lookup _ _ Hi) as [p Hp]);
    unfold return_step, childOf_return, requested_return, newEngine_return, produce, send, sendMessage, sendMiss,
    broadcast, scan, fanout, deliver, inbox_schedule, inbox_load, inbox_popN, inbox_park, inbox_len,
    inbox_reclaim, poison, addCancel, spawnProc, Start, registerProcess, unregisterProcess, invokeMsg,
    tryRestart, Shutdown, leaveParent, Invoke, shutdownChildren, goto, WithCancel, spawn, spawn_child,
    newProcess in H; enabled H.
  - eapply user_blocked; [|..|exact H]; [intros m; by destruct (Hf m) as (_ & _ & ?)|].
    intros k [= <-]. by apply bool_decide_eq_true in Hi.
  - eapply user_blocked; [|..|exact H]; [intros m; by destruct (Hf m) as (_ & _ & ?)|done].
  - inversion Hst as [|? ? Hc _]; subst. simpl in Hc. destruct (valid_lookup _ _ Hc) as [q Hq].
    rewrite Hq in H. simpl in H. by case_match.
  - by rewrite buildChain_ok in *.
  - by rewrite buildChain_ok in *.
  - (* popN without a Processer *)
    rewrite (Hj i0) in * by (by apply bool_decide_eq_true_2).
    assert (pget p_bound false i (w_procs w) = true) as Hb.
    { apply Hbd. left. eapply touched_born; [done|exact Hg|done|]. by apply bool_decide_eq_true_2. }
    rewrite (pget_some _ _ _ _ _ Hp) in Hb. by destruct (p_bound p).
Qed.

(** C8: the engine never gets stuck on its own account: in a reachable world a
    goroutine whose next instruction cannot run is one of these.  It is code of
    the package that waits for a context to be cancelled, for the goroutines of a
    cascade, for the lock of the event stream, for a reply or the timer in
    [await], for its timer or [stop] in a repeater, or for a repeater's [done];
    or it is user code that waits for a context, for that lock or for a response
    that is not done, asks [Stop] of a repeater or a read of a receiver that does
    not exist, or, outside of every actor, panics or uses a [Context].  When the
    lock is held, its holder can move.  So no channel is closed twice, no index
    is out of range, no Processer is nil, and a panic in a [Receive] never ends
    the program.  Producers are taken to return. *)
Theorem engine_never_stuck cfg pc cc w g pick ins st :
  engine_reaches cfg pc cc w -> w_goroutines w !! g = Some (ins :: st) ->
  instr_step pick ins st w = None ->
  waits w ins /\
  (w_subs_locked w = true ->
    exists g' ins' st' w', w_goroutines w !! g' = Some (ins' :: st') /\ is_scan ins' = true /\
      step (A_step g' pick) w = Some w').
Proof.
  intros Hreach Hg H. pose proof (wf_world_reachable _ _ _ _ Hreach) as Hw. split.
  - assert (valid (length (w_procs w)) ins = true) as Hv.
    { pose proof (Forall_lookup_1 _ _ _ _ (wf_valid _ Hw) Hg) as Hv. by inversion Hv. }
    eapply (blocked_waits (subject ins)); eauto using born_inv_reachable, bound_inv_reachable, futures_inv_reachable, touches_subject.
  - intros Hl. destruct (lock_holder _ Hw Hl) as (g' & m & todo & live & st' & Hg').
    destruct (scan_enabled pick w m todo live st') as [r Hr].
    eexists g', _, st', _. split; [exact Hg'|]. split; [done|]. simpl. by rewrite Hg'; simpl in *; rewrite Hr.
Qed.
End progress.
