(* ===== verification/Replies.v ===== *)
(** * Where a reply comes from

    The result of a [Response] is a message that was delivered to the responder
    that [Request] spawned for it, and to nobody else. *)

From S2P Require Import Prelude RingBuffer Inbox Pid Middleware Opts Registry EventStream.
From S2P Require Import World Engine Accounting Settled Futures Lifecycle WellFormed Progress.

Section replies.
Context {U RS Pr M : Type} `{!UserCode U RS Pr M}.
Notation world := (world U RS Pr M).
Notation process := (process U RS Pr M).
Notation instr := (instr U RS Pr M).
Notation stack := (list instr).
Notation prog := (prog U RS Pr M).
Implicit Types (w : world) (p : process) (ins : instr) (st : stack) (i j g pick c n ch : nat).
Implicit Types (ps : list process) (log : list (delivery U)) (u : prog).

(** ** What was delivered *)

Definition delivered i (m : msg U) log : Prop := exists d, d ∈ deliveries i log /\ Msg (d_env d) = m.

Lemma delivered_mono i m log log' : delivered i m log -> delivered i m (log ++ log').
Proof.
  intros (d & Hd & Hm). exists d. split; [|done]. unfold deliveries in *. rewrite filter_app.
  apply elem_of_app. by left.
Qed.

Lemma delivered_last i life env log : delivered i (Msg env) (log ++ [MkDelivery i life env]).
Proof.
  exists (MkDelivery i life env). split; [|done]. rewrite deliveries_snoc, decide_True by done.
  apply elem_of_app. right. by left.
Qed.

(** The message in the [Context] is one that was delivered. *)
Definition context_inv i w : Prop :=
  deliveries i (w_log w) = [] \/ delivered i (pget p_message NilMsg i (w_procs w)) (w_log w).

Lemma context_inv_step i a w w' : context_inv i w -> step a w = Some w' -> context_inv i w'.
Proof.
  unfold context_inv. intros Hi H. destruct a as [g pick|u]; [|by account_go H].
  step_open H. step_split; try done.
  (* invokeMsg *)
  all: destruct (decide (i = i0)) as [->|Hn];
    [right; erewrite pget_alter_eq by done; apply delivered_last
    |rewrite pget_alter_ne, deliveries_snoc, decide_False, app_nil_r by (simpl; congruence)].
  all: destruct Hi as [?|?]; [by left|right; by apply delivered_mono].
Qed.

(** ** What a responder is *)

Definition producer_at i w : option (producer Pr) :=
  pget (fun p => Some (Producer (p_opts p))) None i (w_procs w).

Definition is_responder i ch w : Prop := producer_at i w = Some (P_response ch).

(** Only [Request] builds them, without middleware. *)
Definition proc_ok p : Prop :=
  (forall r, p_receiver p = Some r -> r.1 = Producer (p_opts p)) /\
  (forall ch, Producer (p_opts p) = P_response ch -> o_Middleware (p_opts p) = []) /\
  (forall ch h, Producer (p_opts p) = P_response ch -> p_chain p = Some h -> h = responder).

Lemma spawned_producer id (pr : producer Pr) kind (opts : list (@option_spec M)) :
  Producer (with_id id (build_opts pr kind (map opt_func opts))) = pr.
Proof. unfold with_id. rewrite build_opts_fields. done. Qed.

Lemma procs_ok_step a w w' : Forall proc_ok (w_procs w) -> step a w = Some w' -> Forall proc_ok (w_procs w').
Proof.
  intros Hi H. destruct a as [g pick|u]; [|by account_go H].
  step_open H. step_split; try done;
    try (apply Forall_alter; [done|intros q _ Hq; exact Hq]);
    try (apply Forall_app; split; [done|]; constructor; [|done]; split_and!; simpl; intros; try done;
         unfold with_id, set_parent in *; rewrite ?build_opts_fields in *; done).
  (* Start *)
  apply Forall_alter; [done|]. intros q Hq (Hr & Hm & Hc). simplify_eq. split_and!; simpl; [|done|].
  - by intros r [= <-].
  - intros ch h Hp [= <-]. rewrite (Hm _ Hp), Hp in H0. by injection H0 as <-.
Qed.

(** ** Responders run the responder *)

Definition replying i u w : Prop :=
  u = responder \/ u = offer_message \/ u = Ret \/
  exists m, u = Call (Offer m) (fun _ => Ret) /\ delivered i m (w_log w).

Definition reply_ok w ins : Prop :=
  match ins with
  | I_user (Some i) u => forall ch, is_responder i ch w -> replying i u w
  | I_cont (Some i) _ => forall ch, ~ is_responder i ch w
  | _ => True
  end.

Lemma step_log a w w' : step a w = Some w' -> exists l, w_log w' = w_log w ++ l.
Proof.
  intros H. destruct a as [g pick|u]; [|account_go H; exists []; by rewrite app_nil_r].
  step_open H. simpl. destruct (is_invoke ins) as [[[[j life] env] ->]|Hno].
  - rewrite (invoke_log _ _ _ _ _ _ _ Hr). eauto.
  - rewrite (other_log _ _ _ _ _ Hno Hr). exists []. by rewrite app_nil_r.
Qed.

Lemma producer_at_step i a w w' :
  step a w = Some w' -> (i < length (w_procs w))%nat -> producer_at i w' = producer_at i w.
Proof.
  unfold producer_at. intros H Hi. destruct a as [g pick|u]; [|by account_go H].
  assert (made i (w_procs w) = 1%nat) as Hm by (unfold made; lia).
  step_open H. step_split; by rewrite ?pget_made.
Qed.

Lemma reply_ok_mono a w w' ins :
  step a w = Some w' -> valid (length (w_procs w)) ins = true -> reply_ok w ins -> reply_ok w' ins.
Proof.
  intros H Hv. destruct (step_log _ _ _ H) as [l Hl].
  destruct ins; simpl in *; try done; destruct self as [i|]; try done;
    apply bool_decide_eq_true in Hv; unfold is_responder; rewrite (producer_at_step i _ _ _ H Hv); [|done].
  intros Hr ch Hch. destruct (Hr ch Hch) as [?|[?|[?|(m & ? & ?)]]]; unfold replying; [tauto..|].
  right; right; right. exists m. rewrite Hl. eauto using delivered_mono.
Qed.

(** One step of a responder. *)
Lemma responder_step i ch u pick st w r :
  is_responder i ch w -> replying i u w -> context_inv i w -> deliveries i (w_log w) <> [] ->
  instr_step pick (I_user (Some i) u) st w = Some r ->
  w_goroutines r.1 = w_goroutines w /\ w_log r.1 = w_log w /\
  (r.2 = st \/ exists u', r.2 = I_user (Some i) u' :: st /\ replying i u' w).
Proof.
  intros Hch Hu Hc Hd H. destruct Hc as [?|Hc]; [done|].
  destruct Hu as [->|[->|[->|(m & -> & _)]]]; simpl in H; step_instr H; simpl; split_and!; try done;
    try (by left); right; eexists; (split; [done|]);
    rewrite ?(pget_some _ _ _ _ _ Heqo) in *; unfold replying; try tauto.
  right; right; right. eauto.
Qed.

(** Every stack keeps to it. *)
Definition stacks_ok w : Prop := Forall (Forall (reply_ok w)) (w_goroutines w).

(** What [invokeMsg] calls for a responder. *)
Lemma invoked_responder i ch w p h (f : process -> process) :
  Forall proc_ok (w_procs w) -> w_procs w !! i = Some p -> (forall q, p_opts (f q) = p_opts q) ->
  pget (fun p => Some (Producer (p_opts p))) None i (alter f i (w_procs w)) = Some (P_response ch) ->
  p_chain p = Some h \/ (exists x, p_receiver p = Some x /\ h = receive_of x) -> h = responder.
Proof.
  intros Hp Hi Hf Hch Hh. rewrite (pget_alter_eq _ _ _ _ _ _ Hi), Hf in Hch. injection Hch as Hch.
  destruct (Forall_lookup_1 _ _ _ _ Hp Hi) as (Hr & _ & Hc).
  destruct Hh as [Hh|(x & Hh & ->)]; [by eapply Hc|].
  specialize (Hr _ Hh). unfold receive_of. by rewrite Hr, Hch.
Qed.

Ltac ok_stack :=
  repeat (first [done|apply Forall_nil_2|apply Forall_cons; split]);
  try (intros ? ?; match goal with Hno : forall ch, ~ _ |- _ => by edestruct Hno end).

Lemma stack_step g pick ins st w r w' :
  wf_world w -> Forall proc_ok (w_procs w) -> Forall (reply_ok w) (ins :: st) ->
  (forall i, context_inv i w /\ born_inv i w) -> w_goroutines w !! g = Some (ins :: st) ->
  instr_step pick ins st w = Some r ->
  w' = set_goroutines (<[g := r.2]> (w_goroutines r.1)) r.1 ->
  Forall (reply_ok w') r.2 /\ exists new, w_goroutines r.1 = w_goroutines w ++ new /\ Forall (Forall (reply_ok w')) new.
Proof.
  intros Hwf Hp Hs Hc Hg H ->. set (w' := set_goroutines _ _).
  assert (step (A_step g pick) w = Some w') as Hst by (simpl; rewrite Hg; simpl; by rewrite H).
  assert (Forall (reply_ok w') (ins :: st)) as Hs'.
  { pose proof (Forall_lookup_1 _ _ _ _ (wf_valid _ Hwf) Hg) as Hv. simpl in Hv.
    apply Forall_forall. intros x Hx. rewrite Forall_forall in Hs, Hv.
    eapply reply_ok_mono; [done| |]; auto. }
  inversion Hs' as [|? ? Hi Hst']; subst.
  assert (forall i, (exists u, ins = I_user (Some i) u) -> (exists ch, is_responder i ch w) \/
    forall ch, ~ is_responder i ch w') as Hcase.
  { intros i [u ->]. pose proof (Forall_lookup_1 _ _ _ _ (wf_valid _ Hwf) Hg) as Hv.
    inversion Hv as [|? ? Hv' _]; subst. simpl in Hv'. apply bool_decide_eq_true in Hv'.
    unfold is_responder. rewrite (producer_at_step i _ _ _ Hst Hv').
    destruct (producer_at i w) as [[]|]; [right|right|left|right]; by eauto. }
  destruct ins; simpl in H.
  1: { destruct self as [i|].
    - destruct (Hcase i) as [[ch Hch]|Hno]; [by eauto| |].
      + inversion Hs as [|? ? Hu _]; subst. destruct (Hc i) as [Hci Hb].
        destruct (responder_step i ch p pick st w r Hch (Hu ch Hch) Hci) as (Hgs & Hl & Hr2); [|done|].
        { eapply touched_born; [done|exact Hg|done|]. simpl. by apply bool_decide_eq_true_2. }
        split; [|exists []; by rewrite Hgs, app_nil_r].
        destruct Hr2 as [->|(u' & -> & Hu')]; [done|]. constructor; [|done]. intros ch' _.
        unfold replying in *. unfold w'. simpl. by rewrite Hl.
      + step_instr H; simpl; (split; [ok_stack|first [exists []; by rewrite app_nil_r|eexists; split; [done|ok_stack]]]).
    - step_instr H; simpl; (split; [ok_stack|first [exists []; by rewrite app_nil_r|eexists; split; [done|ok_stack]]]). }
  all: step_instr H; simpl; (split; [try solve [ok_stack]|first [exists []; by rewrite app_nil_r|eexists; split; [done|try solve [ok_stack]]]]).
  1-5: inversion Hst' as [|? ? Hk Hl]; subst; try solve [ok_stack].
  - (* the value reaches user code *)
    constructor; [|done]. destruct self as [i|]; [|done]. intros ch Hch. by destruct (Hk ch).
  - (* the chain *)
    constructor; [|done]. intros ch Hch. left.
    eapply invoked_responder; [exact Hp|exact Heqo| |exact Hch|by left]. done.
  - (* Receive *)
    constructor; [|done]. intros ch Hch. left.
    eapply invoked_responder; [exact Hp|exact Heqo| |exact Hch|right; by eexists]. done.
  - apply Forall_map, Forall_true. intros pid. by repeat constructor.
Qed.

Record runs_ok w : Prop := RunsOk {
  ro_wf : wf_world w;
  ro_procs : Forall proc_ok (w_procs w);
  ro_context : forall i, context_inv i w /\ born_inv i w;
  ro_stacks : stacks_ok w;
}.

Lemma runs_ok_step a w w' : runs_ok w -> step a w = Some w' -> runs_ok w'.
Proof.
  intros [Hwf Hp Hc Hs] H. split.
  - by eapply wf_world_step.
  - by eapply procs_ok_step.
  - intros i. destruct (Hc i). split; [by eapply context_inv_step|by eapply born_inv_step].
  - pose proof (wf_valid _ Hwf) as Hv. assert (Forall (Forall (reply_ok w')) (w_goroutines w)) as Hs'.
    { apply Forall_forall. intros st Hst. apply Forall_forall. intros ins Hins.
      rewrite Forall_forall in Hv. specialize (Hv st Hst). rewrite Forall_forall in Hv.
      unfold stacks_ok in Hs. rewrite Forall_forall in Hs. specialize (Hs st Hst). rewrite Forall_forall in Hs.
      eapply reply_ok_mono; eauto. }
    unfold stacks_ok. destruct a as [g pick|u].
    + apply step_inv in H as (ins & st & r & Hg & Hr & Hw).
      destruct (stack_step g pick ins st w r w') as (H2 & new & Hn & Hnew); try done.
      { by eapply Forall_lookup_1 in Hs. }
      rewrite Hw at 2. simpl. apply Forall_insert; [|done]. rewrite Hn. by apply Forall_app.
    + simpl in H. destruct (engine_ready w); [|done]. injection H as <-. simpl in *.
      apply Forall_app. split; [done|by repeat constructor].
Qed.

Lemma runs_ok_new cfg pc cc : runs_ok (NewEngine cfg pc cc).
Proof.
  split.
  - apply wf_world_new.
  - constructor; [|done]. by split_and!.
  - intros i. split; [by left|apply born_inv_new].
  - by repeat constructor.
Qed.

(** ** Replies travel from the delivery to the result *)

Definition replied ch (m : msg U) w : Prop := exists i, is_responder i ch w /\ delivered i m (w_log w).

Lemma replied_mono ch m a w w' : step a w = Some w' -> replied ch m w -> replied ch m w'.
Proof.
  intros H (i & Hi & Hd). exists i. destruct (step_log _ _ _ H) as [l Hl]. split.
  - unfold is_responder in *. rewrite (producer_at_step i _ _ _ H); [done|].
    unfold producer_at, pget in Hi. destruct (w_procs w !! i) eqn:E; [|done]. by eapply lookup_lt_Some.
  - rewrite Hl. by apply delivered_mono.
Qed.

Definition channels_ok w : Prop := forall ch m, w_replyChs w !! ch = Some (Some m) -> replied ch m w.

Lemma channel_kept ch m a w w' :
  runs_ok w -> step a w = Some w' -> w_replyChs w' !! ch = Some (Some m) ->
  w_replyChs w !! ch = Some (Some m) \/ replied ch m w.
Proof.
  intros [_ Hp _ Hs] H Hch. destruct a as [g pick|u]; [|account_go H; by left].
  step_open H. step_split; auto.
  - (* Offer *)
    apply list_lookup_insert_Some in Hch as [(<- & [= <-] & _)|[_ ?]]; [right|by left].
    destruct (Forall_lookup_1 _ _ _ _ Hp Heqo0) as (Hr & _). specialize (Hr _ H). simpl in Hr.
    assert (is_responder n ch0 w) as Hn by (unfold is_responder, producer_at; by rewrite (pget_some _ _ _ _ _ Heqo0), <- Hr).
    exists n. split; [done|]. pose proof (Forall_lookup_1 _ _ _ _ Hs Hg) as Hu.
    inversion Hu as [|? ? Hu' _]; subst. destruct (Hu' _ Hn) as [?|[?|[?|(m' & [= <- _] & ?)]]]; done.
  - (* Request *) left.
    apply lookup_app_Some in Hch as [?|[_ Hch]]; [done|]. by apply list_lookup_singleton_Some in Hch as [_ ?].
  - (* await *)
    left. by apply list_lookup_insert_Some in Hch as [(_ & ? & _)|[_ ?]].
Qed.

Definition responses_ok w : Prop := forall n r, w_responses w !! n = Some r ->
  total (awaiting n) w = 0%nat -> r_err r = false -> replied (r_replyCh r) (r_result r) w.

Lemma responses_ok_step a w w' :
  (forall n, response_inv n w) -> channels_ok w -> responses_ok w -> step a w = Some w' -> responses_ok w'.
Proof.
  intros Hi Hch Hr H n r Hn Hz He. apply (replied_mono _ _ _ _ _ H). specialize (Hr n). revert Hn Hz He.
  destruct a as [g pick|u]; [|account_go H; rewrite Nat.add_0_r; apply Hr].
  step_open H. balance (awaiting (U:=U) (RS:=RS) (Pr:=Pr) (M:=M) n).
  step_split; intros Hn Hz He; try (apply Hr; (done || lia)).
  - (* newResponse *)
    apply lookup_app_Some in Hn as [?|[Hge Hn]]; [apply Hr; (done || lia)|].
    apply list_lookup_singleton_Some in Hn as [Hn _].
    assert (n = length (w_responses w)) as -> by lia. rewrite eqn_refl in Ht. lia.
  - (* await, a reply *)
    apply list_lookup_alter_Some in Hn as [(<- & r' & Hn & ->)|[Hne Hn]].
    + simplify_eq/=. by apply Hch.
    + rewrite eqn_ne in * by congruence. apply Hr; (done || lia).
  - (* await, the timer *)
    apply list_lookup_alter_Some in Hn as [(<- & r' & Hn & ->)|[Hne Hn]]; [done|].
    rewrite eqn_ne in * by congruence. apply Hr; (done || lia).
  - (* closeDone *)
    apply list_lookup_alter_Some in Hn as [(<- & r' & Hn & ->)|[Hne Hn]];
      [apply (Hr r')|apply Hr]; (done || lia).
Qed.

(** ** Every reply channel has one responder and one response *)

Definition serves ch p : nat := match Producer (p_opts p) with P_response c => eqn ch c | _ => 0 end.
Definition requesting ch ins : nat :=
  match ins with I_requested c _ _ | I_newResponse c _ => eqn ch c | _ => 0 end.
Definition awaited ch (r : response U) : nat := eqn ch (r_replyCh r).

Definition channel_inv ch w : Prop :=
  sum_list_with (serves ch) (w_procs w) = made ch (w_replyChs w) /\
  (total (requesting ch) w + sum_list_with (awaited ch) (w_responses w) = made ch (w_replyChs w))%nat.

Lemma made_insert {A} n ch (x : A) l : made n (<[ch:=x]> l) = made n l.
Proof. unfold made. by rewrite length_insert. Qed.

Lemma channel_inv_step ch a w w' : channel_inv ch w -> step a w = Some w' -> channel_inv ch w'.
Proof.
  unfold channel_inv. intros [Hp Hr] H. destruct a as [g pick|u]; [|account_go H; by split].
  step_open H. balance (requesting ch). step_split;
    rewrite ?made_snoc, ?made_insert, ?sum_alter_keep, ?sum_list_with_app by done; simpl; try (split; lia).
  all: unfold serves, awaited, with_id, set_parent in *; rewrite ?build_opts_fields; simpl; split; lia.
Qed.

Record answers_ok w : Prop := AnswersOk {
  ao_runs : runs_ok w;
  ao_futures : forall n, response_inv n w;
  ao_channels : channels_ok w;
  ao_responses : responses_ok w;
  ao_channel : forall ch, channel_inv ch w;
}.

Lemma answers_ok_reachable cfg pc cc w : engine_reaches cfg pc cc w -> answers_ok w.
Proof.
  apply reachable_invariant.
  - intros a w1 w2 [Hr Hf Hc Ha Hi] H. split; [by eapply runs_ok_step|..].
    + intros n. by eapply response_inv_step.
    + intros ch m Hm. apply (replied_mono _ _ _ _ _ H).
      destruct (channel_kept _ _ _ _ _ Hr H Hm) as [?|?]; [by apply Hc|done].
    + by eapply responses_ok_step.
    + intros ch. by eapply channel_inv_step.
  - split; [apply runs_ok_new|done..|]. intros ch. by destruct cfg as [[]].
Qed.

(** At most one responder, and at most one response, per reply channel. *)
Lemma one_responder ch w i j p q :
  channel_inv ch w -> w_procs w !! i = Some p -> w_procs w !! j = Some q ->
  Producer (p_opts p) = P_response ch -> Producer (p_opts q) = P_response ch -> i = j.
Proof.
  intros [Hs _] Hi Hj Hp Hq. apply (sum_list_unique (serves ch) (w_procs w) i j p q); try done.
  - rewrite Hs. unfold made. lia.
  - unfold serves. by rewrite Hp, eqn_refl.
  - unfold serves. by rewrite Hq, eqn_refl.
Qed.

Lemma one_response w n n' r r' :
  channel_inv (r_replyCh r) w -> w_responses w !! n = Some r -> w_responses w !! n' = Some r' ->
  r_replyCh r' = r_replyCh r -> n' = n.
Proof.
  intros [_ Hs] Hn Hn' E.
  apply (sum_list_unique (awaited (r_replyCh r)) (w_responses w) n' n r' r); try done;
    unfold awaited; rewrite ?E, ?eqn_refl; [|done..].
  unfold made, awaited in *. lia.
Qed.

(** ** Property *)

(** C15: the result of a request that did not time out is a message that was
    delivered to the responder [Request] spawned for it. That responder is the
    only process serving the request's reply channel, and no other response
    waits on that channel: replies of different requests cannot be mixed up. *)
Theorem reply_was_delivered cfg pc cc w n r :
  engine_reaches cfg pc cc w -> w_responses w !! n = Some r -> r_done r = true -> r_err r = false ->
  exists i p d, w_procs w !! i = Some p /\ Producer (p_opts p) = P_response (r_replyCh r) /\
    d ∈ w_log w /\ d_proc d = i /\ Msg (d_env d) = r_result r /\
    (forall j q, w_procs w !! j = Some q -> Producer (p_opts q) = P_response (r_replyCh r) -> j = i) /\
    (forall n' r', w_responses w !! n' = Some r' -> r_replyCh r' = r_replyCh r -> n' = n).
Proof.
  intros H Hn Hd He. destruct (answers_ok_reachable _ _ _ _ H) as [_ Hf _ Ha Hch].
  destruct (Ha n r Hn) as (i & Hi & d & Hdl & Hm); [|done|].
  - pose proof (awaiting_le n w). pose proof (response_done_idle n w r (Hf n) Hn Hd). lia.
  - unfold is_responder, producer_at, pget in Hi. destruct (w_procs w !! i) as [p|] eqn:Hp; [|done].
    injection Hi as Hi. exists i, p, d. unfold deliveries in Hdl. apply list_elem_of_filter in Hdl as [? ?].
    split_and!; try done; intros.
    + by eapply one_responder.
    + by eapply one_response.
Qed.
End replies.
