(* ===== verification/Mailbox.v ===== *)
(** * The mailbox of a process as a FIFO queue

    The envelopes of a process are in its ring buffer, in the batch its processor
    has taken, or in the hands of [invokeMsg].  Together they behave as one
    abstract mailbox: envelopes enter at the back, are handed to [Receive] from
    the front, and a pill throws away the rest of its batch. *)

From S2P Require Import Prelude RingBuffer Inbox Pid Middleware Opts Registry EventStream.
From S2P Require Import World Engine Accounting Teardown Scheduling Settled Lifecycle WellFormed.

(** ** The specification *)

Section spec.
Context {U : Type}.
Implicit Types (env : Envelope U) (box got acc : list (Envelope U)).

(** The batch that was taken, the queue behind it, what has been received; the
    label is what came in. *)
Record mb := MkMb { mb_taken : list (Envelope U); mb_queue : list (Envelope U); mb_got : list (Envelope U) }.

Inductive mb_step : list (Envelope U) -> mb -> mb -> Prop :=
  | MB_idle s : mb_step [] s s
  | MB_accept env taken q got : mb_step [env] (MkMb taken q got) (MkMb taken (q ++ [env]) got)
  | MB_take q got : q <> [] ->
      mb_step [] (MkMb [] q got)
        (MkMb (take (Z.to_nat defaultThroughput) q) (drop (Z.to_nat defaultThroughput) q) got)
  | MB_receive env taken q got : is_pill (Msg env) = false ->
      mb_step [] (MkMb (env :: taken) q got) (MkMb taken q (got ++ [env]))
  | MB_pill env taken q got : is_pill (Msg env) = true ->
      mb_step [] (MkMb (env :: taken) q got) (MkMb [] q got).

(** Everything that waits. *)
Definition mb_box (s : mb) : list (Envelope U) := mb_taken s ++ mb_queue s.

Lemma mb_step_got lab s s' : mb_step lab s s' ->
  mb_got s' = mb_got s \/ exists env, is_pill (Msg env) = false /\ mb_got s' = mb_got s ++ [env].
Proof. intros []; simpl; eauto. Qed.

(** Nothing overtakes, nothing is duplicated, and only a pill loses anything. *)
Definition fifo acc box got : Prop :=
  got ++ box `sublist_of` acc /\ (Forall (fun env => is_pill (Msg env) = false) acc -> got ++ box = acc).

Lemma fifo_step lab acc s s' :
  fifo acc (mb_box s) (mb_got s) -> mb_step lab s s' -> fifo (acc ++ lab) (mb_box s') (mb_got s').
Proof.
  unfold fifo, mb_box. intros [Hs He] H.
  destruct H as [s|env t q got|q got _|env t q got Hp|env t q got Hp]; simpl in *; rewrite ?app_nil_r.
  - done.
  - rewrite !app_assoc in *. split; [by apply sublist_app|].
    intros [Ha _]%Forall_app. by rewrite He.
  - by rewrite take_drop.
  - by rewrite <- app_assoc.
  - split.
    + etrans; [|exact Hs]. apply sublist_app; [done|]. apply sublist_cons, sublist_inserts_l. done.
    + intros Ha. specialize (He Ha). subst acc. apply Forall_app in Ha as [_ Ha].
      inversion Ha; subst. congruence.
Qed.
End spec.

Section mailbox.
Context {U RS Pr M : Type} `{!UserCode U RS Pr M}.
Notation world := (world U RS Pr M).
Notation process := (process U RS Pr M).
Notation instr := (instr U RS Pr M).
Notation stack := (list instr).
Implicit Types (w : world) (p : process) (ins : instr) (st : stack) (i j g pick : nat).
Implicit Types (gs : list stack) (log : list (delivery U)).

(** ** The envelopes of a process *)

(** [l] for process [j], when that is [i]. *)
Definition only {A} i j (l : list A) : list A := if decide (i = j) then l else [].

Lemma only_self {A} i (l : list A) : only i i l = l.
Proof. unfold only. by rewrite decide_True. Qed.

Lemma only_ne {A} i j (l : list A) : i <> j -> only i j l = [].
Proof. intros. unfold only. by rewrite decide_False. Qed.

(** Taken from the ring buffer, not yet received. *)
Definition held i ins : list (Envelope U) :=
  match ins with
  | I_Invoke j msgs => only i j msgs
  | I_invokeMsg j false env => only i j [env]
  | _ => []
  end.

Definition held_by i st : list (Envelope U) := flat_map (held i) st.
Definition batch i gs : list (Envelope U) := flat_map (held_by i) gs.

Definition mailbox i w : list (Envelope U) := batch i (w_goroutines w) ++ pget p_queue [] i (w_procs w).

(** The envelopes of the mailbox that have reached [Receive], in order. *)
Definition received_of i (d : delivery U) : list (Envelope U) :=
  if d_lifecycle d then [] else only i (d_proc d) [d_env d].
Definition received i w : list (Envelope U) := flat_map (received_of i) (w_log w).

(** What a step puts into the mailbox. *)
Definition accepts i (a : @act U RS Pr M) w : list (Envelope U) :=
  match a with
  | A_step g _ =>
      match w_goroutines w !! g with
      | Some (I_deliver j env :: _) =>
          only i j [env]
      | _ => []
      end
  | A_go _ => []
  end.

(** ** Only the owner of the queue holds envelopes *)

(** Pills do not get as far as [invokeMsg]. *)
Definition visible ins : Prop :=
  match ins with I_invokeMsg _ false env => is_pill (Msg env) = false | _ => True end.

(** Whoever holds envelopes of [i] has its loop below. *)
Fixpoint covered i st : Prop :=
  match st with
  | [] => True
  | ins :: st => (held i ins <> [] -> 1 <= sum_list_with (owns i) st)%nat /\ visible ins /\ covered i st
  end.

Lemma covered_held i st : covered i st -> held_by i st <> [] -> (1 <= sum_list_with (owns i) st)%nat.
Proof.
  unfold held_by. induction st as [|ins st IH]; simpl; [done|]. intros (Hi & _ & Hc) Hn.
  destruct (held i ins) as [|e l]; simpl in *; [specialize (IH Hc Hn); lia|].
  specialize (Hi ltac:(done)). lia.
Qed.

Lemma step_covered i pick ins st w r :
  covered i (ins :: st) -> instr_step pick ins st w = Some r -> covered i r.2.
Proof.
  intros (Hi & Hv & Hc) H. destruct ins; simpl in H, Hi; step_instr H; simpl in *; try tauto;
    destruct (decide (i = i0)) as [->|Hn]; rewrite ?only_self, ?only_ne, ?eqn_refl in * by done;
    split_and!; try done; try (rewrite H0; done); intros; try lia; by apply Hi.
Qed.

Lemma step_new_covered i pick ins st w r :
  Forall (covered i) (w_goroutines w) -> instr_step pick ins st w = Some r ->
  exists new, w_goroutines r.1 = w_goroutines w ++ new /\ Forall (covered i) new /\ batch i new = [].
Proof.
  intros Hc H. destruct ins; simpl in H; step_instr H; simpl;
    try (exists []; rewrite app_nil_r; by split_and!); eexists; (split; [done|]);
    try (split; [by repeat constructor|done]).
  split; [apply Forall_map, Forall_true; by intros|]. by induction (childPIDs _ _).
Qed.

(** The part of the batch that a step works on is all of it, for the owner. *)
Lemma batch_none i gs : Forall (covered i) gs -> weight_of (owns i) gs = 0%nat -> batch i gs = [].
Proof.
  unfold weight_of, batch. induction 1 as [|st gs Hc _ IH]; simpl; [done|]. intros Hw.
  rewrite IH by lia. rewrite app_nil_r. destruct (held_by i st) eqn:E; [done|].
  pose proof (covered_held i st Hc) as Hh. rewrite E in Hh. specialize (Hh ltac:(done)). lia.
Qed.

Lemma batch_app i gs gs' : batch i (gs ++ gs') = batch i gs ++ batch i gs'.
Proof. apply flat_map_app. Qed.

Lemma batch_step i gs g st st' new :
  gs !! g = Some st -> batch i new = [] -> Forall (covered i) gs -> (weight_of (owns i) gs <= 1)%nat ->
  exists before behind, batch i gs = before ++ held_by i st ++ behind /\
    batch i (<[g := st']> (gs ++ new)) = before ++ held_by i st' ++ behind /\
    ((1 <= sum_list_with (owns i) st)%nat -> before = [] /\ behind = []).
Proof.
  intros Hg Hnew Hc Hw. apply list_elem_of_split_length in Hg as (l1 & l2 & -> & ->).
  exists (batch i l1), (batch i l2). apply Forall_app in Hc as [Hc1 Hc2]. inversion Hc2; subst.
  rewrite weight_of_app in Hw. unfold weight_of in Hw at 2. simpl in Hw.
  split; [by rewrite batch_app|]. split.
  - rewrite <- app_assoc. simpl. rewrite insert_app_r_alt, Nat.sub_diag by lia. simpl.
    rewrite !batch_app. simpl. rewrite batch_app, Hnew, app_nil_r. done.
  - intros Ho. split; apply batch_none; try done; unfold weight_of in *; lia.
Qed.

(** A batch is above the loop that took it, a message above its batch. *)
Definition seated ins st : Prop :=
  match ins with
  | I_Invoke j _ => exists st', st = I_load j :: st'
  | I_invokeMsg j false _ => exists l st', st = I_Invoke j l :: st'
  | _ => True
  end.

Fixpoint tight st : Prop :=
  match st with [] => True | ins :: st => seated ins st /\ tight st end.

Lemma tight_step pick ins st w r :
  tight (ins :: st) -> instr_step pick ins st w = Some r ->
  tight r.2 /\ exists new, w_goroutines r.1 = w_goroutines w ++ new /\ Forall tight new.
Proof.
  intros Ht H. destruct ins; simpl in H, Ht; step_instr H; simpl in *;
    (split; [intuition eauto|first [exists []; rewrite app_nil_r; by split|eexists; split; [done|]]]);
    try (by repeat constructor); try (by apply Forall_map, Forall_true).
Qed.

Lemma tight_world_step a w w' :
  Forall tight (w_goroutines w) -> step a w = Some w' -> Forall tight (w_goroutines w').
Proof.
  intros Hn H. destruct a as [g pick|u].
  - step_open H. destruct (tight_step pick ins st w r) as (Hr2 & new & Hnew & Hall); [|done|].
    + by eapply (Forall_lookup_1 _ _ _ _ Hn).
    + simpl. rewrite Hnew. apply Forall_insert; [by apply Forall_app|done].
  - account_go H. apply Forall_app. split; [done|by repeat constructor].
Qed.

Record mail_inv i w : Prop := MailInv {
  mi_sched : sched_inv i w;
  mi_wf : wf_world w;
  mi_covered : Forall (covered i) (w_goroutines w);
  mi_tight : Forall tight (w_goroutines w);
}.

Lemma mail_inv_step i a w w' : mail_inv i w -> step a w = Some w' -> mail_inv i w'.
Proof.
  intros [Hs Hw Hc Ht] H. split; [by eapply sched_inv_step|by eapply wf_world_step| |by eapply tight_world_step].
  destruct a as [g pick|u].
  - step_open H. destruct (step_new_covered i pick ins st w r Hc Hr) as (new & Hn & Hnc & _). simpl.
    rewrite Hn. apply Forall_insert; [by apply Forall_app|].
    eapply step_covered; [|done]. by eapply Forall_lookup_1 in Hc.
  - account_go H. apply Forall_app. split; [done|by repeat constructor].
Qed.

Lemma mail_inv_new i cfg pc cc : mail_inv i (NewEngine cfg pc cc).
Proof.
  split; [apply (settled_inv_new cfg pc cc i)|apply wf_world_new|by repeat constructor..].
Qed.

Lemma owned_once i w : sched_inv i w -> (weight_of (owns i) (w_goroutines w) <= 1)%nat.
Proof. unfold sched_inv, sched_ok, total. intuition lia. Qed.

Lemma received_snoc i (d : delivery U) log :
  flat_map (received_of i) (log ++ [d]) = flat_map (received_of i) log ++ received_of i d.
Proof. rewrite flat_map_app. simpl. by rewrite app_nil_r. Qed.

(** Steps that move nothing, as far as [i] is concerned. *)
Definition inert i ins : bool :=
  match ins with
  | I_deliver j _ | I_popN j | I_invokeMsg j false _ => bool_decide (i <> j)
  | I_Invoke j (env :: _) => bool_decide (i <> j) || negb (is_pill (Msg env))
  | _ => true
  end.

Lemma inert_step i pick ins st w r :
  inert i ins = true -> instr_step pick ins st w = Some r ->
  held_by i r.2 = held_by i (ins :: st) /\
  pget p_queue [] i (w_procs r.1) = pget p_queue [] i (w_procs w) /\
  flat_map (received_of i) (w_log r.1) = flat_map (received_of i) (w_log w).
Proof.
  unfold held_by. intros Hin H. destruct ins; simpl in H, Hin; step_instr H; simpl;
    rewrite ?pget_keep, ?pget_new, ?received_snoc by done; unfold received_of; simpl; rewrite ?app_nil_r; try done;
    rewrite ?only_self; rewrite ?only_ne, ?pget_alter_ne by done; simpl; rewrite ?app_nil_r; done.
Qed.

Lemma inert_accepts i g pick ins st w :
  w_goroutines w !! g = Some (ins :: st) -> inert i ins = true -> accepts i (A_step g pick) w = [].
Proof.
  intros Hg Hin. simpl. rewrite Hg. destruct ins; try done. simpl in Hin.
  apply bool_decide_eq_true in Hin. by apply only_ne.
Qed.

(** What the other steps do to the envelopes held by the goroutine, to the ring
    buffer and to what was received. *)
Lemma active_step i pick ins st w r :
  inert i ins = false -> visible ins -> valid (length (w_procs w)) ins = true ->
  instr_step pick ins st w = Some r ->
  let q := pget p_queue [] i (w_procs w) in
  let got := flat_map (received_of i) (w_log w) in
  let q' := pget p_queue [] i (w_procs r.1) in
  let got' := flat_map (received_of i) (w_log r.1) in
  (exists env, ins = I_deliver i env /\ held_by i r.2 = held_by i st /\ q' = q ++ [env] /\ got' = got) \/
  (ins = I_popN i /\ got' = got /\
     (held_by i r.2 = held_by i st /\ q' = q \/
      q <> [] /\ held_by i r.2 = take (Z.to_nat defaultThroughput) q ++ held_by i st /\
        q' = drop (Z.to_nat defaultThroughput) q)) \/
  (exists env, ins = I_invokeMsg i false env /\ is_pill (Msg env) = false /\
     held_by i r.2 = held_by i st /\ q' = q /\ got' = got ++ [env]) \/
  (exists env l, ins = I_Invoke i (env :: l) /\ is_pill (Msg env) = true /\
     held_by i r.2 = held_by i st /\ q' = q /\ got' = got).
Proof.
  unfold held_by. intros Hin Hv Hval H. destruct ins; simpl in Hin; try discriminate Hin;
    try (destruct lifecycle; try discriminate Hin); try (destruct msgs as [|env msgs]; try discriminate Hin).
  all: try (apply orb_false_iff in Hin as [Hin Hpill]); apply bool_decide_eq_false, dec_stable in Hin; subst i0.
  - (* deliver *) simpl in H, Hval. apply bool_decide_eq_true, lookup_lt_is_Some_2 in Hval as [p Hp].
    step_instr H. left. exists env. rewrite (pget_alter_eq _ _ _ _ _ _ Hp), (pget_some _ _ _ _ _ Hp). by split_and!.
  - (* invokeMsg *)
    assert (r.2 = I_tryRestart i :: st \/ exists u, r.2 = I_user (Some i) u :: st) as Hr2.
    { simpl in H. step_instr H; eauto. }
    pose proof (invoke_log _ _ _ _ _ _ _ H) as Hl. simpl in Hv.
    right; right; left. exists env. split; [done|]. split; [done|]. rewrite Hl, received_snoc.
    unfold received_of at 2. simpl. rewrite only_self. split_and!; [|simpl in H; step_instr H; simpl; by rewrite pget_keep|done].
    destruct Hr2 as [->|[u ->]]; done.
  - (* Invoke *)
    right; right; right. exists env, msgs. apply negb_false_iff in Hpill.
    simpl in H. unfold is_pill in Hpill. destruct (Msg env) eqn:Em; try discriminate Hpill.
    step_instr H. by split_and!.
  - (* popN *)
    right; left. split; [done|]. simpl in H. step_instr H; simpl; (split; [done|]).
    + right. rewrite only_self, (pget_alter_eq _ _ _ _ _ _ Heqo), (pget_some _ _ _ _ _ Heqo). simpl.
      rewrite (popn_batch _ _ _ H3). split_and!; try done. intros E. by rewrite E in H3.
    + by left.
Qed.

(** The step consumes a pill of [i]. *)
Definition takes_pill i (a : @act U RS Pr M) w : bool :=
  match a with
  | A_step g _ =>
      match w_goroutines w !! g with
      | Some (I_Invoke j (env :: _) :: _) => bool_decide (i = j) && is_pill (Msg env)
      | _ => false
      end
  | A_go _ => false
  end.

(** The abstract mailbox of process [i]. *)
Definition abstract_mb i w : mb := MkMb (batch i (w_goroutines w)) (pget p_queue [] i (w_procs w)) (received i w).

Lemma abstract_box i w : mb_box (abstract_mb i w) = mailbox i w.
Proof. done. Qed.

(** Nothing is held below the one that consumes the mailbox. *)
Lemma held_alone i g w ins st :
  mail_inv i w -> w_goroutines w !! g = Some (ins :: st) ->
  (ins = I_popN i \/ exists l, ins = I_Invoke i l) -> held_by i st = [].
Proof.
  intros [Hs _ Hc Ht] Hg Hins. pose proof (weight_of_lookup (owns i) _ _ _ Hg) as Hle.
  pose proof (owned_once _ _ Hs) as Ho. pose proof (Forall_lookup_1 _ _ _ _ Hc Hg) as (_ & _ & Hst).
  pose proof (Forall_lookup_1 _ _ _ _ Ht Hg) as [Hse _]. destruct Hins as [->|[l ->]].
  - destruct (held_by i st) eqn:E; [done|]. pose proof (covered_held i st Hst) as Hh. rewrite E in Hh.
    specialize (Hh ltac:(done)). simpl in Hle. rewrite eqn_refl in Hle. lia.
  - destruct Hse as [st' ->]. destruct Hst as (_ & _ & Hst). simpl.
    destruct (held_by i st') eqn:E; [done|]. pose proof (covered_held i st' Hst) as Hh. rewrite E in Hh.
    specialize (Hh ltac:(done)). simpl in Hle. rewrite eqn_refl in Hle. lia.
Qed.

(** The engine's mailbox is the abstract one, and loses envelopes to pills only. *)
Lemma mailbox_step_cases i a w w' :
  mail_inv i w -> step a w = Some w' ->
  mb_step (accepts i a w) (abstract_mb i w) (abstract_mb i w') /\
  (takes_pill i a w = true \/ received i w' ++ mailbox i w' = (received i w ++ mailbox i w) ++ accepts i a w).
Proof.
  intros Hm H. pose proof Hm as [Hs Hw Hc _]. destruct a as [g pick|u].
  2: { account_go H. unfold abstract_mb, mailbox, received, batch. simpl. rewrite flat_map_app. simpl.
       rewrite !app_nil_r. split; [apply MB_idle|by right]. }
  step_open H. destruct (step_new_covered i pick ins st w r Hc Hr) as (new & Hn & _ & Hnew).
  destruct (batch_step i _ g _ r.2 new Hg Hnew Hc (owned_once _ _ Hs)) as (before & behind & Hb & Hb' & Ho).
  unfold abstract_mb, mailbox, received. simpl. rewrite Hn, Hb, Hb'. clear Hb Hb'.
  destruct (inert i ins) eqn:Hin.
  { destruct (inert_step i pick ins st w r Hin Hr) as (-> & -> & ->).
    pose proof (inert_accepts i g pick ins st w Hg Hin) as Ha. simpl in Ha. rewrite Ha.
    split; [apply MB_idle|right; by rewrite app_nil_r]. }
  pose proof (Forall_lookup_1 _ _ _ _ Hc Hg) as Hci. simpl in Hci. destruct Hci as (Hcov & Hvis & Hst).
  pose proof (Forall_lookup_1 _ _ _ _ (wf_valid _ Hw) Hg) as Hv. inversion Hv as [|? ? Hval _]; subst.
  rewrite Hg. simpl in Ho. pose proof (held_alone i g w ins st Hm Hg) as Hal.
  destruct (active_step i pick ins st w r Hin Hvis Hval Hr)
    as [(env & -> & -> & -> & ->)|[(-> & -> & Hq)|[(env & -> & Hp & -> & -> & ->)|(env & l & -> & Hp & -> & -> & ->)]]].
  - (* deliver *) rewrite only_self. split; [apply MB_accept|right; by rewrite !app_assoc].
  - (* popN *)
    simpl in Ho. rewrite eqn_refl in Ho. destruct (Ho ltac:(lia)) as [-> ->]. specialize (Hal (or_introl eq_refl)).
    simpl. rewrite Hal in *. destruct Hq as [[-> ->]|(Hne & -> & ->)]; rewrite ?app_nil_r.
    + split; [apply MB_idle|by right].
    + split; [by apply MB_take|right]. by rewrite take_drop.
  - (* invokeMsg *)
    simpl in *. rewrite only_self in *. destruct (Ho (Hcov ltac:(done))) as [-> ->]. simpl.
    split; [by apply MB_receive|right; by rewrite ?app_nil_r, <- app_assoc].
  - (* Invoke *)
    specialize (Hal (or_intror (ex_intro _ _ eq_refl))).
    simpl in *. rewrite only_self in *. destruct (Ho (Hcov ltac:(done))) as [-> ->]. rewrite Hal. simpl.
    split; [by apply MB_pill|left]. by rewrite bool_decide_eq_true_2, Hp.
Qed.

Lemma mail_inv_reachable i cfg pc cc w : engine_reaches cfg pc cc w -> mail_inv i w.
Proof.
  apply reachable_invariant; [intros a w1 w2; apply mail_inv_step|apply mail_inv_new].
Qed.

(** What a run puts into the mailbox of [i]. *)
Fixpoint accepted i (l : list (@act U RS Pr M)) w : list (Envelope U) :=
  match l with
  | [] => []
  | a :: l => accepts i a w ++ match step a w with Some w => accepted i l w | None => [] end
  end.

Lemma fifo_run i l acc w w' :
  mail_inv i w -> fifo acc (mailbox i w) (received i w) -> run step l w = Some w' ->
  fifo (acc ++ accepted i l w) (mailbox i w') (received i w').
Proof.
  revert acc w. induction l as [|a l IH]; intros acc w Hi Hf H; simpl in H |- *.
  - simplify_eq. by rewrite app_nil_r.
  - destruct (step a w) as [w1|] eqn:Es; [|done]. simpl in H. rewrite app_assoc.
    apply IH; [by eapply mail_inv_step| |done].
    apply (fifo_step _ _ (abstract_mb i w) (abstract_mb i w1)); [done|]. by apply mailbox_step_cases.
Qed.

(** ** Properties *)

(** C3: the mailbox of a process refines an abstract FIFO mailbox: in any
    reachable world, whatever the step and whichever goroutine takes it, the
    envelopes in the processor's batch and on their way into [Receive], those in
    the ring buffer and those received change as one two-stage queue does: an
    envelope enters at the back of the ring buffer; when the batch is finished up
    to 300 envelopes move from the ring buffer into it; an envelope is received
    from its front; or a pill at its front ends the batch, and everything behind
    the pill in it is gone. *)
Theorem mailbox_refines_fifo cfg pc cc w i a w' :
  engine_reaches cfg pc cc w -> step a w = Some w' ->
  mb_step (accepts i a w) (abstract_mb i w) (abstract_mb i w').
Proof. intros H Hs. apply mailbox_step_cases; [by eapply mail_inv_reachable|done]. Qed.

(** C11: messages are received in the order in which they entered the mailbox, none
    twice: over any run of the engine, what a process has received followed by
    what still waits is a subsequence of what was delivered to its mailbox, and
    all of it as long as no pill was delivered. *)
Theorem deliveries_in_order cfg pc cc l w i :
  run step l (NewEngine cfg pc cc) = Some w ->
  received i w ++ mailbox i w `sublist_of` accepted i l (NewEngine cfg pc cc) /\
  (Forall (fun env => is_pill (Msg env) = false) (accepted i l (NewEngine cfg pc cc)) ->
   received i w ++ mailbox i w = accepted i l (NewEngine cfg pc cc)).
Proof.
  intros H. apply (fifo_run i l [] (NewEngine cfg pc cc)); [apply mail_inv_new| |done].
  assert (mailbox i (NewEngine cfg pc cc) = []) as -> by (unfold mailbox, pget; by destruct i).
  split; [done|]. done.
Qed.
End mailbox.
