(* ===== verification/Inboxes.v ===== *)
(** * The engine's inboxes are the inbox scheduler

    [Engine] schedules the inbox of every process in its own steps, on a queue
    that is a list.  Here each of those inboxes is shown to run [Inbox], the
    model of [actor/inbox.go] over any implementation of its queue: whatever the
    engine does, the queue, the status word and the goroutines inside [Send],
    [run] and [process] of one process are those of an execution of [Inbox]. *)

From S2P Require Import Prelude RingBuffer Inbox Pid Middleware Opts Registry EventStream.
From S2P Require Import World Engine Accounting Teardown Scheduling Settled Lifecycle WellFormed Mailbox.

(** ** What one can see of an inbox *)

Section view.
Context {Q E : Type} `{!Queue Q E}.
Implicit Types (s : ist Q E) (th : thread E) (ths l : list (thread E)) (q sent : list E) (z : Z) (t : nat).

Definition is_done th : bool := match th with T_done => true | _ => false end.
Definition active ths : list (thread E) := filter (fun th => is_done th = false) ths.

Lemma active_app ths ths' : active (ths ++ ths') = active ths ++ active ths'.
Proof. apply filter_app. Qed.

(** The queue, the status, the goroutines in no particular order, what was sent. *)
Record shows s q z l sent : Prop := Shows {
  sh_inv : iInv s;
  sh_queue : q_abs (in_rb (i_in s)) = q;
  sh_status : in_procStatus (i_in s) = z;
  sh_threads : active (i_threads s) ≡ₚ l;
  sh_sent : i_sent s = sent;
  sh_bound : slen sent <= 2 ^ 62;
}.

Definition can s q z l sent : Prop := exists s', reachable istep s s' /\ shows s' q z l sent.

Lemma can_self s q z l sent : shows s q z l sent -> can s q z l sent.
Proof. intros. exists s. by split; [apply reachable_refl|]. Qed.

Lemma can_trans s q z l sent q' z' l' sent' :
  can s q z l sent -> (forall s1, shows s1 q z l sent -> can s1 q' z' l' sent') -> can s q' z' l' sent'.
Proof.
  intros (s1 & H1 & Hs) H. destruct (H _ Hs) as (s2 & H2 & ?). exists s2. split; [|done].
  by eapply reachable_trans.
Qed.

Lemma shows_perm s q z l l' sent : l ≡ₚ l' -> shows s q z l sent -> shows s q z l' sent.
Proof. intros Hl []. split; try done. by rewrite <- Hl. Qed.

Lemma can_perm s q z l l' sent : l ≡ₚ l' -> can s q z l sent -> can s q z l' sent.
Proof. intros Hl (s' & ? & ?). exists s'. split; [done|]. by eapply shows_perm. Qed.

(** One action of the inbox. *)
Lemma can_act a s s' q z l sent q' z' l' sent' :
  shows s q z l sent -> istep a s = Some s' -> slen sent' <= 2 ^ 62 ->
  q_abs (in_rb (i_in s')) = q' -> in_procStatus (i_in s') = z' -> active (i_threads s') ≡ₚ l' ->
  i_sent s' = sent' -> can s q' z' l' sent'.
Proof.
  intros Hs H Hb Hq Hz Hl Hsent. exists s'. split; [by eapply reachable_step|]. split; try done.
  eapply istep_inv; [apply Hs|done|by rewrite Hsent].
Qed.

(** A goroutine one sees is an entry of the list, and may take its turn. *)
Lemma turn s q z th l sent :
  shows s q z (th :: l) sent ->
  exists t, i_threads s !! t = Some th /\
    forall th' ths, active (<[t := th']> (i_threads s) ++ ths) ≡ₚ active [th'] ++ active ths ++ l.
Proof.
  intros Hs. pose proof (sh_threads _ _ _ _ _ Hs) as Hp.
  assert (th ∈ active (i_threads s)) as Hin by (rewrite Hp; left).
  apply list_elem_of_filter in Hin as [Hd Hin]. apply list_elem_of_split in Hin as (l1 & l2 & E0).
  exists (length l1). rewrite E0 in *. split; [by rewrite list_lookup_middle|]. intros th' ths.
  rewrite insert_app_r_alt, Nat.sub_diag by lia. simpl.
  unfold active in *. rewrite filter_app, filter_cons_True in Hp by done.
  rewrite <- Permutation_middle in Hp. apply Permutation.Permutation_cons_inv in Hp.
  rewrite !filter_app, <- Hp. change (th' :: l2) with ([th'] ++ l2). rewrite filter_app.
  solve_Permutation.
Qed.

(** The goroutine [t], at [th], takes its step to [th'], and starts [ths]. *)
Lemma can_turn th' ths s q z th l sent q' z' l' sent' :
  shows s q z (th :: l) sent -> slen sent' <= 2 ^ 62 -> active [th'] ++ active ths ++ l = l' ->
  (forall t o, i_threads s !! t = Some th -> iinv s o -> exists s', thread_step t s = Some s' /\
    i_threads s' = <[t := th']> (i_threads s) ++ ths /\ q_abs (in_rb (i_in s')) = q' /\
    in_procStatus (i_in s') = z' /\ i_sent s' = sent') ->
  can s q' z' l' sent'.
Proof.
  intros Hs Hb <- H. destruct (turn _ _ _ _ _ _ Hs) as (t & Ht & Hp). destruct (sh_inv _ _ _ _ _ Hs) as [o Hi].
  destruct (H t o Ht Hi) as (s' & Hst & Hths & Hq & Hz & Hsent).
  eapply (can_act (AThread t)); try done. rewrite Hths. apply Hp.
Qed.

Lemma can_send s q z l sent e : shows s q z l sent -> can s q z (S_push e :: l) sent.
Proof.
  intros Hs. eapply (can_act (ASend e)); [exact Hs|done|apply Hs..| |apply Hs]. simpl.
  rewrite active_app, (sh_threads _ _ _ _ _ Hs). simpl. solve_Permutation.
Qed.

Lemma can_stop s q z l sent : shows s q z l sent -> can s q stateStopped l sent.
Proof. intros Hs. eapply (can_act AStop); [exact Hs|done|try apply Hs; done..]. Qed.

Lemma can_push s q z l sent e : shows s q z (S_push e :: l) sent -> slen (sent ++ [e]) <= 2 ^ 62 ->
  can s (q ++ [e]) z (S_schedule :: l) (sent ++ [e]).
Proof.
  intros Hs Hb. apply (can_turn S_schedule [] s q z (S_push e) l sent); try done.
  intros t o Ht Hi. unfold thread_step. rewrite Ht. simpl. destruct Hs as [_ Hq Hz _ Hsent _].
  destruct (q_push_ok e _ (ii_q _ _ Hi)) as (q' & -> & _ & Ha & _).
  { rewrite (ii_pushes _ _ Hi), Hsent. unfold slen in *. rewrite length_app in Hb. simpl in Hb. lia. }
  eexists. split; [done|]. simpl. rewrite app_nil_r, Ha, Hq, Hsent. done.
Qed.

(** The other steps: evaluate [thread_step], with the tests already decided. *)
Ltac can_step th' ths :=
  match goal with
  | Hs : shows ?s _ _ _ _ |- _ =>
      eapply (can_turn th' ths); [exact Hs|apply Hs|by repeat case_match|];
      intros t o Ht Hi; unfold thread_step, schedule, cas; rewrite Ht; simpl;
      destruct Hs as [_ <- <- _ <- _]; repeat case_match; simplify_eq/=; try done;
      eexists; (split; [done|]); simpl; rewrite ?app_nil_r; by split_and!
  end.

Lemma can_schedule s q z l sent : shows s q z (S_schedule :: l) sent ->
  can s q (if z =? stateIdle then stateRunning else z) ((if z =? stateIdle then [R_load] else []) ++ l) sent.
Proof. intros Hs. can_step (@T_done E) (if z =? stateIdle then [@R_load E] else []). Qed.

Lemma can_load s q z l sent : shows s q z (R_load :: l) sent ->
  can s q z ((if z =? stateStopped then R_park else R_pop) :: l) sent.
Proof. intros Hs. can_step (if z =? stateStopped then @R_park E else R_pop) (@nil (thread E)). Qed.

Lemma can_resume s q z l sent : shows s q z (R_invoking :: l) sent -> can s q z (R_load :: l) sent.
Proof. intros Hs. can_step (@R_load E) (@nil (thread E)). Qed.

Lemma can_park s q z l sent : shows s q z (R_park :: l) sent ->
  can s q (if z =? stateRunning then stateIdle else z) ((if z =? stateRunning then [R_len] else []) ++ l) sent.
Proof. intros Hs. can_step (if z =? stateRunning then @R_len E else T_done) (@nil (thread E)). Qed.

Lemma can_reclaim s q z l sent : shows s q z (R_reclaim :: l) sent ->
  can s q (if z =? stateIdle then stateRunning else z) ((if z =? stateIdle then [R_load] else []) ++ l) sent.
Proof. intros Hs. can_step (if z =? stateIdle then @R_load E else T_done) (@nil (thread E)). Qed.

Lemma can_len s q z l sent : shows s q z (R_len :: l) sent ->
  can s q z ((if slen q =? 0 then [] else [R_reclaim]) ++ l) sent.
Proof.
  intros Hs. eapply (can_turn (if slen q =? 0 then T_done else R_reclaim) []); [exact Hs|apply Hs|by case_match|].
  intros t o Ht Hi. unfold thread_step. rewrite Ht. simpl. rewrite (q_len_ok _ (ii_q _ _ Hi)).
  destruct Hs as [_ <- <- _ <- _]. eexists. split; [done|]. simpl. by rewrite app_nil_r.
Qed.

(** [PopN], and the call of [Invoke] when it found something. *)
Lemma can_pop s q z l sent batch ok : shows s q z (R_pop :: l) sent ->
  popn_spec defaultThroughput q = (batch, ok) ->
  can s (drop (Z.to_nat defaultThroughput) q) z ((if ok then R_invoking else R_park) :: l) sent.
Proof.
  intros Hs Ep.
  assert (can s (drop (Z.to_nat defaultThroughput) q) z ((if ok then R_call batch else R_park) :: l) sent) as H.
  { eapply (can_turn (if ok then R_call batch else R_park) []); [exact Hs|apply Hs|by destruct ok|].
    intros t o Ht Hi. unfold thread_step. rewrite Ht. simpl. rewrite (ii_thr _ _ Hi).
    destruct Hs as [_ Hq <- _ <- _]. destruct (q_popn_ok defaultThroughput _ (ii_q _ _ Hi)) as (q' & E' & _ & Ha & _).
    rewrite Hq, Ep in E'. rewrite E'. eexists. split; [done|]. simpl. rewrite app_nil_r, Ha, Hq. by destruct ok. }
  destruct ok; [|done]. eapply can_trans; [exact H|]. clear. intros s Hs.
  eapply (can_turn R_invoking []); [exact Hs|apply Hs|done|]. intros t o Ht Hi. unfold thread_step. rewrite Ht. simpl.
  rewrite (ii_proc _ _ Hi). destruct Hs as [_ <- <- _ <- _]. eexists. split; [done|]. simpl. by rewrite app_nil_r.
Qed.
End view.

(** [PopN] fails on an empty queue only. *)
Lemma pop_failed {E} (q batch : list E) : popn_spec defaultThroughput q = (batch, false) -> q = [].
Proof. intros H. destruct (popn_cases defaultThroughput q eq_refl) as [[-> _]|[_ E']]; [done|congruence]. Qed.

Section inboxes.
Context {U RS Pr M : Type} `{!UserCode U RS Pr M}.
Context {Q : Type} `{!Queue Q (Envelope U)}.
Notation world := (world U RS Pr M).
Notation process := (process U RS Pr M).
Notation instr := (instr U RS Pr M).
Notation stack := (list instr).
Notation thread := (thread (Envelope U)).
Implicit Types (w : world) (p : process) (ins : instr) (st : stack) (i j g pick : nat).
Implicit Types (gs : list stack) (l : list thread) (s : ist Q (Envelope U)).

(** ** The goroutines inside the inbox of a process *)

(** Where a goroutine is in the inbox of [i], about to take [ins]. *)
Definition top i ins : list thread :=
  match ins with
  | I_deliver j env => only i j [S_push env]
  | I_schedule j => only i j [S_schedule]
  | I_load j => only i j [R_load]
  | I_popN j => only i j [R_pop]
  | I_park j => only i j [R_park]
  | I_len j => only i j [R_len]
  | I_reclaim j => only i j [R_reclaim]
  | _ => []
  end.

(** With [ins] still to come, it is inside [Invoke]. *)
Definition below i ins : list thread := match ins with I_load j => only i j [R_invoking] | _ => [] end.

Definition in_inbox i st : list thread :=
  match st with [] => [] | ins :: st => top i ins ++ flat_map (below i) st end.
Definition threads_of i w : list thread := flat_map (in_inbox i) (w_goroutines w).

(** Calls into an inbox are at the top of a stack, or inside [Invoke]. *)
Definition buriable ins : bool :=
  match ins with
  | I_deliver _ _ | I_schedule _ | I_popN _ | I_park _ | I_len _ | I_reclaim _ => false
  | _ => true
  end.
Definition nested st : Prop := match st with [] => True | _ :: st => Forall (fun ins => buriable ins = true) st end.

Lemma nested_step pick ins st w r :
  nested (ins :: st) -> instr_step pick ins st w = Some r ->
  nested r.2 /\ exists new, w_goroutines r.1 = w_goroutines w ++ new /\ Forall nested new.
Proof.
  intros Hn H. destruct ins; simpl in H, Hn; step_instr H; simpl; (split;
    [first [by repeat constructor|by inversion Hn; subst|
            by inversion Hn as [|? ? ? Hn']; subst; inversion Hn'|
            by inversion Hn as [|? ? ? Hn']; subst; repeat constructor]
    |first [exists []; rewrite app_nil_r; by split
           |eexists; split; [done|]; by repeat constructor
           |eexists; split; [done|]; apply Forall_map, Forall_true; intros; by repeat constructor]]).
Qed.

(** A goroutine that is left with [st] is out of what it was doing. *)
Lemma uncover i st s q z l sent :
  Forall (fun ins => buriable ins = true) st ->
  shows s q z (flat_map (below i) st ++ l) sent -> can s q z (in_inbox i st ++ l) sent.
Proof.
  intros Hb Hs. destruct st as [|ins st]; [by apply can_self|]. inversion Hb as [|? ? Hi _]; subst.
  destruct ins; try discriminate Hi; try (by apply can_self). unfold in_inbox, below, top, only in *. simpl in *.
  case_decide; [by apply can_resume|by apply can_self].
Qed.

(** Steps outside of the inbox of [i]: they leave it alone, or begin a call of
    [Send], or stop it. *)
Lemma outside_step i pick ins st w r :
  top i ins = [] -> instr_step pick ins st w = Some r ->
  pget p_queue [] i (w_procs r.1) = pget p_queue [] i (w_procs w) /\
  (pget p_procStatus stateIdle i (w_procs r.1) = pget p_procStatus stateIdle i (w_procs w) \/
   pget p_procStatus stateIdle i (w_procs r.1) = stateStopped) /\
  (exists new, w_goroutines r.1 = w_goroutines w ++ new /\ flat_map (in_inbox i) new = []) /\
  (r.2 = st \/ in_inbox i r.2 = flat_map (below i) st \/
   exists env, in_inbox i r.2 = S_push env :: flat_map (below i) st).
Proof.
  unfold top, only. intros Ht H. destruct ins; simpl in H, Ht; repeat case_decide; try discriminate Ht; step_instr H; simpl;
    rewrite ?pget_keep, ?pget_new, ?pget_alter_ne by done; (split; [done|split; [try by left|split;
      [first [exists []; rewrite app_nil_r; by split|eexists; split; [done|try done]]
      |first [by left|by right; left|try (unfold only; case_decide; [first [contradiction|right; right; by eexists]|by right; left])]]]]).
  - (* schedule *) simpl. by rewrite only_ne.
  - (* inboxStop *) rewrite pget_alter. unfold pget. repeat case_match; auto.
  - (* shutdownChildren *) by induction (childPIDs _ _).
Qed.

(** What the world shows of the inbox of [i]. *)
Definition queue i w : list (Envelope U) := pget p_queue [] i (w_procs w).
Definition status i w : Z := pget p_procStatus stateIdle i (w_procs w).

(** Then the same goroutine may be left with [st]. *)
Lemma can_uncover i st s q z l sent q' z' l' sent' :
  Forall (fun ins => buriable ins = true) st ->
  can s q z (flat_map (below i) st ++ l) sent -> q' = q -> z' = z -> l' = in_inbox i st ++ l -> sent' = sent ->
  can s q' z' l' sent'.
Proof. intros Hb H -> -> -> ->. eapply can_trans; [exact H|]. intros. by apply uncover. Qed.

Ltac inbox_goal Hp :=
  split; [by rewrite ?app_nil_r|]; rewrite ?(pget_alter_eq _ _ _ _ _ _ Hp), ?(pget_some _ _ _ _ _ Hp);
  simpl in *; rewrite ?only_self; simpl.

(** Steps inside the inbox of [i] are those of [Inbox]. *)
Lemma inside_step i th pick ins st w r s l sent :
  top i ins = [th] -> valid (length (w_procs w)) ins = true -> Forall (fun ins => buriable ins = true) st ->
  instr_step pick ins st w = Some r -> shows s (queue i w) (status i w) (th :: flat_map (below i) st ++ l) sent ->
  let acc := match ins with I_deliver _ env => [env] | _ => [] end in
  slen (sent ++ acc) <= 2 ^ 62 ->
  exists new, w_goroutines r.1 = w_goroutines w ++ new /\
    can s (queue i r.1) (status i r.1) (in_inbox i r.2 ++ flat_map (in_inbox i) new ++ l) (sent ++ acc).
Proof.
  unfold queue, status, top, only. intros Ht Hv Hb H Hs Hbd.
  destruct ins; simpl in Ht; try discriminate Ht; case_decide as Ei; try discriminate Ht; subst i0; injection Ht as <-;
    apply bool_decide_eq_true, lookup_lt_is_Some_2 in Hv as [p Hp];
    rewrite ?(pget_some _ _ _ _ _ Hp) in *; simpl in H; rewrite ?app_nil_r in *.
  - (* deliver *)
    step_instr H. exists []. rewrite app_nil_r, !(pget_alter_eq _ _ _ _ _ _ Hp). split; [done|]. simpl.
    rewrite only_self. by apply can_push.
  - (* schedule *)
    apply can_schedule in Hs. step_instr H; simpl in *.
    + exists [[I_load i]]. inbox_goal Hp.
      apply (can_uncover i st s (p_queue p) stateRunning (R_load :: l) sent); try done.
      eapply can_perm; [|exact Hs]. solve_Permutation.
    + exists []. inbox_goal Hp. by eapply can_uncover.
  - (* load *)
    apply can_load in Hs. step_instr H; exists []; inbox_goal Hp; done.
  - (* popN *)
    step_instr H; eapply can_pop in Hs; try done; exists []; inbox_goal Hp; [done|].
    by rewrite (pop_failed _ _ H1) in *.
  - (* park *)
    apply can_park in Hs. step_instr H; exists []; inbox_goal Hp; [done|]. by eapply can_uncover.
  - (* len *)
    apply can_len in Hs. step_instr H; exists []; inbox_goal Hp; [|done]. by eapply can_uncover.
  - (* reclaim *)
    apply can_reclaim in Hs. step_instr H; exists []; inbox_goal Hp; [done|]. by eapply can_uncover.
Qed.

(** Steps outside of it, as the inbox sees them. *)
Lemma outside_can i pick ins st w r s l sent :
  top i ins = [] -> Forall (fun ins => buriable ins = true) st -> instr_step pick ins st w = Some r ->
  shows s (queue i w) (status i w) (flat_map (below i) st ++ l) sent ->
  exists new, w_goroutines r.1 = w_goroutines w ++ new /\
    can s (queue i r.1) (status i r.1) (in_inbox i r.2 ++ flat_map (in_inbox i) new ++ l) sent.
Proof.
  unfold queue, status. intros Ht Hb H Hs.
  destruct (outside_step i pick ins st w r Ht H) as (Hq & Hz & (new & Hnew & Hnil) & Hst).
  exists new. split; [done|]. rewrite Hq, Hnil. simpl.
  assert (can s (pget p_queue [] i (w_procs w)) (pget p_procStatus stateIdle i (w_procs r.1))
    (flat_map (below i) st ++ l) sent) as Hc.
  { destruct Hz as [Hz|Hz]; rewrite Hz; [by apply can_self|by eapply can_stop]. }
  destruct Hst as [Hst | [Hst | [env Hst]]]; rewrite Hst; [by eapply can_uncover|done|].
  eapply can_trans; [exact Hc|]. intros. by apply can_send.
Qed.

(** The world and an execution of [Inbox], in step. *)
Lemma threads_split i gs g st :
  gs !! g = Some st -> exists l, flat_map (in_inbox i) gs ≡ₚ in_inbox i st ++ l /\
    forall st' new, flat_map (in_inbox i) (<[g := st']> (gs ++ new)) ≡ₚ
      in_inbox i st' ++ flat_map (in_inbox i) new ++ l.
Proof.
  intros Hg. apply list_elem_of_split_length in Hg as (l1 & l2 & -> & ->).
  exists (flat_map (in_inbox i) l1 ++ flat_map (in_inbox i) l2). split.
  - rewrite flat_map_app. simpl. solve_Permutation.
  - intros st' new. rewrite <- app_assoc. simpl. rewrite insert_app_r_alt, Nat.sub_diag by lia. simpl.
    rewrite flat_map_app. simpl. rewrite flat_map_app. solve_Permutation.
Qed.

Lemma tracked_step i a w w' s sent :
  wf_world w -> Forall nested (w_goroutines w) -> step a w = Some w' ->
  shows s (queue i w) (status i w) (threads_of i w) sent -> slen (sent ++ accepts i a w) <= 2 ^ 62 ->
  can s (queue i w') (status i w') (threads_of i w') (sent ++ accepts i a w).
Proof.
  intros Hwf Hn H Hs Hb. destruct a as [g pick|u].
  2: { account_go H. unfold threads_of. simpl. rewrite flat_map_app, !app_nil_r in *. by apply can_self. }
  step_open H. destruct (threads_split i _ g _ Hg) as (l & Hl & Hl').
  pose proof (Forall_lookup_1 _ _ _ _ (wf_valid _ Hwf) Hg) as Hv. inversion Hv as [|? ? Hval _]; subst.
  pose proof (Forall_lookup_1 _ _ _ _ Hn Hg) as Hbu. simpl in Hbu.
  eapply shows_perm in Hs; [|exact Hl].
  assert (exists new, w_goroutines r.1 = w_goroutines w ++ new /\
    can s (queue i r.1) (status i r.1) (in_inbox i r.2 ++ flat_map (in_inbox i) new ++ l)
      (sent ++ accepts i (A_step g pick) w)) as (new & Hnew & Hc).
  { simpl in Hb |- *. rewrite Hg in *. destruct (top i ins) as [|th l'] eqn:Ht.
    - assert (match ins with I_deliver j env => only i j [env] | _ => [] end = []) as E0.
      { destruct ins; try done. unfold top, only in *. by case_decide. }
      rewrite E0, app_nil_r. unfold in_inbox in Hs. rewrite Ht in Hs. by eapply outside_can.
    - assert (l' = [] /\ match ins with I_deliver j env => only i j [env] | _ => [] end =
        match ins with I_deliver _ env => [env] | _ => [] end) as [-> E0].
      { unfold top, only in *. destruct ins; try done; case_decide; by simplify_eq. }
      rewrite E0 in *. unfold in_inbox in Hs. rewrite Ht in Hs. by eapply inside_step. }
  eapply can_perm; [|exact Hc]. unfold threads_of. simpl. rewrite Hnew. symmetry. apply Hl'.
Qed.

Lemma nested_world_step a w w' :
  Forall nested (w_goroutines w) -> step a w = Some w' -> Forall nested (w_goroutines w').
Proof.
  intros Hn H. destruct a as [g pick|u].
  - step_open H. destruct (nested_step pick ins st w r) as (Hr2 & new & Hnew & Hall); [|done|].
    + by eapply (Forall_lookup_1 _ _ _ _ Hn).
    + simpl. rewrite Hnew. apply Forall_insert; [by apply Forall_app|done].
  - account_go H. apply Forall_app. split; [done|by repeat constructor].
Qed.

Lemma tracked_run i acts w w' s sent :
  wf_world w -> Forall nested (w_goroutines w) -> run step acts w = Some w' ->
  shows s (queue i w) (status i w) (threads_of i w) sent -> slen (sent ++ accepted i acts w) <= 2 ^ 62 ->
  can s (queue i w') (status i w') (threads_of i w') (sent ++ accepted i acts w).
Proof.
  revert w s sent. induction acts as [|a acts IH]; intros w s sent Hwf Hn H Hs Hb; simpl in H, Hb |- *.
  - simplify_eq. rewrite app_nil_r. by apply can_self.
  - destruct (step a w) as [w1|] eqn:Es; [|done]. simpl in H. rewrite app_assoc in *.
    eapply can_trans.
    + eapply tracked_step; try done. unfold slen in *. rewrite length_app in Hb. lia.
    + intros s1 Hs1. apply (IH w1); try done; [by eapply wf_world_step|by eapply nested_world_step].
Qed.

(** ** Property *)

(** C7: every inbox of the engine runs the inbox scheduler: whatever run of the
    engine led to [w], some execution of [Inbox], over any implementation of its
    queue and from an inbox of any size, was sent the envelopes that entered the
    mailbox of process [i], in that order, and has come to the same queue, the
    same status word and the same goroutines inside [Send], [run] and [process]. *)
Theorem engine_runs_inbox cfg pc cc acts w i size :
  run step acts (NewEngine cfg pc cc) = Some w ->
  slen (accepted i acts (NewEngine cfg pc cc)) <= 2 ^ 62 -> - 2 ^ 63 <= size < 2 ^ 63 ->
  exists iacts s, inbox_run (Q:=Q) size iacts = Ok (Some s) /\
    i_sent s = accepted i acts (NewEngine cfg pc cc) /\
    q_abs (in_rb (i_in s)) = queue i w /\ in_procStatus (i_in s) = status i w /\
    active (i_threads s) ≡ₚ threads_of i w.
Proof.
  intros H Hb Hsz. destruct (iinit size) as [s0| |] eqn:E0.
  2-3: unfold iinit, NewInbox in E0; destruct (q_new_ok size Hsz) as (q & Eq & _); by rewrite Eq in E0.
  destruct (tracked_run i acts _ w s0 [] (wf_world_new cfg pc cc) ltac:(by repeat constructor) H) as (s & [l Hl] & Hs).
  - pose proof (iinit_inv size s0 Hsz E0) as Hi. unfold iinit, NewInbox in E0.
    destruct (q_new_ok size Hsz) as (q & Eq & _ & Ha & _). rewrite Eq in E0. injection E0 as <-. simpl in Hi.
    split; try done; unfold queue, status, pget; by destruct i.
  - done.
  - exists l, s. unfold inbox_run. rewrite E0. simpl. rewrite Hl. split; [done|]. by destruct Hs.
Qed.
End inboxes.
