(* ===== verification/Calm.v ===== *)
(** * Actors that do not panic

    [process.go] promises more to an actor whose [Receive], under its middleware,
    never panics.  Such an actor is never restarted, whatever the others do. *)

From S2P Require Import Prelude RingBuffer Inbox Pid Middleware Opts Registry EventStream.
From S2P Require Import World Engine Accounting Teardown Settled Futures Lifecycle WellFormed Progress.

Section calm.
Context {U RS Pr M : Type} `{!UserCode U RS Pr M}.
Notation world := (world U RS Pr M).
Notation process := (process U RS Pr M).
Notation instr := (instr U RS Pr M).
Notation stack := (list instr).
Notation prog := (prog U RS Pr M).
Implicit Types (w : world) (p : process) (ins : instr) (st : stack) (i j g pick n : nat).
Implicit Types (ps : list process) (log : list (delivery U)) (u : prog).

(** No branch of the program panics. *)
Fixpoint calm u : Prop :=
  match u with
  | Ret => True
  | Panic => False
  | Get _ k => forall s, calm (k s)
  | Put _ _ k => calm k
  | Call _ k => forall v, calm (k v)
  end.

(** What [Start] builds and [invokeMsg] calls, for the receiver at pointer [x]. *)
Definition handler p (x : nat) : prog :=
  compose (map u_wrap (o_Middleware (p_opts p))) (receive_of (Producer (p_opts p), x)).

(** No incarnation of it panics. *)
Definition calm_proc p : Prop := forall x, calm (handler p x).

Definition calm_at i w : Prop := forall p, w_procs w !! i = Some p -> calm_proc p.

(** The options of a process never change. *)
Lemma calm_at_back i a w w' : step a w = Some w' -> calm_at i w' -> calm_at i w.
Proof.
  intros H Hc p Hp. assert (exists q, w_procs w' !! i = Some q /\ p_opts q = p_opts p) as (q & Hq & E).
  2: { specialize (Hc q Hq). unfold calm_proc, handler in *. by rewrite E in Hc. }
  destruct a as [g pick|u]; [|account_go H; by exists p].
  step_open H. step_split; try (by exists p);
    try (exists p; split; [by apply lookup_app_l_Some|done]);
    (destruct (decide (i = i0)) as [->|Hn] ||
     match goal with |- context [alter _ ?j] => destruct (decide (i = j)) as [->|Hn] end);
    rewrite ?list_lookup_alter_eq, ?list_lookup_alter_ne, ?Hp by done; simpl; by eexists.
Qed.

Lemma calm_at_run_back i acts w w' : run step acts w = Some w' -> calm_at i w' -> calm_at i w.
Proof.
  revert w. induction acts as [|a acts IH]; intros w H Hc; simpl in H; [by simplify_eq|].
  destruct (step a w) as [w1|] eqn:E; [|done]. eapply calm_at_back; eauto.
Qed.

(** ** The invariant *)

Definition ready i w : Prop := pget p_chain None i (w_procs w) <> None.

Definition lifecycle_msg (m : msg U) : bool :=
  match m with Initialized | Started | Stopped => true | _ => false end.

Definition calm_ins i w ins : Prop :=
  match ins with
  | I_user (Some j) u => i = j -> calm u
  | I_cont (Some j) k => i = j -> forall v, calm (k v)
  | I_tryRestart j => i <> j
  | I_invokeMsg j life env => (i = j -> ready i w) /\ (life = true -> lifecycle_msg (Msg env) = true)
  | _ => True
  end.

Record calm_inv i w : Prop := CalmInv {
  ca_chain : forall p h, w_procs w !! i = Some p -> p_chain p = Some h -> calm h;
  ca_ready : deliveries i (w_log w) <> [] -> ready i w;
  ca_stacks : Forall (Forall (calm_ins i w)) (w_goroutines w);
}.

(** [Start] sets the chain, nothing resets it. *)
Lemma ready_step i a w w' : step a w = Some w' -> ready i w -> ready i w'.
Proof.
  unfold ready. intros H Hr. destruct a as [g pick|u]; [|by account_go H].
  step_open H. step_split; try done.
  by at_process i i0 Heqo.
Qed.

Lemma calm_ins_step i a w w' ins : step a w = Some w' -> calm_ins i w ins -> calm_ins i w' ins.
Proof. intros H. destruct ins; simpl; try done. intros [Hr Hl]. split; [|done]. intros E. by eapply ready_step; eauto. Qed.

Lemma chain_step i a w w' :
  calm_at i w' -> (forall p h, w_procs w !! i = Some p -> p_chain p = Some h -> calm h) -> step a w = Some w' ->
  forall p h, w_procs w' !! i = Some p -> p_chain p = Some h -> calm h.
Proof.
  intros Hc Hi H. destruct a as [g pick|u]; [|by account_go H].
  assert (forall p h, w_procs w' !! i = Some p -> p_chain p = Some h ->
    (exists q, w_procs w !! i = Some q /\ p_chain q = Some h) \/ exists x, h = handler p x) as Hcase.
  2: { intros p h Hp Hh. destruct (Hcase p h Hp Hh) as [(q & ? & ?)|[x ->]]; [by eapply Hi|by apply Hc]. }
  clear Hc Hi. step_open H. step_split; intros p1 h1 Hp Hh; try (left; by eexists);
    try (apply lookup_app_Some in Hp as [Hp|[_ Hp]]; [left; by eexists|];
         apply list_lookup_singleton_Some in Hp as [_ <-]; done);
    try (apply list_lookup_alter_Some in Hp as [(<- & q & Hq & ->)|[_ Hp]]; [|left; by eexists]);
    try (left; by eexists).
  (* Start *)
  right. simplify_eq/=. rewrite buildChain_ok in H0. injection H0 as <-. by eexists.
Qed.

(** What a step pushes, and the goroutines it starts. *)
Lemma calm_stack i g pick ins st w r w' :
  calm_inv i w -> born_inv i w -> w_goroutines w !! g = Some (ins :: st) -> instr_step pick ins st w = Some r ->
  w' = set_goroutines (<[g := r.2]> (w_goroutines r.1)) r.1 ->
  Forall (calm_ins i w') r.2 /\ exists new, w_goroutines r.1 = w_goroutines w ++ new /\ Forall (Forall (calm_ins i w')) new.
Proof.
  intros [Hc Hr Hs] Hb Hg H Hw. assert (step (A_step g pick) w = Some w') as Hst.
  { simpl. rewrite Hg. simpl. by rewrite H, Hw. }
  assert (Forall (calm_ins i w') (ins :: st)) as Hs'.
  { pose proof (Forall_lookup_1 _ _ _ _ Hs Hg) as Hx. eapply Forall_impl; [exact Hx|]. intros x. by apply (calm_ins_step i (A_step g pick) w). }
  apply Forall_cons in Hs' as [Hi Hst'].
  assert (guard i ins = false -> touches i ins = true -> ready i w') as Ht.
  { intros Hgu Hto. eapply ready_step; [exact Hst|]. apply Hr. by eapply touched_born. }
  destruct ins; simpl in H; revert Hi Hst' Ht Hw; clear Hst Hs; step_instr H; simpl; intros Hi Hst' Ht Hw.
  all: (split; [try done|first [exists []; rewrite app_nil_r; by split|eexists; split; [done|try by repeat constructor]]]);
    repeat (apply Forall_cons; split); simpl; try done; try (by inversion Hst');
    try (intros _; by apply Hi); try (split; [intros _; by apply Ht|done]);
    try (apply Forall_map, Forall_true; intros; by repeat constructor).
  - (* a value *) apply Forall_cons in Hst' as [Hk _]. simpl in Hk. destruct self; [|done]. intros E. by apply Hk.
  - (* Start *) split; [|done]. intros _. unfold ready. rewrite Hw. simpl.
    by rewrite (pget_alter_eq _ _ _ _ _ _ Heqo).
  - (* Start *) split; [|done]. intros _. unfold ready. rewrite Hw. simpl.
    by rewrite (pget_alter_eq _ _ _ _ _ _ Heqo).
  - (* the chain *) intros _. by eapply Hc.
  - (* no chain *)
    destruct Hi as [Hi _]. specialize (Hi eq_refl). unfold ready in Hi. rewrite Hw in Hi. simpl in Hi.
    by rewrite (pget_alter_eq _ _ _ _ _ _ Heqo) in Hi.
  - (* no chain *)
    destruct Hi as [Hi _]. specialize (Hi eq_refl). unfold ready in Hi. rewrite Hw in Hi. simpl in Hi.
    by rewrite (pget_alter_eq _ _ _ _ _ _ Heqo) in Hi.
Qed.

Lemma calm_inv_step i a w w' :
  calm_at i w' -> calm_inv i w -> born_inv i w -> step a w = Some w' -> calm_inv i w'.
Proof.
  intros Ha Hi Hb H. split.
  - by eapply chain_step; [|apply Hi|].
  - destruct a as [g pick|u]; [|account_go H; apply Hi]. pose proof H as Hst. step_open H. simpl.
    destruct (is_invoke ins) as [[[[j life] env] ->]|Hno].
    + rewrite (invoke_log _ _ _ _ _ _ _ Hr), deliveries_snoc. simpl. intros Hd.
      eapply (ready_step _ (A_step g pick)); [exact Hst|].
      destruct (decide (j = i)) as [->|Hn]; [|rewrite app_nil_r in Hd; by apply Hi].
      pose proof (Forall_lookup_1 _ _ _ _ (ca_stacks _ _ Hi) Hg) as Hx. apply Forall_cons in Hx as [[Hx _] _].
      by apply Hx.
    + rewrite (other_log _ _ _ _ _ Hno Hr). intros Hd.
      eapply (ready_step _ (A_step g pick)); [exact Hst|]. by apply Hi.
  - assert (Forall (Forall (calm_ins i w')) (w_goroutines w)) as Hs'.
    { eapply Forall_impl; [apply Hi|]. intros st Hst. eapply Forall_impl; [exact Hst|]. intros x. by apply (calm_ins_step i a w). }
    destruct a as [g pick|u].
    + apply step_inv in H as (ins & st & r & Hg & Hr & Hw).
      destruct (calm_stack i g pick ins st w r w' Hi Hb Hg Hr Hw) as (H2 & new & Hn & Hnew).
      rewrite Hw at 2. simpl. apply Forall_insert; [|done]. rewrite Hn. by apply Forall_app.
    + simpl in H. destruct (engine_ready w); [|done]. injection H as <-. simpl.
      apply Forall_app. split; [done|by repeat constructor].
Qed.

Lemma calm_inv_new i cfg pc cc : calm_inv i (NewEngine cfg pc cc).
Proof.
  split; [|done|by repeat constructor].
  intros p h Hp Hh. simpl in Hp. by apply list_lookup_singleton_Some in Hp as [_ <-].
Qed.
End calm.
