(* ===== verification/Contract.v ===== *)
(** * What an actor that does not panic can rely on

    [lifecycle.go] and [engine.go] describe the life of an actor: Initialized,
    its messages in order, and after a [Poison] everything that was queued before
    the pill, then Stopped, then nothing.  For an actor whose [Receive] does not
    panic this is what happens, Started aside, which may come at any point. *)

From S2P Require Import Prelude RingBuffer Inbox Pid Middleware Opts Registry EventStream.
From S2P Require Import World Engine Accounting Teardown Scheduling Settled Futures Lifecycle WellFormed Progress.
From S2P Require Import Mailbox Inboxes Calm.

Section contract.
Context {U RS Pr M : Type} `{!UserCode U RS Pr M}.
Notation world := (world U RS Pr M).
Notation process := (process U RS Pr M).
Notation instr := (instr U RS Pr M).
Notation stack := (list instr).
Implicit Types (w : world) (p : process) (ins : instr) (st : stack) (i j g pick n : nat).
Implicit Types (env : Envelope U) (acc l box : list (Envelope U)) (log : list (delivery U)).

(** ** Up to the first pill *)

Definition pill env : bool := is_pill (Msg env).

Fixpoint before_pill acc : list (Envelope U) :=
  match acc with
  | [] => []
  | env :: acc => if pill env then [] else env :: before_pill acc
  end.

Lemma before_pill_none acc : existsb pill acc = false -> before_pill acc = acc.
Proof.
  induction acc as [|env acc IH]; simpl; [done|]. intros [-> H]%orb_false_iff. by rewrite IH.
Qed.

Lemma before_pill_stable acc l : existsb pill acc = true -> before_pill (acc ++ l) = before_pill acc.
Proof.
  induction acc as [|env acc IH]; simpl; [done|]. destruct (pill env); [done|]. simpl. intros H. by rewrite IH.
Qed.

Lemma before_pill_first l env acc : existsb pill l = false -> pill env = true ->
  before_pill (l ++ env :: acc) = l /\ existsb pill (l ++ env :: acc) = true.
Proof.
  intros Hl He. induction l as [|env' l IH]; simpl in *; rewrite ?He; [done|].
  apply orb_false_iff in Hl as [-> Hl]. destruct (IH Hl) as [-> ->]. done.
Qed.

(** ** Stacks *)

(** Work that ends with the inbox stopped. *)
Definition closer i ins : bool :=
  match ins with I_Shutdown j | I_inboxStop j => bool_decide (i = j) | _ => false end.

(** Consumers of the mailbox that come before such work. *)
Fixpoint exposed i st : nat :=
  match st with
  | [] => 0
  | ins :: st => if closer i ins then 0 else owns i ins + exposed i st
  end.

Lemma exposed_le i st : (exposed i st <= sum_list_with (owns i) st)%nat.
Proof. induction st as [|ins st IH]; simpl; [done|]. destruct (closer i ins); lia. Qed.

Definition shuts i ins : nat := match ins with I_Shutdown j => eqn i j | _ => 0 end.
Definition pops i ins : nat := match ins with I_popN j => eqn i j | _ => 0 end.

(** Pills do not reach [Receive]. *)
Definition no_pills i w : Prop := existsb pill (received i w) = false.

Lemma no_pills_step i a w w' : mail_inv i w -> no_pills i w -> step a w = Some w' -> no_pills i w'.
Proof.
  unfold no_pills. intros Hm Hn H. destruct (mailbox_step_cases i a w w' Hm H) as [Hs _].
  apply mb_step_got in Hs as [E|(env & Hp & E)]; simpl in E; rewrite E; [done|].
  rewrite existsb_app, orb_false_iff. simpl. rewrite orb_false_r. by split.
Qed.

Record base_inv i w : Prop := BaseInv {
  ba_mail : mail_inv i w;
  ba_calm : calm_inv i w;
  ba_born : born_inv i w;
  ba_status : status_inv i w;
  ba_stop : stop_inv i w;
  ba_nested : Forall nested (w_goroutines w);
  ba_pills : no_pills i w;
}.

Lemma base_inv_step i a w w' : calm_at i w' -> base_inv i w -> step a w = Some w' -> base_inv i w'.
Proof.
  intros Hc [] H. split; eauto using mail_inv_step, calm_inv_step, born_inv_step, status_inv_step, stop_inv_step,
    nested_world_step, no_pills_step.
Qed.

Lemma base_inv_new i cfg pc cc : base_inv i (NewEngine cfg pc cc).
Proof.
  pose proof (settled_inv_new (U:=U) (RS:=RS) (M:=M) cfg pc cc i) as ((Hs & _) & _ & Hst & _).
  split; auto using mail_inv_new, calm_inv_new, born_inv_new; by repeat constructor.
Qed.

(** ** Two phases *)

Definition stopped i w : bool := pget p_stopped false i (w_procs w).

(** No pill has been taken from the mailbox: nothing is lost. *)
Record live i acc w : Prop := Live {
  lv_all : received i w ++ mailbox i w = acc;
  lv_stopped : stopped i w = false;
  lv_shuts : total (shuts i) w = 0%nat;
}.

(** The first pill has been taken: nothing more is received. *)
Record dying i acc w : Prop := Dying {
  dy_received : received i w = before_pill acc;
  dy_pill : existsb pill acc = true;
  dy_batch : batch i (w_goroutines w) = [];
  dy_pops : total (pops i) w = 0%nat;
  dy_once : (total (shuts i) w + b2n (stopped i w) = 1)%nat;
  dy_status : status i w = stateStopped \/
    status i w = stateRunning /\ Forall (fun st => exposed i st = 0%nat) (w_goroutines w);
}.

(** The goroutine that takes the pill is the one that consumes the mailbox. *)
Lemma pill_inv g pick i w :
  base_inv i w -> takes_pill i (A_step g pick) w = true ->
  exists env c l st, w_goroutines w !! g = Some (I_Invoke i (env :: l) :: I_load i :: st) /\
    Msg env = poisonPill c /\ total (owns i) w = 1%nat /\ sum_list_with (owns i) st = 0%nat.
Proof.
  intros [Hm _ _ _ _ _ _] H. pose proof (mi_tight _ _ Hm) as Ht. simpl in H. destruct (w_goroutines w !! g) as [[|ins st]|] eqn:Hg; try done.
  destruct ins; try done. destruct msgs as [|env l]; try done.
  apply andb_true_iff in H as [E Hp]. apply bool_decide_eq_true in E as <-.
  pose proof (Forall_lookup_1 _ _ _ _ Ht Hg) as [[st' ->] _].
  unfold is_pill in Hp. destruct (Msg env) eqn:Em; try done.
  exists env, cancel, l, st'. split_and!; [done|done|..].
  all: pose proof (owned_once i w (mi_sched _ _ Hm)); pose proof (weight_of_lookup (owns i) _ _ _ Hg) as Hle;
    unfold total; simpl in Hle; rewrite eqn_refl in Hle; lia.
Qed.

Lemma calm_top i w g ins st :
  calm_inv i w -> w_goroutines w !! g = Some (ins :: st) -> calm_ins i w ins.
Proof. intros Hc Hg. pose proof (Forall_lookup_1 _ _ _ _ (ca_stacks _ _ Hc) Hg) as Hx. by apply Forall_cons in Hx as [? _]. Qed.

Lemma live_step i acc a w w' :
  base_inv i w -> live i acc w -> takes_pill i a w = false -> step a w = Some w' -> live i (acc ++ accepts i a w) w'.
Proof.
  intros Hb [Ha Hs Hsh] Hp H. split.
  - destruct (mailbox_step_cases i a w w' (ba_mail _ _ Hb) H) as [_ [?|E]]; [congruence|]. by rewrite E, Ha.
  - unfold stopped in *. destruct a as [g pick|u]; [|by account_go H]. step_open H. balance (shuts i).
    step_split; try done. at_process i i0 Heqo; [lia|done].
  - destruct a as [g pick|u]; [|account_go H]. step_open H. balance (shuts i).
    pose proof (calm_top _ _ _ _ _ (ba_calm _ _ Hb) Hg) as Hc. simpl in Hp. rewrite Hg in Hp.
    step_split; simplify_eq/=; rewrite ?eqn_ne in * by done; try lia.
Qed.


Lemma exposed_none i gs : weight_of (owns i) gs = 0%nat -> Forall (fun st => exposed i st = 0%nat) gs.
Proof.
  unfold weight_of. induction gs as [|st gs IH]; simpl; [done|]. intros Hw. constructor; [|apply IH; lia].
  pose proof (exposed_le i st). lia.
Qed.

Lemma pops_le i st : (sum_list_with (pops i) st <= sum_list_with (owns i) st)%nat.
Proof. induction st as [|ins st IH]; simpl; [done|]. destruct ins; simpl; lia. Qed.

(** The pill at the head of the batch opens the teardown. *)
Lemma pill_step i acc a w w' :
  base_inv i w -> live i acc w -> takes_pill i a w = true -> step a w = Some w' -> dying i (acc ++ accepts i a w) w'.
Proof.
  intros Hb [Ha Hs Hsh] Hp H. destruct a as [g pick|u]; [|done].
  destruct (pill_inv g pick i w Hb Hp) as (env & c & l & st & Hg & Em & Ho & Hst).
  simpl in H |- *. rewrite Hg in H. simpl in H. rewrite Em in H. simpl in H. injection H as <-. rewrite Hg, app_nil_r.
  pose proof (ba_mail _ _ Hb) as [Hsch _ Hcov _].
  assert (status i w = stateRunning) as Hz.
  { unfold sched_inv, sched_ok in Hsch. destruct (ba_status _ _ Hb Hs) as [Hns _]. unfold status. intuition (done || lia). }
  clear Hsch. unfold stopped, status, received, mailbox, total in *. simpl in *.
  apply list_elem_of_split_length in Hg as (l1 & l2 & Hgs & ->). rewrite Hgs in *.
  apply Forall_app in Hcov as [Hc1 Hc2]. apply Forall_cons in Hc2 as [Hc Hc2].
  rewrite weight_of_app in *. unfold weight_of in *. simpl in Ho, Hsh. rewrite eqn_refl in Ho.
  assert (held_by i st = []) as Hh.
  { destruct (held_by i st) eqn:E; [done|]. destruct Hc as (_ & _ & _ & _ & Hc).
    pose proof (covered_held i st Hc) as Hx. rewrite E in Hx. specialize (Hx ltac:(done)). lia. }
  assert (batch i l1 = [] /\ batch i l2 = []) as [Hb1 Hb2].
  { split; apply batch_none; try done; unfold weight_of; lia. }
  rewrite insert_app_r_alt, Nat.sub_diag by lia. simpl.
  rewrite batch_app, Hb1 in Ha. simpl in Ha. rewrite only_self, Hh, Hb2, !app_nil_r in Ha.
  destruct (before_pill_first (flat_map (received_of i) (w_log w)) env (l ++ pget p_queue [] i (w_procs w)))
    as [Hbp Hex]; [apply (ba_pills _ _ Hb)|unfold pill, is_pill; by rewrite Em|].
  simpl in Ha. rewrite Ha in *. split.
  - done.
  - done.
  - simpl. by rewrite batch_app, Hb1; simpl; rewrite Hh, Hb2.
  - unfold total. simpl. rewrite weight_of_app. unfold weight_of. simpl.
    pose proof (pops_le i st). assert (forall gs, sum_list_with (sum_list_with (pops i)) gs <= sum_list_with (sum_list_with (owns i)) gs)%nat as Hle.
    { induction gs as [|x gs IH]; simpl; [done|]. pose proof (pops_le i x). lia. }
    pose proof (Hle l1). pose proof (Hle l2). lia.
  - unfold total, stopped. simpl. rewrite weight_of_app, Hs. unfold weight_of. simpl. rewrite eqn_refl. simpl. lia.
  - right. split; [done|]. simpl. apply Forall_app. split; [apply exposed_none; unfold weight_of; lia|].
    constructor; [|apply exposed_none; unfold weight_of; lia]. simpl. by rewrite bool_decide_eq_true_2.
Qed.

(** Nothing is held, so nothing more is received. *)
Lemma batch_nil_lookup i gs g st : batch i gs = [] -> gs !! g = Some st -> held_by i st = [].
Proof.
  intros Hb Hg. apply list_elem_of_split_length in Hg as (l1 & l2 & -> & _).
  rewrite batch_app in Hb. apply app_eq_nil in Hb as [_ Hb]. simpl in Hb. by apply app_eq_nil in Hb as [? _].
Qed.

Lemma batch_nil_insert i gs g st : batch i gs = [] -> held_by i st = [] -> batch i (<[g := st]> gs) = [].
Proof.
  intros Hb Hs. revert g Hb. induction gs as [|x gs IH]; intros [|g] Hb; simpl in *; [done|done|..];
    apply app_eq_nil in Hb as [Hx Hb]; [by rewrite Hs, Hb|by rewrite Hx, IH].
Qed.

Lemma total_zero f g w ins st : total f w = 0%nat -> w_goroutines w !! g = Some (ins :: st) -> f ins = 0%nat.
Proof. intros H Hg. pose proof (weight_of_lookup f _ _ _ Hg) as Hle. unfold total in H. simpl in Hle. lia. Qed.

Lemma dying_received i acc a w w' :
  base_inv i w -> dying i acc w -> step a w = Some w' ->
  received i w' = received i w /\ batch i (w_goroutines w') = [].
Proof.
  intros Hb [_ _ Hba Hpo _ _] H. pose proof (ba_mail _ _ Hb) as [_ Hwf Hcov _]. destruct a as [g pick|u].
  2: { account_go H. split; [done|]. by rewrite batch_app, Hba. }
  step_open H. destruct (step_new_covered i pick ins st w r Hcov Hr) as (new & Hn & _ & Hnew).
  pose proof (batch_nil_lookup _ _ _ _ Hba Hg) as Hh. unfold received. simpl.
  pose proof (total_zero _ _ _ _ _ Hpo Hg) as Hp0.
  assert (flat_map (received_of i) (w_log r.1) = flat_map (received_of i) (w_log w) /\ held_by i r.2 = []) as [-> Hr2].
  2: { split; [done|]. rewrite Hn. apply batch_nil_insert; [|done]. by rewrite batch_app, Hba. }
  destruct (inert i ins) eqn:Hin.
  { destruct (inert_step i pick ins st w r Hin Hr) as (E1 & _ & E3). split; [done|]. by rewrite E1. }
  pose proof (Forall_lookup_1 _ _ _ _ Hcov Hg) as (_ & Hvis & _).
  pose proof (Forall_lookup_1 _ _ _ _ (wf_valid _ Hwf) Hg) as Hv. apply Forall_cons in Hv as [Hval _].
  destruct (active_step i pick ins st w r Hin Hvis Hval Hr)
    as [(env & -> & -> & _ & ->)|[(-> & _)|[(env & -> & _)|(env & l & -> & _)]]].
  - done.
  - simpl in Hp0. by rewrite eqn_refl in Hp0.
  - simpl in Hh. by rewrite only_self in Hh.
  - simpl in Hh. by rewrite only_self in Hh.
Qed.

Lemma dying_once i acc a w w' :
  base_inv i w -> dying i acc w -> takes_pill i a w = false -> step a w = Some w' ->
  (total (shuts i) w' + b2n (stopped i w') = 1)%nat.
Proof.
  intros Hb [_ _ _ _ Ho _] Hp H. unfold stopped in *. destruct a as [g pick|u]; [|account_go H].
  step_open H. balance (shuts i). pose proof (calm_top _ _ _ _ _ (ba_calm _ _ Hb) Hg) as Hc. simpl in Hp. rewrite Hg in Hp.
  step_split; simplify_eq/=; rewrite ?eqn_ne in * by done; try lia;
    at_process i i0 Heqo; rewrite ?H0 in *; simpl in *; lia.
Qed.

Lemma dying_no_pill i acc a w : dying i acc w -> takes_pill i a w = false.
Proof.
  intros Hd. destruct a as [g pick|u]; [|done]. simpl. destruct (w_goroutines w !! g) as [[|ins st]|] eqn:Hg; try done.
  pose proof (batch_nil_lookup _ _ _ _ (dy_batch _ _ _ Hd) Hg) as Hh.
  destruct ins; try done. destruct msgs as [|env l]; [done|]. destruct (decide (i = i0)) as [->|Hn].
  - simpl in Hh. by rewrite only_self in Hh.
  - by rewrite bool_decide_eq_false_2.
Qed.

(** While the teardown is pending, steps other than the stop of the inbox leave
    its consumer where it is. *)
Lemma exposed_step i pick ins st w r :
  pget p_procStatus stateIdle i (w_procs w) = stateRunning ->
  (shuts i ins <> 0%nat -> pget p_stopped false i (w_procs w) = false) ->
  exposed i (ins :: st) = 0%nat -> instr_step pick ins st w = Some r ->
  ins = I_inboxStop i \/
  (exposed i r.2 = 0%nat /\ exists new, w_goroutines r.1 = w_goroutines w ++ new /\
    Forall (fun st => exposed i st = 0%nat) new).
Proof.
  intros Hz Hsh He H. destruct ins; simpl in H, He, Hsh; step_instr H; simpl in *.
  all: try (by left); try (right; split; [try done; try lia|first [exists []; rewrite app_nil_r; by split|eexists; split; [done|try (by repeat constructor)]]]).
  - (* schedule *) constructor; [|done]. simpl. at_process i i0 Heqo; [by rewrite Hz in H1|done].
  - (* Shutdown of a stopped process *)
    rewrite (pget_some _ _ _ _ _ Heqo), eqn_refl in Hsh. rewrite Hsh in H1 by done. done.
  - (* shutdownChildren *) by apply Forall_map, Forall_true.
  - (* reclaim *) at_process i i0 Heqo; [by rewrite Hz in H1|done].
Qed.

(** Only the consumer parks, and nobody leaves the stopped state. *)
Lemma status_step i pick ins st w r z :
  pget p_procStatus stateIdle i (w_procs w) = z -> z = stateStopped \/ z = stateRunning /\ exposed i (ins :: st) = 0%nat ->
  instr_step pick ins st w = Some r ->
  pget p_procStatus stateIdle i (w_procs r.1) = z \/ pget p_procStatus stateIdle i (w_procs r.1) = stateStopped.
Proof.
  intros Hz He H. destruct ins; simpl in H, He; step_instr H; simpl in *;
    rewrite ?pget_keep, ?pget_new by done; auto;
    (match goal with |- context [pget _ _ ?k (alter _ ?j _)] => destruct (decide (k = j)) as [E|Hn] end;
     [try subst; rewrite ?eqn_refl in *|rewrite pget_alter_ne by done; by left]);
    rewrite pget_alter, decide_True by done; unfold pget in *;
    case_match; simplify_eq/=; auto; destruct He as [He|[He ?]]; try rewrite He in *; auto; done.
Qed.

(** The mailbox is not looked at again: its consumer is inside the teardown, or
    finds the inbox stopped. *)
Lemma dying_closed i acc a w w' :
  base_inv i w -> dying i acc w -> step a w = Some w' ->
  total (pops i) w' = 0%nat /\
  (status i w' = stateStopped \/
   status i w' = stateRunning /\ Forall (fun st => exposed i st = 0%nat) (w_goroutines w')).
Proof.
  intros Hb [_ _ _ Hpo Ho Hz] H. unfold status, stopped in *. destruct a as [g pick|u].
  2: { account_go H. split; [lia|]. destruct Hz as [?|[? He]]; [by left|right]. split; [done|].
       apply Forall_app. split; [done|by repeat constructor]. }
  step_open H. balance (pops i).
  assert (pget p_procStatus stateIdle i (w_procs w) = stateStopped \/
    pget p_procStatus stateIdle i (w_procs w) = stateRunning /\ exposed i (ins :: st) = 0%nat) as Hzx.
  { destruct Hz as [?|[? He]]; [by left|right]. split; [done|]. by apply (Forall_lookup_1 _ _ _ _ He Hg). }
  pose proof (status_step i pick ins st w r _ eq_refl Hzx Hr) as Hz'. split.
  - clear Hz Hz'. step_split. destruct (decide (i = i0)) as [->|Hn]; [|rewrite eqn_ne in * by done; lia].
    rewrite (pget_some _ _ _ _ _ Heqo), eqn_refl in *. destruct Hzx as [E|[_ ?]]; [by rewrite E in H0|lia].
  - destruct Hz as [Hz|[Hz He]]; rewrite Hz in *; [left; simpl; by destruct Hz'|].
    destruct Hz' as [Hz'|Hz']; [|by left]. destruct Hzx as [?|[_ Hx]]; [done|].
    destruct (exposed_step i pick ins st w r Hz) with (2 := Hx) (3 := Hr) as [->|(He2 & new & Hnew & Hne)].
    + intros Hs. destruct (pget p_stopped false i (w_procs w)); [|done].
      pose proof (weight_of_lookup (shuts i) _ _ _ Hg). unfold total in Ho. simpl in *. lia.
    + left. simpl in Hr. injection Hr as <-. simpl in *. rewrite pget_alter, decide_True by done.
      unfold pget in Hz. by destruct (w_procs w !! i).
    + right. split; [done|]. simpl. rewrite Hnew. apply Forall_insert; [|done]. by apply Forall_app.
Qed.

Definition phase i acc w : Prop := live i acc w \/ dying i acc w.

Lemma phase_step i acc a w w' :
  base_inv i w -> phase i acc w -> step a w = Some w' -> phase i (acc ++ accepts i a w) w'.
Proof.
  intros Hb Hph H. destruct (takes_pill i a w) eqn:Hp; destruct Hph as [Hl|Hd].
  - right. by eapply pill_step.
  - by rewrite (dying_no_pill _ _ _ _ Hd) in Hp.
  - left. by eapply live_step.
  - right. destruct (dying_received i acc a w w' Hb Hd H) as [Hr Hba].
    destruct (dying_closed i acc a w w' Hb Hd H) as [Hpo Hz]. split; try done.
    + rewrite Hr, before_pill_stable by apply Hd. apply Hd.
    + rewrite existsb_app, (dy_pill _ _ _ Hd). done.
    + by eapply dying_once.
Qed.

(** ** The deliveries *)

Definition is_Started (m : msg U) : bool := match m with Started => true | _ => false end.
Definition started_delivery (d : delivery U) : bool := d_lifecycle d && is_Started (Msg (d_env d)).

(** Started is on the spawner's goroutine and may come anywhere. *)
Definition story i log : list (delivery U) := filter (fun d => started_delivery d = false) (deliveries i log).

(** The deliveries of Started to come, and made. *)
Definition startings i ins : nat :=
  match ins with
  | I_Start j | I_spawnProc j => eqn i j
  | I_invokeMsg j life env => eqn i j * b2n (life && is_Started (Msg env))
  | _ => 0
  end.
Definition started_logged i (d : delivery U) : nat := eqn i (d_proc d) * b2n (started_delivery d).
Definition starteds i log : nat := sum_list_with (started_logged i) log.

Lemma starteds_snoc i log j life env :
  starteds i (log ++ [MkDelivery j life env]) =
  (starteds i log + eqn i j * b2n (life && is_Started (Msg env)))%nat.
Proof. unfold starteds. rewrite sum_list_with_app. unfold started_logged at 2, started_delivery. simpl. lia. Qed.

(** One Initialized and one Started, without restarts. *)
Definition once_each i w : Prop :=
  (inits i (w_log w) + total (starts i) w <= made i (w_procs w))%nat /\
  (starteds i (w_log w) + total (startings i) w <= made i (w_procs w))%nat.

Lemma once_each_step i a w w' : calm_inv i w -> once_each i w -> step a w = Some w' -> once_each i w'.
Proof.
  unfold once_each. intros Hc [Hi Hs] H. destruct a as [g pick|u]; [|account_go H].
  step_open H. balance (starts (U:=U) (RS:=RS) (Pr:=Pr) (M:=M) i). balance (startings i). pose proof (calm_top _ _ _ _ _ Hc Hg) as Ht'.
  step_split; rewrite ?made_snoc, ?made_alter, ?inits_snoc, ?starteds_snoc in *; try (split; lia).
  (* tryRestart *) simpl in Ht'. rewrite eqn_ne in * by done. split; lia.
Qed.

(** What has been delivered to [i], Started aside. *)
Inductive tale i w : Prop :=
  | T_unborn : deliveries i (w_log w) = [] -> received i w = [] -> stops i w = 0%nat -> tale i w
  | T_alive env : Msg env = Initialized -> (1 <= inits i (w_log w))%nat -> stops i w = 0%nat ->
      story i (w_log w) = MkDelivery i true env :: map (MkDelivery i false) (received i w) -> tale i w
  | T_stopped env env' : Msg env = Initialized -> Msg env' = Stopped -> (1 <= inits i (w_log w))%nat ->
      stops i w = 1%nat -> story i (w_log w) =
        MkDelivery i true env :: map (MkDelivery i false) (received i w) ++ [MkDelivery i true env'] -> tale i w.

Lemma story_snoc i log d : story i (log ++ [d]) =
  story i log ++ (if decide (d_proc d = i /\ started_delivery d = false) then [d] else []).
Proof.
  unfold story. rewrite deliveries_snoc, filter_app. f_equal.
  destruct (decide (d_proc d = i)) as [E|E]; [|by rewrite decide_False by (intros [? _]; done)].
  unfold filter, list_filter. simpl. case_decide; [by rewrite decide_True|by rewrite decide_False by (intros [_ ?]; done)].
Qed.

(** A step that delivers nothing to [i] leaves the tale alone. *)
Lemma tale_keep i w w' : tale i w ->
  deliveries i (w_log w') = deliveries i (w_log w) -> received i w' = received i w -> stops i w' = stops i w ->
  inits i (w_log w') = inits i (w_log w) -> tale i w'.
Proof.
  intros Ht Hd Hr Hs Hi. assert (story i (w_log w') = story i (w_log w)) as E by (unfold story; by rewrite Hd).
  destruct Ht.
  - apply T_unborn; congruence.
  - eapply T_alive; rewrite ?E, ?Hr, ?Hs, ?Hi; eauto.
  - eapply T_stopped; rewrite ?E, ?Hr, ?Hs, ?Hi; eauto.
Qed.

(** The deliveries that do not break the tale. *)
Lemma tale_delivery i life env w w' :
  tale i w -> w_log w' = w_log w ++ [MkDelivery i life env] ->
  (life = true -> lifecycle_msg (Msg env) = true) ->
  (deliveries i (w_log w) = [] -> life && is_Initialized (Msg env) = true) ->
  (inits i (w_log w') <= 1)%nat -> (stops i w' <= 1)%nat -> (life = false -> stops i w = 0%nat) -> tale i w'.
Proof.
  intros Ht Hl Hlife Hun Hin Hst Hf.
  assert (stops i w' = stops i w + b2n (life && is_Stopped (Msg env)))%nat as Es.
  { unfold stops. rewrite Hl, sum_list_with_app. simpl. rewrite stop_logged_eq, eqn_refl. lia. }
  assert (received i w' = received i w ++ (if life then [] else [env])) as Er.
  { unfold received. rewrite Hl, received_snoc. unfold received_of at 2. simpl. by rewrite only_self. }
  assert (inits i (w_log w') = inits i (w_log w) + b2n (life && is_Initialized (Msg env)))%nat as Ei.
  { rewrite Hl, inits_snoc, eqn_refl. lia. }
  assert (story i (w_log w') = story i (w_log w) ++
    (if life && is_Started (Msg env) then [] else [MkDelivery i life env])) as Ey.
  { rewrite Hl, story_snoc. unfold started_delivery. simpl. f_equal.
    destruct (life && is_Started (Msg env)); case_decide as E; (done || by destruct E). }
  destruct Ht as [Hd Hr Hs|e0 He0 Hi0 Hs0 Hy|e0 e1 He0 He1 Hi0 Hs0 Hy].
  - specialize (Hun Hd). apply andb_true_iff in Hun as [-> Hm]. destruct (Msg env) eqn:Em; try discriminate Hm.
    simpl in *. eapply (T_alive _ _ env); [done|lia|lia|]. unfold story in Ey at 2. rewrite Hd in Ey. by rewrite Ey, Er, Hr.
  - destruct life; simpl in *.
    + specialize (Hlife eq_refl). destruct (Msg env) eqn:Em; try discriminate Hlife; simpl in *; [lia|..].
      * eapply (T_alive _ _ e0); [done|lia|lia|]. by rewrite Ey, Er, !app_nil_r.
      * eapply (T_stopped _ _ e0 env); [done|done|lia|lia|]. by rewrite Ey, Er, Hy, app_nil_r.
    + eapply (T_alive _ _ e0); [done|lia|lia|]. by rewrite Ey, Er, Hy, map_app.
  - destruct life; simpl in *; [|specialize (Hf eq_refl); lia].
    specialize (Hlife eq_refl). destruct (Msg env) eqn:Em; try discriminate Hlife; simpl in *; try lia.
    eapply (T_stopped _ _ e0 e1); [done|done|lia|lia|]. by rewrite Ey, Er, !app_nil_r.
Qed.

Lemma tale_step i acc a w w' :
  base_inv i w -> base_inv i w' -> phase i acc w -> once_each i w' -> tale i w -> step a w = Some w' -> tale i w'.
Proof.
  intros Hb Hb' Hph Ho Ht H. destruct a as [g pick|u]; [|account_go H; by apply (tale_keep i w)].
  step_open H. destruct (is_invoke ins) as [[[[j life] env] ->]|Hno].
  2: { apply (tale_keep i w); try done; unfold received, stops; simpl; by rewrite (other_log _ _ _ _ _ Hno Hr). }
  change (instr_step pick (I_invokeMsg j life env) st w = Some r) in Hr. simpl in Hg.
  pose proof (invoke_log _ _ _ _ _ _ _ Hr) as Hlog.
  destruct (decide (j = i)) as [->|Hn].
  2: { apply (tale_keep i w); try done; unfold received, stops; simpl; rewrite Hlog.
       - rewrite deliveries_snoc, decide_False by (simpl; congruence). by rewrite app_nil_r.
       - rewrite received_snoc. unfold received_of at 2. simpl. rewrite only_ne by done.
         destruct life; by rewrite app_nil_r.
       - rewrite sum_list_with_app. simpl. rewrite stop_logged_eq, eqn_ne by done. simpl. lia.
       - rewrite inits_snoc, eqn_ne by done. simpl. lia. }
  apply (tale_delivery i life env w); try done.
  - by apply (calm_top _ _ _ _ _ (ba_calm _ _ Hb) Hg).
  - intros Hd. pose proof (ba_born _ _ Hb') as Hx. unfold born_inv in Hx. simpl in Hx.
    rewrite Hlog, deliveries_snoc, Hd, decide_True in Hx by done. done.
  - destruct Ho as [Ho _]. unfold made in Ho. lia.
  - pose proof (ba_stop _ _ Hb') as Hx. unfold stop_inv in Hx. destruct (pget p_stopped _ _ _); simpl in Hx; lia.
  - intros ->. destruct Hph as [Hlv|Hdy].
    + pose proof (ba_stop _ _ Hb) as Hx. unfold stop_inv in Hx. pose proof (lv_stopped _ _ _ Hlv) as Hs.
      unfold stopped in Hs. rewrite Hs in Hx. simpl in Hx. lia.
    + pose proof (batch_nil_lookup _ _ _ _ (dy_batch _ _ _ Hdy) Hg) as Hh. simpl in Hh. by rewrite only_self in Hh.
Qed.

(** ** Runs *)

Record contract_inv i acc w : Prop := ContractInv {
  co_base : base_inv i w;
  co_phase : phase i acc w;
  co_once : once_each i w;
  co_tale : tale i w;
}.

Lemma contract_inv_run i acc acts w w' :
  calm_at i w' -> contract_inv i acc w -> run step acts w = Some w' -> contract_inv i (acc ++ accepted i acts w) w'.
Proof.
  revert acc w. induction acts as [|a acts IH]; intros acc w Hc Hi H; simpl in H |- *.
  - simplify_eq. by rewrite app_nil_r.
  - destruct (step a w) as [w1|] eqn:Es; [|done]. simpl in H. rewrite app_assoc.
    pose proof (calm_at_run_back i acts w1 w' H Hc) as Hc1.
    apply IH; [done| |done]. destruct Hi as [Hb Hp Ho Ht].
    pose proof (base_inv_step i a w w1 Hc1 Hb Es) as Hb1.
    pose proof (once_each_step i a w w1 (ba_calm _ _ Hb) Ho Es) as Ho1.
    split; [done|by apply phase_step|done|by apply (tale_step i acc a w w1)].
Qed.

Lemma contract_inv_new i cfg pc cc : contract_inv i [] (NewEngine cfg pc cc).
Proof.
  split; [apply base_inv_new| |..].
  - left. split; [|unfold stopped, pget|]; try done; unfold mailbox, pget; by destruct i as [|[]].
  - unfold once_each, total, weight_of. simpl. destruct i; simpl; rewrite ?eqn_refl, ?eqn_ne by done; split; unfold made; simpl; lia.
  - by apply T_unborn.
Qed.

Lemma contract_reachable i cfg pc cc acts w :
  run step acts (NewEngine cfg pc cc) = Some w -> calm_at i w ->
  contract_inv i (accepted i acts (NewEngine cfg pc cc)) w.
Proof. intros H Hc. apply (contract_inv_run i [] acts _ w Hc (contract_inv_new i cfg pc cc) H). Qed.

(** Stopped comes with the first pill. *)
Lemma stopped_dying i acc w : contract_inv i acc w -> stops i w = 1%nat -> dying i acc w.
Proof.
  intros [Hb Hph _ _] Hs. destruct Hph as [Hl|]; [|done]. pose proof (ba_stop _ _ Hb) as Hx. unfold stop_inv in Hx.
  pose proof (lv_stopped _ _ _ Hl) as Hz. unfold stopped in Hz. rewrite Hz in Hx. simpl in Hx. lia.
Qed.

Lemma settled_batch i w : settled w -> batch i (w_goroutines w) = [].
Proof.
  unfold settled, batch. intros Hs. induction (w_goroutines w) as [|st gs IH]; simpl; [done|].
  rewrite (Hs 0%nat st eq_refl). simpl. apply IH. intros g. apply (Hs (S g)).
Qed.

(** ** Properties *)

(** C2: the life of an actor whose [Receive], under its middleware, does not
    panic, whatever the other actors and all schedulers do: Started aside, which
    comes at most once but may come anywhere, it gets Initialized, then the
    messages of its mailbox in the order in which they entered it, then at most
    one Stopped and nothing after it.  Until it takes a pill nothing is lost;
    once it has, and so whenever it is told Stopped, what it has received is
    exactly what entered the mailbox before the first pill. *)
Theorem lifecycle_contract cfg pc cc acts w i p :
  run step acts (NewEngine cfg pc cc) = Some w -> w_procs w !! i = Some p -> calm_proc p ->
  let acc := accepted i acts (NewEngine cfg pc cc) in
  (starteds i (w_log w) <= 1)%nat /\
  (received i w ++ mailbox i w = acc \/ received i w = before_pill acc /\ existsb pill acc = true) /\
  (deliveries i (w_log w) = [] \/
   exists env tl, Msg env = Initialized /\
     story i (w_log w) = MkDelivery i true env :: map (MkDelivery i false) (received i w) ++ tl /\
     (tl = [] \/ exists env', Msg env' = Stopped /\ tl = [MkDelivery i true env'] /\
       received i w = before_pill acc)).
Proof.
  intros H Hp Hc acc. pose proof (contract_reachable i cfg pc cc acts w H) as Hi.
  specialize (Hi ltac:(intros q Hq; by simplify_eq)). fold acc in Hi. split_and!.
  - destruct (co_once _ _ _ Hi) as [_ Ho]. unfold made in Ho. lia.
  - destruct (co_phase _ _ _ Hi) as [[]|[]]; auto.
  - destruct (co_tale _ _ _ Hi) as [? _ _|env He _ _ Hy|env env' He He' _ Hs Hy]; [by left|right; exists env..].
    + exists []. rewrite app_nil_r. auto.
    + exists [MkDelivery i true env']. split_and!; [done..|right]. exists env'. split_and!; [done..|].
      apply (stopped_dying i acc w Hi Hs).
Qed.

(** C12: a [Poison] is graceful: when all goroutines have finished, an actor that
    does not panic has received everything that entered its mailbox before the
    first pill, all of it when there was none, and has been told Stopped exactly
    if there was a pill. *)
Theorem graceful_stop cfg pc cc acts w i p :
  run step acts (NewEngine cfg pc cc) = Some w -> w_procs w !! i = Some p -> calm_proc p -> settled w ->
  let acc := accepted i acts (NewEngine cfg pc cc) in
  received i w = before_pill acc /\ stops i w = b2n (existsb pill acc).
Proof.
  intros H Hp Hc Hs acc. pose proof (contract_reachable i cfg pc cc acts w H) as Hi.
  specialize (Hi ltac:(intros q Hq; by simplify_eq)). fold acc in Hi. destruct Hi as [Hb Hph _ _].
  pose proof (ba_stop _ _ Hb) as Hst. unfold stop_inv in Hst. rewrite settled_total in Hst by done.
  destruct Hph as [[Ha Hz _]|[Hr Hx _ _ Ho _]].
  - unfold stopped in Hz. rewrite Hz in Hst.
    assert (settled_inv w) as Hsi by (apply (settled_inv_reachable cfg pc cc); by exists acts).
    destruct (settled_queue i w Hsi Hs) as [?|[_ Hq]]; [congruence|].
    unfold mailbox in Ha. rewrite settled_batch, Hq, app_nil_r in Ha by done. simpl in *.
    pose proof (ba_pills _ _ Hb) as Hn. unfold no_pills in Hn. rewrite <- Ha, before_pill_none, Hn by done.
    split; [done|]. simpl. lia.
  - rewrite settled_total in Ho by done. unfold stopped in Ho. rewrite Hx. split; [done|]. simpl. lia.
Qed.
End contract.
