(* ===== verification/Pills.v ===== *)
(** * Pills cannot be forged

    [poisonPill] is not exported: code outside of the package cannot make one,
    and no call hands one out.  The class [Honest] says so of the user code; then
    a pill in a mailbox was put there by [Poison], for the process whose waiters
    hold its context. *)

From S2P Require Import Prelude RingBuffer Inbox Pid Middleware Opts Registry EventStream.
From S2P Require Import World Engine Accounting Teardown Settled.

Section honest.
Context {U RS Pr M : Type}.
Notation prog := (prog U RS Pr M).
Implicit Types (m : msg U) (u : prog).

(** No pill in it, not even inside a dead letter. *)
Fixpoint pure m : bool :=
  match m with
  | poisonPill _ => false
  | DeadLetterEvent _ m _ => pure m
  | _ => true
  end.

Definition pure_val (v : val U) : bool :=
  match v with VMsg m | VResult m _ => pure m | _ => true end.

Definition pure_call (o : api U Pr M) : bool :=
  match o with
  | C_Send _ m | C_Respond m | C_SendRepeat _ m _ | Offer m | E_Send _ m | E_SendWithSender _ m _
  | E_Request _ m | E_SendRepeat _ m _ | E_SendAfter _ m | E_BroadcastEvent m => pure m
  | _ => true
  end.

(** A program that sends no pill unless it is given one. *)
Fixpoint honest u : Prop :=
  match u with
  | Ret | Panic => True
  | Get _ k => forall s, honest (k s)
  | Put _ _ k => honest k
  | Call o k => pure_call o = true /\ forall v, pure_val v = true -> honest (k v)
  end.
End honest.

(** What Go's visibility rules say of the user code. *)
Class Honest U RS Pr M `{!UserCode U RS Pr M} : Prop := {
  honest_receive : forall pr x, honest (u_receive pr x);
  honest_wrap : forall x u, honest u -> honest (u_wrap x u);
}.

Section pills.
Context {U RS Pr M : Type} `{!UserCode U RS Pr M, !Honest U RS Pr M}.
Notation world := (world U RS Pr M).
Notation process := (process U RS Pr M).
Notation instr := (instr U RS Pr M).
Notation stack := (list instr).
Notation prog := (prog U RS Pr M).
Implicit Types (w : world) (p : process) (ins : instr) (st : stack) (i j g pick n c : nat).
Implicit Types (m : msg U) (env : Envelope U) (u : prog).

Definition genuine env : Prop := pure (Msg env) = true \/ is_pill (Msg env) = true.

Definition pure_ins ins : Prop :=
  match ins with
  | I_user _ u => honest u
  | I_cont _ k => forall v, pure_val v = true -> honest (k v)
  | I_return v => pure_val v = true
  | I_sendMessage _ m _ | I_broadcast m | I_scan m _ _ | I_fanout m _ | I_requested _ _ m
  | I_send _ _ m | I_repeat _ _ m _ | I_ticker _ _ m | I_timer _ _ m => pure m = true
  | I_invokeMsg _ _ env => pure (Msg env) = true
  | I_deliver _ env => genuine env
  | I_Invoke _ msgs => Forall genuine msgs
  | _ => True
  end.

Record pure_proc p : Prop := PureProc {
  pp_message : pure (p_message p) = true;
  pp_queue : Forall genuine (p_queue p);
  pp_chain : forall h, p_chain p = Some h -> honest h;
}.

Record pure_world w : Prop := PureWorld {
  pw_stacks : Forall (Forall pure_ins) (w_goroutines w);
  pw_procs : Forall pure_proc (w_procs w);
  pw_results : Forall (fun r => pure (r_result r) = true) (w_responses w);
  pw_replies : Forall (fun x => forall m, x = Some m -> pure m = true) (w_replyChs w);
}.

Lemma honest_receive_of (x : producer Pr * nat) : honest (receive_of (RS:=RS) (M:=M) x).
Proof.
  destruct x as [[] y]; simpl; [apply honest_receive|done|]. split; [done|].
  assert (honest (offer_message (U:=U) (RS:=RS) (Pr:=Pr) (M:=M))) as Ho by (split; [done|]; by intros []).
  intros v Hv. destruct v as [|m| | | | | |]; try done. by destruct m.
Qed.

Lemma honest_compose (ms : list M) u : honest u -> honest (compose (map u_wrap ms) u).
Proof. intros Hu. induction ms as [|x ms IH]; simpl; [done|]. by apply honest_wrap. Qed.

Definition honest_act (a : @act U RS Pr M) : Prop := match a with A_go u => honest u | A_step _ _ => True end.

(** What a step leaves behind is as pure as what it found. *)
Lemma pure_procs_alter i f (ps : list process) :
  Forall pure_proc ps -> (forall p, pure_proc p -> pure_proc (f p)) -> Forall pure_proc (alter f i ps).
Proof. intros H Hf. apply Forall_alter; [done|]. eauto. Qed.

Lemma pure_proc_at w i p : pure_world w -> w_procs w !! i = Some p -> pure_proc p.
Proof. intros H Hp. by apply (Forall_lookup_1 _ _ _ _ (pw_procs _ H) Hp). Qed.

Ltac purely Hw :=
  repeat match goal with
  | Hp : w_procs _ !! _ = Some _ |- _ => apply (pure_proc_at _ _ _ Hw) in Hp as []
  | H : _ /\ _ |- _ => destruct H
  | H : Forall _ (_ :: _) |- _ => apply Forall_cons in H
  end; try done; eauto.

Lemma pure_step_stack pick ins st w r :
  pure_world w -> Forall pure_ins (ins :: st) -> instr_step pick ins st w = Some r -> Forall pure_ins r.2.
Proof.
  intros Hw Hs H. apply Forall_cons in Hs as [Hi Hst].
  destruct ins; simpl in H, Hi; step_instr H; simpl in *;
    repeat (apply Forall_cons; split); simpl; purely Hw; try (by left); try (by right);
    try match goal with
    | He : genuine ?e, Em : Msg ?e = _ |- _ => destruct He as [?|He]; [done|by rewrite Em in He]
    | Hn : w_responses _ !! _ = Some _ |- _ => pose proof (Forall_lookup_1 _ _ _ _ (pw_results _ Hw) Hn); eauto
    end.
  - apply honest_receive_of.
  - match goal with E : popn_spec _ _ = _ |- _ => rewrite <- (popn_batch _ _ _ E) end. by apply Forall_take.
Qed.

(** The state it changes. *)
Definition pure_state w : Prop :=
  Forall pure_proc (w_procs w) /\ Forall (fun r => pure (r_result r) = true) (w_responses w) /\
  Forall (fun x => forall m, x = Some m -> pure m = true) (w_replyChs w).

Lemma pure_step_state pick ins st w r :
  pure_world w -> Forall pure_ins (ins :: st) -> instr_step pick ins st w = Some r -> pure_state r.1.
Proof.
  unfold pure_state. intros Hw Hs H. apply Forall_cons in Hs as [Hi Hst].
  pose proof (pw_procs _ Hw) as Hp. pose proof (pw_results _ Hw) as Hr. pose proof (pw_replies _ Hw) as Hc.
  destruct ins; simpl in H, Hi; step_instr H; simpl in *; split_and!; try done;
    try (apply pure_procs_alter; [done|intros q []; split; simpl; try done]);
    try (apply Forall_app; split; [done|repeat constructor; done]); try (by apply Forall_insert; [done|intros ? ?; simplify_eq; apply Hi]);
    try (apply Forall_alter; [done|]; intros ? ? ?; simpl; try done).
  - (* deliver *) apply Forall_app. by split; [|constructor].
  - (* await *) match goal with E : w_replyChs _ !! _ = Some (Some _) |- _ => by apply (Forall_lookup_1 _ _ _ _ Hc E) end.
  - (* Start *) intros h [= <-]. match goal with E : buildChain _ _ = _ |- _ => rewrite buildChain_ok in E; injection E as <- end.
    apply honest_compose, honest_receive_of.
  - (* popN *) apply Forall_drop, (pure_proc_at _ _ _ Hw Heqo).
Qed.

Lemma pure_step_new pick ins st w r :
  Forall pure_ins (ins :: st) -> instr_step pick ins st w = Some r ->
  exists new, w_goroutines r.1 = w_goroutines w ++ new /\ Forall (Forall pure_ins) new.
Proof.
  intros Hs H. apply Forall_cons in Hs as [Hi Hst].
  destruct ins; simpl in H, Hi; step_instr H; simpl in *;
    first [exists []; rewrite app_nil_r; by split|eexists; split; [done|]]; try (repeat constructor; simpl; by try apply Hi).
  apply Forall_map, Forall_true. by repeat constructor.
Qed.

Lemma pure_world_step a w w' : honest_act a -> pure_world w -> step a w = Some w' -> pure_world w'.
Proof.
  intros Ha Hw H. destruct a as [g pick|u].
  - step_open H. assert (Forall pure_ins (ins :: st)) as Hs by (by eapply (Forall_lookup_1 _ _ _ _ (pw_stacks _ Hw))).
    destruct (pure_step_state pick ins st w r Hw Hs Hr) as (Hp & Hre & Hc).
    destruct (pure_step_new pick ins st w r Hs Hr) as (new & Hn & Hnew).
    split; simpl; [|done..]. rewrite Hn. apply Forall_insert; [|by eapply pure_step_stack].
    apply Forall_app. split; [apply Hw|done].
  - account_go H. split; simpl; [|apply Hw..]. apply Forall_app. split; [apply Hw|by repeat constructor].
Qed.

Lemma pure_world_new cfg pc cc : pure_world (NewEngine cfg pc cc).
Proof. split; simpl; [by repeat constructor| |done..]. constructor; [|done]. split; simpl; [done..|]. by intros. Qed.
End pills.
