(* ===== verification/Released.v ===== *)
(** * What the context of a Poison says

    [Engine.Poison] returns a context that is done once the actor has stopped.
    For an actor that does not panic, when the pill was accepted: its waiters
    are released only after it has been told Stopped, its ID has been given back
    and its inbox has been stopped, in this order.  The proof follows the
    custody of one context, from the caller to the process and its teardown. *)

From S2P Require Import Prelude RingBuffer Inbox Pid Middleware Opts Registry EventStream.
From S2P Require Import World Engine Accounting Teardown Scheduling Settled Futures Lifecycle WellFormed Progress.
From S2P Require Import Mailbox Inboxes Calm Contract Pills.

Section released.
Context {U RS Pr M : Type} `{!UserCode U RS Pr M, !Honest U RS Pr M}.
Notation world := (world U RS Pr M).
Notation process := (process U RS Pr M).
Notation instr := (instr U RS Pr M).
Notation stack := (list instr).
Implicit Types (w : world) (p : process) (ins : instr) (st : stack) (i j g pick n c : nat).
Implicit Types (env : Envelope U) (acc l : list (Envelope U)) (o : option nat).

(** ** Registration *)

(** The registration of [i] that is still to come. *)
Definition regs i ins : nat :=
  match ins with I_Start j | I_spawnProc j | I_registerProcess j => eqn i j | _ => 0 end.

(** Work that only a registered process gets. *)
Definition reaching i ins : nat :=
  match ins with
  | I_deliver j _ | I_addCancel j _ | I_Invoke j _ | I_Shutdown j | I_unregister j => eqn i j
  | _ => 0
  end.

Definition unreached i w : Prop :=
  total (reaching i) w = 0%nat /\ pget p_queue [] i (w_procs w) = [] /\ unregistered i (w_registry w).

(** Registered once, and out of reach before. *)
Definition reg_inv i w : Prop :=
  (total (regs i) w <= made i (w_procs w))%nat /\
  (total (regs i) w = 0%nat /\ made i (w_procs w) = 1%nat \/ unreached i w).

Definition registers i ins : nat := match ins with I_registerProcess j => eqn i j | _ => 0 end.

Lemma valid_top w g ins st :
  wf_world w -> w_goroutines w !! g = Some (ins :: st) -> valid (length (w_procs w)) ins = true.
Proof. intros Hw Hg. pose proof (Forall_lookup_1 _ _ _ _ (wf_valid _ Hw) Hg) as Hx. by apply Forall_cons in Hx as [? _]. Qed.

Lemma get_registered i pid w h :
  unregistered i (w_registry w) -> get pid (w_registry w) = Some h -> h_custom h = false -> h_num h <> i.
Proof. intros Hu H Hc. destruct pid as [pid|]; [|done]. by eapply Hu. Qed.

Lemma regs_step i g pick ins st w r :
  w_goroutines w !! g = Some (ins :: st) -> instr_step pick ins st w = Some r -> calm_ins i w ins ->
  (total (regs i) (set_goroutines (<[g := r.2]> (w_goroutines r.1)) r.1) + registers i ins + made i (w_procs w)
    <= total (regs i) w + made i (w_procs r.1))%nat.
Proof.
  intros Hg Hr Hc. balance (regs i). step_split; rewrite ?made_snoc, ?made_alter; try lia.
  (* tryRestart *) simpl in Hc. rewrite eqn_ne in * by done. lia.
Qed.

Lemma made_step i pick ins st w r :
  instr_step pick ins st w = Some r -> (made i (w_procs w) <= made i (w_procs r.1))%nat.
Proof. intros H%step_procs. unfold made. lia. Qed.

(** Only the registration itself lets anyone in. *)
Lemma unregistered_step i pick ins st w r :
  unregistered i (w_registry w) -> registers i ins = 0%nat -> valid (length (w_procs w)) ins = true ->
  instr_step pick ins st w = Some r -> unregistered i (w_registry r.1).
Proof.
  intros Hu Hn Hv H. destruct ins; simpl in H, Hn, Hv; step_instr H; simpl in *; try done.
  - apply unregistered_add; [done|congruence].
  - apply unregistered_add; [done|]. simpl. intros _ ->. by rewrite eqn_refl in Hn.
  - by apply (unregistered_remove _ (Some (p_pid H0))).
Qed.

Lemma unreached_step i g pick ins st w r :
  w_goroutines w !! g = Some (ins :: st) -> instr_step pick ins st w = Some r ->
  calm_ins i w ins -> valid (length (w_procs w)) ins = true -> registers i ins = 0%nat ->
  unreached i w -> unreached i (set_goroutines (<[g := r.2]> (w_goroutines r.1)) r.1).
Proof.
  intros Hg Hr Hc Hv Hn (Ht & Hq & Hu).
  pose proof (unregistered_step i pick ins st w r Hu Hn Hv Hr) as Hu'.
  pose proof (total_zero _ _ _ _ _ Ht Hg) as Hz. balance (reaching i).
  split; [|split; [|done]]; simpl in *; clear Hu' Hn Hv.
  - revert Hq Hu Hc. step_split; intros Hq Hu Hc.
    + (* sendMessage *) rewrite eqn_ne in * by (intros ->; by eapply (get_registered (h_num h) to)). lia.
    + (* poison *) rewrite eqn_ne in * by (intros ->; by eapply get_process_unregistered). lia.
    + (* send *) rewrite eqn_ne in * by (intros ->; by eapply (get_registered (h_num h) to)). lia.
    + (* tryRestart *) simpl in Hc. rewrite eqn_ne in * by done. lia.
    + (* tryRestart *) simpl in Hc. rewrite eqn_ne in * by done. lia.
    + (* popN *) at_process i i0 Heqo; [|lia]. rewrite Hq in *. discriminate.
  - step_split; try done.
    + (* deliver *) rewrite pget_alter_ne; [done|]. intros ->. by rewrite eqn_refl in Hz.
    + (* popN *) at_process i i0 Heqo; [|done]. by rewrite Hq.
Qed.

Lemma reg_inv_step i a w w' : base_inv i w -> reg_inv i w -> step a w = Some w' -> reg_inv i w'.
Proof.
  unfold reg_inv. intros Hb [Hle Hc] H. destruct a as [g pick|u].
  2: { account_go H. split; [lia|]. destruct Hc as [Hc|(Ht & ?)]; [left|right]; unfold unreached; rewrite ?total_go; simpl; [|split]; try done; lia. }
  step_open H. pose proof (calm_top _ _ _ _ _ (ba_calm _ _ Hb) Hg) as Ht.
  pose proof (valid_top _ _ _ _ (mi_wf _ _ (ba_mail _ _ Hb)) Hg) as Hv.
  pose proof (regs_step i g pick ins st w r Hg Hr Ht) as Hx. pose proof (made_step i pick ins st w r Hr) as Hm.
  assert (made i (w_procs r.1) <= 1)%nat as Hone by (unfold made; lia). split; [simpl; lia|].
  destruct Hc as [[Hz Hm1]|Hout]; [left; simpl; lia|]. destruct (registers i ins) eqn:En.
  - right. by apply (unreached_step i g pick ins st w r).
  - left. pose proof (weight_of_lookup (regs i) _ _ _ Hg) as Hw.
    assert (registers i ins <= regs i ins)%nat by (destruct ins; simpl; lia). unfold total in *. simpl in *. lia.
Qed.

Lemma reg_inv_new i cfg pc cc : reg_inv i (NewEngine cfg pc cc).
Proof.
  unfold reg_inv, unreached, total, weight_of, made, pget. simpl. split; [destruct i; simpl; rewrite ?eqn_refl, ?eqn_ne by done; lia|].
  right. split_and!; [done|by destruct i|]. intros id h Hh. unfold newRegistry in Hh. by rewrite lookup_empty in Hh.
Qed.

(** What is registered for [i] is under its own ID. *)
Definition id_of i w : option string := pget (fun p => Some (ID (p_pid p))) None i (w_procs w).

Definition named i w : Prop :=
  forall id h, w_registry w !! id = Some h -> h_custom h = false -> h_num h = i -> id_of i w = Some id.

Lemma id_of_step i pick ins st w r s :
  instr_step pick ins st w = Some r -> id_of i w = Some s -> id_of i r.1 = Some s.
Proof.
  unfold id_of. intros H Hs. destruct ins; simpl in H; step_instr H; simpl in *; rewrite ?pget_keep by done; try done;
    unfold pget in *; destruct (w_procs w !! i) eqn:E; try done; by rewrite (lookup_app_l_Some _ _ _ _ E).
Qed.

Lemma named_step i g pick ins st w r :
  valid (length (w_procs w)) ins = true -> instr_step pick ins st w = Some r -> named i w -> named i r.1.
Proof.
  intros Hv H Hn id h Hl Hc Hi. assert (id_of i w = Some id -> id_of i r.1 = Some id) as Hk by (by eapply id_of_step).
  specialize (Hn id h). destruct ins; simpl in H, Hv; step_instr H; simpl in *; auto.
  - (* addProc *) rewrite add_lookup in Hl. destruct (String.eqb _ _); [|by auto].
    injection Hl as Hl. destruct (w_registry w !! id) eqn:E; simplify_eq; [by auto|congruence].
  - (* registerProcess *) rewrite add_lookup in Hl. destruct (String.eqb _ _) eqn:Es; [|by auto].
    apply String.eqb_eq in Es. injection Hl as Hl. destruct (w_registry w !! id) eqn:E; simplify_eq; [by auto|].
    simpl in *. unfold id_of. simpl. by rewrite (pget_some _ _ _ _ _ Heqo).
  - (* unregister *) apply lookup_delete_Some in Hl as [_ Hl]. by auto.
Qed.

Lemma named_new i cfg pc cc : named i (NewEngine cfg pc cc).
Proof. intros id h Hh. simpl in Hh. unfold newRegistry in Hh. by rewrite lookup_empty in Hh. Qed.

Lemma unregister_leaves i pick st w r :
  named i w -> instr_step pick (I_unregister i) st w = Some r -> unregistered i (w_registry r.1).
Proof.
  intros Hn H. simpl in H. step_instr H. intros id h Hl Hc Hi. simpl in Hl.
  apply lookup_delete_Some in Hl as [Hne Hl]. specialize (Hn id h Hl Hc Hi). unfold id_of in Hn.
  rewrite (pget_some _ _ _ _ _ Heqo) in Hn. by injection Hn.
Qed.

(** ** Stopped, unregistered, for good *)

Record absent i w : Prop := Absent {
  ab_stops : (1 <= stops i w)%nat;
  ab_made : made i (w_procs w) = 1%nat;
  ab_regs : total (regs i) w = 0%nat;
  ab_registry : unregistered i (w_registry w);
}.

Lemma stops_step i pick ins st w r : instr_step pick ins st w = Some r -> (stops i w <= stops i r.1)%nat.
Proof.
  unfold stops. intros H. destruct (is_invoke ins) as [[[[j life] env] ->]|Hno].
  - rewrite (invoke_log _ _ _ _ _ _ _ H), sum_list_with_app. lia.
  - by rewrite (other_log _ _ _ _ _ Hno H).
Qed.

Lemma absent_step i a w w' : base_inv i w -> absent i w -> step a w = Some w' -> absent i w'.
Proof.
  intros Hb [Hs Hm Ht Hu] H. destruct a as [g pick|u].
  2: { account_go H. split; rewrite ?total_go; simpl; try done. lia. }
  step_open H. pose proof (calm_top _ _ _ _ _ (ba_calm _ _ Hb) Hg) as Hc.
  pose proof (valid_top _ _ _ _ (mi_wf _ _ (ba_mail _ _ Hb)) Hg) as Hv.
  pose proof (regs_step i g pick ins st w r Hg Hr Hc) as Hx. pose proof (stops_step i pick ins st w r Hr).
  pose proof (made_step i pick ins st w r Hr). assert (made i (w_procs r.1) <= 1)%nat by (unfold made; lia).
  pose proof (total_zero _ _ _ _ _ Ht Hg) as Hz.
  split; simpl in *; [unfold stops in *; simpl; lia|lia..|]. eapply unregistered_step; eauto. by destruct ins.
Qed.

(** ** Order of the teardown *)

(** No [target] on the stack without a [before] above it. *)
Fixpoint behind (before target : instr -> bool) st : bool :=
  match st with
  | [] => true
  | ins :: st => before ins || negb (target ins) && behind before target st
  end.

Definition tells i ins : bool :=
  match ins with I_invokeMsg j true env => bool_decide (i = j) && is_Stopped (Msg env) | _ => false end.
Definition leaves i ins : bool := match ins with I_unregister j => bool_decide (i = j) | _ => false end.
Definition shuts_inbox i ins : bool := match ins with I_inboxStop j => bool_decide (i = j) | _ => false end.

Ltac ordered Hb Ht H ins :=
  simpl in Hb; rewrite Ht in Hb; simpl in Hb; apply andb_true_iff in Hb as [_ Hb];
  destruct ins; simpl in H, Ht; step_instr H; simpl in *;
  (split; [|first [exists []; rewrite app_nil_r; by split|eexists; split; [done|]]]);
  try done; try (by repeat constructor); try (by apply Forall_map, Forall_true); try (by case_bool_decide).

Lemma tells_step i pick ins st w r :
  behind (tells i) (leaves i) (ins :: st) = true -> tells i ins = false -> instr_step pick ins st w = Some r ->
  behind (tells i) (leaves i) r.2 = true /\
  exists new, w_goroutines r.1 = w_goroutines w ++ new /\ Forall (fun st => behind (tells i) (leaves i) st = true) new.
Proof. intros Hb Ht H. ordered Hb Ht H ins. Qed.

Lemma leaves_step i pick ins st w r :
  behind (leaves i) (shuts_inbox i) (ins :: st) = true -> leaves i ins = false -> instr_step pick ins st w = Some r ->
  behind (leaves i) (shuts_inbox i) r.2 = true /\
  exists new, w_goroutines r.1 = w_goroutines w ++ new /\
    Forall (fun st => behind (leaves i) (shuts_inbox i) st = true) new.
Proof. intros Hb Ht H. ordered Hb Ht H ins. Qed.

Record order_inv i w : Prop := OrderInv {
  or_regs : reg_inv i w;
  or_named : named i w;
  or_told : (1 <= stops i w)%nat \/ Forall (fun st => behind (tells i) (leaves i) st = true) (w_goroutines w);
  or_left : absent i w \/ Forall (fun st => behind (leaves i) (shuts_inbox i) st = true) (w_goroutines w);
}.

Lemma told_step i a w w' :
  (1 <= stops i w)%nat \/ Forall (fun st => behind (tells i) (leaves i) st = true) (w_goroutines w) ->
  step a w = Some w' ->
  (1 <= stops i w')%nat \/ Forall (fun st => behind (tells i) (leaves i) st = true) (w_goroutines w').
Proof.
  intros Hi H. destruct a as [g pick|u].
  2: { account_go H. destruct Hi as [?|Hi]; [by left|right]. apply Forall_app. split; [done|by repeat constructor]. }
  step_open H. destruct Hi as [Hi|Hi].
  { left. pose proof (stops_step i pick ins st w r Hr). unfold stops in *. simpl. lia. }
  pose proof (Forall_lookup_1 _ _ _ _ Hi Hg) as Hx. destruct (tells i ins) eqn:Et.
  - left. destruct ins; try done. destruct lifecycle; [|done].
    pose proof (invoke_log _ _ _ _ _ _ _ Hr) as Hl. unfold stops. simpl. rewrite Hl, sum_list_with_app. simpl in *.
    apply andb_true_iff in Et as [<-%bool_decide_eq_true Et]. unfold stop_logged at 2. simpl. rewrite Et, eqn_refl. simpl. lia.
  - right. destruct (tells_step i pick ins st w r Hx Et Hr) as (H2 & new & Hn & Hnew). simpl. rewrite Hn.
    apply Forall_insert; [by apply Forall_app|done].
Qed.

(** The ID is given back after Stopped. *)
Lemma leave i g pick w st r :
  base_inv i w -> order_inv i w -> w_goroutines w !! g = Some (I_unregister i :: st) ->
  instr_step pick (I_unregister i) st w = Some r -> absent i (set_goroutines (<[g := r.2]> (w_goroutines r.1)) r.1).
Proof.
  intros Hb [[_ Hreg] Hn Ht _] Hg Hr. pose proof (calm_top _ _ _ _ _ (ba_calm _ _ Hb) Hg) as Hc.
  assert (1 <= stops i w)%nat as Hs.
  { destruct Ht as [?|Ht]; [done|]. pose proof (Forall_lookup_1 _ _ _ _ Ht Hg) as Hx. simpl in Hx.
    by rewrite bool_decide_eq_true_2 in Hx. }
  assert (total (regs i) w = 0%nat /\ made i (w_procs w) = 1%nat) as [Hz Hm].
  { destruct Hreg as [?|(Hx & _)]; [done|]. apply (total_zero _ _ _ _ _ Hx) in Hg. simpl in Hg. by rewrite eqn_refl in Hg. }
  pose proof (regs_step i g pick _ st w r Hg Hr Hc) as Hx. pose proof (stops_step i pick _ st w r Hr).
  pose proof (made_step i pick _ st w r Hr). assert (made i (w_procs r.1) <= 1)%nat by (unfold made; lia).
  split; simpl in *; [unfold stops in *; simpl; lia|lia..|]. by apply (unregister_leaves i pick st w r).
Qed.

Lemma order_inv_step i a w w' : base_inv i w -> order_inv i w -> step a w = Some w' -> order_inv i w'.
Proof.
  intros Hb Ho H. pose proof Ho as [Hr Hn Ht Hl]. split.
  - by eapply reg_inv_step.
  - destruct a as [g pick|u]; [|by account_go H]. step_open H. change (named i r.1).
    eapply named_step; eauto. by eapply valid_top; [apply Hb|].
  - by eapply told_step.
  - destruct Hl as [Hl|Hl]; [left; by eapply absent_step|]. destruct a as [g pick|u].
    2: { account_go H. right. apply Forall_app. split; [done|by repeat constructor]. }
    step_open H. pose proof (Forall_lookup_1 _ _ _ _ Hl Hg) as Hx. destruct (leaves i ins) eqn:Et.
    + left. destruct ins; try done. apply bool_decide_eq_true in Et as <-. by eapply leave.
    + right. destruct (leaves_step i pick ins st w r Hx Et Hr0) as (H2 & new & Hnw & Hnew). simpl. rewrite Hnw.
      apply Forall_insert; [by apply Forall_app|done].
Qed.

Lemma order_inv_new i cfg pc cc : order_inv i (NewEngine cfg pc cc).
Proof. split; [apply reg_inv_new|apply named_new|right; by repeat constructor..]. Qed.

(** ** Custody of a context *)

Definition clean c l : Prop := Forall (fun env => Msg env <> poisonPill c) l.

(** Not yet handed to a process. *)
Definition asks c ins : nat := match ins with I_poison _ c' | I_addCancel _ c' => eqn c c' | _ => 0 end.

Definition fires c ins : bool :=
  match ins with I_cancel c' => bool_decide (c = c') | I_cancels cs => bool_decide (c ∈ cs) | _ => false end.

(** Has context number [c] been made, when there are [n] of them? *)
Definition issued c n : nat := Nat.min 1 (n - c).
#[local] Arguments issued : simpl never.

(** [o] is the process that has the context, if one has. *)
Definition homed o c ins : Prop :=
  match ins with
  | I_deliver j env => o = Some j \/ Msg env <> poisonPill c
  | I_Invoke j l => o = Some j \/ clean c l
  | _ => True
  end.
Definition closes o ins : bool :=
  match ins with I_Shutdown j | I_inboxStop j => bool_decide (o = Some j) | _ => false end.

Record custody o c w : Prop := Custody {
  cu_waiting : c ∉ w_cancelled w;
  cu_asks : (total (asks c) w + b2n (bool_decide (is_Some o)) <= issued c (w_ctxs w))%nat;
  cu_homed : Forall (Forall (homed o c)) (w_goroutines w);
  cu_procs : forall j p, w_procs w !! j = Some p -> o = Some j \/ clean c (p_queue p) /\ c ∉ p_cancels p;
  cu_fires : Forall (fun st => behind (closes o) (fires c) st = true) (w_goroutines w);
}.

(** The instructions that do not change hands: not about to hand [c] over, and
    no end of the teardown but its beginning. *)
Definition neutral o c w ins : Prop :=
  asks c ins = 0%nat /\
  (closes o ins = true -> exists i, o = Some i /\ ins = I_Shutdown i /\ pget p_stopped false i (w_procs w) = false).

Lemma waiting_step o c pick ins st w r :
  custody o c w -> behind (closes o) (fires c) (ins :: st) = true -> neutral o c w ins ->
  instr_step pick ins st w = Some r -> c ∉ w_cancelled r.1.
Proof.
  intros [Hw _ _ _ _] Hb [_ Hn] H. simpl in Hb. destruct (closes o ins) eqn:Ec.
  - destruct (Hn eq_refl) as (i & -> & -> & _). simpl in H. by step_instr H.
  - simpl in Hb. apply andb_true_iff in Hb as [Hf%negb_true_iff _]. clear Hn Ec.
    destruct ins; simpl in H, Hf; step_instr H; simpl; (done || set_solver).
Qed.

Lemma asks_step o c g pick ins st w r :
  custody o c w -> w_goroutines w !! g = Some (ins :: st) -> asks c ins = 0%nat ->
  instr_step pick ins st w = Some r ->
  (total (asks c) (set_goroutines (<[g := r.2]> (w_goroutines r.1)) r.1) + b2n (bool_decide (is_Some o)) <=
     issued c (w_ctxs r.1))%nat.
Proof.
  intros [_ Ha _ _ _] Hg Hz Hr. balance (asks c). revert Ha. generalize (b2n (bool_decide (is_Some o))). intros n Ha.
  step_split; unfold issued, eqn in *; case_decide; lia.
Qed.

Lemma homed_step o c pick ins st w r :
  custody o c w -> Forall (homed o c) (ins :: st) -> pure_ins ins -> asks c ins = 0%nat ->
  instr_step pick ins st w = Some r ->
  Forall (homed o c) r.2 /\ exists new, w_goroutines r.1 = w_goroutines w ++ new /\ Forall (Forall (homed o c)) new.
Proof.
  intros [_ _ _ Hp _] Hs Hpu Ha H. apply Forall_cons in Hs as [Hh Hst].
  destruct ins; simpl in H, Hh, Hpu, Ha; step_instr H; simpl in *;
    (split; [|first [exists []; rewrite app_nil_r; by split|eexists; split; [done|]]]);
    try (by repeat constructor); try (by apply Forall_map, Forall_true; repeat constructor);
    repeat (apply Forall_cons; split); simpl; try done; try (by inversion Hst).
  all: try (destruct Hh as [?|[_ ?]%Forall_cons]; [by left|by right]).
  - (* sendMessage *) right. by intros ->.
  - (* addCancel *) right. intros [= ->]. by rewrite eqn_refl in Ha.
  - (* send *) right. by intros ->.
  - (* popN *) destruct (Hp _ _ Heqo0) as [?|[Hc _]]; [by left|right].
    match goal with E : popn_spec _ _ = _ |- _ => rewrite <- (popn_batch _ _ _ E) end. by apply Forall_take.
Qed.

Lemma procs_step o c pick ins st w r :
  custody o c w -> homed o c ins -> asks c ins = 0%nat -> instr_step pick ins st w = Some r ->
  forall j p, w_procs r.1 !! j = Some p -> o = Some j \/ clean c (p_queue p) /\ c ∉ p_cancels p.
Proof.
  intros [_ _ _ Hp _] Hh Ha H.
  destruct ins; simpl in H, Hh, Ha; step_instr H; simpl in *; try exact Hp; intros k0 q Hq.
  all: try (apply lookup_app_Some in Hq as [Hq|[_ Hq]]; [by eauto|];
    apply list_lookup_singleton_Some in Hq as [_ <-]; simpl; right; split; [by constructor|set_solver]).
  all: apply list_lookup_alter_Some in Hq as [(-> & q0 & Hq & ->)|[_ Hq]]; [|by eauto]; simpl;
    destruct (Hp _ _ Hq) as [?|[Hc Hn]]; [by left|]; try (by right).
  - (* deliver *) destruct Hh as [?|He]; [by left|right]. split; [|done]. apply Forall_app. split; [done|by constructor].
  - (* addCancel *) right. split; [done|]. destruct (decide (c = c0)) as [->|]; [by rewrite eqn_refl in Ha|set_solver].
  - (* Shutdown *) right. split; [done|set_solver].
  - (* popN *) right. simplify_eq. split; [by apply Forall_drop|done].
Qed.

Lemma fires_step o c pick ins st w r :
  custody o c w -> homed o c ins -> neutral o c w ins -> behind (closes o) (fires c) (ins :: st) = true ->
  instr_step pick ins st w = Some r ->
  behind (closes o) (fires c) r.2 = true /\
  exists new, w_goroutines r.1 = w_goroutines w ++ new /\ Forall (fun st => behind (closes o) (fires c) st = true) new.
Proof.
  intros [_ _ _ Hp _] Hh [Ha Hn] Hb H. simpl in Hb. destruct (closes o ins) eqn:Ec.
  - destruct (Hn eq_refl) as (i & -> & -> & Hs). simpl in H. unfold Shutdown, goto in H.
    destruct (w_procs w !! i) as [p|] eqn:E; [|done]. rewrite (pget_some _ _ _ _ _ E) in Hs. simpl in H. rewrite Hs in H.
    injection H as <-. simpl. rewrite bool_decide_eq_true_2 by done. split; [done|].
    exists []. by rewrite app_nil_r.
  - simpl in Hb. apply andb_true_iff in Hb as [Hf%negb_true_iff Hb]. clear Hn.
    destruct ins; simpl in H, Hf, Hh, Ha; step_instr H; simpl in *;
    (split; [|first [exists []; rewrite app_nil_r; by split|eexists; split; [done|]]]);
    try done; try (by repeat constructor); try (by apply Forall_map, Forall_true).
    all: try (by rewrite eqn_refl in Ha).
    + (* cancels *) exfalso. set_solver.
    + (* Shutdown *) destruct (Hp _ _ Heqo0) as [?|[_ ?]]; done.
    + (* Invoke *) destruct Hh as [?|[? _]%Forall_cons]; done.
Qed.

Lemma custody_step o c g pick ins st w r :
  pure_world w -> custody o c w -> w_goroutines w !! g = Some (ins :: st) -> neutral o c w ins ->
  instr_step pick ins st w = Some r -> custody o c (set_goroutines (<[g := r.2]> (w_goroutines r.1)) r.1).
Proof.
  intros Hpu Hc Hg Hn Hr. pose proof (Forall_lookup_1 _ _ _ _ (cu_fires _ _ _ Hc) Hg) as Hb.
  pose proof (Forall_lookup_1 _ _ _ _ (cu_homed _ _ _ Hc) Hg) as Hh.
  pose proof (Forall_lookup_1 _ _ _ _ (pw_stacks _ Hpu) Hg) as [Hpi _]%Forall_cons.
  destruct (homed_step o c pick ins st w r Hc Hh Hpi (proj1 Hn) Hr) as (Hh2 & new & Hnw & Hhn).
  apply Forall_cons in Hh as [Hh _].
  destruct (fires_step o c pick ins st w r Hc Hh Hn Hb Hr) as (Hf2 & new' & Hnw' & Hfn).
  split; simpl.
  - by apply (waiting_step o c pick ins st w r).
  - apply (asks_step o c g pick ins st w r); try done. apply Hn.
  - rewrite Hnw. apply Forall_insert; [|done]. apply Forall_app. split; [apply Hc|done].
  - apply (procs_step o c pick ins st w r); try done. apply Hn.
  - rewrite Hnw'. apply Forall_insert; [|done]. apply Forall_app. split; [apply Hc|done].
Qed.

Lemma custody_go o c u w : custody o c w -> custody o c (go [I_user None u] w).
Proof.
  intros [Hw Ha Hh Hp Hf]. split; simpl; [done| |by apply Forall_app; split; [|repeat constructor]|done|].
  - rewrite total_go. simpl. lia.
  - apply Forall_app. split; [done|by repeat constructor].
Qed.

Lemma custody_new c cfg pc cc : custody None c (NewEngine cfg pc cc).
Proof.
  split; simpl; [set_solver|done|by repeat constructor| |by repeat constructor].
  intros j p [_ <-]%list_lookup_singleton_Some. right. split; [by constructor|simpl; set_solver].
Qed.

(** ** The context is handed over, or was refused *)

(** It will not get to [i]. *)
Record lost i c w : Prop := Lost {
  lo_made : (c < w_ctxs w)%nat;
  lo_asks : total (asks c) w = 0%nat;
  lo_cancels : c ∉ pget p_cancels [] i (w_procs w);
}.

Lemma lost_step i c a w w' : lost i c w -> step a w = Some w' -> lost i c w'.
Proof.
  intros [Hm Ha Hn] H. destruct a as [g pick|u].
  2: { account_go H. split; rewrite ?total_go; simpl; [done|lia|done]. }
  step_open H. pose proof (total_zero _ _ _ _ _ Ha Hg) as Hz. split.
  - clear Ha Hn Hz. step_split.
  - balance (asks c). clear Hn. step_split; rewrite eqn_ne in * by lia; lia.
  - clear Ha Hm. step_split; try done; at_process i i0 Heqo; try done.
    + (* addCancel *) destruct (decide (c = c0)) as [->|]; [by rewrite eqn_refl in Hz|set_solver].
    + (* Shutdown *) set_solver.
Qed.

Lemma homed_mono i c ins : homed None c ins -> homed (Some i) c ins.
Proof. destruct ins; simpl; try done; intros [?|?]; try done; by right. Qed.

Lemma behind_mono i c st :
  behind (closes None) (fires c) st = true -> behind (closes (Some i)) (fires c) st = true.
Proof.
  induction st as [|ins st IH]; simpl; [done|]. intros H.
  assert (closes None ins = false) as E by (destruct ins; simpl; try done; by apply bool_decide_eq_false).
  rewrite E in H. simpl in H. apply andb_true_iff in H as [-> H]. rewrite IH by done. by rewrite orb_true_r.
Qed.

(** [addCancel] accepts the context. *)
Lemma custody_accept i c g st w p :
  custody None c w -> w_goroutines w !! g = Some (I_addCancel i c :: st) -> w_procs w !! i = Some p ->
  custody (Some i) c (set_goroutines (<[g := I_deliver i (MkEnv (poisonPill c) None) :: st]> (w_goroutines w))
    (upd_proc i (fun p => set_cancels (p_cancels p ++ [c]) p) w)).
Proof.
  intros [Hw Ha Hh Hp Hf] Hg Hpi. split; simpl.
  - done.
  - pose proof (weight_of_insert (asks c) _ g _ (I_deliver i (MkEnv (poisonPill c) None) :: st) Hg) as Hx.
    unfold total in *. simpl in *. rewrite eqn_refl in Hx. lia.
  - assert (Forall (Forall (homed (Some i) c)) (w_goroutines w)) as Hh'.
    { eapply Forall_impl; [exact Hh|]. intros x Hx. eapply Forall_impl; [exact Hx|]. intros y. apply homed_mono. }
    apply Forall_insert; [done|]. pose proof (Forall_lookup_1 _ _ _ _ Hh' Hg) as [_ Hst]%Forall_cons.
    constructor; [by left|done].
  - intros j q Hq. apply list_lookup_alter_Some in Hq as [(-> & q0 & Hq & ->)|[_ Hq]]; [by left|].
    destruct (Hp _ _ Hq) as [?|?]; [done|by right].
  - assert (Forall (fun st => behind (closes (Some i)) (fires c) st = true) (w_goroutines w)) as Hf'.
    { eapply Forall_impl; [exact Hf|]. intros x. apply behind_mono. }
    apply Forall_insert; [done|]. by pose proof (Forall_lookup_1 _ _ _ _ Hf' Hg).
Qed.

(** The step that has the context in its hands. *)
Lemma ask_step i o c g pick ins st w r :
  custody o c w -> w_goroutines w !! g = Some (ins :: st) -> asks c ins <> 0%nat -> instr_step pick ins st w = Some r ->
  let w' := set_goroutines (<[g := r.2]> (w_goroutines r.1)) r.1 in
  o = None /\ (custody None c w' \/ custody (Some i) c w' \/ lost i c w').
Proof.
  intros Hc Hg Hz Hr w'. pose proof (weight_of_lookup (asks c) _ _ _ Hg) as Hle. simpl in Hle.
  pose proof (cu_asks _ _ _ Hc) as Ha. unfold total in Ha. destruct o as [k|].
  { rewrite (bool_decide_eq_true_2 (is_Some _)) in Ha by done. unfold issued in Ha. simpl b2n in Ha. lia. }
  split; [done|].
  assert (c < w_ctxs w)%nat as Hlt by (unfold issued in Ha; lia).
  replace (issued c (w_ctxs w)) with 1%nat in Ha by (unfold issued; lia). simpl in Ha.
  assert (c ∉ pget p_cancels [] i (w_procs w)) as Hn.
  { unfold pget. destruct (w_procs w !! i) as [p|] eqn:E; [|set_solver]. by destruct (cu_procs _ _ _ Hc _ _ E) as [?|[_ ?]]. }
  pose proof (step_total (asks c) _ _ _ _ _ _ Hg Hr) as Ht. fold w' in Ht. unfold total in Ht.
  destruct ins; try done; simpl in Hz, Hr; (destruct (decide (c = c0)) as [<-|]; [|by rewrite eqn_ne in Hz]);
    simpl in *; rewrite eqn_refl in *; step_instr Hr; simpl in *.
  - (* poison, hit *) left. destruct Hc as [Hw _ Hh Hp Hf]. split; simpl; [done| |apply Forall_insert; [done|]|done|apply Forall_insert; [done|]].
    + rewrite eqn_refl in Ht. unfold total. simpl. replace (issued c (w_ctxs w)) with 1%nat by (unfold issued; lia). lia.
    + pose proof (Forall_lookup_1 _ _ _ _ Hh Hg) as [_ Hst]%Forall_cons. by constructor.
    + by pose proof (Forall_lookup_1 _ _ _ _ Hf Hg).
  - (* poison, miss *) right; right. split; [done|unfold total; simpl in *; lia|done].
  - (* addCancel, stopped *) right; right. split; [done|unfold total; simpl in *; lia|done].
  - (* addCancel *) right. destruct (decide (i = i0)) as [<-|Hne]; [left; by eapply custody_accept|right].
    split; [done|unfold total; simpl in *; lia|]. simpl. by rewrite pget_alter_ne.
Qed.

(** ** Where a context can be *)

(** Done, with everything before it done. *)
Definition released i w : Prop := absent i w /\ status i w = stateStopped.

Definition place i c w : Prop :=
  custody None c w \/ custody (Some i) c w \/ lost i c w \/ released i w.

Lemma released_step i a w w' : base_inv i w -> released i w -> step a w = Some w' -> released i w'.
Proof.
  intros Hb [Ha Hs] H. split; [by eapply absent_step|]. unfold status in *. destruct a as [g pick|u]; [|by account_go H].
  step_open H. by destruct (status_step i pick ins st w r _ Hs (or_introl eq_refl) Hr).
Qed.

(** [Shutdown] tears down a process once. *)
Lemma shutdown_once i acc g st w :
  phase i acc w -> w_goroutines w !! g = Some (I_Shutdown i :: st) -> pget p_stopped false i (w_procs w) = false.
Proof.
  intros Hph Hg. pose proof (weight_of_lookup (shuts i) _ _ _ Hg) as Hle. simpl in Hle. rewrite eqn_refl in Hle.
  destruct Hph as [[_ _ Hz]|[_ _ _ _ Hz _]]; unfold total, stopped in Hz; [lia|].
  destruct (pget p_stopped _ _ _); [simpl in Hz; lia|done].
Qed.

Lemma step_intro g pick w ins st r :
  w_goroutines w !! g = Some (ins :: st) -> instr_step pick ins st w = Some r ->
  step (A_step g pick) w = Some (set_goroutines (<[g := r.2]> (w_goroutines r.1)) r.1).
Proof. intros Hg Hr. simpl. rewrite Hg. simpl. by rewrite Hr. Qed.

(** [inbox.Stop] comes last before the waiters are released. *)
Lemma close i g pick w st r :
  base_inv i w -> order_inv i w -> w_goroutines w !! g = Some (I_inboxStop i :: st) ->
  instr_step pick (I_inboxStop i) st w = Some r -> released i (set_goroutines (<[g := r.2]> (w_goroutines r.1)) r.1).
Proof.
  intros Hb Ho Hg Hr. assert (absent i w) as Ha.
  { destruct (or_left _ _ Ho) as [?|Hf]; [done|]. pose proof (Forall_lookup_1 _ _ _ _ Hf Hg) as Hx. simpl in Hx.
    by rewrite bool_decide_eq_true_2 in Hx. }
  pose proof (step_intro g pick w _ st r Hg Hr) as Hst.
  split; [by eapply absent_step|]. pose proof (ab_made _ _ Ha) as Hm. simpl in Hr. injection Hr as <-.
  unfold status. simpl. rewrite pget_alter, decide_True by done.
  destruct (w_procs w !! i) eqn:E; [done|]. apply lookup_ge_None in E. unfold made in Hm. lia.
Qed.

Lemma custody_act i o c acc a w w' :
  o = None \/ o = Some i -> pure_world w -> base_inv i w -> phase i acc w -> order_inv i w ->
  custody o c w -> step a w = Some w' -> custody o c w' \/ released i w' \/ o = None /\ place i c w'.
Proof.
  intros Ho Hpu Hb Hph Hor Hc H. destruct a as [g pick|u]; [|account_go H; left; by apply custody_go].
  step_open H. destruct (decide (asks c ins = 0%nat)) as [Ha|Ha].
  2: { right; right. destruct (ask_step i o c g pick ins st w r Hc Hg Ha Hr) as [? [?|[?|?]]]; unfold place; auto. }
  destruct (shuts_inbox i ins) eqn:Es.
  { destruct ins; try done. apply bool_decide_eq_true in Es as <-.
    right; left. by apply (close i g pick w st r). }
  left. apply (custody_step o c g pick ins st w r); try done. split; [done|]. intros Hcl.
  destruct ins; try done; apply bool_decide_eq_true in Hcl as ->; destruct Ho as [|[= ->]]; try done.
  - exists i. split_and!; [done..|]. by eapply shutdown_once.
  - by apply bool_decide_eq_false in Es.
Qed.

Lemma place_step i c acc a w w' :
  pure_world w -> base_inv i w -> phase i acc w -> order_inv i w -> place i c w -> step a w = Some w' -> place i c w'.
Proof.
  intros Hpu Hb Hph Ho [Hc|[Hc|[Hl|Hr]]] H.
  - destruct (custody_act i None c acc a w w') as [?|[?|[_ ?]]]; auto; unfold place; auto.
  - destruct (custody_act i (Some i) c acc a w w') as [?|[?|[? _]]]; auto; [unfold place; auto..|done].
  - right; right; left. by eapply lost_step.
  - right; right; right. by eapply released_step.
Qed.

(** ** Runs *)

(** The invariants of a run, whatever is known of the context. *)
Record release_inv (P : world -> Prop) i acc w : Prop := ReleaseInv {
  re_pure : pure_world w;
  re_contract : contract_inv i acc w;
  re_order : order_inv i w;
  re_place : P w;
}.

(** With the process, or released. *)
Definition kept i c w : Prop := custody (Some i) c w \/ released i w.

Lemma kept_step i c acc a w w' :
  pure_world w -> base_inv i w -> phase i acc w -> order_inv i w -> kept i c w -> step a w = Some w' -> kept i c w'.
Proof.
  intros Hpu Hb Hph Ho [Hc|Hr] H; [|right; by eapply released_step].
  destruct (custody_act i (Some i) c acc a w w') as [?|[?|[? _]]]; auto; [unfold kept; auto..|done].
Qed.

Lemma release_inv_run (P : world -> Prop) i acc acts w w' :
  (forall acc a w w', pure_world w -> base_inv i w -> phase i acc w -> order_inv i w -> P w -> step a w = Some w' -> P w') ->
  calm_at i w' -> Forall honest_act acts -> release_inv P i acc w -> run step acts w = Some w' ->
  release_inv P i (acc ++ accepted i acts w) w'.
Proof.
  intros HP. revert acc w. induction acts as [|a acts IH]; intros acc w Hc Hh Hi H; simpl in H |- *.
  - simplify_eq. by rewrite app_nil_r.
  - destruct (step a w) as [w1|] eqn:Es; [|done]. simpl in H. rewrite app_assoc.
    apply Forall_cons in Hh as [Ha Hh]. apply IH; [done..| |done]. destruct Hi as [Hpu Hco Hor Hpl]. split.
    + by eapply pure_world_step.
    + pose proof (contract_inv_run i acc [a] w w1 (calm_at_run_back _ _ _ _ H Hc) Hco) as Hx.
      simpl in Hx. rewrite Es in Hx. simpl in Hx. rewrite app_nil_r in Hx. by apply Hx.
    + by eapply order_inv_step; [apply Hco|..].
    + eapply HP; [done|apply Hco|apply Hco|done..].
Qed.

Lemma release_inv_new i c cfg pc cc : release_inv (place i c) i [] (NewEngine cfg pc cc).
Proof.
  split; [apply pure_world_new|apply contract_inv_new|apply order_inv_new|left; apply custody_new].
Qed.

(** A context among the waiters of [i] is with [i]. *)
Lemma place_kept i c w : place i c w -> c ∈ pget p_cancels [] i (w_procs w) -> kept i c w.
Proof.
  unfold kept. intros [Hc|[?|[Hl|?]]] Hin; auto; exfalso.
  - unfold pget in Hin. destruct (w_procs w !! i) as [p|] eqn:E; [|set_solver].
    by destruct (cu_procs _ _ _ Hc _ _ E) as [?|[_ ?]].
  - by apply (lo_cancels _ _ _ Hl).
Qed.

Lemma release_reachable i c cfg pc cc acts acts' w w' :
  run step acts (NewEngine cfg pc cc) = Some w -> run step acts' w = Some w' -> Forall honest_act (acts ++ acts') ->
  calm_at i w' -> c ∈ pget p_cancels [] i (w_procs w) ->
  contract_inv i (accepted i (acts ++ acts') (NewEngine cfg pc cc)) w' /\ kept i c w'.
Proof.
  intros H H' [Ha Ha']%Forall_app Hc Hin. pose proof (calm_at_run_back i acts' w w' H' Hc) as Hcw.
  pose proof (release_inv_run (place i c) i [] acts _ w (place_step i c) Hcw Ha (release_inv_new i c cfg pc cc) H) as [Hp Hco Ho Hpl].
  pose proof (release_inv_run (kept i c) i _ acts' w w' (kept_step i c) Hc Ha'
    (ReleaseInv _ _ _ _ Hp Hco Ho (place_kept i c w Hpl Hin)) H') as [_ Hco' _ Hk].
  split; [|done]. apply contract_reachable; [|done]. rewrite run_app. by rewrite H.
Qed.

(** ** Property *)

(** C6: the context of a [Poison] tells the truth: once [Poison] has entered it
    among the waiters of an actor whose [Receive] does not panic, it is done only
    when that actor has received every message that was in its mailbox before
    the first pill and no other, has been told Stopped, once, cannot be found
    under any PID any more, and its inbox is stopped.  The rest of the user code
    may panic, and may do anything but forge a pill, which it cannot: the type is
    not exported. *)
Theorem poison_waits_for_the_end cfg pc cc acts acts' w w' i p c :
  run step acts (NewEngine cfg pc cc) = Some w -> run step acts' w = Some w' -> Forall honest_act (acts ++ acts') ->
  w_procs w' !! i = Some p -> calm_proc p ->
  c ∈ pget p_cancels [] i (w_procs w) -> c ∈ w_cancelled w' ->
  received i w' = before_pill (accepted i (acts ++ acts') (NewEngine cfg pc cc)) /\ stops i w' = 1%nat /\
  (forall pid, get_process pid w' <> Some i) /\ p_procStatus p = stateStopped.
Proof.
  intros H H' Hh Hp Hc Hin Hca.
  destruct (release_reachable i c cfg pc cc acts acts' w w' H H' Hh) as [Hco [Hk|[Ha Hs]]]; [|done|..].
  - intros q Hq. by simplify_eq.
  - by destruct (cu_waiting _ _ _ Hk).
  - pose proof (ba_stop _ _ (co_base _ _ _ Hco)) as Hst. unfold stop_inv in Hst. pose proof (ab_stops _ _ Ha).
    assert (stops i w' = 1%nat) as E by (destruct (pget p_stopped _ _ _); simpl in Hst; lia).
    split_and!; [apply (stopped_dying i _ w' Hco E)|done| |].
    + intros pid Hg. by apply (get_process_unregistered i pid w' i) in Hg; [|apply Ha].
    + unfold status in Hs. by rewrite (pget_some _ _ _ _ _ Hp) in Hs.
Qed.
End released.
