(* ===== verification/Calls.v ===== *)
(** * Calls into the engine come to an end

    Sending, broadcasting, poisoning and stopping a repeater are loops over
    goroutine-local work and, through dead letters, recursive: a send that misses
    broadcasts an event, which is sent, and may miss.  Whatever the rest of the
    engine does between its steps, such a call takes finitely many of them. *)

From S2P Require Import Prelude RingBuffer Inbox Pid Middleware Opts Registry EventStream.
From S2P Require Import World Engine Accounting.

Create HintDb ends discriminated.

Section calls.
Context {U RS Pr M : Type} `{!UserCode U RS Pr M}.
Notation world := (world U RS Pr M).
Notation instr := (instr U RS Pr M).
Notation stack := (list instr).
Implicit Types (w : world) (ins : instr) (st : stack) (m : msg U) (pick : nat).

(** The stack of a goroutine after one step of its own, taken in some world. *)
Definition next st' st : Prop :=
  exists ins rest pick w w', st = ins :: rest /\ instr_step pick ins rest w = Some (w', st').

(** The goroutine runs out of steps. *)
Definition ends st : Prop := Acc next st.

(** [ins] ends when what is below it does. *)
Definition passes ins : Prop := forall st, ends st -> ends (ins :: st).

Lemma passes_intro ins :
  (forall st, ends st -> forall pick w w' st', instr_step pick ins st w = Some (w', st') -> ends st') -> passes ins.
Proof. intros H st Hst. constructor. intros st' (? & ? & pick & w & w' & [= <- <-] & Hs). by eapply H. Qed.

Lemma pass ins st : passes ins -> ends st -> ends (ins :: st).
Proof. intros H. apply H. Qed.

(** Every case of the step leaves a stack that is known to end. *)
Ltac passing :=
  apply passes_intro; intros st Hst pick w w' st' Hstep; simpl in Hstep; step_instr Hstep; simpl in *;
  eauto with ends.

#[local] Hint Resolve pass : ends.

Lemma schedule_passes i : passes (I_schedule i).
Proof. passing. Qed.
#[local] Hint Resolve schedule_passes : ends.

Lemma deliver_passes i env : passes (I_deliver i env).
Proof. passing. Qed.
#[local] Hint Resolve deliver_passes : ends.

(** ** Sending and broadcasting *)

Section fan_out.
Variable m : msg U.
Hypothesis send : forall to, passes (I_sendMessage to m None).
#[local] Hint Resolve send : ends.

Lemma fanout_passes live : passes (I_fanout m live).
Proof. induction live as [|pid live IH]; passing. Qed.
#[local] Hint Resolve fanout_passes : ends.

Lemma scan_passes todo live : passes (I_scan m todo live).
Proof.
  revert live. induction todo as [|[id pid] todo IH]; intros live; [passing|].
  apply passes_intro. intros st Hst pick w w' st' H. simpl in H.
  destruct (scan_step _ _ _ _) as [subs live'] eqn:E. injection H as <- <-. by apply IH.
Qed.
#[local] Hint Resolve scan_passes : ends.

Lemma broadcast_passes : passes (I_broadcast m).
Proof. passing. Qed.
End fan_out.

(** The recursion through dead letters stops at the second miss. *)
Lemma send_event_passes to m sender : is_deadletter_event m = true -> passes (I_sendMessage to m sender).
Proof. intros Hm. passing; congruence. Qed.

Lemma broadcast_event_passes to m sender : passes (I_broadcast (DeadLetterEvent to m sender)).
Proof. apply broadcast_passes. intros to'. by apply send_event_passes. Qed.
#[local] Hint Resolve broadcast_event_passes : ends.

Lemma send_passes to m sender : passes (I_sendMessage to m sender).
Proof. passing. Qed.
#[local] Hint Resolve send_passes : ends.

Lemma broadcast_any_passes m : passes (I_broadcast m).
Proof. apply broadcast_passes. intros to. apply send_passes. Qed.

(** ** The other calls *)

Lemma cancel_passes c : passes (I_cancel c).
Proof. passing. Qed.
#[local] Hint Resolve cancel_passes : ends.

Lemma addCancel_passes i c : passes (I_addCancel i c).
Proof. passing. Qed.
#[local] Hint Resolve addCancel_passes : ends.

Lemma poison_passes pid c : passes (I_poison pid c).
Proof. passing. Qed.
#[local] Hint Resolve poison_passes : ends.

Lemma cancels_passes cs : passes (I_cancels cs).
Proof. induction cs as [|c cs IH]; passing. Qed.

Lemma wait_passes c : passes (I_wait c).
Proof. passing. Qed.
#[local] Hint Resolve wait_passes : ends.

Lemma poisonAndWait_passes pid : passes (I_poisonAndWait pid).
Proof. passing. Qed.
#[local] Hint Resolve poisonAndWait_passes : ends.

Lemma closeDone_passes n : passes (I_closeDone n).
Proof. passing. Qed.
#[local] Hint Resolve closeDone_passes : ends.

Lemma await_passes n : passes (I_await n).
Proof. passing. Qed.

Lemma closeRepeater_passes n : passes (I_closeRepeater n).
Proof. passing. Qed.
#[local] Hint Resolve closeRepeater_passes : ends.

Lemma repeater_send_passes n to m : passes (I_send n to m).
Proof. passing. Qed.
#[local] Hint Resolve repeater_send_passes : ends.

Lemma timer_passes n to m : passes (I_timer n to m).
Proof. passing. Qed.

Lemma waitRepeater_passes n : passes (I_waitRepeater n).
Proof. passing. Qed.

Lemma join_passes gs : passes (I_join gs).
Proof. passing. Qed.

Lemma subscribe_passes pid : passes (I_subscribe pid).
Proof. passing. Qed.

Lemma removeChild_passes j pid : passes (I_removeChild j pid).
Proof. passing. Qed.
#[local] Hint Resolve removeChild_passes : ends.

Lemma leaveParent_passes i : passes (I_leaveParent i).
Proof. passing. Qed.

(** What the goroutines of the engine run outside of mailboxes and processes:
    sends and broadcasts, the calls to [Poison], the [await] of a request, the
    goroutine of [SendAfter], the end of [Stop], one child of a cascade. *)
Definition plain_call ins : bool :=
  match ins with
  | I_sendMessage _ _ _ | I_deliver _ _ | I_schedule _ | I_broadcast _
  | I_poison _ _ | I_addCancel _ _ | I_cancel _ | I_cancels _ | I_wait _ | I_poisonAndWait _
  | I_subscribe _ | I_removeChild _ _ | I_leaveParent _ | I_join _
  | I_await _ | I_closeDone _ | I_send _ _ _ | I_timer _ _ _ | I_closeRepeater _ | I_waitRepeater _ => true
  | _ => false
  end.

(** C18: calls into the engine come to an end: a goroutine whose stack is made of
    sends, broadcasts, poisons, the [await] of a request or the goroutine of
    [SendAfter] takes finitely many steps, however many dead letters they cause
    and whatever the rest of the engine does between any two of them. *)
Theorem calls_end st : Forall (fun ins => plain_call ins = true) st -> ends st.
Proof.
  induction 1 as [|ins st Hi _ IH].
  - constructor. intros st' (? & ? & ? & ? & ? & [=] & _).
  - apply pass; [|done]. destruct ins; try discriminate Hi;
      auto using schedule_passes, deliver_passes, send_passes, broadcast_any_passes, poison_passes,
        addCancel_passes, cancel_passes, cancels_passes, wait_passes, poisonAndWait_passes, subscribe_passes,
        removeChild_passes, leaveParent_passes, join_passes, await_passes, closeDone_passes, repeater_send_passes, timer_passes,
        closeRepeater_passes, waitRepeater_passes.
Qed.
End calls.
