(* ===== verification/Children.v ===== *)
(** * The children of an actor

    The child set of a process and the names under which [Context.Child] finds
    what [SpawnChild] has spawned, and the orders in which Go can range over it. *)

From S2P Require Import Prelude RingBuffer Inbox Pid Middleware Opts Registry EventStream.
From S2P Require Import World Engine Accounting Settled.

(** ** Ranging over a map *)

Section iteration.
Context {A : Type}.
Implicit Types (l : list A).

Lemma insert_at_perm n (x : A) l : insert_at n x l ≡ₚ x :: l.
Proof. revert n. induction l as [|y l IH]; intros [|n]; simpl; [done..|]. rewrite IH. constructor. Qed.

Lemma insert_at_app l1 l2 (x : A) : insert_at (length l1) x (l1 ++ l2) = l1 ++ x :: l2.
Proof. induction l1 as [|y l1 IH]; simpl; [by destruct l2|]. by rewrite IH. Qed.

(** Whatever [pick] is, every entry is visited once. *)
Lemma iteration_perm pick l : iteration pick l ≡ₚ l.
Proof. revert pick. induction l as [|x l IH]; intros pick; simpl; [done|]. by rewrite insert_at_perm, IH. Qed.

(** Every order is some [pick]'s. *)
Lemma iteration_complete l l' : l' ≡ₚ l -> exists pick, iteration pick l = l'.
Proof.
  revert l'. induction l as [|x l IH]; intros l' Hp.
  { apply Permutation_nil_r in Hp as ->. by exists 0%nat. }
  assert (x ∈ l') as Hx by (rewrite Hp; left).
  apply list_elem_of_split in Hx as (l1 & l2 & ->).
  assert (l1 ++ l2 ≡ₚ l) as Hp' by (symmetry in Hp; symmetry; by apply Permutation_cons_app_inv in Hp).
  destruct (IH _ Hp') as [pick Hpick]. pose proof (Permutation_length Hp') as Hlen. rewrite length_app in Hlen.
  exists (length l1 + pick * S (length l))%nat. cbn [iteration].
  rewrite Nat.Div0.mod_add, Nat.mod_small, Nat.div_add, Nat.div_small, Nat.add_0_l, Hpick by lia.
  apply insert_at_app.
Qed.
End iteration.

(** ** Names *)

Lemma no_slash_join a b : ~ no_slash (join_slash a b).
Proof. unfold no_slash. rewrite LastIndexByte_join. by destruct (LastIndexByte slash b). Qed.

Lemma no_slash_shortName s : no_slash (shortName s).
Proof.
  unfold shortName. destruct (LastIndexByte slash s) as [n|] eqn:E; [|done].
  revert n E. induction s as [|c s IH]; intros n E; simpl in E; [done|].
  destruct (LastIndexByte slash s) as [m|] eqn:Es.
  - injection E as <-. simpl. by apply IH.
  - destruct (Ascii.eqb c slash); [|done]. injection E as <-. by destruct s.
Qed.

(** The PID a child gets, and its two names. *)
Lemma childID_named self kind id c :
  id <> "" -> (childID self kind id c).1 = ID (PID_Child (Some self) (join_slash kind id)).
Proof. unfold childID. intros H%String.eqb_neq. by rewrite H. Qed.

Lemma shortName_child self id : shortName (ID (PID_Child (Some self) id)) = shortName id.
Proof. simpl. destruct (String.eqb _ _); simpl; [done|]. apply shortName_join. Qed.

Lemma find_unique {A} (f : A -> bool) (l : list A) x :
  x ∈ l -> f x = true -> (forall y, y ∈ l -> f y = true -> y = x) -> find f l = Some x.
Proof.
  intros Hx Hf Hu. destruct (find f l) as [y|] eqn:E.
  - apply find_some in E as [Hy Hfy]. f_equal. apply Hu; [by apply list_elem_of_In|done].
  - apply list_elem_of_In in Hx. by rewrite (find_none _ _ E _ Hx) in Hf.
Qed.

(** Over any list of PIDs with distinct IDs. *)
Lemma child_lookup_qualified self kind id pid pids :
  pid ∈ pids -> ID pid = ID (PID_Child (Some self) (join_slash kind id)) ->
  (forall q, q ∈ pids -> ID q = ID pid -> q = pid) ->
  child_lookup self (join_slash kind id) pids = Some pid.
Proof.
  intros Hin Hid Hu. apply find_unique; [done|by rewrite Hid, String.eqb_refl|].
  intros q Hq Hf. apply orb_true_iff in Hf as [Hf|Hf]; apply String.eqb_eq in Hf.
  - apply Hu; [done|congruence].
  - exfalso. apply (no_slash_join kind id). rewrite <- Hf. apply no_slash_shortName.
Qed.

Lemma child_lookup_short self kind id pid pids :
  no_slash id -> pid ∈ pids -> ID pid = ID (PID_Child (Some self) (join_slash kind id)) ->
  (forall q, q ∈ pids -> shortName (ID q) = id -> q = pid) ->
  child_lookup self id pids = Some pid.
Proof.
  intros Hns Hin Hid Hu. assert (shortName (ID pid) = id) as Hs.
  { by rewrite Hid, shortName_child, shortName_join, shortName_no_slash. }
  apply find_unique; [done|by rewrite Hs, String.eqb_refl, orb_true_r|].
  intros q Hq Hf. apply Hu; [done|]. apply orb_true_iff in Hf as [Hf|Hf]; apply String.eqb_eq in Hf; [|done].
  rewrite Hf. by rewrite shortName_child, shortName_no_slash.
Qed.

Section children.
Context {U RS Pr M : Type} `{!UserCode U RS Pr M}.
Notation world := (world U RS Pr M).
Notation process := (process U RS Pr M).
Implicit Types (w : world) (p : process) (i j g pick : nat).

(** The set is keyed by the IDs. *)
Definition children_ok p : Prop := forall k pid, p_children p !! k = Some pid -> ID pid = k.

Lemma children_ok_empty p : p_children p = ∅ -> children_ok p.
Proof. intros E k pid. by rewrite E, lookup_empty. Qed.

Lemma children_ok_step a w w' :
  Forall children_ok (w_procs w) -> step a w = Some w' -> Forall children_ok (w_procs w').
Proof.
  intros Hi H. destruct a as [g pick|u]; [|by account_go H].
  step_open H. step_split; try done;
    try (apply Forall_alter; [done|intros q _ Hq; exact Hq]);
    try (apply Forall_app; split; [done|]; constructor; [|done]; apply children_ok_empty; done).
  - (* addChild *)
    apply Forall_alter; [done|]. intros q _ Hq k q' Hk. simpl in Hk.
    apply lookup_insert_Some in Hk as [[<- <-]|[_ Hk]]; [done|by apply Hq].
  - (* removeChild *)
    apply Forall_alter; [done|]. intros q _ Hq k q' Hk. simpl in Hk.
    apply lookup_delete_Some in Hk as [_ Hk]. by apply Hq.
Qed.

Lemma children_ok_reachable cfg pc cc w : engine_reaches cfg pc cc w -> Forall children_ok (w_procs w).
Proof.
  apply (reachable_invariant step (fun w => Forall children_ok (w_procs w))).
  - intros a w1 w2. apply children_ok_step.
  - constructor; [|done]. by apply children_ok_empty.
Qed.

Lemma childPIDs_elem pick p pid : pid ∈ childPIDs pick p <-> exists k, p_children p !! k = Some pid.
Proof.
  unfold childPIDs. rewrite iteration_perm, list_elem_of_fmap. split.
  - intros ([k q] & -> & Hq). exists k. by apply elem_of_map_to_list.
  - intros [k Hk]. exists (k, pid). split; [done|]. by apply elem_of_map_to_list.
Qed.

(** ** Property *)

(** C27: an actor finds its children again by the names it spawned them under: a
    recorded child whose ID [SpawnChild] made from [kind] and a slash-free [id]
    is what [Context.Child] returns for "kind/id", in whatever order Go ranges
    over the set, and for [id] alone unless a sibling of another kind has it. *)
Theorem child_found_by_name cfg pc cc w i p pid kind id n pick :
  engine_reaches cfg pc cc w -> w_procs w !! i = Some p -> p_children p !! ID pid = Some pid ->
  id <> "" -> no_slash id -> ID pid = (childID (p_pid p) kind id n).1 ->
  child_lookup (p_pid p) (join_slash kind id) (childPIDs pick p) = Some pid /\
  ((forall k q, p_children p !! k = Some q -> shortName (ID q) = id -> q = pid) ->
   child_lookup (p_pid p) id (childPIDs pick p) = Some pid).
Proof.
  intros H Hp Hpid Hne Hns Hid. rewrite childID_named in Hid by done.
  assert (children_ok p) as Hok by (by eapply Forall_lookup_1; [eapply children_ok_reachable|]).
  assert (pid ∈ childPIDs pick p) as Hin by (rewrite childPIDs_elem; eauto).
  split; [apply child_lookup_qualified|intros Hu; eapply child_lookup_short]; try done.
  - intros q (k & Hk)%childPIDs_elem Hq. rewrite <- Hq, (Hok _ _ Hk), Hk in Hpid. by injection Hpid.
  - intros q (k & Hk)%childPIDs_elem. by apply (Hu k).
Qed.
End children.
