(* ===== verification/Scenarios.v ===== *)
(** * Concrete executions of the engine

    User code as a value: twelve small receivers, an engine with the default
    dead-letter actor, and a driver that turns a schedule into a list of
    actions.  The executions here instantiate the theorems of [Settled] and
    exhibit what the engine does in the corners its comments speak about. *)

From S2P Require Import Prelude RingBuffer Inbox Pid Middleware Opts Registry EventStream.
From S2P Require Import World Engine Accounting Teardown Scheduling Settled Futures Lifecycle WellFormed Progress.

#[local] Open Scope nat_scope.

Notation uprog := (prog nat nat nat nat).
Notation uworld := (world nat nat nat nat).

Definition react (f : msg nat -> uprog) : uprog :=
  Call C_Message (fun v => match v with VMsg m => f m | _ => Ret end).

Definition do (o : api nat nat nat) : uprog := Call o (fun _ => Ret).

(** The [Receive] methods, by the number of their Producer, of the receiver at
    the pointer [r]. *)
Definition receivers (n r : nat) : uprog :=
  match n with
  | 1 => react (fun m => match m with Initialized => Panic | _ => Ret end)
  | 2 => react (fun m => match m with Stopped => Panic | _ => Ret end)
  | 3 => react (fun m => match m with User 1 => Panic | _ => Ret end)
  | 4 => (* the first Initialized panics: the child spawned there is number 1 *)
      react (fun m => match m with
        | Initialized => Call (C_SpawnChild 0 "w" [])
            (fun v => match v with
               | VPid (Some p) => if String.eqb (shortName (ID p)) "1" then Panic else Ret
               | _ => Ret end)
        | _ => Ret end)
  | 5 => (* a child spawned in Initialized *)
      react (fun m => match m with Initialized => do (C_SpawnChild 0 "w" []) | _ => Ret end)
  | 6 => (* a child spawned in Started; panics on 1 *)
      react (fun m => match m with
        | Started => do (C_SpawnChild 0 "w" [])
        | User 1 => Panic
        | _ => Ret end)
  | 7 => (* answers, counts *)
      react (fun m => match m with User n => Get r (fun s => Put r (s + n)%nat (do (C_Respond (User s)))) | _ => Ret end)
  | 8 => (* stops its parent and waits for it *)
      react (fun m => match m with
        | User _ => Call C_Parent (fun v => match v with
            | VPid p => Call (E_Poison p) (fun v => match v with VCtx c => do (Wait c) | _ => Ret end)
            | _ => Ret end)
        | _ => Ret end)
  | 9 => (* has a child that does *)
      react (fun m => match m with Started => do (C_SpawnChild 8 "w" []) | _ => Ret end)
  | 10 => (* answers with a message of the lifecycle *)
      react (fun m => match m with User _ => do (C_Respond Started) | _ => Ret end)
  | 11 => (* a child spawned in Started; looked up in Initialized; panics on 1 *)
      react (fun m => match m with
        | Started => do (C_SpawnChild 0 "w" [])
        | Initialized => Call (C_Child "1")
            (fun v => match v with VPid (Some p) => do (C_Send (Some p) (User 9)) | _ => Ret end)
        | User 1 => Panic
        | _ => Ret end)
  | _ => Ret
  end.

#[export] Instance demo_code : UserCode nat nat nat nat := {
  u_init := fun _ => 0%nat;
  u_receive := receivers;
  u_wrap := fun _ h => h;
}.

Implicit Types (w : uworld).

Definition w0 : uworld := NewEngine NewEngineConfig 0 0.

(** Let goroutine [g] run until it is done or blocked. *)
Fixpoint drive (fuel g : nat) (w : uworld) : list (@act nat nat nat nat) * uworld :=
  match fuel with
  | O => ([], w)
  | S fuel =>
      match step (A_step g 0) w with
      | Some w' => let r := drive fuel g w' in (A_step g 0 :: r.1, r.2)
      | None => ([], w)
      end
  end.

Fixpoint drive_all (fuel g : nat) (w : uworld) : list (@act nat nat nat nat) * uworld :=
  match fuel with
  | O => ([], w)
  | S fuel =>
      if length (w_goroutines w) <=? g then ([], w)
      else let r := drive 400 g w in let r' := drive_all fuel (S g) r.2 in (r.1 ++ r'.1, r'.2)
  end.

(** A schedule: start outside code, run a goroutine to its end or for a number
    of steps, give it one step with the second case of its [select], or give
    every goroutine its turn, in order of creation. *)
Inductive sched := Go (u : uprog) | Run (g : nat) | Steps (g n : nat) | Other (g : nat) | All.

Definition play1 (s : sched) (w : uworld) : list (@act nat nat nat nat) * uworld :=
  match s with
  | Go u => ([A_go u], default w (step (A_go u) w))
  | Run g => drive 400 g w
  | Steps g n => drive n g w
  | Other g => ([A_step g 1], default w (step (A_step g 1) w))
  | All => drive_all 100 0 w
  end.

Fixpoint play (l : list sched) (w : uworld) : list (@act nat nat nat nat) * uworld :=
  match l with
  | [] => ([], w)
  | s :: l => let r := play1 s w in let r' := play l r.2 in (r.1 ++ r'.1, r'.2)
  end.

Definition acts_of (l : list sched) : list (@act nat nat nat nat) := (play (Run 0 :: l) w0).1.
Definition after (l : list sched) : uworld := default w0 (run step (acts_of l) w0).

(** Spawn receiver [n] under [a/x]. *)
Definition spawn_ax (n : nat) (opts : list option_spec) : uprog :=
  do (E_Spawn n "a" (Opts.O_ID "x" :: opts)).
Definition ax : option PID := Some (NewPID "local" "a/x").

(** What process [i] was handed, in order. *)
Definition history (i : nat) (w : uworld) : list (bool * msg nat) :=
  omap (fun d => if decide (d_proc d = i) then Some (d_lifecycle d, Msg (d_env d)) else None) (w_log w).

Definition stacks (w : uworld) : list nat := map length (w_goroutines w).

(** ** The theorems of [Settled] at concrete runs *)

(** An actor is spawned, sent a message, and poisoned twice. *)
Definition life_run : list sched :=
  [Go (spawn_ax 7 []); Run 1; Go (do (E_Send ax (User 5))); Go (do (E_Poison ax));
   Go (do (E_Poison ax)); Run 3; Run 4; Run 5; All; All].

Lemma after_reaches l w : run step (acts_of l) w0 = Some w -> engine_reaches NewEngineConfig 0 0 w.
Proof. intros H. by exists (acts_of l). Qed.

Lemma life_reaches : engine_reaches NewEngineConfig 0 0 (after life_run).
Proof. apply (after_reaches life_run). vm_compute. reflexivity. Defined.

(** Stacks that are all empty, decided. *)
Lemma settled_check w : forallb (fun st => match st with [] => true | _ => false end) (w_goroutines w) = true ->
  settled w.
Proof.
  intros H g st Hg. rewrite forallb_forall in H.
  assert (In st (w_goroutines w)) as Hin by (apply list_elem_of_In; by eapply list_elem_of_lookup_2).
  specialize (H _ Hin). by destruct st.
Qed.

Lemma stopped_at_most_once_witness :
  history 1 (after life_run) =
    [(true, Initialized); (true, Started); (false, User 5); (true, Stopped)] /\
  stops 1 (after life_run) = 1 /\ stops 1 (after life_run) <= 1.
Proof.
  split; [vm_compute; reflexivity|]. split; [vm_compute; reflexivity|].
  apply (stopped_at_most_once NewEngineConfig 0 0 (after life_run) 1). exact life_reaches.
Defined.

(** The first pill is registered but not reached yet. *)
Definition pill_run : list sched := take 7 life_run.

Lemma waiter_never_lost_witness :
  w_ctxs (after pill_run) = 1 /\ 0 ∉ w_cancelled (after pill_run) /\
  (1 <= total (holds 0) (after pill_run) \/
   exists i p, w_procs (after pill_run) !! i = Some p /\ p_stopped p = false /\ 0 ∈ p_cancels p).
Proof.
  assert (0 ∉ w_cancelled (after pill_run)) as Hn by (refine (bool_decide_unpack _ _); vm_compute; exact I).
  split; [vm_compute; reflexivity|]. split; [exact Hn|].
  apply (waiter_never_lost NewEngineConfig 0 0 (after pill_run) 0).
  - apply (after_reaches pill_run). vm_compute. reflexivity.
  - apply Nat.ltb_lt. vm_compute. reflexivity.
  - exact Hn.
Defined.

Lemma settled_waiters_released_witness :
  w_ctxs (after life_run) = 2 /\ 0 ∈ w_cancelled (after life_run) /\ 1 ∈ w_cancelled (after life_run).
Proof.
  assert (settled (after life_run)) as Hs by (apply settled_check; vm_compute; reflexivity).
  split; [vm_compute; reflexivity|].
  split; apply (settled_waiters_released NewEngineConfig 0 0 (after life_run)); try exact life_reaches; try exact Hs;
    apply Nat.ltb_lt; vm_compute; reflexivity.
Defined.

Lemma settled_mailboxes_empty_witness :
  exists p, w_procs (after (take 3 life_run ++ [All; All])) !! 1 = Some p /\ p_queue p = [] /\
    history 1 (after (take 3 life_run ++ [All; All])) =
      [(true, Initialized); (true, Started); (false, User 5)].
Proof.
  destruct (w_procs (after (take 3 life_run ++ [All; All])) !! 1) as [p|] eqn:Hp;
    [|vm_compute in Hp; discriminate Hp].
  exists p. split; [reflexivity|]. split; [|vm_compute; reflexivity].
  apply (settled_mailboxes_empty NewEngineConfig 0 0 (after (take 3 life_run ++ [All; All])) 1 p).
  - apply (after_reaches (take 3 life_run ++ [All; All])). vm_compute. reflexivity.
  - apply settled_check. vm_compute. reflexivity.
  - exact Hp.
  - vm_compute in Hp. injection Hp as <-. reflexivity.
Defined.

(** The processor of the actor is inside [Receive]. *)
Lemma one_consumer_per_process_witness :
  total (owns 1) (after (take 3 life_run ++ [Run 3; Steps 4 4])) = 1 /\
  total (owns 1) (after (take 3 life_run ++ [Run 3; Steps 4 4])) <= 1.
Proof.
  split; [vm_compute; reflexivity|]. apply (one_consumer_per_process NewEngineConfig 0 0).
  apply (after_reaches (take 3 life_run ++ [Run 3; Steps 4 4])). vm_compute. reflexivity.
Defined.

(** A second message panics the actor again: one restart, then it gives up. *)
Definition panic_run : list sched :=
  [Go (spawn_ax 3 [O_MaxRestarts 1]); Run 1; Go (do (E_Send ax (User 1))); All; All;
   Go (do (E_Send ax (User 1))); All; All].

Lemma restart_budget_witness :
  history 1 (after panic_run) =
    [(true, Initialized); (true, Started); (false, User 1); (true, Initialized); (true, Started);
     (false, User 1); (true, Stopped)] /\
  exists p, w_procs (after panic_run) !! 1 = Some p /\
    (Z.of_nat (inits 1 (w_log (after panic_run))) <= 1 + Z.max 0 (MaxRestarts (p_opts p)))%Z.
Proof.
  split; [vm_compute; reflexivity|].
  destruct (w_procs (after panic_run) !! 1) as [p|] eqn:Hp; [|vm_compute in Hp; discriminate Hp].
  exists p. split; [reflexivity|]. apply (restart_budget NewEngineConfig 0 0).
  - apply (after_reaches panic_run). vm_compute. reflexivity.
  - vm_compute. reflexivity.
  - exact Hp.
Defined.

Lemma initialized_first_witness :
  exists env rest, deliveries 1 (w_log (after life_run)) = MkDelivery 1 true env :: rest /\ Msg env = Initialized.
Proof.
  destruct (initialized_first NewEngineConfig 0 0 (after life_run) 1 life_reaches) as [(H & _)|H]; [|exact H].
  vm_compute in H. discriminate H.
Defined.

(** Outside code waits for an actor that has not handled its pill yet. *)
Definition wait_run : list sched :=
  [Go (spawn_ax 0 []); Run 1;
   Go (Call (E_Poison ax) (fun v => match v with VCtx c => do (Wait c) | _ => Ret end)); Run 3;
   Go (do (E_BroadcastEvent (User 3)))].

Definition broadcast_held : list sched := wait_run ++ [Steps 5 1].

Lemma engine_never_stuck_witness :
  exists ins st, w_goroutines (after broadcast_held) !! 3 = Some (ins :: st) /\
    waits (after broadcast_held) ins.
Proof.
  destruct (w_goroutines (after broadcast_held) !! 3) as [[|ins st]|] eqn:Hg;
    [vm_compute in Hg; discriminate Hg| |vm_compute in Hg; discriminate Hg].
  exists ins, st. split; [reflexivity|].
  apply (engine_never_stuck NewEngineConfig 0 0 (after broadcast_held) 3 0 ins st).
  - apply (after_reaches broadcast_held). vm_compute. reflexivity.
  - exact Hg.
  - vm_compute in Hg. injection Hg as <- <-. vm_compute. reflexivity.
Defined.

(** ** Corners *)

(** A run from [NewEngine], and what became of process 1. *)
Definition runs_to (l : list sched) (w : uworld) : Prop := run step (acts_of l) w0 = Some w /\ settled w.

Lemma runs_to_after l :
  forallb (fun st => match st with [] => true | _ => false end) (w_goroutines (after l)) = true ->
  run step (acts_of l) w0 = Some (after l) -> runs_to l (after l).
Proof. intros Hs Hr. split; [done|by apply settled_check]. Qed.

Ltac play_out l :=
  exists l, (after l); split; [apply runs_to_after; vm_compute; reflexivity|vm_compute; tauto].

(** An actor that panics in Initialized with restarts disabled is shut down
    inside [Start], which then goes on: the stopped process is registered again
    and Started is delivered after Stopped; it stays addressable for ever,
    with an inbox that delivers nothing. *)
Theorem failed_init_leaves_zombie :
  exists l w, runs_to l w /\
    history 1 w = [(true, Initialized); (true, Stopped); (true, Started)] /\
    pget p_stopped false 1 (w_procs w) = true /\
    option_map h_num (getByID "a/x" (w_registry w)) = Some 1.
Proof. play_out [Go (spawn_ax 1 [O_MaxRestarts 0]); All; All]. Qed.

(** An actor that panics in its first Initialized and is restarted gets
    Started twice in the new incarnation: the outer [Start] goes on after the
    nested one. *)
Theorem restart_in_init_starts_twice :
  exists l w, runs_to l w /\
    history 1 w = [(true, Initialized); (true, Initialized); (true, Started); (true, Started)].
Proof. play_out [Go (spawn_ax 4 []); All; All]. Qed.

(** Stopped is not the last message: when a panic exhausts the restarts in
    the middle of a batch, the rest of the batch is still delivered. *)
Theorem delivery_after_stopped :
  exists l w, runs_to l w /\
    history 1 w = [(true, Initialized); (true, Started); (false, User 1); (true, Stopped); (false, User 2)].
Proof.
  play_out [Go (spawn_ax 3 [O_MaxRestarts 0]); Run 1; Go (do (E_Send ax (User 1)));
            Go (do (E_Send ax (User 2))); All; All].
Qed.

(** A panic while handling Stopped restarts the actor in the middle of its
    teardown: a new incarnation gets Initialized and Started after Stopped, and
    never a Stopped of its own. *)
Theorem panic_in_stopped_restarts :
  exists l w, runs_to l w /\
    history 1 w = [(true, Initialized); (true, Started); (true, Stopped); (true, Initialized); (true, Started)] /\
    stops 1 w = 1 /\ getByID "a/x" (w_registry w) = None.
Proof. play_out [Go (spawn_ax 2 []); Run 1; Go (do (E_Poison ax)); All; All]. Qed.

(** An actor that never panics can be told Started after Stopped: it is
    registered before its spawner delivers Started, and a pill is faster. *)
Theorem started_after_stopped :
  exists l w, runs_to l w /\
    history 1 w = [(true, Initialized); (false, User 1); (true, Stopped); (true, Started)] /\
    getByID "a/x" (w_registry w) = None.
Proof.
  play_out [Go (spawn_ax 0 []); Steps 1 14; Go (do (E_Send ax (User 1))); Go (do (E_Poison ax));
            Run 2; Run 3; Run 4; Run 5; All; All].
Qed.

(** C35: [Receive] can run on two goroutines at once: while the spawner delivers
    Started, the actor is registered and its processor delivers a user message
    sent to it. *)
Theorem started_races_with_messages :
  exists l w g1 g2 u1 u2 st1 st2,
    run step (acts_of l) w0 = Some w /\ g1 <> g2 /\
    w_goroutines w !! g1 = Some (I_user (Some 1) u1 :: st1) /\
    w_goroutines w !! g2 = Some (I_user (Some 1) u2 :: st2) /\
    history 1 w = [(true, Initialized); (true, Started); (false, User 5)].
Proof.
  exists [Go (spawn_ax 7 []); Steps 1 16; Go (do (E_Send ax (User 5))); Run 3; Steps 4 4].
  eexists _, 1, 4, _, _, _, _. split; [vm_compute; reflexivity|].
  split; [discriminate|]. split_and!; vm_compute; reflexivity.
Qed.

(** A child spawned while handling Initialized is not recorded by its
    parent, which is not registered yet: poisoning the parent leaves the child
    running. *)
Theorem child_of_init_outlives_parent :
  exists l w, runs_to l w /\
    getByID "a/x" (w_registry w) = None /\
    pget p_stopped false 1 (w_procs w) = true /\
    option_map h_num (getByID "a/x/w/1" (w_registry w)) = Some 2 /\
    pget p_stopped true 2 (w_procs w) = false.
Proof. play_out [Go (spawn_ax 5 []); Run 1; Go (do (E_Poison ax)); All; All]. Qed.

(** An actor that gives up after a panic does not stop its children; only
    a pill does. *)
Theorem giving_up_leaves_children :
  exists l w, runs_to l w /\
    pget p_stopped false 1 (w_procs w) = true /\
    option_map h_num (getByID "a/x/w/1" (w_registry w)) = Some 2 /\
    pget p_stopped true 2 (w_procs w) = false.
Proof.
  play_out [Go (spawn_ax 6 [O_MaxRestarts 0]); Run 1; Go (do (E_Send ax (User 1))); All; All].
Qed.

(** [Child] can find a child during Initialized: a restart keeps the children of
    the process, so the new receiver is told Initialized with its children there. *)
Theorem child_found_while_initializing :
  exists l w, runs_to l w /\
    history 1 w = [(true, Initialized); (true, Started); (false, User 1); (true, Initialized); (true, Started)] /\
    history 2 w = [(true, Initialized); (true, Started); (false, User 9)].
Proof. play_out [Go (spawn_ax 11 []); Run 1; Go (do (E_Send ax (User 1))); All; All; All]. Qed.

(** Two spawns of one explicit ID that overlap both pass the lookup: both
    actors are started, one of them is never reachable, and neither spawn
    reports it. *)
Theorem duplicate_spawn_orphans :
  exists l w, runs_to l w /\
    history 1 w = [(true, Initialized); (true, Started)] /\
    history 2 w = [(true, Initialized); (true, Started)] /\
    option_map h_num (getByID "a/x" (w_registry w)) = Some 1.
Proof. play_out [Go (spawn_ax 0 []); Go (spawn_ax 0 []); Steps 1 2; Steps 2 2; All; All]. Qed.

(** A Processer of the user's own registered with [SpawnProc] is addressable
    but unreachable: a message to it is dropped without a dead letter, and
    [Poison] reports it gone while it stays registered. *)
Theorem custom_processer_unreachable :
  exists l w, runs_to l w /\
    option_map h_custom (getByID "c" (w_registry w)) = Some true /\
    history 0 w = [(true, Initialized); (true, Started)] /\
    0 ∈ w_cancelled w.
Proof.
  exists [Go (do (E_SpawnProc 7 (NewPID "local" "c"))); Run 1;
          Go (do (E_Send (Some (NewPID "local" "c")) (User 1)));
          Go (do (E_Poison (Some (NewPID "local" "c")))); All; All].
  eexists. split; [apply runs_to_after; vm_compute; reflexivity|].
  split; [vm_compute; reflexivity|]. split; [vm_compute; reflexivity|].
  refine (bool_decide_unpack _ _). vm_compute. exact I.
Qed.

(** The cascade of a shutdown can deadlock: a child that poisons its parent
    and waits for it inside [Receive] never gets to the pill the parent sends
    it, and the parent waits for the child: nothing can move any more. *)
Theorem cascade_can_deadlock :
  exists l w, run step (acts_of l) w0 = Some w /\
    (forall g pick, step (A_step g pick) w = None) /\ ~ settled w /\
    option_map h_num (getByID "a/x" (w_registry w)) = Some 1.
Proof.
  exists [Go (spawn_ax 9 []); Run 1; Go (do (E_Send (Some (NewPID "local" "a/x/w/1")) (User 1))); All; All; All; All].
  eexists. split; [vm_compute; reflexivity|]. split.
  - intros g pick. do 16 (destruct g as [|g]; [vm_compute; reflexivity|]). reflexivity.
  - split; [|vm_compute; reflexivity]. intros H.
    assert (Hx := H 5 _ eq_refl). discriminate Hx.
Qed.

(** ** The corners, put together *)

(** C36: a panic in Initialized is not contained by [Start]: with restarts
    disabled the actor is stopped, then registered again and started, and stays
    addressable with an inbox that delivers nothing; with a restart left the new
    incarnation is started twice. *)
Theorem init_panic_is_not_contained :
  (exists l w, runs_to l w /\
    history 1 w = [(true, Initialized); (true, Stopped); (true, Started)] /\
    pget p_stopped false 1 (w_procs w) = true /\
    option_map h_num (getByID "a/x" (w_registry w)) = Some 1) /\
  (exists l w, runs_to l w /\
    history 1 w = [(true, Initialized); (true, Initialized); (true, Started); (true, Started)]).
Proof. split; [apply failed_init_leaves_zombie|apply restart_in_init_starts_twice]. Qed.

(** C37: Stopped is not the last message of an actor: the rest of the batch in
    which a panic exhausted the restarts is delivered after it, a panic while
    handling it starts a new incarnation that never gets a Stopped of its own, and
    Started can be late by a whole life. *)
Theorem stopped_is_not_last :
  (exists l w, runs_to l w /\
    history 1 w =
      [(true, Initialized); (true, Started); (false, User 1); (true, Stopped); (false, User 2)]) /\
  (exists l w, runs_to l w /\
    history 1 w =
      [(true, Initialized); (true, Started); (true, Stopped); (true, Initialized); (true, Started)] /\
    stops 1 w = 1 /\ getByID "a/x" (w_registry w) = None) /\
  (exists l w, runs_to l w /\
    history 1 w = [(true, Initialized); (false, User 1); (true, Stopped); (true, Started)] /\
    getByID "a/x" (w_registry w) = None).
Proof. split_and!; [apply delivery_after_stopped|apply panic_in_stopped_restarts|apply started_after_stopped]. Qed.

(** C38: children can outlive their parents: a child spawned while the parent
    handled Initialized is not in the parent's child set, so the cascade of a
    pill misses it, and an actor that gives up after a panic runs no cascade. *)
Theorem children_outlive_parents :
  (exists l w, runs_to l w /\
    getByID "a/x" (w_registry w) = None /\
    pget p_stopped false 1 (w_procs w) = true /\
    option_map h_num (getByID "a/x/w/1" (w_registry w)) = Some 2 /\
    pget p_stopped true 2 (w_procs w) = false) /\
  (exists l w, runs_to l w /\
    pget p_stopped false 1 (w_procs w) = true /\
    option_map h_num (getByID "a/x/w/1" (w_registry w)) = Some 2 /\
    pget p_stopped true 2 (w_procs w) = false).
Proof. split; [apply child_of_init_outlives_parent|apply giving_up_leaves_children]. Qed.
