(* ===== verification/Executions.v ===== *)
(** * Requests, scheduled sends, mailboxes and children, run

    Concrete executions with the user code of [Scenarios]: they instantiate the
    theorems of [Futures], [Replies], [Mailbox], [Inboxes], [Contract], [Released],
    [Calls] and [Children], and show more of the corners. *)

From S2P Require Import Prelude RingBuffer Inbox Pid Middleware Opts Registry EventStream.
From S2P Require Import World Engine Accounting Teardown Scheduling Settled Futures Lifecycle WellFormed Progress.
From S2P Require Import Replies Mailbox Inboxes Calm Contract Pills Released Calls Children Scenarios.

#[local] Open Scope nat_scope.

(** The actions of a schedule that goes on from [w], and where they lead. *)
Definition acts_from (l : list sched) (w : uworld) : list (@act nat nat nat nat) := (play l w).1.
Definition later (l : list sched) (w : uworld) : uworld := default w (run step (acts_from l w) w).

Lemma later_reachable l w w' : run step (acts_from l w) w = Some w' -> reachable step w w'.
Proof. intros H. by exists (acts_from l w). Qed.

(** ** A request that is answered *)

(** The actor answers 0; nobody has looked at the answer yet. *)
Definition asked : list sched := [Go (spawn_ax 7 []); Run 1; Go (do (E_Request ax (User 5))); Run 3; All].
Definition answered : list sched := asked ++ [All; All].
Definition responder_pid : PID := NewPID "local" "response/1".
Definition first_response : response nat := MkResponse responder_pid 0 (User 0) false true.

Lemma answered_reaches : engine_reaches NewEngineConfig 0 0 (after answered).
Proof. apply (after_reaches answered). vm_compute. reflexivity. Defined.

(** A second answer comes too late. *)
Definition too_late : list sched := [Go (do (E_Send (Some responder_pid) (User 9))); All].

Lemma response_resolved_once_witness :
  history 2 (after answered) = [(true, Initialized); (true, Started); (false, User 0); (true, Stopped)] /\
  w_responses (later too_late (after answered)) !! 0 = Some first_response.
Proof.
  split; [vm_compute; reflexivity|].
  apply (response_resolved_once NewEngineConfig 0 0 (after answered) (later too_late (after answered)) 0 first_response).
  - exact answered_reaches.
  - vm_compute. reflexivity.
  - reflexivity.
  - apply (later_reachable too_late). vm_compute. reflexivity.
Defined.

Lemma reply_was_delivered_witness :
  exists i p d, w_procs (after answered) !! i = Some p /\ Producer (p_opts p) = P_response 0 /\
    d ∈ w_log (after answered) /\ d_proc d = i /\ Msg (d_env d) = User 0 /\
    (forall j q, w_procs (after answered) !! j = Some q -> Producer (p_opts q) = P_response 0 -> j = i) /\
    (forall n r, w_responses (after answered) !! n = Some r -> r_replyCh r = 0%nat -> n = 0%nat).
Proof.
  apply (reply_was_delivered NewEngineConfig 0 0 (after answered) 0 first_response).
  - exact answered_reaches.
  - vm_compute. reflexivity.
  - reflexivity.
  - reflexivity.
Defined.

Lemma settled_futures_resolved_witness :
  (forall n r, w_responses (after answered) !! n = Some r -> r_done r = true) /\
  (forall n r, w_repeaters (after answered) !! n = Some r -> s_done r = true).
Proof.
  apply (settled_futures_resolved NewEngineConfig 0 0 (after answered) answered_reaches).
  apply settled_check. vm_compute. reflexivity.
Defined.

(** ** A repeater that ticks twice and is stopped *)

Definition ticking_run : list sched :=
  [Go (spawn_ax 0 []); Run 1; Go (do (E_SendRepeat ax (User 1) 10)); Run 3; Steps 5 8].
(** The goroutine of [Stop] waits; the scheduler has not seen it yet. *)
Definition stopping_run : list sched := ticking_run ++ [Go (do (S_Stop (Some 0))); Run 6].
Definition stopped_run : list sched := stopping_run ++ [Other 5; Run 5; Run 6].

Lemma repeater_done_is_final_witness :
  let w := after stopped_run in
  let w' := later [Go (do (S_Stop (Some 0))); All] w in
  w_repeaters w !! 0 = Some (MkRepeater true true true 3) /\ sent 0 w' = 3 /\
  history 1 w' = [(true, Initialized); (true, Started); (false, User 1); (false, User 1); (false, User 1)].
Proof.
  intros w w'. split; [vm_compute; reflexivity|]. split; [|vm_compute; reflexivity].
  apply (repeater_done_is_final NewEngineConfig 0 0 w w' 0 (MkRepeater true true true 3)).
  - apply (after_reaches stopped_run). vm_compute. reflexivity.
  - vm_compute. reflexivity.
  - reflexivity.
  - apply (later_reachable [Go (do (S_Stop (Some 0))); All]). vm_compute. reflexivity.
Defined.

Lemma stop_can_be_obeyed_witness :
  exists g st, w_goroutines (after stopping_run) !! g = Some st /\ 1 <= sum_list_with (scheduling 0) st.
Proof.
  destruct (stop_can_be_obeyed NewEngineConfig 0 0 (after stopping_run) 0 (MkRepeater true false true 3))
    as (g & st & Hg & Hs & _).
  - apply (after_reaches stopping_run). vm_compute. reflexivity.
  - vm_compute. reflexivity.
  - reflexivity.
  - reflexivity.
  - exists g, st. split; [exact Hg|exact Hs].
Defined.

(** An interval of zero: one send, and a repeater that is done. *)
Definition before_zero : list sched := [Go (spawn_ax 0 []); Run 1; Go (do (E_SendRepeat ax (User 1) 0))].

Lemma single_shot_sends_once_witness :
  let w := after before_zero in
  let w1 := default w (step (A_step 3 0) w) in
  let w2 := later [All; All] w1 in
  w_repeaters w2 = [MkRepeater false true false 1] /\ 1 <= sent 0 w2 + total (sending 0) w2 <= 1.
Proof.
  intros w w1 w2. split; [vm_compute; reflexivity|].
  apply (single_shot_sends_once NewEngineConfig 0 0 w w1 w2 1 None (E_SendRepeat ax (User 1) 0) (fun _ => Ret) 3 0 []).
  - apply (after_reaches before_zero). vm_compute. reflexivity.
  - reflexivity.
  - vm_compute. reflexivity.
  - vm_compute. reflexivity.
  - apply (later_reachable [All; All]). vm_compute. reflexivity.
Defined.

(** ** Mailboxes, calls, children *)

(** The last step hands the first of two messages to [Receive]. *)
Definition two_sends : list sched :=
  [Go (spawn_ax 0 []); Run 1; Go (do (E_Send ax (User 1))); Run 3; Go (do (E_Send ax (User 2))); Run 5; Steps 4 3].

Lemma mailbox_refines_fifo_witness :
  let w := after two_sends in
  let w' := default w (step (A_step 4 0) w) in
  mailbox 1 w = [MkEnv (User 1) None; MkEnv (User 2) None] /\ received 1 w' = [MkEnv (User 1) None] /\
  mb_step (accepts 1 (A_step 4 0) w) (abstract_mb 1 w) (abstract_mb 1 w').
Proof.
  intros w w'. split; [vm_compute; reflexivity|]. split; [vm_compute; reflexivity|].
  apply (mailbox_refines_fifo NewEngineConfig 0 0 w 1 (A_step 4 0) w').
  - apply (after_reaches two_sends). vm_compute. reflexivity.
  - vm_compute. reflexivity.
Defined.

Lemma deliveries_in_order_witness :
  let w := after two_sends in
  accepted 1 (acts_of two_sends) w0 = [MkEnv (User 1) None; MkEnv (User 2) None] /\
  received 1 w ++ mailbox 1 w `sublist_of` accepted 1 (acts_of two_sends) w0.
Proof.
  intros w. split; [vm_compute; reflexivity|].
  apply (deliveries_in_order NewEngineConfig 0 0 (acts_of two_sends) w 1). vm_compute. reflexivity.
Defined.

(** The queue is a ring buffer, of the size the code starts with. *)
#[local] Instance env_queue : Queue (RingBuffer (Envelope nat)) (Envelope nat) := ring_queue (MkEnv NilMsg None).

Lemma engine_runs_inbox_witness :
  exists iacts s, inbox_run (Q:=RingBuffer (Envelope nat)) 1024 iacts = Ok (Some s) /\
    i_sent s = [MkEnv (User 1) None; MkEnv (User 2) None] /\
    q_abs (in_rb (i_in s)) = [] /\ in_procStatus (i_in s) = stateRunning /\
    active (i_threads s) ≡ₚ [R_invoking].
Proof.
  assert (accepted 1 (acts_of two_sends) w0 = [MkEnv (User 1) None; MkEnv (User 2) None]) as Ea
    by (vm_compute; reflexivity).
  assert (queue 1 (after two_sends) = []) as Eq by (vm_compute; reflexivity).
  assert (status 1 (after two_sends) = stateRunning) as Es by (vm_compute; reflexivity).
  assert (threads_of 1 (after two_sends) = [R_invoking]) as Et by (vm_compute; reflexivity).
  assert (run step (acts_of two_sends) w0 = Some (after two_sends)) as Er by (vm_compute; reflexivity).
  rewrite <- Ea, <- Eq, <- Es, <- Et.
  apply (engine_runs_inbox NewEngineConfig 0 0 (acts_of two_sends) (after two_sends) 1 1024 Er).
  - change (NewEngine NewEngineConfig 0 0) with w0. rewrite Ea. discriminate.
  - split; [discriminate|reflexivity].
Defined.

(** ** A well-behaved actor, sent two messages, poisoned, and sent one more *)

Definition graceful_run : list sched :=
  [Go (spawn_ax 7 []); Run 1; Go (do (E_Send ax (User 1))); Go (do (E_Send ax (User 2)));
   Go (do (E_Poison ax)); Go (do (E_Send ax (User 3))); Run 3; Run 4; Run 5; Run 6; Run 7; All; All].

Definition actor_1 : process nat nat nat nat :=
  default (MkProcess (DefaultOpts (P_user 0)) (NewPID "" "") [] 0 false NilMsg None None None false [] 0 ∅)
    (w_procs (after graceful_run) !! 1).

Lemma actor_1_found : w_procs (after graceful_run) !! 1 = Some actor_1.
Proof.
  unfold actor_1. destruct (w_procs (after graceful_run) !! 1) as [p|] eqn:E; [reflexivity|].
  vm_compute in E. discriminate E.
Defined.

Lemma graceful_accepted :
  accepted 1 (acts_of graceful_run) w0 =
    [MkEnv (User 1) None; MkEnv (User 2) None; MkEnv (poisonPill 0) None; MkEnv (User 3) None].
Proof. vm_compute. reflexivity. Qed.

Lemma actor_1_calm : calm_proc actor_1.
Proof.
  intros x. change (calm (receivers 7 x)). simpl. intros [| [] | | | | | | ]; simpl; auto.
Qed.
Lemma graceful_reaches : run step (acts_of graceful_run) w0 = Some (after graceful_run).
Proof. vm_compute. reflexivity. Qed.

Lemma lifecycle_contract_witness :
  history 1 (after graceful_run) =
    [(true, Initialized); (true, Started); (false, User 1); (false, User 2); (true, Stopped)] /\
  exists env tl, Msg env = Initialized /\
    story 1 (w_log (after graceful_run)) =
      MkDelivery 1 true env :: map (MkDelivery 1 false) (received 1 (after graceful_run)) ++ tl /\
    (tl = [] \/ exists env', Msg env' = Stopped /\ tl = [MkDelivery 1 true env'] /\
      received 1 (after graceful_run) = before_pill (accepted 1 (acts_of graceful_run) w0)).
Proof.
  split; [vm_compute; reflexivity|].
  destruct (lifecycle_contract NewEngineConfig 0 0 (acts_of graceful_run) (after graceful_run) 1 actor_1
    graceful_reaches actor_1_found actor_1_calm) as (_ & _ & [H|H]); [|exact H].
  vm_compute in H. discriminate H.
Defined.

Lemma graceful_stop_witness :
  received 1 (after graceful_run) = [MkEnv (User 1) None; MkEnv (User 2) None] /\ stops 1 (after graceful_run) = 1.
Proof.
  destruct (graceful_stop NewEngineConfig 0 0 (acts_of graceful_run) (after graceful_run) 1 actor_1
    graceful_reaches actor_1_found actor_1_calm) as [Hr Hs].
  - apply settled_check. vm_compute. reflexivity.
  - fold w0 in Hr, Hs. rewrite graceful_accepted in Hr, Hs. split; [exact Hr|exact Hs].
Defined.

(** The receivers of [Scenarios] send no pills, and neither do the schedules. *)
#[export] Instance demo_honest : Honest nat nat nat nat.
Proof.
  split; [|done]. intros n x. simpl. do 12 (destruct n as [|n]; [simpl; try done; repeat first
    [progress intros|split; [done|]|match goal with |- honest (match ?x with _ => _ end) => destruct x end|progress simpl|done]|]).
  done.
Qed.

Definition honest_sched (s : sched) : Prop := match s with Go u => honest u | _ => True end.

Lemma drive_honest fuel g w : Forall honest_act (drive fuel g w).1.
Proof. revert w. induction fuel as [|fuel IH]; intros w; cbn [drive]; [done|].
  destruct (step (A_step g 0) w); cbn [fst]; by repeat constructor.
Qed.

Lemma drive_all_honest fuel g w : Forall honest_act (drive_all fuel g w).1.
Proof.
  revert g w. induction fuel as [|fuel IH]; intros g w; cbn [drive_all]; [done|].
  destruct (_ <=? g); [done|]. cbn [fst]. apply Forall_app. split; [apply drive_honest|apply IH].
Qed.

Lemma play_honest l w : Forall honest_sched l -> Forall honest_act (play l w).1.
Proof.
  intros H. revert w. induction H as [|s l Hs _ IH]; intros w; cbn [play fst]; [done|].
  apply Forall_app. split; [|apply IH]. destruct s; cbn [play1 fst]; repeat constructor;
    auto using drive_honest, drive_all_honest.
Qed.

(** The pill is among the waiters, then the actor stops. *)
Definition pilled : list sched :=
  [Go (spawn_ax 7 []); Run 1; Go (do (E_Send ax (User 1))); Go (do (E_Send ax (User 2)));
   Go (do (E_Poison ax)); Go (do (E_Send ax (User 3))); Run 3; Run 4; Run 5].
Definition ended : list sched := [Run 6; Run 7; All; All].

Definition ended_1 : process nat nat nat nat :=
  default actor_1 (w_procs (later ended (after pilled)) !! 1).

Lemma poison_waits_for_the_end_witness :
  received 1 (later ended (after pilled)) = [MkEnv (User 1) None; MkEnv (User 2) None] /\
  stops 1 (later ended (after pilled)) = 1 /\ get_process ax (later ended (after pilled)) <> Some 1.
Proof.
  destruct (poison_waits_for_the_end NewEngineConfig 0 0 (acts_of pilled) (acts_from ended (after pilled)) (after pilled)
    (later ended (after pilled)) 1 ended_1 0) as (Hr & Hs & Hg & _).
  - vm_compute. reflexivity.
  - vm_compute. reflexivity.
  - apply Forall_app. split; apply play_honest; repeat constructor.
  - unfold ended_1. destruct (w_procs (later ended (after pilled)) !! 1) as [p|] eqn:E; [reflexivity|].
    vm_compute in E. discriminate E.
  - intros x. change (calm (receivers 7 x)). simpl. intros [| [] | | | | | | ]; simpl; auto.
  - assert (pget p_cancels [] 1 (w_procs (after pilled)) = [0]) as -> by (vm_compute; reflexivity). by left.
  - apply (bool_decide_eq_true _). vm_compute. reflexivity.
  - fold w0 in Hr. split; [|split; [exact Hs|apply Hg]].
    assert (accepted 1 (acts_of pilled ++ acts_from ended (after pilled)) w0 =
      [MkEnv (User 1) None; MkEnv (User 2) None; MkEnv (poisonPill 0) None; MkEnv (User 3) None]) as E
      by (vm_compute; reflexivity).
    rewrite E in Hr. exact Hr.
Defined.

(** A message to nobody, which becomes a dead letter, then a poison. *)
Lemma calls_end_witness :
  ends (RS:=nat) (Pr:=nat) (M:=nat) [I_sendMessage ax (User 5) None; I_poison ax 0; I_timer 0 ax (User 6)].
Proof. apply calls_end. repeat constructor. Defined.

Definition parent_run : list sched := [Go (spawn_ax 6 []); Run 1; All].
Definition child_pid : PID := NewPID "local" "a/x/w/1".

Lemma child_found_by_name_witness :
  exists p, w_procs (after parent_run) !! 1 = Some p /\
    child_lookup (p_pid p) "w/1" (childPIDs 7 p) = Some child_pid /\
    (exists q, child_lookup (p_pid p) "1" (childPIDs 7 p) = Some q).
Proof.
  destruct (w_procs (after parent_run) !! 1) as [p|] eqn:Hp; [|vm_compute in Hp; discriminate Hp].
  exists p. split; [reflexivity|].
  destruct (child_found_by_name NewEngineConfig 0 0 (after parent_run) 1 p child_pid "w" "1" 0 7) as [H1 H2].
  - apply (after_reaches parent_run). vm_compute. reflexivity.
  - exact Hp.
  - vm_compute in Hp. injection Hp as <-. reflexivity.
  - discriminate.
  - reflexivity.
  - vm_compute in Hp. injection Hp as <-. reflexivity.
  - split; [exact H1|]. vm_compute in Hp. injection Hp as <-. eexists. vm_compute. reflexivity.
Defined.

(** ** Corners *)

(** A Poison that arrives while the actor is being torn down is cancelled at
    once: its waiter goes on while Stopped has not been delivered and the PID
    still resolves. *)
Theorem late_poison_returns_early :
  exists l w, run step (acts_of l) w0 = Some w /\
    1 ∈ w_cancelled w /\
    history 1 w = [(true, Initialized); (true, Started)] /\
    option_map h_num (getByID "a/x" (w_registry w)) = Some 1 /\
    pget p_procStatus stateStopped 1 (w_procs w) = stateRunning.
Proof.
  exists [Go (spawn_ax 7 []); Run 1; Go (do (E_Poison ax)); Run 3; Steps 4 6; Go (do (E_Poison ax)); Run 5].
  eexists. split; [vm_compute; reflexivity|]. split; [refine (bool_decide_unpack _ _); vm_compute; exact I|].
  vm_compute. tauto.
Qed.

(** [Request] trusts the PID that [SpawnFunc] returns: when an actor already
    has the ID of the responder, that actor is taken for it, gets the reply in
    its mailbox, and is poisoned when the request times out. *)
Theorem request_poisons_namesake :
  exists l w r, runs_to l w /\
    w_responses w !! 0 = Some r /\ r_err r = true /\
    history 1 w = [(true, Initialized); (true, Started); (false, User 0); (true, Stopped)] /\
    history 2 w = [(true, Initialized); (true, Started); (false, User 5)] /\
    length (w_procs w) = 4.
Proof.
  exists [Go (do (E_Spawn 0 "response" [Opts.O_ID "1"])); Run 1; Go (spawn_ax 7 []); Run 3;
          Go (do (E_Request ax (User 5))); Run 4; Run 5; Other 6; All; All; All].
  eexists _, _. split; [apply runs_to_after; vm_compute; reflexivity|]. vm_compute. tauto.
Qed.

(** A reply whose type is one of the lifecycle messages reaches the responder,
    which ignores it: the request times out although it was answered. *)
Theorem lifecycle_reply_times_out :
  exists l w r, runs_to l w /\
    w_responses w !! 0 = Some r /\ r_err r = true /\
    history 2 w = [(true, Initialized); (true, Started); (false, Started); (true, Stopped)].
Proof.
  exists [Go (spawn_ax 10 []); Run 1; Go (do (E_Request ax (User 5))); Run 3; All; Other 5; All; All].
  eexists _, _. split; [apply runs_to_after; vm_compute; reflexivity|]. vm_compute. tauto.
Qed.

(** C39: the ID of an actor is not protected: two overlapping spawns of one ID
    both start, and one of the actors is never reachable; and [Request] takes an
    actor that already has the ID of its responder for the responder, which gets
    the reply and is poisoned when the request times out. *)
Theorem ids_are_not_protected :
  (exists l w, runs_to l w /\
    history 1 w = [(true, Initialized); (true, Started)] /\
    history 2 w = [(true, Initialized); (true, Started)] /\
    option_map h_num (getByID "a/x" (w_registry w)) = Some 1) /\
  (exists l w r, runs_to l w /\
    w_responses w !! 0 = Some r /\ r_err r = true /\
    history 1 w = [(true, Initialized); (true, Started); (false, User 0); (true, Stopped)] /\
    history 2 w = [(true, Initialized); (true, Started); (false, User 5)] /\
    length (w_procs w) = 4).
Proof. split; [apply duplicate_spawn_orphans|apply request_poisons_namesake]. Qed.

(** Some messages are lost without a trace: one for a Processer of the user's
    own is dropped without a dead letter, and the poison of that Processer reports
    it gone while it stays registered; a reply whose type is a lifecycle message
    is ignored by the responder, and the request times out. *)
Theorem messages_lost_silently :
  (exists l w, runs_to l w /\
    option_map h_custom (getByID "c" (w_registry w)) = Some true /\
    history 0 w = [(true, Initialized); (true, Started)] /\
    0 ∈ w_cancelled w) /\
  (exists l w r, runs_to l w /\
    w_responses w !! 0 = Some r /\ r_err r = true /\
    history 2 w = [(true, Initialized); (true, Started); (false, Started); (true, Stopped)]).
Proof. split; [apply custom_processer_unreachable|apply lifecycle_reply_times_out]. Qed.

(** C40: waiting for a poison is not waiting for the teardown: a second waiter is
    released while the actor still handles Stopped; and it can be waiting for
    ever: a child that poisons its parent and waits inside [Receive] blocks the
    parent's cascade, and nothing can move any more. *)
Theorem poison_waits_can_mislead :
  (exists l w, run step (acts_of l) w0 = Some w /\
    1 ∈ w_cancelled w /\
    history 1 w = [(true, Initialized); (true, Started)] /\
    option_map h_num (getByID "a/x" (w_registry w)) = Some 1 /\
    pget p_procStatus stateStopped 1 (w_procs w) = stateRunning) /\
  (exists l w, run step (acts_of l) w0 = Some w /\
    (forall g pick, step (A_step g pick) w = None) /\ ~ settled w /\
    option_map h_num (getByID "a/x" (w_registry w)) = Some 1).
Proof. split; [apply late_poison_returns_early|apply cascade_can_deadlock]. Qed.

(** A dead-letter actor of the user's own hears of a message to nobody. *)
Example custom_deadletter_hears :
  let w := NewEngine (WithDeadletter (Some 0) NewEngineConfig) 0 0 in
  let l := [Run 0; Go (do (E_Send ax (User 5))); Run 1; All] in
  exists w', run step (acts_from l w) w = Some w' /\
    history 0 w' = [(true, Initialized); (true, Started); (false, DeadLetterEvent ax (User 5) None)].
Proof. eexists. split; vm_compute; reflexivity. Qed.
