(* ===== verification/Probe.v ===== *)
(** * The test probe

    [actortest/probe.go]: an actor that records what it receives, and the
    expectations a test states on it.  [reflect.DeepEqual] and [reflect.TypeOf]
    are parameters, the failure of a test is a value.  A wait is run against a
    script: the messages that arrive, the moments the [select] takes one, and
    the timer. *)

From S2P Require Import Prelude RingBuffer Inbox Pid Middleware Opts Registry EventStream.
From S2P Require Import World Engine Accounting Settled.

(** ** The probe *)

Definition msgsCapacity : nat := 1024.

(** [received] is the history, [msgs] what the channel holds. *)
Record Probe (X : Type) := MkProbe {
  pb_pid : option PID;
  pb_timeout : Z;
  pb_received : list X;
  pb_msgs : list X;
}.
Arguments MkProbe {X}.
Arguments pb_pid {X}.
Arguments pb_timeout {X}.
Arguments pb_received {X}.
Arguments pb_msgs {X}.

(** What a call that waits ends with: a value, or [t.Fatalf]. *)
Inductive outcome (X : Type) : Type :=
  | Got (x : X)
  | Silence
  | Fatal (history : list X).
Arguments Got {X}.
Arguments Silence {X}.
Arguments Fatal {X}.

(** While a call waits. *)
Inductive event (X : Type) : Type :=
  | Arrives (x : X)     (* the actor receives *)
  | Takes               (* case msg := <-p.msgs *)
  | TimerFires.         (* case <-timer.C *)
Arguments Arrives {X}.
Arguments Takes {X}.
Arguments TimerFires {X}.

Section probe.
Context {X : Type}.
Notation Probe := (Probe X).
Implicit Types (p : Probe) (x want : X) (evs : list (event X)).

(** [NewProbe], before [Spawn]. *)
Definition NewProbe : Probe := MkProbe None (2 * 1000000000) [] [].
Definition set_pid (pid : PID) p : Probe := MkProbe (Some pid) (pb_timeout p) (pb_received p) (pb_msgs p).

(** The history is complete; the channel drops what does not fit. *)
Definition Receive x p : Probe :=
  MkProbe (pb_pid p) (pb_timeout p) (pb_received p ++ [x])
    (if (length (pb_msgs p) <? msgsCapacity)%nat then pb_msgs p ++ [x] else pb_msgs p).

Definition probe_PID p : option PID := pb_pid p.
Definition WithTimeout (d : Z) p : Probe := MkProbe (pb_pid p) d (pb_received p) (pb_msgs p).
Definition Received p : list X := pb_received p.

Definition failf p : outcome X := Fatal (Received p).

Definition set_msgs (l : list X) p : Probe := MkProbe (pb_pid p) (pb_timeout p) (pb_received p) l.

(** The loop of [Expect] and [ExpectType]; [None] is a script that ends before
    the call does, or takes from an empty channel. *)
Fixpoint expect_loop (matches : X -> bool) evs p : option (outcome X * Probe) :=
  match evs with
  | [] => None
  | Arrives x :: evs => expect_loop matches evs (Receive x p)
  | Takes :: evs =>
      match pb_msgs p with
      | [] => None
      | x :: l => if matches x then Some (Got x, set_msgs l p) else expect_loop matches evs (set_msgs l p)
      end
  | TimerFires :: _ => Some (failf p, p)
  end.

Definition Expect (DeepEqual : X -> X -> bool) want := expect_loop (fun x => DeepEqual x want).

Definition ExpectType {T : Type} `{!EqDecision T} (TypeOf : X -> T) (sample : X) :=
  expect_loop (fun x => bool_decide (TypeOf x = TypeOf sample)).

Fixpoint ExpectNoMessage evs p : option (outcome X * Probe) :=
  match evs with
  | [] => None
  | Arrives x :: evs => ExpectNoMessage evs (Receive x p)
  | Takes :: _ =>
      match pb_msgs p with
      | [] => None
      | x :: l => Some (failf (set_msgs l p), set_msgs l p)
      end
  | TimerFires :: _ => Some (Silence, p)
  end.

(** ** Lemmas *)



(** ** Properties *)


(** A full channel drops the message that the history keeps: the expectation
    runs into its timer although the actor received what it waits for. *)
Theorem full_probe_drops want (other : X) (DeepEqual : X -> X -> bool) p :
  DeepEqual other want = false -> pb_msgs p = replicate msgsCapacity other ->
  let p1 := Receive want p in
  want ∈ Received p1 /\
  Expect DeepEqual want (replicate msgsCapacity Takes ++ [TimerFires]) p1 =
    Some (Fatal (Received p1), set_msgs [] p1).
Proof.
  intros Hne Hm p1. split; [unfold p1, Received; simpl; set_solver|].
  assert (pb_msgs p1 = replicate msgsCapacity other) as Hm1.
  { unfold p1, Receive. simpl. by rewrite Hm, length_replicate, Nat.ltb_irrefl. }
  clear Hm. revert Hm1. generalize p1 as q. generalize msgsCapacity as n. unfold Expect.
  induction n as [|n IH]; intros q Hm; simpl; [by destruct q; simpl in *; rewrite Hm|].
  rewrite Hm. simpl. rewrite Hne. apply (IH (set_msgs (replicate n other) q)). done.
Qed.
End probe.

(** ** A probe in an engine *)

(** [NewProbe] hands the engine the probe itself as the receiver. *)
#[local] Instance probe_code : UserCode nat (Probe (msg nat)) unit unit := {
  u_init := fun _ => NewProbe;
  u_receive := fun _ r =>
    Call C_Message (fun v => match v with VMsg m => Get r (fun p => Put r (Receive m p) Ret) | _ => Ret end);
  u_wrap := fun _ h => h;
}.

Definition spawn_probe : prog nat (Probe (msg nat)) unit unit := Call (E_Spawn tt "probe" []) (fun _ => Ret).

(** The engine is started, then the probe is spawned. *)
Definition probe_run : list act :=
  repeat (A_step 0 0) 15 ++ A_go spawn_probe :: repeat (A_step 1 0) 32.

(** A probe is not silent when [NewProbe] returns: Initialized and Started
    have gone through its [Receive] into the channel, so [ExpectNoMessage] on a
    fresh probe fails the test whenever it looks at the channel. *)
Theorem fresh_probe_is_not_silent :
  exists w p s, run step probe_run (NewEngine NewEngineConfig 0 0) = Some w /\ w_goroutines w !! 1%nat = Some [] /\
    w_procs w !! 1%nat = Some p /\ p_receiver p = Some (P_user tt, 1%nat) /\ w_receivers w !! 1%nat = Some (Some s) /\
    pb_msgs s = [Initialized; Started] /\
    forall evs, ExpectNoMessage (Takes :: evs) s = Some (Fatal [Initialized; Started], set_msgs [Started] s).
Proof.
  eexists _, _, _. split; [vm_compute; reflexivity|]. split; [reflexivity|]. split; [reflexivity|].
  split; [reflexivity|]. split; [reflexivity|]. split; [reflexivity|]. done.
Qed.

